(** * ISPVisualMonitor-Agent: the RouterOS API client and the MikroTik collectors

    A shallow embedding of the Go sources under
    [internal/collector/mikrotik] (the wire codec, the circuit breaker,
    the login and command paths of [api.Client], the utility parsers, the
    rate tracker, the interface filter, the NAT sampler and the collectors
    of interfaces, PPPoE sessions and DHCP leases) and of the collector
    registry, the offline grace period, the MAC redaction and the
    configuration check, followed by the properties of the specification
    that are stated about them (C1 to C10) and by further properties of the
    code (X1 to X30).

    Conventions.
    - Go's [int], [int64] and [uint64] are [Z] with the wrap-around written
      out where the source computes.  [int] is 64 bits wide, as on the
      amd64 and arm64 builds of the agent; the armv7 build, where it is 32
      bits wide, is not modelled.
    - A [byte] on the wire is a [Z] in [0, 256).
    - A Go [string] is a [string], a sequence of bytes that need not be
      valid UTF-8; the functions of [strings], [unicode] and [unicode/utf8]
      that the code calls read it rune by rune as the library does.  The
      case table of [unicode.ToLower] for the runes above ASCII is a
      parameter, [lowerCase], of what depends on it.
    - A [map[string]string] is a [gmap string string].
    - A [float64] is an IEEE 754 binary64 value, a [spec_float] with the
      operations of the standard library's [SpecFloat] at precision 53.
    - Pointer receivers become explicit state passing: a method returns the
      new state next to its result. *)

From Stdlib Require Import ZArith List String Ascii Bool Lia SpecFloat.
From stdpp Require Import base option gmap strings.

Local Open Scope string_scope.
Local Open Scope Z_scope.
Import ListNotations.

(** ** Machine integers *)

Module U64.
Definition modulus : Z := 2 ^ 64.
Definition max : Z := 0xFFFFFFFFFFFFFFFF.
Definition wrap (z : Z) : Z := z mod modulus.
Definition add (a b : Z) : Z := wrap (a + b).
Definition sub (a b : Z) : Z := wrap (a - b).
Definition inRange (z : Z) : Prop := 0 <= z < modulus.
End U64.

Module I64.
Definition min : Z := - 2 ^ 63.
Definition max : Z := 2 ^ 63 - 1.
(** Two's-complement reduction of an integer to 64 signed bits. *)
Definition wrap (z : Z) : Z := (z + 2 ^ 63) mod 2 ^ 64 - 2 ^ 63.
Definition add (a b : Z) : Z := wrap (a + b).
Definition mul (a b : Z) : Z := wrap (a * b).
Definition inRange (z : Z) : Prop := min <= z <= max.
End I64.

(** ** pppoe.go (utilities): counter wraparound *)

(** [Handle32BitCounterWrap(current, previous uint64) uint64]. *)
Definition Handle32BitCounterWrap (current previous : Z) : Z :=
  if previous <=? current then U64.sub current previous
  else U64.add (U64.add (U64.sub 0xFFFFFFFF previous) current) 1.

(** [Handle64BitCounterWrap(current, previous uint64) uint64]. *)
Definition Handle64BitCounterWrap (current previous : Z) : Z :=
  if previous <=? current then U64.sub current previous
  else U64.add (U64.add (U64.sub 0xFFFFFFFFFFFFFFFF previous) current) 1.

(** What the specification says of a handler whose counter width gives the
    maximum [max]: on all [uint64] readings the delta is the plain
    difference, or [(max - previous) + current + 1] after a wrap, as
    integers (so never the residue of an underflow). *)
Definition wrap_delta_spec (handler : Z -> Z -> Z) (max : Z) : Prop :=
  forall current previous : Z,
    U64.inRange current -> U64.inRange previous ->
    (previous <= current -> handler current previous = current - previous) /\
    (current < previous ->
       handler current previous = (max - previous) + current + 1).

(** ** package api: the length codec *)

Definition byte := Z.

(** The conversion [byte(x)] of an [int]: the low eight bits. *)
Definition to_byte (x : Z) : byte := Z.land x 0xFF.

(** [EncodeLength(length int) []byte]. *)
Definition EncodeLength (length : Z) : list byte :=
  if length <? 0x80 then [to_byte length]
  else if length <? 0x4000 then
    [to_byte (Z.lor (Z.shiftr length 8) 0x80);
     to_byte (Z.land length 0xFF)]
  else if length <? 0x200000 then
    [to_byte (Z.lor (Z.shiftr length 16) 0xC0);
     to_byte (Z.land (Z.shiftr length 8) 0xFF);
     to_byte (Z.land length 0xFF)]
  else if length <? 0x10000000 then
    [to_byte (Z.lor (Z.shiftr length 24) 0xE0);
     to_byte (Z.land (Z.shiftr length 16) 0xFF);
     to_byte (Z.land (Z.shiftr length 8) 0xFF);
     to_byte (Z.land length 0xFF)]
  else
    [0xF0;
     to_byte (Z.land (Z.shiftr length 24) 0xFF);
     to_byte (Z.land (Z.shiftr length 16) 0xFF);
     to_byte (Z.land (Z.shiftr length 8) 0xFF);
     to_byte (Z.land length 0xFF)].

(** The two failures of [io.ReadFull]. *)
Inductive ioError : Type :=
  | EOF
  | ErrUnexpectedEOF.

(** An [io.Reader] over a finite input is the list of bytes still to come.
    [ReadFull r n] fills a buffer of [n] bytes: it fails with [EOF] when no
    byte could be read and with [ErrUnexpectedEOF] when the input ended
    part-way; either way the input is used up. *)
Definition ReadFull (r : list byte) (n : nat) : (list byte + ioError) * list byte :=
  if (n <=? List.length r)%nat then (inl (firstn n r), skipn n r)
  else match r with
       | [] => (inr EOF, [])
       | _ :: _ => (inr ErrUnexpectedEOF, [])
       end.

(** [binary.BigEndian.Uint32] of a four-byte buffer. *)
Definition BigEndian_Uint32 (b0 b1 b2 b3 : byte) : Z :=
  Z.lor (Z.lor (Z.lor (Z.shiftl b0 24) (Z.shiftl b1 16)) (Z.shiftl b2 8)) b3.

(** [DecodeLength(r io.Reader) (int, error)]: the decoded length, or the
    read failure, and the reader after the call. *)
Definition DecodeLength (r : list byte) : (Z + ioError) * list byte :=
  match ReadFull r 1 with
  | (inl [b], r1) =>
      if b <? 0x80 then (inl b, r1)
      else if b <? 0xC0 then
        match ReadFull r1 1 with
        | (inl [s], r2) => (inl (Z.lor (Z.shiftl (Z.land b 0x3F) 8) s), r2)
        | (inr e, r2) => (inr e, r2)
        | (inl _, r2) => (inr ErrUnexpectedEOF, r2)
        end
      else if b <? 0xE0 then
        match ReadFull r1 2 with
        | (inl [e0; e1], r2) =>
            (inl (Z.lor (Z.lor (Z.shiftl (Z.land b 0x1F) 16) (Z.shiftl e0 8)) e1), r2)
        | (inr e, r2) => (inr e, r2)
        | (inl _, r2) => (inr ErrUnexpectedEOF, r2)
        end
      else if b <? 0xF0 then
        match ReadFull r1 3 with
        | (inl [e0; e1; e2], r2) =>
            (inl (Z.lor (Z.lor (Z.lor (Z.shiftl (Z.land b 0x0F) 24) (Z.shiftl e0 16))
                               (Z.shiftl e1 8)) e2), r2)
        | (inr e, r2) => (inr e, r2)
        | (inl _, r2) => (inr ErrUnexpectedEOF, r2)
        end
      else
        match ReadFull r1 4 with
        | (inl [e0; e1; e2; e3], r2) => (inl (BigEndian_Uint32 e0 e1 e2 e3), r2)
        | (inr e, r2) => (inr e, r2)
        | (inl _, r2) => (inr ErrUnexpectedEOF, r2)
        end
  | (inr e, r1) => (inr e, r1)
  | (inl _, r1) => (inr ErrUnexpectedEOF, r1)
  end.

(** ** api/client.go: the circuit breaker *)

(** A [time.Time] is its reading in nanoseconds, and a [time.Duration] a
    number of nanoseconds.  The clock is an input: every method that calls
    [time.Now] or [time.Since] takes the current reading [now]. *)
Definition Time := Z.
Definition Duration := Z.

Definition Since (now t : Time) : Duration := now - t.

Inductive circuitState : Type :=
  | circuitClosed
  | circuitOpen
  | circuitHalfOpen.

Record circuitBreaker : Type := mkCircuitBreaker {
  failures : Z;
  maxFailures : Z;
  state : circuitState;
  lastFailure : Time;
  resetTimeout : Duration;
  halfOpenAttempts : Z
}.

(** [newCircuitBreaker]: the fields it does not name take their zero value. *)
Definition newCircuitBreaker (maxFailures : Z) (resetTimeout : Duration)
  : circuitBreaker :=
  {| failures := 0;
     maxFailures := maxFailures;
     state := circuitClosed;
     lastFailure := 0;
     resetTimeout := resetTimeout;
     halfOpenAttempts := 0 |}.

(** [(cb *circuitBreaker) canAttempt() bool]: the answer and the breaker
    after the call. *)
Definition canAttempt (now : Time) (cb : circuitBreaker) : bool * circuitBreaker :=
  match state cb with
  | circuitClosed => (true, cb)
  | circuitOpen =>
      if resetTimeout cb <? Since now (lastFailure cb) then
        (true,
         {| failures := failures cb;
            maxFailures := maxFailures cb;
            state := circuitHalfOpen;
            lastFailure := lastFailure cb;
            resetTimeout := resetTimeout cb;
            halfOpenAttempts := 0 |})
      else (false, cb)
  | circuitHalfOpen => (halfOpenAttempts cb <? 1, cb)
  end.

(** [(cb *circuitBreaker) recordSuccess()]. *)
Definition recordSuccess (cb : circuitBreaker) : circuitBreaker :=
  {| failures := 0;
     maxFailures := maxFailures cb;
     state := circuitClosed;
     lastFailure := lastFailure cb;
     resetTimeout := resetTimeout cb;
     halfOpenAttempts := halfOpenAttempts cb |}.

(** [(cb *circuitBreaker) recordFailure()]. *)
Definition recordFailure (now : Time) (cb : circuitBreaker) : circuitBreaker :=
  let failures' := I64.add (failures cb) 1 in
  match state cb with
  | circuitHalfOpen =>
      {| failures := failures';
         maxFailures := maxFailures cb;
         state := circuitOpen;
         lastFailure := now;
         resetTimeout := resetTimeout cb;
         halfOpenAttempts := halfOpenAttempts cb |}
  | st =>
      {| failures := failures';
         maxFailures := maxFailures cb;
         state := if maxFailures cb <=? failures' then circuitOpen else st;
         lastFailure := now;
         resetTimeout := resetTimeout cb;
         halfOpenAttempts := halfOpenAttempts cb |}
  end.

(** [(cb *circuitBreaker) reset()]. *)
Definition reset (cb : circuitBreaker) : circuitBreaker :=
  {| failures := 0;
     maxFailures := maxFailures cb;
     state := circuitClosed;
     lastFailure := lastFailure cb;
     resetTimeout := resetTimeout cb;
     halfOpenAttempts := halfOpenAttempts cb |}.

(** The operations a caller can apply to a breaker, each with the clock
    reading at which it runs, and the breaker a sequence of them leaves. *)
Inductive breakerOp : Type :=
  | OpCanAttempt (now : Time)
  | OpRecordSuccess
  | OpRecordFailure (now : Time)
  | OpReset.

Definition applyOp (cb : circuitBreaker) (op : breakerOp) : circuitBreaker :=
  match op with
  | OpCanAttempt now => snd (canAttempt now cb)
  | OpRecordSuccess => recordSuccess cb
  | OpRecordFailure now => recordFailure now cb
  | OpReset => reset cb
  end.

Definition runOps (cb : circuitBreaker) (ops : list breakerOp) : circuitBreaker :=
  fold_left applyOp ops cb.

(** ** float64 *)

Module F64.

Definition float64 : Type := spec_float.
Definition prec : Z := 53.
Definition emax : Z := 1024.

Definition zero : float64 := S754_zero false.

(** The conversion [float64(x)] of an integer: to nearest, ties to even. *)
Definition of_Z (z : Z) : float64 := binary_normalize prec emax z 0 false.

Definition add (x y : float64) : float64 := SFadd prec emax x y.
Definition mul (x y : float64) : float64 := SFmul prec emax x y.
Definition div (x y : float64) : float64 := SFdiv prec emax x y.

(** [x < y] and [x > y]; both are false when an operand is a NaN. *)
Definition ltb (x y : float64) : bool := SFltb x y.
Definition gtb (x y : float64) : bool := SFltb y x.

(** The quotient [n / d] of two integers, rounded once. *)
Definition ratio (n d : Z) : float64 :=
  match n, d with
  | Zpos n', Zpos d' =>
      SFdiv prec emax (S754_finite false n' 0) (S754_finite false d' 0)
  | _, _ => zero
  end.

(** The integer part of a finite value (rounding toward zero). *)
Definition trunc (x : float64) : option Z :=
  match x with
  | S754_zero _ => Some 0
  | S754_finite s m e => Some (cond_Zopp s (Z.shiftl (Zpos m) e))
  | S754_infinity _ | S754_nan => None
  end.

(** The conversion [int64(x)].  Go leaves the result open when the value
    does not fit; the model returns what the amd64 build returns, the
    smallest [int64]. *)
Definition to_int64 (x : float64) : Z :=
  match trunc x with
  | Some z => if (I64.min <=? z) && (z <=? I64.max) then z else I64.min
  | None => I64.min
  end.

End F64.

(** ** Go's [unicode/utf8], [unicode] and [strings]

    A Go string is a sequence of bytes.  [range], [strings.TrimSpace] and
    [strings.ToLower] read it as UTF-8: a byte that starts no valid
    encoding is read as the rune U+FFFD of width one.  The functions below
    follow the Go library on every sequence of bytes, valid UTF-8 or not;
    they work on the list of the bytes of a string. *)

Definition byteOf (c : ascii) : nat := nat_of_ascii c.

Definition byteZ (c : ascii) : Z := Z.of_nat (byteOf c).

(** The conversion [byte(x)]. *)
Definition toByte (x : Z) : ascii := ascii_of_nat (Z.to_nat (x mod 256)).

Module utf8.

Definition RuneError : Z := 0xFFFD.
Definition RuneSelf : Z := 0x80.
Definition MaxRune : Z := 0x10FFFF.
Definition surrogateMin : Z := 0xD800.
Definition surrogateMax : Z := 0xDFFF.
Definition tx : Z := 0x80.
Definition t2 : Z := 0xC0.
Definition t3 : Z := 0xE0.
Definition t4 : Z := 0xF0.
Definition maskx : Z := 0x3F.
Definition mask2 : Z := 0x1F.
Definition mask3 : Z := 0x0F.
Definition mask4 : Z := 0x07.
Definition rune1Max : Z := 0x7F.
Definition rune2Max : Z := 0x7FF.
Definition rune3Max : Z := 0xFFFF.
Definition locb : Z := 0x80.
Definition hicb : Z := 0xBF.

(** What the table [first] says of a first byte: ASCII ([as]), invalid
    ([xx]), or the size of the encoding it starts with the range
    [acceptRanges] gives for the second byte. *)
Inductive firstInfo : Type :=
| firstASCII
| firstInvalid
| firstLead (size : nat) (lo hi : Z).

Definition first (s0 : Z) : firstInfo :=
  if s0 <? 0x80 then firstASCII
  else if s0 <? 0xC2 then firstInvalid
  else if s0 <? 0xE0 then firstLead 2 locb hicb
  else if s0 =? 0xE0 then firstLead 3 0xA0 hicb
  else if s0 <? 0xED then firstLead 3 locb hicb
  else if s0 =? 0xED then firstLead 3 locb 0x9F
  else if s0 <? 0xF0 then firstLead 3 locb hicb
  else if s0 =? 0xF0 then firstLead 4 0x90 hicb
  else if s0 <? 0xF4 then firstLead 4 locb hicb
  else if s0 =? 0xF4 then firstLead 4 locb 0x8F
  else firstInvalid.

(** [utf8.DecodeRuneInString(s)]: the first rune of [s] and its width in
    bytes. *)
Definition DecodeRuneInString (p : list ascii) : Z * nat :=
  match p with
  | [] => (RuneError, 0%nat)
  | c0 :: p0 =>
      let s0 := byteZ c0 in
      match first s0 with
      | firstASCII => (s0, 1%nat)
      | firstInvalid => (RuneError, 1%nat)
      | firstLead sz lo hi =>
          if (List.length p <? sz)%nat then (RuneError, 1%nat)
          else
            match p0 with
            | [] => (RuneError, 1%nat)
            | c1 :: p1 =>
                let s1 := byteZ c1 in
                if (s1 <? lo) || (hi <? s1) then (RuneError, 1%nat)
                else if (sz <=? 2)%nat then
                  (Z.lor (Z.shiftl (Z.land s0 mask2) 6) (Z.land s1 maskx), 2%nat)
                else
                  match p1 with
                  | [] => (RuneError, 1%nat)
                  | c2 :: p2 =>
                      let s2 := byteZ c2 in
                      if (s2 <? locb) || (hicb <? s2) then (RuneError, 1%nat)
                      else if (sz <=? 3)%nat then
                        (Z.lor (Z.lor (Z.shiftl (Z.land s0 mask3) 12)
                                      (Z.shiftl (Z.land s1 maskx) 6))
                               (Z.land s2 maskx), 3%nat)
                      else
                        match p2 with
                        | [] => (RuneError, 1%nat)
                        | c3 :: _ =>
                            let s3 := byteZ c3 in
                            if (s3 <? locb) || (hicb <? s3) then (RuneError, 1%nat)
                            else
                              (Z.lor (Z.lor (Z.lor (Z.shiftl (Z.land s0 mask4) 18)
                                                   (Z.shiftl (Z.land s1 maskx) 12))
                                            (Z.shiftl (Z.land s2 maskx) 6))
                                     (Z.land s3 maskx), 4%nat)
                        end
                  end
            end
      end
  end.

(** [utf8.RuneStart(b)]: [b] is no continuation byte. *)
Definition RuneStart (b : Z) : bool := negb (Z.land b 0xC0 =? 0x80).

(** The loop of [DecodeLastRuneInString] that looks for the start of the
    last rune: [before] holds the bytes before the last one, nearest
    first, and [n] is the number of bytes the loop may still visit.  The
    result is [end - 1 - start] for the [start] the loop ends with. *)
Fixpoint lastStart (n : nat) (before : list ascii) : nat :=
  match n with
  | O => 1%nat
  | S n' =>
      match before with
      | [] => 0%nat
      | c :: before' =>
          if RuneStart (byteZ c) then 1%nat else S (lastStart n' before')
      end
  end.

(** [utf8.DecodeLastRuneInString(s)] for the bytes of [s] in reverse
    order: the last rune of [s] and its width.  The bytes from [start] are
    decoded; at the start of the text [start] is 0, which [take] gives when
    fewer bytes are there. *)
Definition DecodeLastRuneRev (rs : list ascii) : Z * nat :=
  match rs with
  | [] => (RuneError, 0%nat)
  | c :: before =>
      if byteZ c <? RuneSelf then (byteZ c, 1%nat)
      else
        let tail := (rev (take (lastStart 3 before) before) ++ [c])%list in
        let '(r, size) := DecodeRuneInString tail in
        if negb (size =? List.length tail)%nat then (RuneError, 1%nat)
        else (r, size)
  end.

Definition DecodeLastRuneInString (p : list ascii) : Z * nat :=
  DecodeLastRuneRev (rev p).

(** [utf8.AppendRune(nil, r)], the bytes [string(r)] and
    [Builder.WriteRune(r)] write. *)
Definition EncodeRune (r : Z) : list ascii :=
  if (0 <=? r) && (r <=? rune1Max) then [toByte r]
  else if (0 <=? r) && (r <=? rune2Max) then
    [toByte (Z.lor t2 (Z.shiftr r 6 mod 256));
     toByte (Z.lor tx (Z.land (r mod 256) maskx))]
  else if (r <? 0) || (MaxRune <? r) || ((surrogateMin <=? r) && (r <=? surrogateMax))
  then [toByte 0xEF; toByte 0xBF; toByte 0xBD]
  else if r <=? rune3Max then
    [toByte (Z.lor t3 (Z.shiftr r 12 mod 256));
     toByte (Z.lor tx (Z.land (Z.shiftr r 6 mod 256) maskx));
     toByte (Z.lor tx (Z.land (r mod 256) maskx))]
  else
    [toByte (Z.lor t4 (Z.shiftr r 18 mod 256));
     toByte (Z.lor tx (Z.land (Z.shiftr r 12 mod 256) maskx));
     toByte (Z.lor tx (Z.land (Z.shiftr r 6 mod 256) maskx));
     toByte (Z.lor tx (Z.land (r mod 256) maskx))].

End utf8.

(** [for _, c := range s]: the runes of [s] in order, each with the bytes
    it was read from; [skip] bytes of the rune just read are still to be
    passed over. *)
Fixpoint rangeFrom (skip : nat) (p : list ascii) : list (Z * list ascii) :=
  match p with
  | [] => []
  | _ :: p' =>
      match skip with
      | S k => rangeFrom k p'
      | O =>
          let '(r, size) := utf8.DecodeRuneInString p in
          (r, take size p) :: rangeFrom (size - 1) p'
      end
  end.

Definition rangeString (p : list ascii) : list (Z * list ascii) := rangeFrom 0 p.

Module unicode.

Definition MaxASCII : Z := 0x7F.
Definition MaxLatin1 : Z := 0xFF.

(** [unicode.IsSpace(r)]: the Latin-1 spaces, and the table
    [White_Space] above Latin-1. *)
Definition IsSpace (r : Z) : bool :=
  if (0 <=? r) && (r <=? MaxLatin1) then
    (r =? 9) || (r =? 10) || (r =? 11) || (r =? 12) || (r =? 13) || (r =? 32)
    || (r =? 0x85) || (r =? 0xA0)
  else
    (r =? 0x1680) || ((0x2000 <=? r) && (r <=? 0x200A))
    || (r =? 0x2028) || (r =? 0x2029) || (r =? 0x202F) || (r =? 0x205F)
    || (r =? 0x3000).

(** [unicode.ToLower(r)].  [lowerCase] is [unicode.To(unicode.LowerCase, r)],
    the case table of the package for the runes above ASCII, which the
    development leaves open: what is proved holds for every table. *)
Definition ToLower (lowerCase : Z -> Z) (r : Z) : Z :=
  if r <=? MaxASCII then
    (if (65 <=? r) && (r <=? 90) then r + (97 - 65) else r)
  else lowerCase r.

End unicode.

Module strings.

(** [strings.TrimLeftFunc(s, f)]: [s[i:]] for the index [i] of the first
    rune that does not satisfy [f], nothing when there is none. *)
Fixpoint trimLeftFrom (f : Z -> bool) (skip : nat) (p : list ascii) : list ascii :=
  match p with
  | [] => []
  | _ :: p' =>
      match skip with
      | S k => trimLeftFrom f k p'
      | O =>
          let '(r, size) := utf8.DecodeRuneInString p in
          if f r then trimLeftFrom f (size - 1) p' else p
      end
  end.

Definition TrimLeftFunc (p : list ascii) (f : Z -> bool) : list ascii :=
  trimLeftFrom f 0 p.

(** The loop of [lastIndexFunc(s, f, false)] on the bytes [s[0:i]] in
    reverse order: the bytes before the last rune that does not satisfy
    [f], in reverse order, or [None] when there is no such rune. *)
Fixpoint lastIndexFrom (f : Z -> bool) (skip : nat) (rs : list ascii)
  : option (list ascii) :=
  match rs with
  | [] => None
  | _ :: rs' =>
      match skip with
      | S k => lastIndexFrom f k rs'
      | O =>
          let '(r, size) := utf8.DecodeLastRuneRev rs in
          if f r then lastIndexFrom f (size - 1) rs' else Some (drop size rs)
      end
  end.

(** [strings.TrimRightFunc(s, f)]: with [i] the index of the last rune
    that does not satisfy [f], [s[0:i+wid]] for the width [wid] of the
    rune read at [i] (1 for an ASCII byte), and [s[0:0]] when [i = -1]. *)
Definition TrimRightFunc (p : list ascii) (f : Z -> bool) : list ascii :=
  match lastIndexFrom f 0 (rev p) with
  | None => []
  | Some before =>
      let i := List.length before in
      let wid :=
        match drop i p with
        | c :: _ =>
            if utf8.RuneSelf <=? byteZ c then snd (utf8.DecodeRuneInString (drop i p))
            else 1%nat
        | [] => 1%nat
        end in
      take (i + wid) p
  end.

(** [strings.TrimFunc(s, f)]. *)
Definition TrimFunc (p : list ascii) (f : Z -> bool) : list ascii :=
  TrimRightFunc (TrimLeftFunc p f) f.

(** The table [asciiSpace]. *)
Definition asciiSpace (c : ascii) : bool :=
  let b := byteZ c in
  (b =? 9) || (b =? 10) || (b =? 11) || (b =? 12) || (b =? 13) || (b =? 32).

(** The second loop of [TrimSpace], on the bytes [s[start:stop]] in
    reverse order. *)
Fixpoint trimSpaceStop (rs : list ascii) : list ascii :=
  match rs with
  | [] => []
  | c :: rs' =>
      if utf8.RuneSelf <=? byteZ c then TrimRightFunc (rev rs) unicode.IsSpace
      else if asciiSpace c then trimSpaceStop rs'
      else rev rs
  end.

(** [strings.TrimSpace(s)]: the first loop passes the leading ASCII
    spaces and hands the text over to [TrimFunc] at the first byte that is
    not ASCII. *)
Fixpoint TrimSpace (p : list ascii) : list ascii :=
  match p with
  | [] => []
  | c :: p' =>
      if utf8.RuneSelf <=? byteZ c then TrimFunc p unicode.IsSpace
      else if asciiSpace c then TrimSpace p'
      else trimSpaceStop (rev p)
  end.

(** [strings.Map(mapping, s)]: the runes of [s] mapped and written out
    again, a negative result dropped.  (The library returns [s] itself
    when no rune changes and every byte is part of a valid encoding, which
    is the same text.) *)
Definition Map (mapping : Z -> Z) (p : list ascii) : list ascii :=
  concat (map (fun c => let r := mapping (fst c) in
                        if 0 <=? r then utf8.EncodeRune r else [])
              (rangeString p)).

Definition isASCII (p : list ascii) : bool :=
  forallb (fun c => byteZ c <? utf8.RuneSelf) p.

Definition lowerByte (c : ascii) : ascii :=
  if (65 <=? byteZ c) && (byteZ c <=? 90) then toByte (byteZ c + (97 - 65)) else c.

(** [strings.ToLower(s)]: ASCII text is lowered byte by byte, any other
    text by [Map(unicode.ToLower, s)]. *)
Definition ToLower (lowerCase : Z -> Z) (p : list ascii) : list ascii :=
  if isASCII p then map lowerByte p
  else Map (unicode.ToLower lowerCase) p.

End strings.

(** The bytes of a string, and the string of a list of bytes. *)
Definition charsOf (s : string) : list ascii := list_ascii_of_string s.

Definition ofChars (p : list ascii) : string := string_of_list_ascii p.

(** [strings.TrimSpace]. *)
Definition TrimSpace (s : string) : string := ofChars (strings.TrimSpace (charsOf s)).

(** [strings.ToLower]. *)
Definition ToLower (lowerCase : Z -> Z) (s : string) : string :=
  ofChars (strings.ToLower lowerCase (charsOf s)).

(** The runes [for _, c := range s] visits. *)
Definition runes (s : string) : list Z := map fst (rangeString (charsOf s)).

(** [string(c)] for a rune [c]. *)
Definition runeString (c : Z) : string := ofChars (utf8.EncodeRune c).

(** ** Valid encodings, and a text seen as the list of its runes *)

(** The sequences of bytes that [DecodeRuneInString] reads as one valid encoding,
    with the rune each encodes. *)
Inductive Encoding : list ascii -> Z -> Prop :=
| Encoding1 (c0 : ascii) :
    utf8.first (byteZ c0) = utf8.firstASCII -> Encoding [c0] (byteZ c0)
| Encoding2 (c0 c1 : ascii) (lo hi : Z) :
    utf8.first (byteZ c0) = utf8.firstLead 2 lo hi ->
    lo <= byteZ c1 <= hi ->
    Encoding [c0; c1]
      (Z.lor (Z.shiftl (Z.land (byteZ c0) utf8.mask2) 6)
             (Z.land (byteZ c1) utf8.maskx))
| Encoding3 (c0 c1 c2 : ascii) (lo hi : Z) :
    utf8.first (byteZ c0) = utf8.firstLead 3 lo hi ->
    lo <= byteZ c1 <= hi -> utf8.locb <= byteZ c2 <= utf8.hicb ->
    Encoding [c0; c1; c2]
      (Z.lor (Z.lor (Z.shiftl (Z.land (byteZ c0) utf8.mask3) 12)
                    (Z.shiftl (Z.land (byteZ c1) utf8.maskx) 6))
             (Z.land (byteZ c2) utf8.maskx))
| Encoding4 (c0 c1 c2 c3 : ascii) (lo hi : Z) :
    utf8.first (byteZ c0) = utf8.firstLead 4 lo hi ->
    lo <= byteZ c1 <= hi -> utf8.locb <= byteZ c2 <= utf8.hicb ->
    utf8.locb <= byteZ c3 <= utf8.hicb ->
    Encoding [c0; c1; c2; c3]
      (Z.lor (Z.lor (Z.lor (Z.shiftl (Z.land (byteZ c0) utf8.mask4) 18)
                           (Z.shiftl (Z.land (byteZ c1) utf8.maskx) 12))
                    (Z.shiftl (Z.land (byteZ c2) utf8.maskx) 6))
             (Z.land (byteZ c3) utf8.maskx)).

(** What [range] yields for a stretch of text: a valid encoding with its
    rune, or one byte that starts none, read as U+FFFD. *)
Definition Chunk (ch : Z * list ascii) : Prop :=
  Encoding (snd ch) (fst ch)
  \/ exists c, snd ch = [c] /\ fst ch = utf8.RuneError /\ 128 <= byteZ c.

(** A text that is empty or starts with a byte that is no continuation
    byte. *)
Definition startsRune (z : list ascii) : Prop :=
  match z with
  | [] => True
  | d :: _ => utf8.RuneStart (byteZ d) = true
  end.

(** The bytes of a list of runes read from a text. *)
Definition joinChunks (cs : list (Z * list ascii)) : list ascii :=
  concat (map snd cs).

Fixpoint dropLeading (f : Z -> bool) (cs : list (Z * list ascii))
  : list (Z * list ascii) :=
  match cs with
  | [] => []
  | ch :: cs' => if f (fst ch) then dropLeading f cs' else cs
  end.

Definition dropTrailing (f : Z -> bool) (cs : list (Z * list ascii))
  : list (Z * list ascii) :=
  rev (dropLeading f (rev cs)).

(** The runes of a text without the leading and the trailing white
    space. *)
Definition trimChunks (cs : list (Z * list ascii)) : list (Z * list ascii) :=
  dropTrailing unicode.IsSpace (dropLeading unicode.IsSpace cs).
(** ** Go's [strconv] and [regexp], as the parsers use them *)

Definition isDigit (c : ascii) : bool :=
  ((48 <=? byteOf c) && (byteOf c <=? 57))%nat.

(** The class [\s] of [regexp]: tab, line feed, form feed, carriage
    return, space. *)
Definition isRegexpSpace (c : ascii) : bool :=
  let b := byteZ c in
  (b =? 9) || (b =? 10) || (b =? 12) || (b =? 13) || (b =? 32).

Fixpoint allDigits (s : string) : bool :=
  match s with
  | EmptyString => true
  | String c s' => isDigit c && allDigits s'
  end.

Definition digitValue (c : ascii) : Z := Z.of_nat (byteOf c) - 48.

Fixpoint decimalFrom (acc : Z) (s : string) : Z :=
  match s with
  | EmptyString => acc
  | String c s' => decimalFrom (acc * 10 + digitValue c) s'
  end.

(** The number a string of decimal digits writes. *)
Definition decimal (s : string) : Z := decimalFrom 0 s.

(** [strconv.ParseInt(s, 10, 64)]: an optional sign and at least one
    digit; [None] stands for the syntax and range errors, on which every
    caller drops the value. *)
Definition ParseInt (s : string) : option Z :=
  match s with
  | EmptyString => None
  | String c rest =>
      let '(neg, digits) :=
        if Ascii.eqb c "+" then (false, rest)
        else if Ascii.eqb c "-" then (true, rest)
        else (false, s) in
      if String.eqb digits "" || negb (allDigits digits) then None
      else
        let n := decimal digits in
        if neg then (if n <=? 2 ^ 63 then Some (- n) else None)
        else (if n <? 2 ^ 63 then Some n else None)
  end.

(** The longest run of digits a string starts with, and what follows. *)
Fixpoint spanDigits (s : string) : string * string :=
  match s with
  | EmptyString => (EmptyString, EmptyString)
  | String c s' =>
      if isDigit c then let '(d, r) := spanDigits s' in (String c d, r)
      else (EmptyString, s)
  end.

(** [strconv.ParseFloat(s, 64)] on the inputs the parsers pass, which the
    regular expressions restrict to digits with an optional fraction: the
    nearest [float64] of the decimal, and [None] for the range error of a
    value that rounds to infinity (as for any other text here). *)
Definition ParseFloat (s : string) : option F64.float64 :=
  let '(ip, r) := spanDigits s in
  let frac :=
    match r with
    | EmptyString => Some EmptyString
    | String c fp =>
        if Ascii.eqb c "." && negb (String.eqb fp "") && allDigits fp
        then Some fp else None
    end in
  match frac with
  | None => None
  | Some fp =>
      if String.eqb ip "" then None
      else
        match F64.ratio (decimal (ip +:+ fp)) (10 ^ Z.of_nat (String.length fp)) with
        | S754_infinity _ | S754_nan => None
        | v => Some v
        end
  end.

(** ** pppoe.go (utilities): the parsers *)

Definition isUptimeUnit (c : ascii) : bool :=
  Ascii.eqb c "w" || Ascii.eqb c "d" || Ascii.eqb c "h" || Ascii.eqb c "m"
  || Ascii.eqb c "s".

(** [regexp.MustCompile(`(\d+)([wdhms])`).FindAllStringSubmatch(s, -1)],
    the two groups of each match: the matches, leftmost first and not
    overlapping, are the maximal runs of digits that a unit letter
    follows.  [run] is the run of digits read so far. *)
Fixpoint findUptimeFrom (run s : string) : list (string * string) :=
  match s with
  | EmptyString => []
  | String c s' =>
      if isDigit c then findUptimeFrom (run +:+ String c EmptyString) s'
      else if negb (String.eqb run "") && isUptimeUnit c
      then (run, String c EmptyString) :: findUptimeFrom EmptyString s'
      else findUptimeFrom EmptyString s'
  end.

Definition findUptimeMatches (s : string) : list (string * string) :=
  findUptimeFrom EmptyString s.

(** The body of the loop of [ParseUptime] for one match. *)
Definition uptimeStep (total : Z) (m : string * string) : Z :=
  let '(num, unit) := m in
  match ParseInt num with
  | None => total
  | Some value =>
      if String.eqb unit "w" then
        I64.add total (I64.mul (I64.mul (I64.mul (I64.mul value 7) 24) 60) 60)
      else if String.eqb unit "d" then
        I64.add total (I64.mul (I64.mul (I64.mul value 24) 60) 60)
      else if String.eqb unit "h" then
        I64.add total (I64.mul (I64.mul value 60) 60)
      else if String.eqb unit "m" then I64.add total (I64.mul value 60)
      else if String.eqb unit "s" then I64.add total value
      else total
  end.

(** [ParseUptime(uptime string) int64]. *)
Definition ParseUptime (uptime : string) : Z :=
  if String.eqb uptime "" then 0
  else fold_left uptimeStep (findUptimeMatches (TrimSpace uptime)) 0.

Fixpoint skipRegexpSpace (s : string) : string :=
  match s with
  | EmptyString => EmptyString
  | String c s' => if isRegexpSpace c then skipRegexpSpace s' else s
  end.

(** [FindStringSubmatch] for the two anchored expressions
    [^(\d+(?:\.\d+)?)\s*(u1|...|un)?$]: the groups 1 and 2 of the match,
    group 2 empty when no unit is there, or [None] when the text does not
    match. *)
Definition matchNumberUnit (units : list string) (s : string)
  : option (string * string) :=
  let '(ip, r1) := spanDigits s in
  if String.eqb ip "" then None
  else
    let '(num, r2) :=
      match r1 with
      | String c r1' =>
          let '(fp, r) := spanDigits r1' in
          if Ascii.eqb c "." && negb (String.eqb fp "")
          then (ip +:+ String c fp, r) else (ip, r1)
      | EmptyString => (ip, r1)
      end in
    let r3 := skipRegexpSpace r2 in
    if String.eqb r3 "" then Some (num, EmptyString)
    else if existsb (String.eqb r3) units then Some (num, r3)
    else None.

Definition speedUnits : list string := ["gbps"; "mbps"; "kbps"; "bps"].

(** [ParseSpeed(speed string) int64]; [lowerCase] is the case table of
    [unicode.ToLower] above ASCII. *)
Definition ParseSpeed (lowerCase : Z -> Z) (speed : string) : Z :=
  if String.eqb speed "" then 0
  else
    let speed := TrimSpace (ToLower lowerCase speed) in
    if String.eqb speed "auto" || String.eqb speed "unknown" then 0
    else
      match matchNumberUnit speedUnits speed with
      | None => 0
      | Some (num, group2) =>
          match ParseFloat num with
          | None => 0
          | Some value =>
              let unit := if String.eqb group2 "" then "mbps" else group2 in
              if String.eqb unit "gbps" then
                F64.to_int64 (F64.mul value (F64.of_Z 1000))
              else if String.eqb unit "mbps" then F64.to_int64 value
              else if String.eqb unit "kbps" then
                F64.to_int64 (F64.div value (F64.of_Z 1000))
              else if String.eqb unit "bps" then
                F64.to_int64 (F64.div value (F64.of_Z 1000000))
              else F64.to_int64 value
          end
      end.

(** [ParseInt64(s string) int64]. *)
Definition ParseInt64 (s : string) : Z :=
  let s := TrimSpace s in
  if String.eqb s "" then 0
  else match ParseInt s with
       | Some v => v
       | None => 0
       end.

Definition memoryUnits : list string :=
  ["gib"; "mib"; "kib"; "gb"; "mb"; "kb"; "b"].

(** [ParseMemory(mem string) int64]. *)
Definition ParseMemory (lowerCase : Z -> Z) (mem : string) : Z :=
  if String.eqb mem "" then 0
  else
    let mem := TrimSpace (ToLower lowerCase mem) in
    match matchNumberUnit memoryUnits mem with
    | None => ParseInt64 mem
    | Some (num, group2) =>
        match ParseFloat num with
        | None => 0
        | Some value =>
            let unit := if String.eqb group2 "" then "b" else group2 in
            if String.eqb unit "gib" || String.eqb unit "gb" then
              F64.to_int64
                (F64.mul (F64.mul (F64.mul value (F64.of_Z 1024)) (F64.of_Z 1024))
                         (F64.of_Z 1024))
            else if String.eqb unit "mib" || String.eqb unit "mb" then
              F64.to_int64 (F64.mul (F64.mul value (F64.of_Z 1024)) (F64.of_Z 1024))
            else if String.eqb unit "kib" || String.eqb unit "kb" then
              F64.to_int64 (F64.mul value (F64.of_Z 1024))
            else F64.to_int64 value
        end
    end.

(** ** The texts the parsers accept *)

Fixpoint allRegexpSpace (s : string) : bool :=
  match s with
  | EmptyString => true
  | String c s' => isRegexpSpace c && allRegexpSpace s'
  end.

(** The texts that [^(\d+(?:\.\d+)?)\s*(u1|...|un)?$] describes: digits, an
    optional fraction of a point and digits, optional white space, and
    nothing more or one of the unit words. *)
Definition isNumberUnitText (units : list string) (s : string) : Prop :=
  exists ip fp ws unit,
    s = ip +:+ fp +:+ ws +:+ unit /\
    ip <> "" /\ allDigits ip = true /\
    (fp = "" \/ exists f, fp = String "." f /\ f <> "" /\ allDigits f = true) /\
    allRegexpSpace ws = true /\
    (unit = "" \/ In unit units).

(** The texts [strconv.ParseInt] reads in base ten: an optional sign and
    digits. *)
Definition isIntegerText (s : string) : Prop :=
  exists sign digits,
    s = sign +:+ digits /\ (sign = "" \/ sign = "+" \/ sign = "-") /\
    digits <> "" /\ allDigits digits = true.

(** A digit with a unit letter right after it, somewhere in the text. *)
Definition hasUptimeComponent (s : string) : Prop :=
  exists a d u b,
    s = a +:+ String d (String u b) /\ isDigit d = true /\ isUptimeUnit u = true.


(** ** Uptime texts built from components *)

(** The seconds in one unit of each letter. *)
Definition unitSeconds (u : ascii) : Z :=
  if Ascii.eqb u "w" then 604800
  else if Ascii.eqb u "d" then 86400
  else if Ascii.eqb u "h" then 3600
  else if Ascii.eqb u "m" then 60
  else if Ascii.eqb u "s" then 1
  else 0.

(** A component is a run of digits and a unit letter; a text is written by
    putting components one after the other, in any order and with any
    repetition. *)
Definition componentOk (c : string * ascii) : Prop :=
  fst c <> "" /\ allDigits (fst c) = true /\ isUptimeUnit (snd c) = true.

Fixpoint renderComponents (comps : list (string * ascii)) : string :=
  match comps with
  | [] => EmptyString
  | (d, u) :: rest => d +:+ String u (renderComponents rest)
  end.

Fixpoint componentsTotal (comps : list (string * ascii)) : Z :=
  match comps with
  | [] => 0
  | (d, u) :: rest => decimal d * unitSeconds u + componentsTotal rest
  end.

(** The last byte of a text. *)
Fixpoint lastByte (s : string) : option ascii :=
  match s with
  | EmptyString => None
  | String c EmptyString => Some c
  | String _ s' => lastByte s'
  end.

(** ** Uptime texts with other text around the components *)

(** A text that holds no digit. *)
Fixpoint noDigit (s : string) : bool :=
  match s with
  | EmptyString => true
  | String c s' => negb (isDigit c) && noDigit s'
  end.

(** Components with a text before each of them, and a text after the
    last. *)
Fixpoint renderBetween (items : list (string * (string * ascii))) (last : string)
  : string :=
  match items with
  | [] => last
  | (before, (d, u)) :: rest => before +:+ d +:+ String u (renderBetween rest last)
  end.

(** ** The parsers claim, as the specification words it *)

(** A text with its ASCII white space taken out. *)
Fixpoint dropWhite (s : string) : string :=
  match s with
  | EmptyString => EmptyString
  | String c s' =>
      if strings.asciiSpace c then dropWhite s' else String c (dropWhite s')
  end.

(** A duration text: [w/d/h/m/s] components in any order and with any
    repetition, white space aside. *)
Definition isDurationText (s : string) : Prop :=
  exists comps, Forall componentOk comps /\ dropWhite s = renderComponents comps.

(** Every parser returns zero on every text that it cannot parse: a text
    that is no duration text for [ParseUptime], none of a number with an
    optional unit for [ParseSpeed], and neither that nor an integer for
    [ParseMemory]. *)
Definition parsers_zero_on_unparseable : Prop :=
  forall lowerCase : Z -> Z,
    (forall s : string, ~ isDurationText s -> ParseUptime s = 0) /\
    (forall s : string,
       ~ isNumberUnitText speedUnits (TrimSpace (ToLower lowerCase s)) ->
       ParseSpeed lowerCase s = 0) /\
    (forall s : string,
       ~ isNumberUnitText memoryUnits (TrimSpace (ToLower lowerCase s)) ->
       ~ isIntegerText (TrimSpace (ToLower lowerCase s)) ->
       ParseMemory lowerCase s = 0).
(** ** Go's [strings] package, as far as the sources use it *)

(** [s[n:]]. *)
Fixpoint sliceFrom (n : nat) (s : string) : string :=
  match n, s with
  | O, _ => s
  | S n', String _ s' => sliceFrom n' s'
  | S _, EmptyString => EmptyString
  end.

(** [strings.HasPrefix(s, prefix)]. *)
Definition HasPrefix (s pfx : string) : bool := String.prefix pfx s.

(** [strings.HasSuffix(s, suffix)]:
    [len(s) >= len(suffix) && s[len(s)-len(suffix):] == suffix]. *)
Definition HasSuffix (s sfx : string) : bool :=
  (String.length sfx <=? String.length s)%nat
  && String.eqb (sliceFrom (String.length s - String.length sfx) s) sfx.

(** [strings.Contains(s, substr)]. *)
Fixpoint Contains (s substr : string) : bool :=
  String.prefix substr s
  || match s with
     | EmptyString => false
     | String _ s' => Contains s' substr
     end.

(** The scan of [strings.Split] for a separator that is not empty:
    [cur] is the piece being collected and [skip] the number of bytes of a
    separator just found that are still to be passed over. *)
Fixpoint splitFrom (sep : string) (skip : nat) (cur s : string) : list string :=
  match s with
  | EmptyString => [cur]
  | String c s' =>
      match skip with
      | S k => splitFrom sep k cur s'
      | O =>
          if String.prefix sep s
          then cur :: splitFrom sep (String.length sep - 1) EmptyString s'
          else splitFrom sep 0 (cur +:+ String c EmptyString) s'
      end
  end.

(** [strings.Split(s, sep)].  With an empty separator Go splits after each
    UTF-8 sequence; the sources only ever split on ["*"], and the model
    gives the bytes one by one there. *)
Definition Split (s sep : string) : list string :=
  match sep with
  | EmptyString => map (fun c => String c EmptyString) (list_ascii_of_string s)
  | _ => splitFrom sep 0 EmptyString s
  end.

(** ** pppoe.go (utilities): interface filters *)

(** [matchGlob(pattern, s string) bool]. *)
Definition matchGlob (pattern s : string) : bool :=
  if String.eqb pattern "" then String.eqb s ""
  else
    if Contains pattern "*" then
      match Split pattern "*" with
      | [pfx; sfx] => HasPrefix s pfx && HasSuffix s sfx
      | _ => String.eqb pattern s
      end
    else String.eqb pattern s.

(** The first loop of [MatchFilter]: [included] is set by the first include
    pattern that matches, and the loop stops there. *)
Fixpoint includeLoop (name : string) (include : list string) (included : bool) : bool :=
  match include with
  | [] => included
  | pattern :: rest =>
      if matchGlob pattern name then true else includeLoop name rest included
  end.

(** The second loop: [false] as soon as an exclude pattern matches. *)
Fixpoint excludeLoop (name : string) (exclude : list string) : bool :=
  match exclude with
  | [] => true
  | pattern :: rest =>
      if matchGlob pattern name then false else excludeLoop name rest
  end.

(** [MatchFilter(name string, include, exclude []string) bool]. *)
Definition MatchFilter (name : string) (include exclude : list string) : bool :=
  let included := includeLoop name include (Nat.eqb (List.length include) 0) in
  if negb included then false else excludeLoop name exclude.

(** The number of [*] bytes in a string. *)
Fixpoint stars (s : string) : nat :=
  match s with
  | EmptyString => O
  | String c s' => if Ascii.eqb c "*" then S (stars s') else stars s'
  end.

(** ** package api: sentences and replies *)

Record Sentence : Type := mkSentence {
  Word : string;
  Words : list string
}.

(** [NewSentence(command)]. *)
Definition NewSentence (command : string) : Sentence :=
  {| Word := command; Words := [] |}.

(** [(s *Sentence) AddAttribute(name, value)]: appends [=name=value]. *)
Definition AddAttribute (s : Sentence) (name value : string) : Sentence :=
  {| Word := Word s; Words := Words s ++ ["=" +:+ name +:+ "=" +:+ value] |}.

(** [(s *Sentence) AddQuery(name, value)]: appends [?name=value]. *)
Definition AddQuery (s : Sentence) (name value : string) : Sentence :=
  {| Word := Word s; Words := Words s ++ ["?" +:+ name +:+ "=" +:+ value] |}.

(** [[]byte(s)]. *)
Definition bytesOf (s : string) : list byte :=
  map (fun c => Z.of_nat (nat_of_ascii c)) (list_ascii_of_string s).

(** [EncodeWord(word)]: the length prefix, then the bytes. *)
Definition EncodeWord (word : string) : list byte :=
  (EncodeLength (Z.of_nat (String.length word)) ++ bytesOf word)%list.

(** [EncodeSentence(s)]: the command word, the other words, a zero byte. *)
Definition EncodeSentence (s : Sentence) : list byte :=
  (EncodeWord (Word s) ++ concat (map EncodeWord (Words s)) ++ [0])%list.

Module Reply.
Record t : Type := mk {
  Type_ : string;
  Data : gmap string string;
  Tag : string
}.
End Reply.

Definition IsDone (r : Reply.t) : bool := String.eqb (Reply.Type_ r) "!done".
Definition IsTrap (r : Reply.t) : bool := String.eqb (Reply.Type_ r) "!trap".
Definition IsFatal (r : Reply.t) : bool := String.eqb (Reply.Type_ r) "!fatal".
Definition IsData (r : Reply.t) : bool := String.eqb (Reply.Type_ r) "!re".

(** [m[key]] of a [map[string]string]: the empty string when absent. *)
Definition index (m : gmap string string) (key : string) : string :=
  default "" (m !! key).

(** [(r *Reply) GetMessage()]. *)
Definition GetMessage (r : Reply.t) : string :=
  match Reply.Data r !! "message" with
  | Some msg => msg
  | None => ""
  end.

(** ** api/errors.go *)

Inductive ErrType : Type :=
  | ErrTypeConnection
  | ErrTypeAuth
  | ErrTypeTrap
  | ErrTypeFatal
  | ErrTypeTimeout
  | ErrTypeCircuitOpen
  | ErrTypeProtocol.

Module APIError.
Record t (E : Type) : Type := mk {
  Type_ : ErrType;
  Message : string;
  Category : string;
  Wrapped : option E;
  Temporary : bool
}.
Arguments mk {E} _ _ _ _ _.
Arguments Type_ {E} _.
Arguments Message {E} _.
Arguments Category {E} _.
Arguments Wrapped {E} _.
Arguments Temporary {E} _.
End APIError.

(** The values of Go's [error] that occur: the two sentinels of [io], an
    error of another package (dialing, the context, [hex]) known by its
    text, [fmt.Errorf("...: %w", err)], an [*APIError], and the nil
    dereference of a connection that is not there. *)
#[warnings="-register-all"]
Inductive error : Type :=
  | io_EOF
  | io_ErrUnexpectedEOF
  | ErrOther (msg : string)
  | Errorf (msg : string) (wrapped : error)
  | ErrAPI (e : APIError.t error)
  | NilConnPanic.

Definition ErrNotConnected : APIError.t error :=
  APIError.mk ErrTypeConnection "not connected to router" "" None false.

Definition ErrConnectionClosed : APIError.t error :=
  APIError.mk ErrTypeConnection "connection closed" "" None true.

Definition ErrCircuitOpen : APIError.t error :=
  APIError.mk ErrTypeCircuitOpen "circuit breaker is open" "" None true.

Definition NewConnectionError (msg : string) (err : error) : APIError.t error :=
  APIError.mk ErrTypeConnection msg "" (Some err) true.

Definition NewAuthError (msg : string) : APIError.t error :=
  APIError.mk ErrTypeAuth msg "" None false.

(** [NewProtocolError(msg, err)]; [err] may be nil. *)
Definition NewProtocolError (msg : string) (err : option error) : APIError.t error :=
  APIError.mk ErrTypeProtocol msg "" err false.

(** [isTrapTemporary(reply)]. *)
Definition isTrapTemporary (reply : Reply.t) : bool :=
  let category := index (Reply.Data reply) "category" in
  String.eqb category "1" || String.eqb category "2" || String.eqb category "3".

(** [NewTrapError(reply)]. *)
Definition NewTrapError (reply : Reply.t) : APIError.t error :=
  let msg := GetMessage reply in
  APIError.mk ErrTypeTrap
    (if String.eqb msg "" then "unknown error" else msg)
    (index (Reply.Data reply) "category") None (isTrapTemporary reply).

(** [NewFatalError(reply)]. *)
Definition NewFatalError (reply : Reply.t) : APIError.t error :=
  let msg := GetMessage reply in
  APIError.mk ErrTypeFatal
    (if String.eqb msg "" then "fatal error" else msg) "" None false.

(** [errors.As(err, &apiErr)]: the first [*APIError] on the chain of
    wrapped errors. *)
Fixpoint asAPIError (err : error) : option (APIError.t error) :=
  match err with
  | ErrAPI e => Some e
  | Errorf _ wrapped => asAPIError wrapped
  | _ => None
  end.

Definition ErrType_eqb (a b : ErrType) : bool :=
  match a, b with
  | ErrTypeConnection, ErrTypeConnection
  | ErrTypeAuth, ErrTypeAuth
  | ErrTypeTrap, ErrTypeTrap
  | ErrTypeFatal, ErrTypeFatal
  | ErrTypeTimeout, ErrTypeTimeout
  | ErrTypeCircuitOpen, ErrTypeCircuitOpen
  | ErrTypeProtocol, ErrTypeProtocol => true
  | _, _ => false
  end.

(** [IsAuthError(err)]. *)
Definition IsAuthError (err : error) : bool :=
  match asAPIError err with
  | Some e => ErrType_eqb (APIError.Type_ e) ErrTypeAuth
  | None => false
  end.

(** [IsTemporaryError(err)]. *)
Definition IsTemporaryError (err : error) : bool :=
  match asAPIError err with
  | Some e => APIError.Temporary e
  | None => false
  end.

(** ** package api: decoding words and sentences *)

(** [string(b)] of a byte slice. *)
Definition stringOf (b : list byte) : string :=
  string_of_list_ascii (map (fun x => ascii_of_nat (Z.to_nat x)) b).

(** [DecodeWord(r io.Reader) (string, error)]. *)
Definition DecodeWord (r : list byte) : (string + ioError) * list byte :=
  match DecodeLength r with
  | (inr e, r1) => (inr e, r1)
  | (inl length, r1) =>
      if length =? 0 then (inl EmptyString, r1)
      else
        match ReadFull r1 (Z.to_nat length) with
        | (inl word, r2) => (inl (stringOf word), r2)
        | (inr e, r2) => (inr e, r2)
        end
  end.

Definition ofIO (e : ioError) : error :=
  match e with
  | EOF => io_EOF
  | ErrUnexpectedEOF => io_ErrUnexpectedEOF
  end.

(** [strings.SplitN(s, "=", 2)]: the text before the first [=] and the
    text after it, or [None] when there is no [=] (one part). *)
Fixpoint splitFirstEq (s : string) : option (string * string) :=
  match s with
  | EmptyString => None
  | String c s' =>
      if Ascii.eqb c "=" then Some (EmptyString, s')
      else
        match splitFirstEq s' with
        | Some (k, v) => Some (String c k, v)
        | None => None
        end
  end.

Definition setData (reply : Reply.t) (key value : string) : Reply.t :=
  {| Reply.Type_ := Reply.Type_ reply;
     Reply.Data := <[key := value]> (Reply.Data reply);
     Reply.Tag := Reply.Tag reply |}.

Definition setTag (reply : Reply.t) (tag : string) : Reply.t :=
  {| Reply.Type_ := Reply.Type_ reply;
     Reply.Data := Reply.Data reply;
     Reply.Tag := tag |}.

(** What [DecodeSentence] does with a word that is not empty. *)
Definition applyWord (reply : Reply.t) (word : string) : Reply.t :=
  if HasPrefix word "=" then
    match splitFirstEq (sliceFrom 1 word) with
    | Some (key, value) => setData reply key value
    | None => setData reply (sliceFrom 1 word) ""
    end
  else if HasPrefix word ".tag=" then setTag reply (sliceFrom 5 word)
  else reply.

(** The loop of [DecodeSentence] over the words after the type, with the
    number of iterations it may still take; [None] when that number is
    used up. *)
Fixpoint decodeWords (fuel : nat) (r : list byte) (reply : Reply.t)
  : option ((Reply.t + error) * list byte) :=
  match fuel with
  | O => None
  | S fuel' =>
      match DecodeWord r with
      | (inr e, r1) => Some (inr (Errorf "failed to read word" (ofIO e)), r1)
      | (inl word, r1) =>
          if String.eqb word "" then Some (inl reply, r1)
          else decodeWords fuel' r1 (applyWord reply word)
      end
  end.

(** [DecodeSentence(r io.Reader)], the reply or the error: every word takes
    at least one byte, so one more iteration than there are bytes is always
    enough and the [None] branch is never taken (see [decodeWords_total]). *)
Definition DecodeSentence (r : list byte) : (Reply.t + error) * list byte :=
  match DecodeWord r with
  | (inr e, r1) => (inr (Errorf "failed to read reply type" (ofIO e)), r1)
  | (inl firstWord, r1) =>
      match decodeWords (S (List.length r1)) r1
              {| Reply.Type_ := firstWord; Reply.Data := ∅; Reply.Tag := "" |} with
      | Some res => res
      | None => (inr (ErrOther "unreachable"), r1)
      end
  end.

(** ** [encoding/hex] *)

Definition hexVal (c : ascii) : option Z :=
  let n := nat_of_ascii c in
  if ((48 <=? n) && (n <=? 57))%nat then Some (Z.of_nat n - 48)
  else if ((97 <=? n) && (n <=? 102))%nat then Some (Z.of_nat n - 87)
  else if ((65 <=? n) && (n <=? 70))%nat then Some (Z.of_nat n - 55)
  else None.

(** [hex.DecodeString]: [None] for an odd length or a byte that is no
    hexadecimal digit. *)
Fixpoint hex_DecodeString (s : string) : option (list byte) :=
  match s with
  | EmptyString => Some []
  | String _ EmptyString => None
  | String a (String b rest) =>
      match hexVal a, hexVal b, hex_DecodeString rest with
      | Some x, Some y, Some l => Some (x * 16 + y :: l)
      | _, _, _ => None
      end
  end.

Definition hexDigit (v : Z) : ascii :=
  ascii_of_nat (Z.to_nat (if v <? 10 then v + 48 else v + 87)).

(** [hex.EncodeToString]. *)
Fixpoint hex_EncodeToString (b : list byte) : string :=
  match b with
  | [] => EmptyString
  | x :: rest =>
      String (hexDigit (x / 16)) (String (hexDigit (x mod 16)) (hex_EncodeToString rest))
  end.

(** ** api/client.go: the connection *)

(** A [net.Conn] with its buffered reader: what was written to it, the
    outcomes of the coming [Write] and [SetDeadline] calls ([None]: no
    error; past the end of the list: no error), and the bytes the peer has
    still to send before it closes. *)
Record Conn : Type := mkConn {
  written : list (list byte);
  writeErrs : list (option error);
  deadlineErrs : list (option error);
  incoming : list byte
}.

Record ClientConfig : Type := mkClientConfig {
  Address : string;
  Username : string;
  Password : string;
  UseTLS : bool;
  InsecureSkipVerify : bool;
  Timeout : Duration;
  RetryAttempts : Z;
  RetryDelay : Duration
}.

(** [Client]: [conn] is [None] for a nil connection; [breaker] is the
    field [circuitBreaker]. *)
Record Client : Type := mkClient {
  config : ClientConfig;
  conn : option Conn;
  connected : bool;
  breaker : circuitBreaker
}.

Definition setConn (c : Client) (cn : option Conn) : Client :=
  {| config := config c; conn := cn; connected := connected c; breaker := breaker c |}.

Definition setConnected (c : Client) (b : bool) : Client :=
  {| config := config c; conn := conn c; connected := b; breaker := breaker c |}.

Definition setBreaker (c : Client) (cb : circuitBreaker) : Client :=
  {| config := config c; conn := conn c; connected := connected c; breaker := cb |}.

(** [NewClient(config)] for a config that is not nil. *)
Definition NewClient (cfg : ClientConfig) : Client :=
  {| config := cfg; conn := None; connected := false;
     breaker := newCircuitBreaker 5 30000000000 |}.

(** [(c *Client) closeConn()]. *)
Definition closeConn (c : Client) : Client :=
  setConn (setConnected c false) None.

(** [(c *Client) writeSentence(sentence)]. *)
Definition writeSentence (c : Client) (sentence : Sentence) : option error * Client :=
  let data := EncodeSentence sentence in
  match conn c with
  | None => (Some NilConnPanic, c)
  | Some cn =>
      match writeErrs cn with
      | Some err :: later =>
          (Some (ErrAPI (NewConnectionError "failed to write sentence" err)),
           setConn c (Some {| written := written cn; writeErrs := later;
                              deadlineErrs := deadlineErrs cn;
                              incoming := incoming cn |}))
      | later =>
          (None,
           setConn c (Some {| written := (written cn ++ [data])%list;
                              writeErrs := tl later;
                              deadlineErrs := deadlineErrs cn;
                              incoming := incoming cn |}))
      end
  end.

Definition is_io_EOF (err : error) : bool :=
  match err with
  | io_EOF => true
  | _ => false
  end.

(** [(c *Client) readReply()]. *)
Definition readReply (c : Client) : (Reply.t + error) * Client :=
  match conn c with
  | None => (inr NilConnPanic, c)
  | Some cn =>
      let '(res, rest) := DecodeSentence (incoming cn) in
      let c1 := setConn c (Some {| written := written cn; writeErrs := writeErrs cn;
                                   deadlineErrs := deadlineErrs cn;
                                   incoming := rest |}) in
      match res with
      | inr err =>
          if is_io_EOF err then (inr (ErrAPI ErrConnectionClosed), closeConn c1)
          else (inr (ErrAPI (NewProtocolError "failed to decode reply" (Some err))), c1)
      | inl reply => (inl reply, c1)
      end
  end.

Section Login.

(** [md5.Sum] of [crypto/md5]. *)
Variable md5_Sum : list byte -> list byte.

(** [(c *Client) handleLegacyChallenge(challenge)]. *)
Definition handleLegacyChallenge (c : Client) (challenge : string)
  : option error * Client :=
  match hex_DecodeString challenge with
  | None =>
      (Some (ErrAPI (NewProtocolError "invalid challenge format"
                       (Some (ErrOther "encoding/hex: invalid input")))), c)
  | Some challengeBytes =>
      let response :=
        hex_EncodeToString
          (md5_Sum ([0] ++ bytesOf (Password (config c)) ++ challengeBytes)%list) in
      let sentence :=
        AddAttribute
          (AddAttribute (NewSentence "/login") "name" (Username (config c)))
          "response" ("00" +:+ response) in
      match writeSentence c sentence with
      | (Some err, c1) => (Some err, c1)
      | (None, c1) =>
          match readReply c1 with
          | (inr err, c2) => (Some err, c2)
          | (inl reply, c2) =>
              if IsTrap reply then (Some (ErrAPI (NewAuthError (GetMessage reply))), c2)
              else if negb (IsDone reply) then
                (Some (ErrAPI (NewProtocolError "unexpected login response" None)), c2)
              else (None, c2)
          end
      end
  end.

(** The sentence of the single-round login. *)
Definition newLoginSentence (cfg : ClientConfig) : Sentence :=
  AddAttribute (AddAttribute (NewSentence "/login") "name" (Username cfg))
    "password" (Password cfg).

(** [(c *Client) tryNewLogin()]. *)
Definition tryNewLogin (c : Client) : option error * Client :=
  let sentence := newLoginSentence (config c) in
  match writeSentence c sentence with
  | (Some err, c1) => (Some err, c1)
  | (None, c1) =>
      match readReply c1 with
      | (inr err, c2) => (Some err, c2)
      | (inl reply, c2) =>
          if IsTrap reply then (Some (ErrAPI (NewAuthError (GetMessage reply))), c2)
          else if negb (IsDone reply) then
            match Reply.Data reply !! "ret" with
            | Some ret => handleLegacyChallenge c2 ret
            | None =>
                (Some (ErrAPI (NewProtocolError "unexpected login response" None)), c2)
            end
          else (None, c2)
      end
  end.

(** [(c *Client) tryLegacyLogin()]. *)
Definition tryLegacyLogin (c : Client) : option error * Client :=
  let sentence := NewSentence "/login" in
  match writeSentence c sentence with
  | (Some err, c1) => (Some err, c1)
  | (None, c1) =>
      match readReply c1 with
      | (inr err, c2) => (Some err, c2)
      | (inl reply, c2) =>
          if IsTrap reply then (Some (ErrAPI (NewAuthError (GetMessage reply))), c2)
          else if negb (IsDone reply) then
            (Some (ErrAPI (NewProtocolError "unexpected login response" None)), c2)
          else
            match Reply.Data reply !! "ret" with
            | None => (Some (ErrAPI (NewProtocolError "no challenge received" None)), c2)
            | Some challenge => handleLegacyChallenge c2 challenge
            end
      end
  end.

(** [(c *Client) authenticate(ctx)]. *)
Definition authenticate (c : Client) : option error * Client :=
  match tryNewLogin c with
  | (None, c1) => (None, c1)
  | (Some _, c1) => tryLegacyLogin c1
  end.

(** [(c *Client) connect(ctx)]: the dialer's answer is the head of [dials],
    the outcomes of the dial attempts to come (past the end: refused). *)
Definition connect (dials : list (Conn + error)) (c : Client)
  : option error * Client * list (Conn + error) :=
  match dials with
  | inl cn :: later => (None, setConn c (Some cn), later)
  | inr err :: later =>
      (Some (ErrAPI (NewConnectionError "failed to connect" err)), c, later)
  | [] =>
      (Some (ErrAPI (NewConnectionError "failed to connect"
                       (ErrOther "connection refused"))), c, [])
  end.

(** The loop of [Connect]: [remaining] is the number of iterations left,
    [attempt] the loop variable.  [ctx attempt] is the error of the context
    when the wait before that attempt ends by [ctx.Done()], and [None]
    when the delay runs out first. *)
Fixpoint connectLoop (now : Time) (ctx : nat -> option error) (remaining attempt : nat)
    (lastErr : option error) (dials : list (Conn + error)) (c : Client)
  : option error * Client * list (Conn + error) :=
  match remaining with
  | O => (lastErr, setBreaker c (recordFailure now (breaker c)), dials)
  | S remaining' =>
      match (if (0 <? attempt)%nat then ctx attempt else None) with
      | Some ctxErr => (Some ctxErr, c, dials)
      | None =>
          match connect dials c with
          | (Some err, c1, dials1) =>
              connectLoop now ctx remaining' (S attempt) (Some err) dials1 c1
          | (None, c1, dials1) =>
              match authenticate c1 with
              | (Some err, c2) =>
                  let c3 := closeConn c2 in
                  if IsAuthError err then
                    (Some err, setBreaker c3 (recordFailure now (breaker c3)), dials1)
                  else connectLoop now ctx remaining' (S attempt) (Some err) dials1 c3
              | (None, c2) =>
                  let c3 := setConnected c2 true in
                  (None, setBreaker c3 (recordSuccess (breaker c3)), dials1)
              end
          end
      end
  end.

(** [(c *Client) Connect(ctx)]: [tAttempt] is the clock when the breaker is
    asked, [tRecord] the clock when the outcome is recorded. *)
Definition Connect (tAttempt tRecord : Time) (ctx : nat -> option error)
    (dials : list (Conn + error)) (c : Client)
  : option error * Client * list (Conn + error) :=
  if connected c then (None, c, dials)
  else
    let '(allowed, cb) := canAttempt tAttempt (breaker c) in
    let c0 := setBreaker c cb in
    if negb allowed then (Some (ErrAPI ErrCircuitOpen), c0, dials)
    else
      connectLoop tRecord ctx (Z.to_nat (RetryAttempts (config c) + 1)) 0 None dials c0.

End Login.

(** ** api/client.go: commands *)

(** The loop of [readAllReplies], with the number of iterations it may
    still take; [None] when that number is used up. *)
Fixpoint readAllRepliesLoop (fuel : nat) (c : Client) (replies : list Reply.t)
  : option (list Reply.t * option error * Client) :=
  match fuel with
  | O => None
  | S fuel' =>
      match readReply c with
      | (inr err, c1) => Some (replies, Some err, c1)
      | (inl reply, c1) =>
          let replies' := (replies ++ [reply])%list in
          if IsDone reply || IsFatal reply then Some (replies', None, c1)
          else readAllRepliesLoop fuel' c1 replies'
      end
  end.

Definition pendingBytes (c : Client) : nat :=
  match conn c with
  | Some cn => List.length (incoming cn)
  | None => O
  end.

(** [(c *Client) readAllReplies()]: each iteration reads a sentence of at
    least one byte or fails, so one more iteration than there are bytes to
    read is always enough and the [None] branch is never taken (see
    [readAllRepliesLoop_total]). *)
Definition readAllReplies (c : Client) : list Reply.t * option error * Client :=
  match readAllRepliesLoop (S (pendingBytes c)) c [] with
  | Some r => r
  | None => ([], Some NilConnPanic, c)
  end.

(** [SetDeadline] on the connection of [c]. *)
Definition setDeadline (c : Client) : option error * Client :=
  match conn c with
  | None => (Some NilConnPanic, c)
  | Some cn =>
      (match deadlineErrs cn with
       | Some err :: _ => Some err
       | _ => None
       end,
       setConn c (Some {| written := written cn; writeErrs := writeErrs cn;
                          deadlineErrs := tl (deadlineErrs cn);
                          incoming := incoming cn |}))
  end.

(** [(c *Client) Execute(ctx, sentence)]. *)
Definition Execute (c : Client) (sentence : Sentence)
  : list Reply.t * option error * Client :=
  if negb (connected c) then ([], Some (ErrAPI ErrNotConnected), c)
  else
    let '(derr, c1) :=
      if 0 <? Timeout (config c) then setDeadline c else (None, c) in
    match derr with
    | Some NilConnPanic => ([], Some NilConnPanic, c1)
    | Some err =>
        ([], Some (ErrAPI (NewConnectionError "failed to set deadline" err)), c1)
    | None =>
        match writeSentence c1 sentence with
        | (Some err, c2) => ([], Some err, c2)
        | (None, c2) => readAllReplies c2
        end
    end.

(** The loop of [Run] over the replies. *)
Fixpoint runLoop (replies : list Reply.t) (result : list (gmap string string))
    (c : Client) : list (gmap string string) * option error * Client :=
  match replies with
  | [] => (result, None, c)
  | reply :: rest =>
      if IsTrap reply then ([], Some (ErrAPI (NewTrapError reply)), c)
      else if IsFatal reply then
        ([], Some (ErrAPI (NewFatalError reply)), closeConn c)
      else runLoop rest (if IsData reply then (result ++ [Reply.Data reply])%list else result) c
  end.

(** The sentence [Run] builds; [args] lists the entries of the map in the
    order in which the [range] statement visits them. *)
Definition runSentence (command : string) (args : list (string * string)) : Sentence :=
  fold_left (fun s kv => AddAttribute s (fst kv) (snd kv)) args (NewSentence command).

(** [(c *Client) Run(ctx, command, args)]. *)
Definition Run (c : Client) (command : string) (args : list (string * string))
  : list (gmap string string) * option error * Client :=
  match Execute c (runSentence command args) with
  | (_, Some err, c1) => ([], Some err, c1)
  | (replies, None, c1) => runLoop replies [] c1
  end.

(** [(c *Client) RunOne(ctx, command, args)]. *)
Definition RunOne (c : Client) (command : string) (args : list (string * string))
  : option (gmap string string) * option error * Client :=
  match Run c command args with
  | (_, Some err, c1) => (None, Some err, c1)
  | (results, None, c1) => (head results, None, c1)
  end.

(** The replies of one command as [readAllReplies] gathers them: replies
    that are neither [!done] nor [!fatal], then one that is. *)
Definition terminated (replies : list Reply.t) : Prop :=
  exists body last,
    replies = (body ++ [last])%list /\
    (IsDone last || IsFatal last) = true /\
    Forall (fun r => (IsDone r || IsFatal r) = false) body.

(** A reply on which the loop of [Run] returns. *)
Definition stops (r : Reply.t) : bool := IsTrap r || IsFatal r.

(** ** A scripted device, for the examples *)

Definition mkReply (type : string) (data : list (string * string)) : Reply.t :=
  {| Reply.Type_ := type; Reply.Data := list_to_map data; Reply.Tag := "" |}.

(** The bytes of a reply on the wire: the type word, an attribute word for
    each pair, and the empty word. *)
Definition wire (type : string) (data : list (string * string)) : list byte :=
  EncodeSentence
    {| Word := type;
       Words := map (fun kv => "=" +:+ fst kv +:+ "=" +:+ snd kv) data |}.

Definition scriptedConn (sentences : list (list byte)) : Conn :=
  {| written := []; writeErrs := []; deadlineErrs := [];
     incoming := concat sentences |}.

Definition adminConfig (retryAttempts : Z) : ClientConfig :=
  {| Address := "192.168.88.1:8728"; Username := "admin"; Password := "secret";
     UseTLS := false; InsecureSkipVerify := false;
     Timeout := 10000000000; RetryAttempts := retryAttempts;
     RetryDelay := 1000000000 |}.

(** A client already connected to a device that will send [sentences]. *)
Definition connectedTo (sentences : list (list byte)) : Client :=
  {| config := adminConfig 3; conn := Some (scriptedConn sentences);
     connected := true; breaker := newCircuitBreaker 5 30000000000 |}.

(** ** The claim on [Run], as the specification words it

    For every reply sequence that [Execute] returns: a trap among the
    replies makes [Run] fail with a [TrapError]; a fatal reply among them
    makes [Run] fail with a [FatalError] and leaves the client closed;
    without either the rows are the data replies in order. *)
Definition Run_any_trap_any_fatal : Prop :=
  forall (c c1 : Client) (command : string) (args : list (string * string))
         (replies : list Reply.t),
    Execute c (runSentence command args) = (replies, None, c1) ->
    (forall r, In r replies -> IsTrap r = true ->
       exists e c', Run c command args = ([], Some (ErrAPI e), c') /\
                    APIError.Type_ e = ErrTypeTrap) /\
    (forall r, In r replies -> IsFatal r = true ->
       exists e c', Run c command args = ([], Some (ErrAPI e), c') /\
                    APIError.Type_ e = ErrTypeFatal /\
                    connected c' = false /\ conn c' = None) /\
    ((forall r, In r replies -> IsTrap r = false /\ IsFatal r = false) ->
       Run c command args = (map Reply.Data (List.filter IsData replies), None, c1)).

(** ** The login claim, as the specification words it *)


(** On such a connection [Connect] returns that [AuthError] from its first
    attempt, leaving the later dial outcomes unused. *)
Definition login_trap_aborts_connect : Prop :=
  forall (md5_Sum : list byte -> list byte) (tAttempt tRecord : Time)
         (ctx : nat -> option error) (c : Client) (cn : Conn)
         (trap : Reply.t) (rest : list byte) (more : list (Conn + error)),
    connected c = false -> fst (canAttempt tAttempt (breaker c)) = true ->
    0 <= RetryAttempts (config c) ->
    writeErrs cn = [] ->
    DecodeSentence (incoming cn) = (inl trap, rest) -> IsTrap trap = true ->
    exists e c',
      Connect md5_Sum tAttempt tRecord ctx (inl cn :: more) c = (Some e, c', more) /\
      IsAuthError e = true.


(** A stand-in for [md5.Sum] in the examples: the course of a login does
    not depend on the value of the digest. *)
Definition noDigest (data : list byte) : list byte := [].

(** A device that traps the single-round login and then closes. *)
Definition trapThenClose : Conn :=
  scriptedConn [wire "!trap" [("message", "invalid user name or password (6)")]].

(** A device that traps the single-round login and the bare [/login]. *)
Definition trapTwice : Conn :=
  scriptedConn [wire "!trap" [("message", "invalid user name or password (6)")];
                wire "!trap" [("message", "cannot log in")]].

(** A device that traps the single-round login and then completes the
    challenge-response login. *)
Definition trapThenLegacy : Conn :=
  scriptedConn [wire "!trap" [("message", "invalid user name or password (6)")];
                wire "!done" [("ret", "00a1b2c3")];
                wire "!done" []].

(** The connection of [c] after the single-round login was written and
    its reply read. *)
Definition afterNewLogin (c : Client) (cn : Conn) (rest : list byte) : Client :=
  setConn c
    (Some {| written := (written cn ++ [EncodeSentence (newLoginSentence (config c))])%list;
             writeErrs := tl (writeErrs cn);
             deadlineErrs := deadlineErrs cn;
             incoming := rest |}).

(** ** interfaces.go: the rate tracker *)

(** [(t Time) IsZero()]: the zero [Time] is the reading 0. *)
Definition IsZero (t : Time) : bool := t =? 0.

(** [(t Time) Sub(u Time) Duration], for readings whose difference fits a
    [Duration]. *)
Definition Sub (t u : Time) : Duration := t - u.

(** [(d Duration) Seconds() float64]:
    [float64(d / Second) + float64(d % Second) / 1e9]. *)
Definition Seconds (d : Duration) : F64.float64 :=
  F64.add (F64.of_Z (Z.quot d 1000000000))
          (F64.div (F64.of_Z (Z.rem d 1000000000)) (F64.of_Z 1000000000)).

Module interfaceState.
Record t : Type := mk {
  rxBytes : Z;
  txBytes : Z;
  rxPackets : Z;
  txPackets : Z;
  timestamp : Time
}.
End interfaceState.

Record interfaceTracker : Type := mkInterfaceTracker {
  states : gmap string interfaceState.t
}.

(** [newInterfaceTracker()]. *)
Definition newInterfaceTracker : interfaceTracker := {| states := ∅ |}.

(** The four results [(rxBps, txBps, rxPps, txPps)]. *)
Definition rates : Type := (F64.float64 * F64.float64 * F64.float64 * F64.float64)%type.

Definition zeroRates : rates := (F64.zero, F64.zero, F64.zero, F64.zero).

(** [(t *interfaceTracker) updateAndCalculateRates(name, rxBytes, txBytes,
    rxPkts, txPkts)] at the clock reading [now]: the rates and the tracker
    after the call. *)
Definition updateAndCalculateRates (now : Time) (t : interfaceTracker) (name : string)
    (rxBytes txBytes rxPkts txPkts : Z) : rates * interfaceTracker :=
  let result :=
    match states t !! name with
    | Some prev =>
        if negb (IsZero (interfaceState.timestamp prev)) then
          let elapsed := Seconds (Sub now (interfaceState.timestamp prev)) in
          if F64.gtb elapsed F64.zero then
            let rxDelta := Handle64BitCounterWrap rxBytes (interfaceState.rxBytes prev) in
            let txDelta := Handle64BitCounterWrap txBytes (interfaceState.txBytes prev) in
            let rxPktDelta :=
              Handle64BitCounterWrap rxPkts (interfaceState.rxPackets prev) in
            let txPktDelta :=
              Handle64BitCounterWrap txPkts (interfaceState.txPackets prev) in
            (F64.div (F64.of_Z rxDelta) elapsed,
             F64.div (F64.of_Z txDelta) elapsed,
             F64.div (F64.of_Z rxPktDelta) elapsed,
             F64.div (F64.of_Z txPktDelta) elapsed)
          else zeroRates
        else zeroRates
    | None => zeroRates
    end in
  (result,
   {| states :=
        <[name := {| interfaceState.rxBytes := rxBytes;
                     interfaceState.txBytes := txBytes;
                     interfaceState.rxPackets := rxPkts;
                     interfaceState.txPackets := txPkts;
                     interfaceState.timestamp := now |}]> (states t) |}).

(** The observation a call records. *)
Definition observation (now : Time) (rxBytes txBytes rxPkts txPkts : Z)
  : interfaceState.t :=
  {| interfaceState.rxBytes := rxBytes;
     interfaceState.txBytes := txBytes;
     interfaceState.rxPackets := rxPkts;
     interfaceState.txPackets := txPkts;
     interfaceState.timestamp := now |}.

(** Each rate as the corrected delta over the seconds since [prev]. *)
Definition deltaOverElapsed (now : Time) (prev : interfaceState.t)
    (rxBytes txBytes rxPkts txPkts : Z) : rates :=
  let elapsed := Seconds (Sub now (interfaceState.timestamp prev)) in
  (F64.div (F64.of_Z (Handle64BitCounterWrap rxBytes (interfaceState.rxBytes prev))) elapsed,
   F64.div (F64.of_Z (Handle64BitCounterWrap txBytes (interfaceState.txBytes prev))) elapsed,
   F64.div (F64.of_Z (Handle64BitCounterWrap rxPkts (interfaceState.rxPackets prev))) elapsed,
   F64.div (F64.of_Z (Handle64BitCounterWrap txPkts (interfaceState.txPackets prev))) elapsed).

(** The rate claim as the specification words it: whenever a previous
    observation of the name exists, the rates are the deltas over the
    elapsed seconds. *)
Definition rates_always_delta_over_elapsed : Prop :=
  forall (now : Time) (t : interfaceTracker) (name : string)
         (rxBytes txBytes rxPkts txPkts : Z) (prev : interfaceState.t),
    states t !! name = Some prev ->
    fst (updateAndCalculateRates now t name rxBytes txBytes rxPkts txPkts)
    = deltaOverElapsed now prev rxBytes txBytes rxPkts txPkts.

(** ** nat.go: connection tracking *)

Record NATConnection : Type := mkNATConnection {
  Protocol : string;
  SrcAddress : string;
  SrcPort : Z;
  DstAddress : string;
  DstPort : Z;
  ReplyAddr : string;
  ReplyPort : Z;
  TCPState : string;
  Timeout_ : Z;
  Assured : bool;
  Confirmed : bool;
  Dying : bool;
  FastTracked : bool;
  GREKey : string;
  GREVersion : string;
  ICMPCode : Z;
  ICMPType : Z;
  ICMPId : Z;
  RxBytes : Z;
  TxBytes : Z;
  RxPackets : Z;
  TxPackets : Z
}.

Record NATStats : Type := mkNATStats {
  TotalConnections : Z;
  SampledCount : Z;
  TCPConnections : Z;
  UDPConnections : Z;
  ICMPConnections : Z;
  OtherConnections : Z;
  MaxEntries : Z;
  TotalTCPEntries : Z;
  TotalUDPEntries : Z;
  TotalICMPEntries : Z
}.

(** [NATConfig], the NAT settings of the collector's configuration. *)
Record NATConfig : Type := mkNATConfig {
  SamplingEnabled : bool;
  SampleRate : F64.float64;
  MaxConnections : Z
}.

(** The text before the last colon of [s] and the text after it. *)
Fixpoint splitLastColon (s : string) : option (string * string) :=
  match s with
  | EmptyString => None
  | String c s' =>
      match splitLastColon s' with
      | Some (addr, port) => Some (String c addr, port)
      | None => if Ascii.eqb c ":" then Some (EmptyString, s') else None
      end
  end.

(** [parseAddressPort(s)]. *)
Definition parseAddressPort (s : string) : string * Z :=
  match splitLastColon s with
  | Some (addr, port) => (addr, ParseInt64 port)
  | None => (s, 0)
  end.

(** [parseTimeout(s)]. *)
Definition parseTimeout (s : string) : Z := ParseUptime s.

(** [parseNATConnection(conn)]: the fields as they stand when the function
    returns. *)
Definition parseNATConnection (conn : gmap string string) : NATConnection :=
  let counter (key : string) : Z :=
    if String.eqb (index conn key) "" then 0 else ParseInt64 (index conn key) in
  {| Protocol := index conn "protocol";
     SrcAddress := fst (parseAddressPort (index conn "src-address"));
     SrcPort := snd (parseAddressPort (index conn "src-address"));
     DstAddress := fst (parseAddressPort (index conn "dst-address"));
     DstPort := snd (parseAddressPort (index conn "dst-address"));
     ReplyAddr := fst (parseAddressPort (index conn "reply-src-address"));
     ReplyPort := snd (parseAddressPort (index conn "reply-src-address"));
     TCPState := index conn "tcp-state";
     Timeout_ := parseTimeout (index conn "timeout");
     Assured := String.eqb (index conn "assured") "true";
     Confirmed := String.eqb (index conn "confirmed") "true";
     Dying := String.eqb (index conn "dying") "true";
     FastTracked := String.eqb (index conn "fasttrack") "true";
     GREKey := index conn "gre-key";
     GREVersion := index conn "gre-version";
     ICMPCode := ParseInt64 (index conn "icmp-code");
     ICMPType := ParseInt64 (index conn "icmp-type");
     ICMPId := ParseInt64 (index conn "icmp-id");
     RxBytes := counter "repl-bytes";
     TxBytes := counter "orig-bytes";
     RxPackets := counter "repl-packets";
     TxPackets := counter "orig-packets" |}.

(** The [switch] on the protocol in the loop of [collectNAT]. *)
Definition countProtocol (stats : NATStats) (protocol : string) : NATStats :=
  let bump (p : string) (n : Z) : Z :=
    if String.eqb protocol p then I64.add n 1 else n in
  let known :=
    String.eqb protocol "tcp" || String.eqb protocol "udp"
    || String.eqb protocol "icmp" in
  {| TotalConnections := TotalConnections stats;
     SampledCount := SampledCount stats;
     TCPConnections := bump "tcp" (TCPConnections stats);
     UDPConnections := bump "udp" (UDPConnections stats);
     ICMPConnections := bump "icmp" (ICMPConnections stats);
     OtherConnections :=
       if known then OtherConnections stats else I64.add (OtherConnections stats) 1;
     MaxEntries := MaxEntries stats;
     TotalTCPEntries := TotalTCPEntries stats;
     TotalUDPEntries := TotalUDPEntries stats;
     TotalICMPEntries := TotalICMPEntries stats |}.

(** Whether the loop draws a random number for each row. *)
Definition samples (cfg : NATConfig) : bool :=
  SamplingEnabled cfg && F64.ltb (SampleRate cfg) (F64.of_Z 1).

(** The loop of [collectNAT] from the row of index [i] on.  [rand k] is
    the value of the [k]-th call of [rand.Float64], [drawn] the number of
    calls made so far.  The result is the rows kept, the counts, and the
    number of draws made. *)
Fixpoint natLoop (cfg : NATConfig) (rand : nat -> F64.float64) (maxConns : Z)
    (i : Z) (connections : list (gmap string string))
    (result : list NATConnection) (stats : NATStats) (drawn : nat)
  : list NATConnection * NATStats * nat :=
  match connections with
  | [] => (result, stats, drawn)
  | conn :: rest =>
      if samples cfg && F64.gtb (rand drawn) (SampleRate cfg) then
        natLoop cfg rand maxConns (i + 1) rest result stats (S drawn)
      else
        let drawn' := if samples cfg then S drawn else drawn in
        if maxConns <=? Z.of_nat (List.length result) then (result, stats, drawn')
        else
          let natConn := parseNATConnection conn in
          let stats' := countProtocol stats (Protocol natConn) in
          let result' := (result ++ [natConn])%list in
          if 100000 <? i then (result', stats', drawn')
          else natLoop cfg rand maxConns (i + 1) rest result' stats' drawn'
  end.

(** [maxConns] as [collectNAT] settles it. *)
Definition effectiveMaxConns (cfg : NATConfig) : Z :=
  if MaxConnections cfg <=? 0 then 10000 else MaxConnections cfg.

Definition emptyNATStats : NATStats :=
  {| TotalConnections := 0; SampledCount := 0; TCPConnections := 0;
     UDPConnections := 0; ICMPConnections := 0; OtherConnections := 0;
     MaxEntries := 0; TotalTCPEntries := 0; TotalUDPEntries := 0;
     TotalICMPEntries := 0 |}.

(** [(c *Collector) collectNAT(ctx, client)] with the NAT settings of the
    collector's configuration: the connections, the statistics, the error,
    and the client after the two commands. *)
Definition collectNAT (cfg : NATConfig) (rand : nat -> F64.float64) (client : Client)
  : list NATConnection * NATStats * option error * Client :=
  let '(ctStats, err, client1) :=
    RunOne client "/ip/firewall/connection/tracking/print" [] in
  let stats :=
    match err, ctStats with
    | None, Some ct =>
        {| TotalConnections := 0; SampledCount := 0; TCPConnections := 0;
           UDPConnections := 0; ICMPConnections := 0; OtherConnections := 0;
           MaxEntries := ParseInt64 (index ct "max-entries");
           TotalTCPEntries := ParseInt64 (index ct "total-tcp-entries");
           TotalUDPEntries := ParseInt64 (index ct "total-udp-entries");
           TotalICMPEntries := ParseInt64 (index ct "total-icmp-entries") |}
    | _, _ => emptyNATStats
    end in
  match Run client1 "/ip/firewall/connection/print" [] with
  | (_, Some err2, client2) => ([], stats, Some err2, client2)
  | (connections, None, client2) =>
      let stats1 :=
        {| TotalConnections := Z.of_nat (List.length connections);
           SampledCount := SampledCount stats;
           TCPConnections := TCPConnections stats;
           UDPConnections := UDPConnections stats;
           ICMPConnections := ICMPConnections stats;
           OtherConnections := OtherConnections stats;
           MaxEntries := MaxEntries stats;
           TotalTCPEntries := TotalTCPEntries stats;
           TotalUDPEntries := TotalUDPEntries stats;
           TotalICMPEntries := TotalICMPEntries stats |} in
      let '(result, stats2, _) :=
        natLoop cfg rand (effectiveMaxConns cfg) 0 connections [] stats1 O in
      (result,
       {| TotalConnections := TotalConnections stats2;
          SampledCount := Z.of_nat (List.length result);
          TCPConnections := TCPConnections stats2;
          UDPConnections := UDPConnections stats2;
          ICMPConnections := ICMPConnections stats2;
          OtherConnections := OtherConnections stats2;
          MaxEntries := MaxEntries stats2;
          TotalTCPEntries := TotalTCPEntries stats2;
          TotalUDPEntries := TotalUDPEntries stats2;
          TotalICMPEntries := TotalICMPEntries stats2 |},
       None, client2)
  end.

(** ** Connection tables for the examples *)

Definition natRow (protocol : string) : gmap string string :=
  list_to_map [("protocol", protocol); ("src-address", "10.0.0.2:40000");
               ("dst-address", "1.1.1.1:53")].

Definition halfRate : NATConfig :=
  {| SamplingEnabled := true; SampleRate := F64.ratio 1 2; MaxConnections := 10 |}.

(** Sampling enabled with a sample rate of zero. *)
Definition zeroRate : NATConfig :=
  {| SamplingEnabled := true; SampleRate := F64.zero; MaxConnections := 10 |}.

(** Draws that fall above one half for the first [n] rows and below it
    after. *)
Definition highThenLow (n : nat) (k : nat) : F64.float64 :=
  if (k <? n)%nat then F64.ratio 3 4 else F64.ratio 1 4.

(** The counts after the rows [pre] were all kept. *)
Definition countAll (stats : NATStats) (pre : list (gmap string string)) : NATStats :=
  fold_left (fun s conn => countProtocol s (Protocol (parseNATConnection conn))) pre stats.

Definition noSampling (maxConns : Z) : NATConfig :=
  {| SamplingEnabled := false; SampleRate := F64.of_Z 1; MaxConnections := maxConns |}.


(** ** package api: the rest of the sentence interface *)

(** [ParseAttributeWord(word)]: key, value, and whether the word is an
    attribute word. *)
Definition ParseAttributeWord (word : string) : string * string * bool :=
  if negb (HasPrefix word "=") then (EmptyString, EmptyString, false)
  else
    match splitFirstEq (sliceFrom 1 word) with
    | None => (sliceFrom 1 word, EmptyString, true)
    | Some (key, value) => (key, value, true)
    end.

(** The number of bytes [DecodeLength] reads after a first byte [b]. *)
Definition continuation (b : byte) : nat :=
  if b <? 0x80 then 0
  else if b <? 0xC0 then 1
  else if b <? 0xE0 then 2
  else if b <? 0xF0 then 3
  else 4.

(** The attribute map a decoder is left with after the pairs [data] came
    in this order: a later pair overrides an earlier one with its key. *)
Definition attrs (data : list (string * string)) : gmap string string :=
  fold_left (fun m kv => <[fst kv := snd kv]> m) data ∅.

(** A word short enough for its length to be written in the five-byte
    encoding. *)
Definition encodable (word : string) : Prop :=
  Z.of_nat (String.length word) < 2 ^ 32.

(** A pair whose attribute word [=key=value] reads back as the same pair:
    the key holds no [=] and the word is short enough. *)
Definition attributeOk (kv : string * string) : Prop :=
  Contains (fst kv) "=" = false /\
  encodable ("=" +:+ fst kv +:+ "=" +:+ snd kv).

(** ** api/errors.go and api/client.go: the remaining predicates *)

(** [IsConnectionError(err)]. *)
Definition IsConnectionError (err : error) : bool :=
  match asAPIError err with
  | Some e => ErrType_eqb (APIError.Type_ e) ErrTypeConnection
  | None => false
  end.

(** [IsCircuitOpenError(err)]. *)
Definition IsCircuitOpenError (err : error) : bool :=
  match asAPIError err with
  | Some e => ErrType_eqb (APIError.Type_ e) ErrTypeCircuitOpen
  | None => false
  end.

(** A dial attempt that fails. *)
Definition dialFails (d : Conn + error) : Prop :=
  match d with
  | inr _ => True
  | inl _ => False
  end.

(** The client [c] on the connection [cn] when the peer has still [bytes]
    to send. *)
Definition withIncoming (c : Client) (cn : Conn) (bytes : list byte) : Client :=
  setConn c (Some {| written := written cn; writeErrs := writeErrs cn;
                     deadlineErrs := deadlineErrs cn; incoming := bytes |}).

(** The bytes of a command's answer: a [!re] sentence for each row, then
    [!done]. *)
Definition answer (rows : list (list (string * string))) : list byte :=
  (concat (map (wire "!re") rows) ++ wire "!done" [])%list.

(** The reply a decoder builds from a type and the attribute pairs that
    follow it. *)
Definition mkData (type : string) (data : list (string * string)) : Reply.t :=
  {| Reply.Type_ := type; Reply.Data := attrs data; Reply.Tag := "" |}.

(** An error that is not a [FatalError]. *)
Definition notFatal (err : error) : Prop :=
  forall e, asAPIError err = Some e -> APIError.Type_ e <> ErrTypeFatal.

(** [(c *Client) GetRouterIdentity(ctx)]. *)
Definition GetRouterIdentity (c : Client) : string * option error * Client :=
  match RunOne c "/system/identity/print" [] with
  | (_, Some err, c1) => (EmptyString, Some err, c1)
  | (None, None, c1) => (EmptyString, None, c1)
  | (Some result, None, c1) => (index result "name", None, c1)
  end.

(** The client holds a connection on which the sentences [pre] were
    written first, in this order. *)
Definition sent (c : Client) (pre : list (list byte)) : Prop :=
  exists cn more, conn c = Some cn /\ written cn = (pre ++ more)%list.

(** ** The circuit breaker: histories without a success *)

(** An operation other than [recordSuccess] and [reset]. *)
Definition keepsCount (op : breakerOp) : bool :=
  match op with
  | OpCanAttempt _ | OpRecordFailure _ => true
  | OpRecordSuccess | OpReset => false
  end.

(** The number of [recordFailure] calls in a history. *)
Fixpoint countFailures (ops : list breakerOp) : Z :=
  match ops with
  | [] => 0
  | OpRecordFailure _ :: rest => 1 + countFailures rest
  | _ :: rest => countFailures rest
  end.

(** ** pppoe.go: the remaining parsers *)

(** The text before the first byte [sep] of [s] and the text after it;
    [None] when [s] holds no such byte. *)
Fixpoint cutFirst (sep : ascii) (s : string) : option (string * string) :=
  match s with
  | EmptyString => None
  | String c s' =>
      if Ascii.eqb c sep then Some (EmptyString, s')
      else
        match cutFirst sep s' with
        | Some (before, after) => Some (String c before, after)
        | None => None
        end
  end.

(** The text before the last byte [sep] of [s] and the text after it. *)
Fixpoint cutLast (sep : ascii) (s : string) : option (string * string) :=
  match s with
  | EmptyString => None
  | String c s' =>
      match cutLast sep s' with
      | Some (before, after) => Some (String c before, after)
      | None => if Ascii.eqb c sep then Some (EmptyString, s') else None
      end
  end.

(** [parseBytePair(s)]: the loop returns at the first comma; without one
    the single value is used for both. *)
Definition parseBytePair (s : string) : Z * Z :=
  match cutFirst "," s with
  | Some (rx, tx) => (ParseInt64 rx, ParseInt64 tx)
  | None => let v := ParseInt64 s in (v, v)
  end.

(** [ParseBool(s)]; [lowerCase] is the case table of [unicode.ToLower]
    above ASCII. *)
Definition ParseBool (lowerCase : Z -> Z) (s : string) : bool :=
  let s := TrimSpace (ToLower lowerCase s) in
  String.eqb s "true" || String.eqb s "yes".

(** [strconv.ParseUint(s, 10, 64)]: at least one digit and nothing else,
    no sign; [None] stands for the syntax and range errors. *)
Definition ParseUint (s : string) : option Z :=
  if String.eqb s "" || negb (allDigits s) then None
  else
    let n := decimal s in
    if n <? 2 ^ 64 then Some n else None.

(** [ParseUint64(s)]. *)
Definition ParseUint64 (s : string) : Z :=
  let s := TrimSpace s in
  if String.eqb s "" then 0
  else match ParseUint s with
       | Some v => v
       | None => 0
       end.

(** A string of ASCII white space only. *)
Fixpoint allSpace (s : string) : bool :=
  match s with
  | EmptyString => true
  | String c s' => strings.asciiSpace c && allSpace s'
  end.

(** A string of ASCII bytes only. *)
Definition isASCII (s : string) : bool := strings.isASCII (charsOf s).

(** ** nat.go: what the statistics count *)

(** The number of kept connections of protocol [p]. *)
Definition protocolCount (p : string) (l : list NATConnection) : Z :=
  Z.of_nat (List.length (List.filter (fun n => String.eqb (Protocol n) p) l)).

(** The number of kept connections whose protocol is none of [tcp], [udp]
    and [icmp]. *)
Definition otherCount (l : list NATConnection) : Z :=
  Z.of_nat (List.length
              (List.filter
                 (fun n => negb (String.eqb (Protocol n) "tcp"
                                 || String.eqb (Protocol n) "udp"
                                 || String.eqb (Protocol n) "icmp")) l)).

(** The protocol counters of [stats] count the rows of [result]. *)
Definition countsMatch (stats : NATStats) (result : list NATConnection) : Prop :=
  TCPConnections stats = protocolCount "tcp" result /\
  UDPConnections stats = protocolCount "udp" result /\
  ICMPConnections stats = protocolCount "icmp" result /\
  OtherConnections stats = otherCount result.

(** ** dhcp.go: the addresses of a pool

    The loop of [splitRanges] ranges over the runes of the text and
    builds each piece with [current += string(c)], so a byte that is part
    of no valid encoding comes out as U+FFFD.  The loop of [parseIPRange]
    ranges over the runes as well, but looks for the ASCII byte ['-']
    alone and slices the text at its index: a continuation byte is never
    ASCII, so that is the scan over the bytes of [cutFirst]. *)

(** The loop of [splitRanges] over the runes [range s] yields: [current]
    is the piece being collected. *)
Fixpoint splitRangesFrom (current : string) (cs : list Z) : list string :=
  match cs with
  | [] => if String.eqb current "" then [] else [current]
  | c :: cs' =>
      if c =? 44 then
        ((if String.eqb current "" then [] else [current])
           ++ splitRangesFrom EmptyString cs')%list
      else if negb (c =? 32) then
        splitRangesFrom (current +:+ runeString c) cs'
      else splitRangesFrom current cs'
  end.

(** [splitRanges(s)]; 44 and 32 are the runes [','] and [' ']. *)
Definition splitRanges (s : string) : list string :=
  splitRangesFrom EmptyString (runes s).

(** [parseLastOctet(ip)]: the number after the last dot, 0 without a dot. *)
Definition parseLastOctet (ip : string) : Z :=
  match cutLast "." ip with
  | None => 0
  | Some (_, octet) => ParseInt64 octet
  end.

(** [parseIPRange(r)]: the last octets of the two addresses around the
    first dash, [(0, 0)] without a dash. *)
Definition parseIPRange (r : string) : Z * Z :=
  match cutFirst "-" r with
  | None => (0, 0)
  | Some (start, end_) => (parseLastOctet start, parseLastOctet end_)
  end.

(** The body of the loop of [countPoolAddresses]. *)
Definition addRange (total : Z) (r : string) : Z :=
  let '(start, end_) := parseIPRange r in
  if start <=? end_ then I64.add total (I64.wrap (I64.wrap (end_ - start) + 1))
  else total.

(** [countPoolAddresses(ranges)]. *)
Definition countPoolAddresses (ranges : string) : Z :=
  if String.eqb ranges "" then 0
  else fold_left addRange (splitRanges ranges) 0.

(** A text with its spaces taken out. *)
Fixpoint dropSpaces (s : string) : string :=
  match s with
  | EmptyString => EmptyString
  | String c s' => if Ascii.eqb c " " then dropSpaces s' else String c (dropSpaces s')
  end.

(** A text written out again rune by rune, as [string(c)] does for each
    rune [c] of [range s]: every byte that is part of no valid encoding
    becomes U+FFFD, and the rest stays as it is. *)
Definition reencode (s : string) : string :=
  ofChars (concat (map (fun ch => utf8.EncodeRune (fst ch)) (rangeString (charsOf s)))).

(** [utf8.ValidString(s)]: no rune of [s] is read from a byte that starts
    no valid encoding. *)
Definition ValidString (s : string) : bool :=
  forallb (fun ch : Z * list ascii =>
             negb ((fst ch =? utf8.RuneError) && (List.length (snd ch) =? 1)%nat))
          (rangeString (charsOf s)).

(** ** interfaces.go: collecting the interfaces *)

(** [InterfaceMetrics]: the fields of the embedded [models.InterfaceMetrics],
    then the extended ones. *)
Module InterfaceMetrics.
Record t : Type := mk {
  Name : string;
  Description : string;
  IsUp : bool;
  SpeedMbps : Z;
  RxBytes : Z;
  TxBytes : Z;
  RxPackets : Z;
  TxPackets : Z;
  RxErrors : Z;
  TxErrors : Z;
  RxDrops : Z;
  TxDrops : Z;
  Type_ : string;
  MAC : string;
  MTU : Z;
  Enabled : bool;
  RxBytesPerSec : F64.float64;
  TxBytesPerSec : F64.float64;
  RxPktsPerSec : F64.float64;
  TxPktsPerSec : F64.float64;
  FullDuplex : bool
}.
End InterfaceMetrics.

Record ethernetStats : Type := mkEthernetStats {
  speed : Z;
  fullDuplex : bool
}.

(** The loop of [getEthernetStats] over the rows: the first row of that
    name, or the zero value. *)
Fixpoint findEthernet (lowerCase : Z -> Z) (name : string)
    (results : list (gmap string string)) : ethernetStats :=
  match results with
  | [] => {| speed := 0; fullDuplex := false |}
  | r :: rest =>
      if String.eqb (index r "name") name then
        {| speed := ParseSpeed lowerCase (index r "speed");
           fullDuplex := String.eqb (index r "full-duplex") "true" |}
      else findEthernet lowerCase name rest
  end.

(** [(c *Collector) getEthernetStats(ctx, client, name)].  The sentence
    with the query that the function builds first is not sent: [Run] is
    called with the command and the [.proplist] argument alone.
    [lowerCase] is the case table of [unicode.ToLower] above ASCII, which
    [ParseSpeed] reads the speed with. *)
Definition getEthernetStats (lowerCase : Z -> Z) (client : Client) (name : string)
  : option ethernetStats * option error * Client :=
  match Run client "/interface/ethernet/print"
          [(".proplist", "name,speed,full-duplex")] with
  | (_, Some err, client1) => (None, Some err, client1)
  | (results, None, client1) => (Some (findEthernet lowerCase name results), None, client1)
  end.

(** The loop of [collectInterfaces] over the rows of [/interface/print].
    [clock k] is the reading of the [k]-th call of [time.Now] that the
    tracker makes, [tick] the number of calls made so far. *)
Fixpoint interfacesLoop (lowerCase : Z -> Z) (include exclude : list string)
    (clock : nat -> Time)
    (interfaces : list (gmap string string)) (client : Client)
    (tracker : interfaceTracker) (tick : nat) (result : list InterfaceMetrics.t)
  : list InterfaceMetrics.t * Client * interfaceTracker * nat :=
  match interfaces with
  | [] => (result, client, tracker, tick)
  | iface :: rest =>
      let name := index iface "name" in
      if negb (MatchFilter name include exclude) then
        interfacesLoop lowerCase include exclude clock rest client tracker tick result
      else
        let type := index iface "type" in
        let '(ether, client1) :=
          if String.eqb type "ether" then
            match getEthernetStats lowerCase client name with
            | (Some st, None, c1) => (Some st, c1)
            | (_, _, c1) => (None, c1)
            end
          else (None, client) in
        let rxBytes := ParseInt64 (index iface "rx-byte") in
        let txBytes := ParseInt64 (index iface "tx-byte") in
        let rxPackets := ParseInt64 (index iface "rx-packet") in
        let txPackets := ParseInt64 (index iface "tx-packet") in
        let '(rxBps, txBps, rxPps, txPps, tracker1) :=
          updateAndCalculateRates (clock tick) tracker name
            (U64.wrap rxBytes) (U64.wrap txBytes)
            (U64.wrap rxPackets) (U64.wrap txPackets) in
        let metrics :=
          {| InterfaceMetrics.Name := name;
             InterfaceMetrics.Description := index iface "comment";
             InterfaceMetrics.IsUp := String.eqb (index iface "running") "true";
             InterfaceMetrics.SpeedMbps :=
               match ether with Some st => speed st | None => 0 end;
             InterfaceMetrics.RxBytes := rxBytes;
             InterfaceMetrics.TxBytes := txBytes;
             InterfaceMetrics.RxPackets := rxPackets;
             InterfaceMetrics.TxPackets := txPackets;
             InterfaceMetrics.RxErrors := ParseInt64 (index iface "rx-error");
             InterfaceMetrics.TxErrors := ParseInt64 (index iface "tx-error");
             InterfaceMetrics.RxDrops := ParseInt64 (index iface "rx-drop");
             InterfaceMetrics.TxDrops := ParseInt64 (index iface "tx-drop");
             InterfaceMetrics.Type_ := type;
             InterfaceMetrics.MAC := index iface "mac-address";
             InterfaceMetrics.MTU := ParseInt64 (index iface "mtu");
             InterfaceMetrics.Enabled :=
               negb (String.eqb (index iface "disabled") "true");
             InterfaceMetrics.RxBytesPerSec := rxBps;
             InterfaceMetrics.TxBytesPerSec := txBps;
             InterfaceMetrics.RxPktsPerSec := rxPps;
             InterfaceMetrics.TxPktsPerSec := txPps;
             InterfaceMetrics.FullDuplex :=
               match ether with Some st => fullDuplex st | None => false end |} in
        interfacesLoop lowerCase include exclude clock rest client1 tracker1 (S tick)
          (result ++ [metrics])%list
  end.

(** [(c *Collector) collectInterfaces(ctx, client)], with the include and
    exclude patterns of the collector's configuration and its tracker: the
    metrics, the error, the client and the tracker after the call, and the
    number of clock readings taken. *)
Definition collectInterfaces (lowerCase : Z -> Z) (include exclude : list string)
    (clock : nat -> Time) (client : Client) (tracker : interfaceTracker) (tick : nat)
  : list InterfaceMetrics.t * option error * Client * interfaceTracker * nat :=
  match Run client "/interface/print" [] with
  | (_, Some err, client1) => ([], Some err, client1, tracker, tick)
  | (interfaces, None, client1) =>
      let '(result, client2, tracker1, tick1) :=
        interfacesLoop lowerCase include exclude clock interfaces client1 tracker tick []
      in
      (result, None, client2, tracker1, tick1)
  end.

(** The names of the rows that pass the filter, in the order of the rows. *)
Definition passing (include exclude : list string)
    (interfaces : list (gmap string string)) : list string :=
  List.filter (fun name => MatchFilter name include exclude)
    (map (fun iface => index iface "name") interfaces).

(** ** package collector: the registry *)

Section RegistryDefinitions.

(** A [Collector] is an interface; the registry uses its method [Type]
    alone. *)
Variable Collector : Type.
Variable Type_of : Collector -> string.

Record Registry : Type := mkRegistry {
  collectors : gmap string Collector
}.

(** [NewRegistry()]. *)
Definition NewRegistry : Registry := {| collectors := ∅ |}.

(** [(r *Registry) Register(collector)]: the error and the registry after
    the call. *)
Definition Register (r : Registry) (collector : Collector) : option error * Registry :=
  let collectorType := Type_of collector in
  match collectors r !! collectorType with
  | Some _ =>
      (Some (ErrOther ("collector for type " +:+ collectorType +:+ " already registered")),
       r)
  | None => (None, {| collectors := <[collectorType := collector]> (collectors r) |})
  end.

(** [(r *Registry) Get(routerType)]. *)
Definition Get (r : Registry) (routerType : string) : Collector + error :=
  match collectors r !! routerType with
  | Some collector => inl collector
  | None => inr (ErrOther ("no collector found for router type: " +:+ routerType))
  end.

(** [(r *Registry) Has(routerType)]. *)
Definition Has (r : Registry) (routerType : string) : bool :=
  match collectors r !! routerType with
  | Some _ => true
  | None => false
  end.

End RegistryDefinitions.

Arguments collectors {Collector} _.
Arguments NewRegistry {Collector}.
Arguments Register {Collector} _ _ _.
Arguments Get {Collector} _ _.
Arguments Has {Collector} _ _.

(** ** package license: the offline grace period *)

Record OfflineManager : Type := mkOfflineManager {
  graceHours : Z;
  lastValidation : Time;
  lastValidationOK : bool
}.

(** [NewOfflineManager(graceHours)]: [lastValidation] is the zero time. *)
Definition NewOfflineManager (graceHours : Z) : OfflineManager :=
  {| graceHours := graceHours; lastValidation := 0; lastValidationOK := false |}.

(** [(o *OfflineManager) RecordValidation(success)] at the clock reading
    [now]. *)
Definition RecordValidation (now : Time) (o : OfflineManager) (success : bool)
  : OfflineManager :=
  {| graceHours := graceHours o; lastValidation := now; lastValidationOK := success |}.

(** The three errors of [CanOperate], by what their message says. *)
Inductive offlineError : Type :=
  | NoPreviousValidation
  | LastValidationFailed
  | GraceExpired (expiresAt : Time).

(** [time.Duration(o.graceHours) * time.Hour]. *)
Definition gracePeriod (o : OfflineManager) : Duration :=
  I64.mul (graceHours o) 3600000000000.

(** [(o *OfflineManager) CanOperate()] at the clock reading [now]. *)
Definition CanOperate (now : Time) (o : OfflineManager) : bool * option offlineError :=
  if IsZero (lastValidation o) then (false, Some NoPreviousValidation)
  else if negb (lastValidationOK o) then (false, Some LastValidationFailed)
  else
    let expiresAt := lastValidation o + gracePeriod o in
    if expiresAt <? now then (false, Some (GraceExpired expiresAt))
    else (true, None).

(** [time.Until(t)], that is [t.Sub(time.Now())]: the difference, held to
    the range of a [Duration]. *)
Definition Until (now t : Time) : Duration :=
  if t - now <? I64.min then I64.min
  else if I64.max <? t - now then I64.max
  else t - now.

(** [(o *OfflineManager) GetGraceRemaining()] at the clock reading [now]. *)
Definition GetGraceRemaining (now : Time) (o : OfflineManager) : Duration :=
  if IsZero (lastValidation o) then 0
  else
    let expiresAt := lastValidation o + gracePeriod o in
    let remaining := Until now expiresAt in
    if remaining <? 0 then 0 else remaining.

(** ** package privacy: redacting a MAC address *)

(** [strings.Join(elems, sep)]. *)
Fixpoint Join (elems : list string) (sep : string) : string :=
  match elems with
  | [] => EmptyString
  | e :: rest =>
      match rest with
      | [] => e
      | _ :: _ => e +:+ sep +:+ Join rest sep
      end
  end.

(** A byte that the expression [[:-]] matches. *)
Definition isMACSeparator (c : ascii) : bool := Ascii.eqb c ":" || Ascii.eqb c "-".

(** [regexp.MustCompile(`[:-]`).Split(s, -1)] for a text that is not
    empty: the pieces between the separators; [cur] is the piece being
    collected. *)
Fixpoint splitMAC (cur : string) (s : string) : list string :=
  match s with
  | EmptyString => [cur]
  | String c s' =>
      if isMACSeparator c then cur :: splitMAC EmptyString s'
      else splitMAC (cur +:+ String c EmptyString) s'
  end.

(** [(r *Redactor) RedactMACAddress(mac)]. *)
Definition RedactMACAddress (mac : string) : string :=
  if String.eqb mac "" then mac
  else
    let parts := splitMAC EmptyString mac in
    if (List.length parts <? 3)%nat then mac
    else Join (firstn 3 parts) ":" +:+ ":xx:xx:xx".

(** A text without a separator. *)
Fixpoint noSeparator (s : string) : bool :=
  match s with
  | EmptyString => true
  | String c s' => negb (isMACSeparator c) && noSeparator s'
  end.

(** The number of separators in a text. *)
Fixpoint separators (s : string) : nat :=
  match s with
  | EmptyString => O
  | String c s' => if isMACSeparator c then S (separators s') else separators s'
  end.

(** ** package config: validation *)

Module RouterConfig.
Record t : Type := mk {
  ID : string;
  Name : string;
  Type_ : string;
  Address : string;
  Username : string;
  Password : string
}.
End RouterConfig.

(** The fields of [Config] that [Validate] reads. *)
Record AgentConfig : Type := mkAgentConfig {
  ServerAddress : string;
  LicenseKey : string;
  Routers : list RouterConfig.t
}.

(** The errors of [Validate], by what their message names; [i] is the
    index of the router. *)
Inductive validateError : Type :=
  | ServerAddressRequired
  | LicenseKeyRequired
  | NoRouterConfigured
  | RouterIDRequired (i : nat)
  | RouterTypeRequired (i : nat)
  | RouterAddressRequired (i : nat).

(** The loop of [Validate] over the routers, from index [i] on. *)
Fixpoint validateRouters (i : nat) (routers : list RouterConfig.t)
  : option validateError :=
  match routers with
  | [] => None
  | router :: rest =>
      if String.eqb (RouterConfig.ID router) "" then Some (RouterIDRequired i)
      else if String.eqb (RouterConfig.Type_ router) "" then Some (RouterTypeRequired i)
      else if String.eqb (RouterConfig.Address router) "" then
        Some (RouterAddressRequired i)
      else validateRouters (S i) rest
  end.

(** [(c *Config) Validate()]. *)
Definition Validate (c : AgentConfig) : option validateError :=
  if String.eqb (ServerAddress c) "" then Some ServerAddressRequired
  else if String.eqb (LicenseKey c) "" then Some LicenseKeyRequired
  else if Nat.eqb (List.length (Routers c)) 0 then Some NoRouterConfigured
  else validateRouters 0 (Routers c).

(** A router entry with its three required fields. *)
Definition routerComplete (router : RouterConfig.t) : bool :=
  negb (String.eqb (RouterConfig.ID router) "")
  && negb (String.eqb (RouterConfig.Type_ router) "")
  && negb (String.eqb (RouterConfig.Address router) "").

(** A text that is empty or starts with a separator: what may follow the
    third part of a MAC address. *)
Definition atSeparator (s : string) : bool :=
  match s with
  | EmptyString => true
  | String c _ => isMACSeparator c
  end.

(** The error [Validate] reports for a router entry that is not complete:
    the first missing field in the order id, type, address. *)
Definition firstMissing (i : nat) (router : RouterConfig.t) : validateError :=
  if String.eqb (RouterConfig.ID router) "" then RouterIDRequired i
  else if String.eqb (RouterConfig.Type_ router) "" then RouterTypeRequired i
  else RouterAddressRequired i.

(** ** dhcp.go: collecting leases, pools and servers *)

Module DHCPLease.
Record t : Type := mk {
  ID : string;
  Address : string;
  MACAddress : string;
  Hostname : string;
  Comment : string;
  ServerName : string;
  Status : string;
  ExpiresAfter : Z;
  ExpiresAt : Time;
  LastSeen : Time;
  ActiveServer : string;
  Blocked : bool;
  Disabled : bool;
  Dynamic : bool;
  RateLimit : string;
  AddressLists : string
}.
End DHCPLease.

Module DHCPPoolStats.
Record t : Type := mk {
  Name : string;
  Ranges : string;
  TotalAddresses : Z;
  UsedAddresses : Z;
  FreeAddresses : Z;
  Utilization : F64.float64
}.
End DHCPPoolStats.

Module DHCPServerStats.
Record t : Type := mk {
  Name : string;
  Interface : string;
  AddressPool : string;
  LeaseTime : string;
  Disabled : bool;
  Authoritative : bool;
  ActiveLeases : Z;
  TotalLeases : Z
}.
End DHCPServerStats.

(** [m[key]++] on a [map[string]int] or a [map[string]int64]. *)
Definition increment (m : gmap string Z) (key : string) : gmap string Z :=
  <[key := I64.add (default 0 (m !! key)) 1]> m.

(** [m[key]] of such a map: zero when absent. *)
Definition countOf (m : gmap string Z) (key : string) : Z := default 0 (m !! key).

Section CollectDHCP.

(** [ParseTimestamp] of pppoe.go, which reads a date with [time.Parse]. *)
Variable ParseTimestamp : string -> Time.

(** The lease built from a row at the clock reading [now]. *)
Definition parseLease (now : Time) (l : gmap string string) : DHCPLease.t :=
  let expiresAfter := ParseUptime (index l "expires-after") in
  {| DHCPLease.ID := index l ".id";
     DHCPLease.Address := index l "address";
     DHCPLease.MACAddress := index l "mac-address";
     DHCPLease.Hostname := index l "host-name";
     DHCPLease.Comment := index l "comment";
     DHCPLease.ServerName := index l "server";
     DHCPLease.Status := index l "status";
     DHCPLease.ExpiresAfter := expiresAfter;
     DHCPLease.ExpiresAt :=
       if 0 <? expiresAfter then now + I64.mul expiresAfter 1000000000 else 0;
     DHCPLease.LastSeen :=
       if String.eqb (index l "last-seen") "" then 0
       else ParseTimestamp (index l "last-seen");
     DHCPLease.ActiveServer := index l "active-server";
     DHCPLease.Blocked := String.eqb (index l "blocked") "true";
     DHCPLease.Disabled := String.eqb (index l "disabled") "true";
     DHCPLease.Dynamic := String.eqb (index l "dynamic") "true";
     DHCPLease.RateLimit := index l "rate-limit";
     DHCPLease.AddressLists := index l "address-lists" |}.

(** The loop over the lease rows: the leases, and the two counts per
    server name. *)
Fixpoint leaseLoop (now : Time) (leases : list (gmap string string))
    (leaseList : list DHCPLease.t) (serverLeaseCounts serverActiveCounts : gmap string Z)
  : list DHCPLease.t * gmap string Z * gmap string Z :=
  match leases with
  | [] => (leaseList, serverLeaseCounts, serverActiveCounts)
  | l :: rest =>
      let lease := parseLease now l in
      let server := DHCPLease.ServerName lease in
      let counts :=
        if negb (String.eqb server "") then increment serverLeaseCounts server
        else serverLeaseCounts in
      let active :=
        if negb (String.eqb server "") && String.eqb (DHCPLease.Status lease) "bound"
        then increment serverActiveCounts server
        else serverActiveCounts in
      leaseLoop now rest (leaseList ++ [lease])%list counts active
  end.

(** The statistics of a pool row, with the usage counted so far. *)
Definition poolStatsOf (poolUsage : gmap string Z) (p : gmap string string)
  : DHCPPoolStats.t :=
  let name := index p "name" in
  let ranges := index p "ranges" in
  let total := countPoolAddresses ranges in
  let used := countOf poolUsage name in
  {| DHCPPoolStats.Name := name;
     DHCPPoolStats.Ranges := ranges;
     DHCPPoolStats.TotalAddresses := total;
     DHCPPoolStats.UsedAddresses := used;
     DHCPPoolStats.FreeAddresses := I64.wrap (total - used);
     DHCPPoolStats.Utilization :=
       if 0 <? total
       then F64.mul (F64.div (F64.of_Z used) (F64.of_Z total)) (F64.of_Z 100)
       else F64.zero |}.

(** The statistics of a server row, with the lease counts. *)
Definition serverStatsOf (serverLeaseCounts serverActiveCounts : gmap string Z)
    (s : gmap string string) : DHCPServerStats.t :=
  let name := index s "name" in
  {| DHCPServerStats.Name := name;
     DHCPServerStats.Interface := index s "interface";
     DHCPServerStats.AddressPool := index s "address-pool";
     DHCPServerStats.LeaseTime := index s "lease-time";
     DHCPServerStats.Disabled := String.eqb (index s "disabled") "true";
     DHCPServerStats.Authoritative :=
       String.eqb (index s "authoritative") "yes"
       || String.eqb (index s "authoritative") "true";
     DHCPServerStats.TotalLeases := countOf serverLeaseCounts name;
     DHCPServerStats.ActiveLeases := countOf serverActiveCounts name |}.

(** The rows of a [Run] whose error is dropped: none on an error. *)
Definition rowsOrNone (r : list (gmap string string) * option error * Client)
  : list (gmap string string) * Client :=
  match r with
  | (_, Some _, client) => ([], client)
  | (rows, None, client) => (rows, client)
  end.

(** [(c *Collector) collectDHCP(ctx, client)] with the clock reading
    [now] of its one call of [time.Now]. *)
Definition collectDHCP (now : Time) (client : Client)
  : list DHCPLease.t * list DHCPPoolStats.t * list DHCPServerStats.t
    * option error * Client :=
  match Run client "/ip/dhcp-server/lease/print" [] with
  | (_, Some err, client1) => ([], [], [], Some err, client1)
  | (leases, None, client1) =>
      let '(leaseList, serverLeaseCounts, serverActiveCounts) :=
        leaseLoop now leases [] ∅ ∅ in
      let '(pools, client2) := rowsOrNone (Run client1 "/ip/pool/print" []) in
      let '(poolUsedAddrs, client3) := rowsOrNone (Run client2 "/ip/pool/used/print" []) in
      let poolUsage :=
        fold_left (fun usage used => increment usage (index used "pool"))
          poolUsedAddrs ∅ in
      let poolStats := map (poolStatsOf poolUsage) pools in
      let '(servers, client4) := rowsOrNone (Run client3 "/ip/dhcp-server/print" []) in
      let serverStats :=
        map (serverStatsOf serverLeaseCounts serverActiveCounts) servers in
      (leaseList, poolStats, serverStats, None, client4)
  end.

End CollectDHCP.

(** The number of leases of the server [name], and of those that are
    bound; leases without a server name are not counted. *)
Definition leasesOf (name : string) (leases : list DHCPLease.t) : Z :=
  if String.eqb name "" then 0
  else Z.of_nat (List.length
                   (List.filter (fun l => String.eqb (DHCPLease.ServerName l) name) leases)).

Definition boundLeasesOf (name : string) (leases : list DHCPLease.t) : Z :=
  if String.eqb name "" then 0
  else Z.of_nat (List.length
                   (List.filter
                      (fun l => String.eqb (DHCPLease.ServerName l) name
                                && String.eqb (DHCPLease.Status l) "bound") leases)).

(** ** pppoe.go: collecting the PPPoE sessions *)

Module PPPoESession.
Record t : Type := mk {
  ID : string;
  Name : string;
  Service : string;
  Username : string;
  CallerID : string;
  Address : string;
  Uptime : Z;
  RxBytes : Z;
  TxBytes : Z;
  RxPackets : Z;
  TxPackets : Z;
  RateLimit : string;
  SessionID : string;
  MTU : Z;
  MRU : Z;
  Encoding : string;
  LimitBytesIn : Z;
  LimitBytesOut : Z
}.
End PPPoESession.

Module PPPoEServerStats.
Record t : Type := mk {
  ServerName : string;
  Interface : string;
  ActiveSessions : Z;
  TotalSessions : Z
}.
End PPPoEServerStats.

(** The two counters read from an attribute: [ParseInt64] of the text for
    both, replaced by [parseBytePair] when the text is not empty. *)
Definition pairOf (text : string) : Z * Z :=
  if String.eqb text "" then (ParseInt64 text, ParseInt64 text)
  else parseBytePair text.

(** The session built from a row of [/ppp/active/print]. *)
Definition parseSession (s : gmap string string) : PPPoESession.t :=
  {| PPPoESession.ID := index s ".id";
     PPPoESession.Name := index s "name";
     PPPoESession.Service := index s "service";
     PPPoESession.Username := index s "name";
     PPPoESession.CallerID := index s "caller-id";
     PPPoESession.Address := index s "address";
     PPPoESession.Uptime := ParseUptime (index s "uptime");
     PPPoESession.RxBytes := fst (pairOf (index s "bytes"));
     PPPoESession.TxBytes := snd (pairOf (index s "bytes"));
     PPPoESession.RxPackets := fst (pairOf (index s "packets"));
     PPPoESession.TxPackets := snd (pairOf (index s "packets"));
     PPPoESession.RateLimit := index s "rate-limit";
     PPPoESession.SessionID := index s "session-id";
     PPPoESession.MTU := ParseInt64 (index s "mtu");
     PPPoESession.MRU := ParseInt64 (index s "mru");
     PPPoESession.Encoding := index s "encoding";
     PPPoESession.LimitBytesIn := ParseInt64 (index s "limit-bytes-in");
     PPPoESession.LimitBytesOut := ParseInt64 (index s "limit-bytes-out") |}.

(** The inner loop: the sessions of the service [serverName], counted in
    an [int]. *)
Definition countActive (serverName : string) (pppoeList : list PPPoESession.t) : Z :=
  fold_left (fun n s => if String.eqb (PPPoESession.Service s) serverName
                        then I64.add n 1 else n) pppoeList 0.

(** The statistics of a row of [/interface/pppoe-server/server/print]. *)
Definition pppoeServerOf (pppoeList : list PPPoESession.t) (srv : gmap string string)
  : PPPoEServerStats.t :=
  {| PPPoEServerStats.ServerName := index srv "service-name";
     PPPoEServerStats.Interface := index srv "interface";
     PPPoEServerStats.ActiveSessions := countActive (index srv "service-name") pppoeList;
     PPPoEServerStats.TotalSessions := 0 |}.

(** [(c *Collector) collectPPPoE(ctx, client)]. *)
Definition collectPPPoE (client : Client)
  : list PPPoESession.t * list PPPoEServerStats.t * option error * Client :=
  match Run client "/ppp/active/print" [] with
  | (_, Some err, client1) => ([], [], Some err, client1)
  | (sessions, None, client1) =>
      let pppoeList := map parseSession sessions in
      match Run client1 "/interface/pppoe-server/server/print" [] with
      | (_, Some _, client2) => (pppoeList, [], None, client2)
      | (servers, None, client2) =>
          (pppoeList, map (pppoeServerOf pppoeList) servers, None, client2)
      end
  end.

(** The number of sessions of the service [serverName]. *)
Definition sessionsOf (serverName : string) (pppoeList : list PPPoESession.t) : Z :=
  Z.of_nat (List.length
              (List.filter (fun s => String.eqb (PPPoESession.Service s) serverName)
                 pppoeList)).
(** * Properties *)

(** ** Counter wraparound *)

Section CounterWrap.

Lemma U64_wrap_small (z : Z) : U64.inRange z -> U64.wrap z = z.
Proof. unfold U64.inRange, U64.wrap. intros H. apply Z.mod_small. exact H. Qed.

Lemma Handle64_spec : wrap_delta_spec Handle64BitCounterWrap U64.max.
Proof.
  intros c p Hc Hp. unfold Handle64BitCounterWrap, U64.add, U64.sub.
  unfold U64.inRange, U64.modulus in *.
  split; intros Hle.
  - destruct (Z.leb_spec p c); [|lia]. apply U64_wrap_small.
    unfold U64.inRange, U64.modulus. lia.
  - destruct (Z.leb_spec p c); [lia|].
    rewrite (U64_wrap_small (_ - p)) by (unfold U64.inRange, U64.modulus; lia).
    rewrite (U64_wrap_small (_ + c)) by (unfold U64.inRange, U64.modulus; lia).
    rewrite U64_wrap_small by (unfold U64.inRange, U64.modulus; lia).
    reflexivity.
Qed.

Lemma Handle32_no_wrap (c p : Z) :
  U64.inRange c -> U64.inRange p -> p <= c ->
  Handle32BitCounterWrap c p = c - p.
Proof.
  intros Hc Hp Hle. unfold Handle32BitCounterWrap, U64.sub.
  destruct (Z.leb_spec p c); [|lia]. apply U64_wrap_small.
  unfold U64.inRange, U64.modulus in *. lia.
Qed.

Lemma Handle32_wrap (c p : Z) :
  U64.inRange c -> c < p -> p <= 0xFFFFFFFF ->
  Handle32BitCounterWrap c p = (0xFFFFFFFF - p) + c + 1.
Proof.
  intros Hc Hlt Hp. unfold Handle32BitCounterWrap, U64.add, U64.sub.
  unfold U64.inRange, U64.modulus in *.
  destruct (Z.leb_spec p c); [lia|].
  rewrite (U64_wrap_small (_ - p)) by (unfold U64.inRange, U64.modulus; lia).
  rewrite (U64_wrap_small (_ + c)) by (unfold U64.inRange, U64.modulus; lia).
  rewrite U64_wrap_small by (unfold U64.inRange, U64.modulus; lia).
  reflexivity.
Qed.

(** Past the 32-bit range the subtraction [0xFFFFFFFF - previous]
    underflows and the handler returns the residue modulo [2^64]. *)
Lemma Handle32_wide_previous (c p : Z) :
  U64.inRange c -> U64.inRange p -> c < p ->
  Handle32BitCounterWrap c p = ((0xFFFFFFFF - p) + c + 1) mod 2 ^ 64.
Proof.
  intros Hc Hp Hlt. unfold Handle32BitCounterWrap, U64.add, U64.sub, U64.wrap.
  unfold U64.modulus. destruct (Z.leb_spec p c); [lia|].
  rewrite Zplus_mod_idemp_l, <- Z.add_assoc, Zplus_mod_idemp_l, Z.add_assoc.
  reflexivity.
Qed.

End CounterWrap.

(** C4, as the specification states it, fails for the 32-bit handler: a
    previous reading above [2^32 - 1] makes [0xFFFFFFFF - previous] underflow,
    and [Handle32BitCounterWrap 0 (2^33)] is [2^64 - 2^32] where the formula
    gives [- 2^32]. *)
Lemma C4_counterexample_wide_previous :
  ~ wrap_delta_spec Handle32BitCounterWrap 0xFFFFFFFF.
Proof.
  intros H. destruct (H 0 (2 ^ 33)) as [_ Hw]; [vm_compute; split; congruence ..|].
  specialize (Hw eq_refl). vm_compute in Hw. discriminate Hw.
Qed.

Example Handle32_underflow_value :
  Handle32BitCounterWrap 0 (2 ^ 33) = 18446744069414584320.
Proof. reflexivity. Qed.

(** C4 (amended): for all [uint64] readings both handlers return
    [current - previous] when [current >= previous]; when [current < previous]
    the 64-bit handler returns [(2^64-1 - previous) + current + 1], a value in
    [1, 2^64-1], and the 32-bit handler returns
    [(2^32-1 - previous) + current + 1], a value in [1, 2^32-1], provided the
    previous reading is itself at most [2^32-1]; and
    [Handle64BitCounterWrap(100, 2^64-10) = 110]. *)
Theorem C4_counter_wrap_delta (current previous : Z) :
  U64.inRange current -> U64.inRange previous ->
  (previous <= current ->
     Handle32BitCounterWrap current previous = current - previous /\
     Handle64BitCounterWrap current previous = current - previous) /\
  (current < previous ->
     Handle64BitCounterWrap current previous
       = (0xFFFFFFFFFFFFFFFF - previous) + current + 1 /\
     1 <= Handle64BitCounterWrap current previous <= 0xFFFFFFFFFFFFFFFF) /\
  (current < previous -> previous <= 0xFFFFFFFF ->
     Handle32BitCounterWrap current previous
       = (0xFFFFFFFF - previous) + current + 1 /\
     1 <= Handle32BitCounterWrap current previous <= 0xFFFFFFFF) /\
  Handle64BitCounterWrap 100 (2 ^ 64 - 10) = 110.
Proof.
  intros Hc Hp. pose proof (Handle64_spec current previous Hc Hp) as [H64a H64b].
  unfold U64.max in *. unfold U64.inRange, U64.modulus in Hc, Hp.
  repeat split.
  - apply Handle32_no_wrap; unfold U64.inRange, U64.modulus; lia.
  - auto.
  - auto.
  - rewrite H64b by assumption. lia.
  - rewrite H64b by assumption. lia.
  - apply Handle32_wrap; unfold U64.inRange, U64.modulus; lia.
  - rewrite Handle32_wrap; unfold U64.inRange, U64.modulus; lia.
  - rewrite Handle32_wrap; unfold U64.inRange, U64.modulus; lia.
Qed.

Lemma C4_counter_wrap_delta_witness :
  Handle32BitCounterWrap 100 0xFFFFFF00 = 356 /\
  Handle64BitCounterWrap 100 (2 ^ 64 - 10) = 110.
Proof.
  pose proof (C4_counter_wrap_delta 100 0xFFFFFF00) as H.
  destruct H as (_ & _ & H32 & H64).
  - unfold U64.inRange, U64.modulus. lia.
  - unfold U64.inRange, U64.modulus. lia.
  - split; [|exact H64]. destruct H32 as [E _]; [lia | lia |]. rewrite E. reflexivity.
Defined.

(** ** The length codec *)

Example EncodeLength_127 : EncodeLength 127 = [0x7F].
Proof. reflexivity. Qed.

Example EncodeLength_128 : EncodeLength 128 = [0x80; 0x80].
Proof. reflexivity. Qed.

Example EncodeLength_16384 : EncodeLength 16384 = [0xC0; 0x40; 0x00].
Proof. reflexivity. Qed.

Example DecodeLength_2097151 : DecodeLength (EncodeLength 2097151) = (inl 2097151, []).
Proof. reflexivity. Qed.

Example DecodeLength_truncated : DecodeLength [0xC0; 0x40] = (inr ErrUnexpectedEOF, []).
Proof. reflexivity. Qed.

Section BitArithmetic.

Lemma testbit_above (x k n : Z) :
  0 <= x < 2 ^ k -> k <= n -> Z.testbit x n = false.
Proof.
  intros [Hx Hk] Hn. destruct (Z.eq_dec x 0) as [->|Hne].
  - apply Z.bits_0.
  - apply Z.bits_above_log2; [exact Hx|].
    assert (Z.log2 x < k); [|lia].
    apply Z.log2_lt_pow2; lia.
Qed.

(** Bits that do not overlap add up. *)
Lemma lor_shiftl_low (hi lo k : Z) :
  0 <= k -> 0 <= lo < 2 ^ k -> Z.lor (Z.shiftl hi k) lo = hi * 2 ^ k + lo.
Proof.
  intros Hk Hlo. rewrite <- Z.shiftl_mul_pow2 by exact Hk.
  symmetry. apply Z.add_nocarry_lor. apply Z.bits_inj'. intros n Hn.
  rewrite Z.land_spec, Z.bits_0.
  destruct (Z.lt_ge_cases n k) as [Hlt|Hge].
  - rewrite Z.shiftl_spec_low by exact Hlt. reflexivity.
  - rewrite (testbit_above lo k n) by assumption. apply andb_false_r.
Qed.

Lemma lor_high (x hi k c : Z) :
  0 <= k -> 0 <= x < 2 ^ k -> c = hi * 2 ^ k -> Z.lor x c = x + c.
Proof.
  intros Hk Hx ->. rewrite Z.lor_comm, <- Z.shiftl_mul_pow2 by exact Hk.
  rewrite lor_shiftl_low by assumption.
  rewrite Z.shiftl_mul_pow2 by exact Hk. lia.
Qed.

Lemma to_byte_mod (x : Z) : to_byte x = x mod 256.
Proof. unfold to_byte. change 255 with (Z.ones 8). apply Z.land_ones. lia. Qed.

Lemma land_mask (x k m : Z) :
  0 <= k -> m = 2 ^ k - 1 -> Z.land x m = x mod 2 ^ k.
Proof.
  intros Hk ->. replace (2 ^ k - 1) with (Z.ones k).
  - apply Z.land_ones. exact Hk.
  - rewrite Z.ones_equiv. lia.
Qed.

Lemma land_255 (x : Z) : Z.land x 255 = x mod 256.
Proof. apply (land_mask x 8 255); [lia | reflexivity]. Qed.

End BitArithmetic.

Section EncodeShapes.

Lemma EncodeLength_1 (L : Z) : 0 <= L < 0x80 -> EncodeLength L = [L].
Proof.
  intros H. unfold EncodeLength. destruct (Z.ltb_spec L 128); [|lia].
  rewrite to_byte_mod, Z.mod_small by lia. reflexivity.
Qed.

Lemma EncodeLength_2 (L : Z) :
  0x80 <= L < 0x4000 -> EncodeLength L = [L / 256 + 128; L mod 256].
Proof.
  intros H. unfold EncodeLength.
  destruct (Z.ltb_spec L 128); [lia|]. destruct (Z.ltb_spec L 16384); [|lia].
  rewrite !to_byte_mod, Z.shiftr_div_pow2 by lia.
  rewrite land_255. change (2 ^ 8) with 256.
  rewrite (lor_high _ 1 7 128)
    by (try reflexivity; change (2 ^ 7) with 128; Z.div_mod_to_equations; lia).
  rewrite Z.mod_mod by lia.
  rewrite (Z.mod_small (_ + 128)) by (Z.div_mod_to_equations; lia).
  reflexivity.
Qed.

Lemma EncodeLength_3 (L : Z) :
  0x4000 <= L < 0x200000 ->
  EncodeLength L = [L / 65536 + 192; (L / 256) mod 256; L mod 256].
Proof.
  intros H. unfold EncodeLength.
  destruct (Z.ltb_spec L 128); [lia|]. destruct (Z.ltb_spec L 16384); [lia|].
  destruct (Z.ltb_spec L 2097152); [|lia].
  rewrite !to_byte_mod, !Z.shiftr_div_pow2 by lia.
  rewrite !land_255.
  change (2 ^ 16) with 65536. change (2 ^ 8) with 256.
  rewrite (lor_high _ 3 6 192)
    by (try reflexivity; change (2 ^ 6) with 64; Z.div_mod_to_equations; lia).
  rewrite !Z.mod_mod by lia.
  rewrite (Z.mod_small (_ + 192)) by (Z.div_mod_to_equations; lia).
  reflexivity.
Qed.

Lemma EncodeLength_4 (L : Z) :
  0x200000 <= L < 0x10000000 ->
  EncodeLength L =
    [L / 16777216 + 224; (L / 65536) mod 256; (L / 256) mod 256; L mod 256].
Proof.
  intros H. unfold EncodeLength.
  destruct (Z.ltb_spec L 128); [lia|]. destruct (Z.ltb_spec L 16384); [lia|].
  destruct (Z.ltb_spec L 2097152); [lia|].
  destruct (Z.ltb_spec L 268435456); [|lia].
  rewrite !to_byte_mod, !Z.shiftr_div_pow2 by lia.
  rewrite !land_255.
  change (2 ^ 24) with 16777216. change (2 ^ 16) with 65536.
  change (2 ^ 8) with 256.
  rewrite (lor_high _ 7 5 224)
    by (try reflexivity; change (2 ^ 5) with 32; Z.div_mod_to_equations; lia).
  rewrite !Z.mod_mod by lia.
  rewrite (Z.mod_small (_ + 224)) by (Z.div_mod_to_equations; lia).
  reflexivity.
Qed.

Lemma EncodeLength_5 (L : Z) :
  0x10000000 <= L ->
  EncodeLength L =
    [240; (L / 16777216) mod 256; (L / 65536) mod 256; (L / 256) mod 256;
     L mod 256].
Proof.
  intros H. unfold EncodeLength.
  destruct (Z.ltb_spec L 128); [lia|]. destruct (Z.ltb_spec L 16384); [lia|].
  destruct (Z.ltb_spec L 2097152); [lia|].
  destruct (Z.ltb_spec L 268435456); [lia|].
  rewrite !to_byte_mod, !Z.shiftr_div_pow2 by lia.
  rewrite !land_255.
  change (2 ^ 24) with 16777216. change (2 ^ 16) with 65536.
  change (2 ^ 8) with 256. rewrite !Z.mod_mod by lia. reflexivity.
Qed.

End EncodeShapes.

Section DecodeShapes.

Ltac read_step :=
  unfold DecodeLength, ReadFull;
  cbn [Nat.leb List.length firstn skipn].

Lemma DecodeLength_1 (b : Z) (rest : list byte) :
  0 <= b < 0x80 -> DecodeLength (b :: rest) = (inl b, rest).
Proof.
  intros H. read_step. destruct (Z.ltb_spec b 128); [reflexivity | lia].
Qed.

Lemma DecodeLength_2 (h s : Z) (rest : list byte) :
  0 <= h < 64 -> 0 <= s < 256 ->
  DecodeLength (h + 128 :: s :: rest) = (inl (h * 256 + s), rest).
Proof.
  intros Hh Hs. read_step.
  destruct (Z.ltb_spec (h + 128) 128); [lia|].
  destruct (Z.ltb_spec (h + 128) 192); [|lia].
  rewrite (land_mask _ 6 63) by (lia || reflexivity).
  change (2 ^ 6) with 64.
  replace ((h + 128) mod 64) with h by (Z.div_mod_to_equations; lia).
  rewrite (lor_shiftl_low h s 8) by (change (2 ^ 8) with 256; lia).
  reflexivity.
Qed.

Lemma DecodeLength_3 (h e0 e1 : Z) (rest : list byte) :
  0 <= h < 32 -> 0 <= e0 < 256 -> 0 <= e1 < 256 ->
  DecodeLength (h + 192 :: e0 :: e1 :: rest)
    = (inl (h * 65536 + e0 * 256 + e1), rest).
Proof.
  intros Hh H0 H1. read_step.
  destruct (Z.ltb_spec (h + 192) 128); [lia|].
  destruct (Z.ltb_spec (h + 192) 192); [lia|].
  destruct (Z.ltb_spec (h + 192) 224); [|lia].
  rewrite (land_mask _ 5 31) by (lia || reflexivity).
  change (2 ^ 5) with 32.
  replace ((h + 192) mod 32) with h by (Z.div_mod_to_equations; lia).
  rewrite (Z.shiftl_mul_pow2 e0 8) by lia. change (2 ^ 8) with 256.
  rewrite (lor_shiftl_low h (e0 * 256) 16)
    by (change (2 ^ 16) with 65536; lia).
  replace (h * 2 ^ 16 + e0 * 256) with ((h * 256 + e0) * 2 ^ 8)
    by (change (2 ^ 16) with 65536; change (2 ^ 8) with 256; lia).
  rewrite <- (Z.shiftl_mul_pow2 _ 8) by lia.
  rewrite (lor_shiftl_low _ e1 8) by (change (2 ^ 8) with 256; lia).
  f_equal. f_equal. change (2 ^ 8) with 256. lia.
Qed.

Lemma DecodeLength_4 (h e0 e1 e2 : Z) (rest : list byte) :
  0 <= h < 16 -> 0 <= e0 < 256 -> 0 <= e1 < 256 -> 0 <= e2 < 256 ->
  DecodeLength (h + 224 :: e0 :: e1 :: e2 :: rest)
    = (inl (h * 16777216 + e0 * 65536 + e1 * 256 + e2), rest).
Proof.
  intros Hh H0 H1 H2. read_step.
  destruct (Z.ltb_spec (h + 224) 128); [lia|].
  destruct (Z.ltb_spec (h + 224) 192); [lia|].
  destruct (Z.ltb_spec (h + 224) 224); [lia|].
  destruct (Z.ltb_spec (h + 224) 240); [|lia].
  rewrite (land_mask _ 4 15) by (lia || reflexivity).
  change (2 ^ 4) with 16.
  replace ((h + 224) mod 16) with h by (Z.div_mod_to_equations; lia).
  rewrite (Z.shiftl_mul_pow2 e0 16), (Z.shiftl_mul_pow2 e1 8) by lia.
  change (2 ^ 16) with 65536. change (2 ^ 8) with 256.
  rewrite (lor_shiftl_low h (e0 * 65536) 24)
    by (change (2 ^ 24) with 16777216; lia).
  replace (h * 2 ^ 24 + e0 * 65536) with ((h * 256 + e0) * 2 ^ 16)
    by (change (2 ^ 24) with 16777216; change (2 ^ 16) with 65536; lia).
  rewrite <- (Z.shiftl_mul_pow2 _ 16) by lia.
  rewrite (lor_shiftl_low _ (e1 * 256) 16) by (change (2 ^ 16) with 65536; lia).
  replace ((h * 256 + e0) * 2 ^ 16 + e1 * 256)
    with (((h * 256 + e0) * 256 + e1) * 2 ^ 8)
    by (change (2 ^ 16) with 65536; change (2 ^ 8) with 256; lia).
  rewrite <- (Z.shiftl_mul_pow2 _ 8) by lia.
  rewrite (lor_shiftl_low _ e2 8) by (change (2 ^ 8) with 256; lia).
  f_equal. f_equal. change (2 ^ 8) with 256. lia.
Qed.

Lemma BigEndian_Uint32_value (e0 e1 e2 e3 : Z) :
  0 <= e1 < 256 -> 0 <= e2 < 256 -> 0 <= e3 < 256 ->
  BigEndian_Uint32 e0 e1 e2 e3 = e0 * 16777216 + e1 * 65536 + e2 * 256 + e3.
Proof.
  intros H1 H2 H3. unfold BigEndian_Uint32.
  rewrite (Z.shiftl_mul_pow2 e1 16), (Z.shiftl_mul_pow2 e2 8) by lia.
  change (2 ^ 16) with 65536. change (2 ^ 8) with 256.
  rewrite (lor_shiftl_low e0 (e1 * 65536) 24)
    by (change (2 ^ 24) with 16777216; lia).
  replace (e0 * 2 ^ 24 + e1 * 65536) with ((e0 * 256 + e1) * 2 ^ 16)
    by (change (2 ^ 24) with 16777216; change (2 ^ 16) with 65536; lia).
  rewrite <- (Z.shiftl_mul_pow2 _ 16) by lia.
  rewrite (lor_shiftl_low _ (e2 * 256) 16) by (change (2 ^ 16) with 65536; lia).
  replace ((e0 * 256 + e1) * 2 ^ 16 + e2 * 256)
    with (((e0 * 256 + e1) * 256 + e2) * 2 ^ 8)
    by (change (2 ^ 16) with 65536; change (2 ^ 8) with 256; lia).
  rewrite <- (Z.shiftl_mul_pow2 _ 8) by lia.
  rewrite (lor_shiftl_low _ e3 8) by (change (2 ^ 8) with 256; lia).
  change (2 ^ 8) with 256. lia.
Qed.

Lemma DecodeLength_5 (e0 e1 e2 e3 : Z) (rest : list byte) :
  0 <= e1 < 256 -> 0 <= e2 < 256 -> 0 <= e3 < 256 ->
  DecodeLength (240 :: e0 :: e1 :: e2 :: e3 :: rest)
    = (inl (e0 * 16777216 + e1 * 65536 + e2 * 256 + e3), rest).
Proof.
  intros H1 H2 H3. read_step. cbn [Z.ltb Z.compare Pos.compare Pos.compare_cont].
  rewrite BigEndian_Uint32_value by assumption. reflexivity.
Qed.

End DecodeShapes.

(** The round trip holds with any bytes following the encoded length: the
    decoder consumes exactly the bytes the encoder produced. *)
Lemma DecodeLength_EncodeLength_app (L : Z) (rest : list byte) :
  0 <= L < 2 ^ 32 ->
  DecodeLength (EncodeLength L ++ rest) = (inl L, rest).
Proof.
  intros [H0 H32]. change (2 ^ 32) with 4294967296 in H32.
  destruct (Z.lt_ge_cases L 0x80) as [H1|H1].
  { rewrite EncodeLength_1 by lia. apply DecodeLength_1. lia. }
  destruct (Z.lt_ge_cases L 0x4000) as [H2|H2].
  { rewrite EncodeLength_2 by lia. cbn [app].
    rewrite DecodeLength_2 by (Z.div_mod_to_equations; lia).
    f_equal. f_equal. Z.div_mod_to_equations; lia. }
  destruct (Z.lt_ge_cases L 0x200000) as [H3|H3].
  { rewrite EncodeLength_3 by lia. cbn [app].
    rewrite DecodeLength_3 by (Z.div_mod_to_equations; lia).
    f_equal. f_equal. Z.div_mod_to_equations; lia. }
  destruct (Z.lt_ge_cases L 0x10000000) as [H4|H4].
  { rewrite EncodeLength_4 by lia. cbn [app].
    rewrite DecodeLength_4 by (Z.div_mod_to_equations; lia).
    f_equal. f_equal. Z.div_mod_to_equations; lia. }
  rewrite EncodeLength_5 by lia. cbn [app].
  rewrite DecodeLength_5 by (Z.div_mod_to_equations; lia).
  f_equal. f_equal.
  assert (H5 : 0 <= L / 16777216 < 256) by (Z.div_mod_to_equations; lia).
  rewrite (Z.mod_small (L / 16777216)) by exact H5.
  Z.div_mod_to_equations; lia.
Qed.

(** C3: for every length [L] with [0 <= L < 2^32], [DecodeLength] applied to
    the bytes produced by [EncodeLength L] returns [L] (without a read
    failure, and leaving nothing unread). *)
Theorem C3_length_round_trip (L : Z) :
  0 <= L < 2 ^ 32 -> DecodeLength (EncodeLength L) = (inl L, []).
Proof.
  intros H. rewrite <- (app_nil_r (EncodeLength L)).
  apply DecodeLength_EncodeLength_app. exact H.
Qed.

Lemma C3_length_round_trip_witness :
  DecodeLength (EncodeLength 4294967295) = (inl 4294967295, []).
Proof. apply (C3_length_round_trip 4294967295). lia. Defined.

(** ** The circuit breaker *)

(** The scenario of [TestCircuitBreaker]. *)
Example circuit_breaker_test :
  let cb0 := newCircuitBreaker 3 100 in
  let cb3 := recordFailure 12 (recordFailure 11 (recordFailure 10 cb0)) in
  fst (canAttempt 0 cb0) = true /\
  fst (canAttempt 11 (recordFailure 11 (recordFailure 10 cb0))) = true /\
  fst (canAttempt 13 cb3) = false /\
  fst (canAttempt 162 cb3) = true /\
  fst (canAttempt 163 (recordSuccess (snd (canAttempt 162 cb3)))) = true.
Proof. repeat split. Qed.

Section BreakerFacts.

Variable cb : circuitBreaker.
Variable now : Time.

(** Reaching the configured maximum opens the breaker and stamps the failure. *)
Lemma recordFailure_opens :
  state cb = circuitClosed ->
  maxFailures cb <= I64.add (failures cb) 1 ->
  state (recordFailure now cb) = circuitOpen /\
  lastFailure (recordFailure now cb) = now.
Proof.
  intros Hst Hmax. unfold recordFailure. rewrite Hst. cbn.
  destruct (Z.leb_spec (maxFailures cb) (I64.add (failures cb) 1)); [auto | lia].
Qed.

(** While Open, an attempt is denied until more than [resetTimeout] has
    passed since the last recorded failure, and the breaker is unchanged. *)
Lemma canAttempt_open_blocked :
  state cb = circuitOpen ->
  Since now (lastFailure cb) <= resetTimeout cb ->
  canAttempt now cb = (false, cb).
Proof.
  intros Hst Hle. unfold canAttempt. rewrite Hst.
  destruct (Z.ltb_spec (resetTimeout cb) (Since now (lastFailure cb))); [lia | reflexivity].
Qed.

(** Past the timeout the attempt is allowed and the breaker is HalfOpen. *)
Lemma canAttempt_open_elapsed :
  state cb = circuitOpen ->
  resetTimeout cb < Since now (lastFailure cb) ->
  fst (canAttempt now cb) = true /\
  state (snd (canAttempt now cb)) = circuitHalfOpen /\
  halfOpenAttempts (snd (canAttempt now cb)) = 0.
Proof.
  intros Hst Hlt. unfold canAttempt. rewrite Hst.
  destruct (Z.ltb_spec (resetTimeout cb) (Since now (lastFailure cb))); [auto | lia].
Qed.

(** A failure while HalfOpen reopens the breaker at once. *)
Lemma recordFailure_half_open :
  state cb = circuitHalfOpen ->
  state (recordFailure now cb) = circuitOpen /\
  lastFailure (recordFailure now cb) = now.
Proof. intros Hst. unfold recordFailure. rewrite Hst. auto. Qed.

(** No operation ever writes anything but zero to [halfOpenAttempts]. *)
Lemma applyOp_halfOpenAttempts (op : breakerOp) :
  halfOpenAttempts cb = 0 -> halfOpenAttempts (applyOp cb op) = 0.
Proof.
  intros H0. destruct op as [t| |t|]; cbn.
  - unfold canAttempt. destruct (state cb); cbn; auto.
    destruct (_ <? _); cbn; auto.
  - exact H0.
  - unfold recordFailure. destruct (state cb); cbn; auto.
  - exact H0.
Qed.

End BreakerFacts.

Lemma runOps_halfOpenAttempts (ops : list breakerOp) (cb : circuitBreaker) :
  halfOpenAttempts cb = 0 -> halfOpenAttempts (runOps cb ops) = 0.
Proof.
  revert cb. induction ops as [|op ops IH]; intros cb H0; cbn.
  - exact H0.
  - apply IH. apply applyOp_halfOpenAttempts. exact H0.
Qed.

(** Whatever the history of a breaker, once it is HalfOpen every
    [canAttempt] is granted and leaves it HalfOpen: the trial counter that
    the HalfOpen branch compares with one is never incremented. *)
Lemma half_open_never_denies (ops : list breakerOp) (max : Z) (timeout : Duration)
    (now : Time) :
  let cb := runOps (newCircuitBreaker max timeout) ops in
  state cb = circuitHalfOpen -> canAttempt now cb = (true, cb).
Proof.
  intros cb Hst. unfold canAttempt. rewrite Hst.
  assert (H0 : halfOpenAttempts cb = 0)
    by (apply runOps_halfOpenAttempts; reflexivity).
  rewrite H0. reflexivity.
Qed.

(** C2 (the code departs from the claim): with [maxFailures = 1] and
    [resetTimeout = 100], one failure at time 0 opens the breaker; an
    attempt at time 50 is denied; the attempt at time 101 is granted and
    leaves the breaker HalfOpen; a second attempt at time 102, with no
    [recordSuccess] or [recordFailure] in between, is granted too, where
    the claim has it denied; a failure then reopens the breaker. *)
Theorem C2_half_open_grants_second_trial :
  let cb1 := recordFailure 0 (newCircuitBreaker 1 100) in
  let cb2 := snd (canAttempt 101 cb1) in
  let cb3 := snd (canAttempt 102 cb2) in
  state cb1 = circuitOpen /\
  canAttempt 50 cb1 = (false, cb1) /\
  fst (canAttempt 101 cb1) = true /\
  state cb2 = circuitHalfOpen /\
  canAttempt 102 cb2 = (true, cb2) /\
  state (recordFailure 103 cb3) = circuitOpen.
Proof. repeat split. Qed.

(** ** Interface filters *)

Example matchGlob_tests :
  matchGlob "ether*" "ether1" = true /\ matchGlob "ether*" "ether10" = true /\
  matchGlob "ether*" "bridge1" = false /\ matchGlob "*-wan" "ether1-wan" = true /\
  matchGlob "*-wan" "ether1-lan" = false /\ matchGlob "ether1" "ether1" = true /\
  matchGlob "ether1" "ether2" = false /\ matchGlob "" "" = true /\
  matchGlob "" "something" = false.
Proof. repeat split. Qed.

Example Split_tests :
  Split "a*b" "*" = ["a"; "b"] /\ Split "*" "*" = [""; ""] /\
  Split "" "*" = [""] /\ Split "a**b*" "*" = ["a"; ""; "b"; ""] /\
  Split "xabyabz" "ab" = ["x"; "y"; "z"].
Proof. repeat split. Qed.

Section GoStrings.

Lemma append_cons (c : ascii) (s t : string) :
  String c s +:+ t = String c (s +:+ t).
Proof. reflexivity. Qed.

Lemma append_nil_l (s : string) : "" +:+ s = s.
Proof. reflexivity. Qed.

Lemma append_nil_r (s : string) : s +:+ "" = s.
Proof.
  induction s as [|c s IH]; [reflexivity|]. now rewrite append_cons, IH.
Qed.

Lemma append_assoc (a b c : string) : (a +:+ b) +:+ c = a +:+ (b +:+ c).
Proof.
  induction a as [|x a IH]; [reflexivity|]. now rewrite !append_cons, IH.
Qed.

Lemma length_append (a b : string) :
  String.length (a +:+ b) = (String.length a + String.length b)%nat.
Proof.
  induction a as [|x a IH]; [reflexivity|].
  rewrite append_cons. cbn [String.length]. now rewrite IH.
Qed.

Lemma prefix_spec (p s : string) :
  String.prefix p s = true <-> exists t, s = p +:+ t.
Proof.
  revert s. induction p as [|a p IH]; intros s.
  - split; [intros _; now exists s | now destruct s].
  - destruct s as [|b s].
    + split; [discriminate | intros [t Ht]; discriminate Ht].
    + change (String.prefix (String a p) (String b s))
        with (if ascii_dec a b then String.prefix p s else false).
      destruct (ascii_dec a b) as [->|Hne].
      * rewrite IH. split; intros [t Ht]; exists t.
        -- now rewrite append_cons, Ht.
        -- rewrite append_cons in Ht. now injection Ht.
      * split; [discriminate|]. intros [t Ht]. rewrite append_cons in Ht.
        injection Ht as Hab _. congruence.
Qed.

Lemma HasPrefix_spec (s p : string) :
  HasPrefix s p = true <-> exists t, s = p +:+ t.
Proof. apply prefix_spec. Qed.

Lemma sliceFrom_append (t x : string) : sliceFrom (String.length t) (t +:+ x) = x.
Proof.
  induction t as [|c t IH]; [now destruct x|].
  rewrite append_cons. cbn [String.length sliceFrom]. exact IH.
Qed.

Lemma sliceFrom_split (n : nat) (s : string) :
  (n <= String.length s)%nat -> exists t, s = t +:+ sliceFrom n s.
Proof.
  revert s. induction n as [|n IH]; intros s Hn.
  - exists "". now destruct s.
  - destruct s as [|c s]; cbn [String.length] in Hn; [lia|].
    destruct (IH s) as [t Ht]; [lia|]. exists (String c t).
    cbn [sliceFrom]. rewrite append_cons. now rewrite <- Ht.
Qed.

Lemma HasSuffix_spec (s x : string) :
  HasSuffix s x = true <-> exists t, s = t +:+ x.
Proof.
  unfold HasSuffix. rewrite andb_true_iff, Nat.leb_le, String.eqb_eq. split.
  - intros [Hlen Heq].
    destruct (sliceFrom_split (String.length s - String.length x) s) as [t Ht]; [lia|].
    exists t. now rewrite <- Heq.
  - intros [t ->]. rewrite length_append. split; [lia|].
    replace (String.length t + String.length x - String.length x)%nat
      with (String.length t) by lia.
    apply sliceFrom_append.
Qed.

Lemma stars_append (a b : string) : stars (a +:+ b) = (stars a + stars b)%nat.
Proof.
  induction a as [|c a IH]; [reflexivity|].
  rewrite append_cons. cbn [stars].
  destruct (Ascii.eqb c "*"); cbn [Nat.add]; now rewrite IH.
Qed.

Lemma prefix_star (c : ascii) (s : string) :
  String.prefix "*" (String c s) = Ascii.eqb c "*".
Proof.
  change (String.prefix "*" (String c s))
    with (if ascii_dec "*" c then String.prefix "" s else false).
  destruct (ascii_dec "*" c) as [<-|Hne].
  - now destruct s.
  - symmetry. apply Ascii.eqb_neq. congruence.
Qed.

Lemma Contains_star (p : string) : Contains p "*" = negb (Nat.eqb (stars p) 0).
Proof.
  induction p as [|c p IH]; [reflexivity|].
  cbn [Contains stars]. rewrite prefix_star, IH.
  destruct (Ascii.eqb c "*"); reflexivity.
Qed.

Lemma splitFrom_length (cur s : string) :
  List.length (splitFrom "*" 0 cur s) = S (stars s).
Proof.
  revert cur. induction s as [|c s IH]; intros cur; [reflexivity|].
  cbn [splitFrom stars]. rewrite prefix_star.
  destruct (Ascii.eqb c "*"); cbn [List.length String.length Nat.sub]; now rewrite IH.
Qed.

Lemma splitFrom_plain (cur a rest : string) :
  stars a = 0%nat ->
  splitFrom "*" 0 cur (a +:+ rest) = splitFrom "*" 0 (cur +:+ a) rest.
Proof.
  revert cur. induction a as [|c a IH]; intros cur Ha.
  - now rewrite append_nil_l, append_nil_r.
  - cbn [stars] in Ha. destruct (Ascii.eqb c "*") eqn:Ec; [discriminate|].
    rewrite append_cons. cbn [splitFrom]. rewrite prefix_star, Ec, IH by exact Ha.
    rewrite append_assoc, append_cons, append_nil_l. reflexivity.
Qed.

Lemma splitFrom_star (cur rest : string) :
  splitFrom "*" 0 cur (String "*" rest) = cur :: splitFrom "*" 0 "" rest.
Proof. cbn [splitFrom]. rewrite prefix_star. reflexivity. Qed.

Lemma splitFrom_no_star (cur a : string) :
  stars a = 0%nat -> splitFrom "*" 0 cur a = [cur +:+ a].
Proof.
  intros Ha. rewrite <- (append_nil_r a) at 1. now rewrite splitFrom_plain.
Qed.

Lemma Split_one_star (pre suf : string) :
  stars pre = 0%nat -> stars suf = 0%nat ->
  Split (pre +:+ String "*" suf) "*" = [pre; suf].
Proof.
  intros Hp Hs. unfold Split.
  rewrite splitFrom_plain, splitFrom_star, splitFrom_no_star by assumption.
  reflexivity.
Qed.

Lemma Split_length (p : string) : List.length (Split p "*") = S (stars p).
Proof. apply splitFrom_length. Qed.

(** A pattern with exactly one star is a literal prefix, the star, and a
    literal suffix. *)
Lemma one_star_shape (p : string) :
  stars p = 1%nat ->
  exists pre suf, p = pre +:+ String "*" suf /\ stars pre = 0%nat /\ stars suf = 0%nat.
Proof.
  induction p as [|c p IH]; cbn [stars]; [discriminate|].
  destruct (Ascii.eqb c "*") eqn:Ec.
  - intros H. apply Ascii.eqb_eq in Ec. subst c.
    exists "", p. repeat split. lia.
  - intros H. destruct (IH H) as (pre & suf & -> & Hp & Hs).
    exists (String c pre), suf. repeat split; [|exact Hs].
    cbn [stars]. now rewrite Ec.
Qed.

End GoStrings.

Section GlobFacts.

Lemma matchGlob_empty (s : string) : matchGlob "" s = true <-> s = "".
Proof. unfold matchGlob. cbn. apply String.eqb_eq. Qed.

Lemma matchGlob_no_star (p s : string) :
  stars p = 0%nat -> (matchGlob p s = true <-> s = p).
Proof.
  intros Hp. unfold matchGlob. destruct (String.eqb p "") eqn:Ee.
  - apply String.eqb_eq in Ee. subst p. apply String.eqb_eq.
  - rewrite Contains_star, Hp. cbn. rewrite String.eqb_eq. split; congruence.
Qed.

Lemma matchGlob_one_star (pre suf s : string) :
  stars pre = 0%nat -> stars suf = 0%nat ->
  matchGlob (pre +:+ String "*" suf) s = HasPrefix s pre && HasSuffix s suf.
Proof.
  intros Hp Hs. unfold matchGlob.
  destruct (String.eqb (pre +:+ String "*" suf) "") eqn:Ee.
  - apply String.eqb_eq in Ee. destruct pre; discriminate Ee.
  - rewrite Contains_star, stars_append. cbn [stars Ascii.eqb].
    replace (Nat.eqb (stars pre + _) 0) with false
      by (symmetry; apply Nat.eqb_neq; cbn; lia).
    cbn [negb]. rewrite Split_one_star by assumption. reflexivity.
Qed.

Lemma matchGlob_many_stars (p s : string) :
  (2 <= stars p)%nat -> matchGlob p s = String.eqb p s.
Proof.
  intros Hp. unfold matchGlob. destruct (String.eqb p "") eqn:Ee.
  - apply String.eqb_eq in Ee. subst p. cbn in Hp. lia.
  - destruct (Contains p "*"); [|reflexivity].
    pose proof (Split_length p) as Hlen.
    destruct (Split p "*") as [|a [|b [|c l]]]; cbn in Hlen; try reflexivity. lia.
Qed.

Lemma includeLoop_spec (name : string) (include : list string) (included : bool) :
  includeLoop name include included = true <->
  included = true \/ exists p, In p include /\ matchGlob p name = true.
Proof.
  induction include as [|p rest IH]; cbn.
  - split; [auto | intros [H|(p & [] & _)]; exact H].
  - destruct (matchGlob p name) eqn:Ep.
    + split; [intros _; right; exists p; auto | reflexivity].
    + rewrite IH. split.
      * intros [H|(q & Hq & Hm)]; [auto | right; exists q; auto].
      * intros [H|(q & [<-|Hq] & Hm)]; [auto | congruence | right; exists q; auto].
Qed.

Lemma excludeLoop_spec (name : string) (exclude : list string) :
  excludeLoop name exclude = true <->
  forall p, In p exclude -> matchGlob p name = false.
Proof.
  induction exclude as [|p rest IH]; cbn.
  - split; [intros _ p [] | reflexivity].
  - destruct (matchGlob p name) eqn:Ep.
    + split; [discriminate | intros H; rewrite <- Ep; symmetry; apply H; auto].
    + rewrite IH. split.
      * intros H q [<-|Hq]; auto.
      * intros H q Hq. apply H. auto.
Qed.

Lemma MatchFilter_spec (name : string) (include exclude : list string) :
  MatchFilter name include exclude = true <->
  (include = [] \/ exists p, In p include /\ matchGlob p name = true) /\
  (forall p, In p exclude -> matchGlob p name = false).
Proof.
  unfold MatchFilter.
  destruct (includeLoop name include _) eqn:Ei; cbn [negb].
  - apply includeLoop_spec in Ei. rewrite excludeLoop_spec. split.
    + intros H. split; [|exact H]. destruct Ei as [Hn|He]; [|auto].
      left. apply Nat.eqb_eq in Hn. now destruct include.
    + intros [_ H]. exact H.
  - split; [discriminate|]. intros [Hinc _].
    assert (includeLoop name include (Nat.eqb (List.length include) 0) = true);
      [|congruence].
    apply includeLoop_spec. destruct Hinc as [->|He]; [left; reflexivity | auto].
Qed.

End GlobFacts.

(** C7: [MatchFilter] returns true iff (the include list is empty, or the
    name matches an include pattern) and the name matches no exclude
    pattern; a pattern with one [*] matches exactly the names that start
    with the text before the star and end with the text after it; a
    pattern without [*] matches only the name equal to it; the empty
    pattern matches only the empty name; and the three reference calls
    evaluate as stated. *)
Theorem C7_MatchFilter_include_exclude :
  (forall (name : string) (include exclude : list string),
     MatchFilter name include exclude = true <->
     (include = [] \/ exists p, In p include /\ matchGlob p name = true) /\
     (forall p, In p exclude -> matchGlob p name = false)) /\
  (forall pattern s : string, stars pattern = 1%nat ->
     exists pre suf, pattern = pre +:+ String "*" suf /\
       (matchGlob pattern s = true <->
        (exists t, s = pre +:+ t) /\ (exists t, s = t +:+ suf))) /\
  (forall pattern s : string, stars pattern = 0%nat ->
     (matchGlob pattern s = true <-> s = pattern)) /\
  (forall s : string, matchGlob "" s = true <-> s = "") /\
  MatchFilter "ether1-wan" ["ether*"] ["*-wan"] = false /\
  MatchFilter "ether1" ["ether*"] [] = true /\
  MatchFilter "bridge1" [] [] = true.
Proof.
  split; [exact MatchFilter_spec|].
  split.
  { intros pattern s H1. destruct (one_star_shape pattern H1) as (pre & suf & -> & Hp & Hs).
    exists pre, suf. split; [reflexivity|].
    rewrite matchGlob_one_star by assumption.
    rewrite andb_true_iff, HasPrefix_spec, HasSuffix_spec. reflexivity. }
  split; [exact matchGlob_no_star|].
  split; [exact matchGlob_empty|].
  repeat split.
Qed.

(** C10: a pattern with two or more [*] is compared literally: it matches
    a name only when the name equals the pattern, so in either list of
    [MatchFilter] it can only match a name that itself contains the stars. *)
Theorem C10_many_stars_literal :
  (forall pattern s : string, (2 <= stars pattern)%nat ->
     (matchGlob pattern s = true <-> s = pattern)) /\
  (forall pattern s : string, (2 <= stars pattern)%nat ->
     matchGlob pattern s = true -> (2 <= stars s)%nat /\ Contains s "*" = true) /\
  matchGlob "eth*-*" "eth1-wan" = false /\
  matchGlob "eth*-*" "eth*-*" = true /\
  MatchFilter "eth1-wan" ["eth*-*"] [] = false /\
  MatchFilter "eth1-wan" [] ["eth*-*"] = true.
Proof.
  assert (Hlit : forall pattern s : string, (2 <= stars pattern)%nat ->
            (matchGlob pattern s = true <-> s = pattern)).
  { intros pattern s Hp. rewrite matchGlob_many_stars by exact Hp.
    rewrite String.eqb_eq. split; congruence. }
  split; [exact Hlit|]. split.
  { intros pattern s Hp Hm. apply Hlit in Hm; [|exact Hp]. subst s.
    split; [exact Hp|]. rewrite Contains_star.
    destruct (stars pattern); [lia | reflexivity]. }
  repeat split.
Qed.

(** The filter clause at a name that the second include pattern admits. *)
Lemma C7_MatchFilter_include_exclude_witness :
  MatchFilter "sfp1" ["ether*"; "sfp*"] ["bridge-local"] = true.
Proof.
  apply (proj1 C7_MatchFilter_include_exclude). split.
  - right. exists "sfp*". split; [right; left; reflexivity | reflexivity].
  - intros p [<-|[]]. reflexivity.
Defined.

(** A two-star pattern does not match a name that a wildcard reading
    would accept. *)
Lemma C10_many_stars_literal_witness :
  matchGlob "ether*-*" "ether1-wan" = false.
Proof.
  destruct (matchGlob "ether*-*" "ether1-wan") eqn:E; [|reflexivity].
  apply (proj1 C10_many_stars_literal) in E.
  - discriminate E.
  - cbn. lia.
Defined.

(** ** UTF-8 text: decoding, trimming and lowering *)

Section Bytes.

Lemma byteZ_range (c : ascii) : 0 <= byteZ c < 256.
Proof.
  unfold byteZ, byteOf. pose proof (nat_ascii_bounded c). lia.
Qed.

Lemma toByte_byteZ (c : ascii) : toByte (byteZ c) = c.
Proof.
  unfold toByte. pose proof (byteZ_range c). rewrite Z.mod_small by lia.
  unfold byteZ, byteOf. rewrite Nat2Z.id. apply ascii_nat_embedding.
Qed.

Lemma byteZ_toByte (x : Z) : byteZ (toByte x) = x mod 256.
Proof.
  unfold toByte, byteZ, byteOf. pose proof (Z.mod_pos_bound x 256 ltac:(lia)).
  rewrite nat_ascii_embedding by lia. lia.
Qed.

Lemma byteZ_inj (c d : ascii) : byteZ c = byteZ d -> c = d.
Proof. intros H. rewrite <- (toByte_byteZ c), <- (toByte_byteZ d). now rewrite H. Qed.

Lemma RuneStart_spec (c : ascii) :
  utf8.RuneStart (byteZ c) = negb ((128 <=? byteZ c) && (byteZ c <=? 191)).
Proof.
  destruct c as [[] [] [] [] [] [] [] []]; reflexivity.
Qed.

Lemma RuneStart_true (c : ascii) :
  utf8.RuneStart (byteZ c) = true <-> byteZ c < 128 \/ 191 < byteZ c.
Proof.
  rewrite RuneStart_spec, negb_true_iff, andb_false_iff, Z.leb_gt, Z.leb_gt. tauto.
Qed.

Lemma RuneStart_false (c : ascii) :
  utf8.RuneStart (byteZ c) = false <-> 128 <= byteZ c <= 191.
Proof.
  rewrite RuneStart_spec, negb_false_iff, andb_true_iff, !Z.leb_le. tauto.
Qed.

Lemma first_ASCII (b : Z) : utf8.first b = utf8.firstASCII <-> b < 128.
Proof.
  unfold utf8.first.
  repeat match goal with
         | |- context [?x <? ?y] => destruct (Z.ltb_spec x y)
         | |- context [?x =? ?y] => destruct (Z.eqb_spec x y)
         end; split; intros Hf; try discriminate; try lia; reflexivity.
Qed.

Lemma first_lead (b : Z) (sz : nat) (lo hi : Z) :
  utf8.first b = utf8.firstLead sz lo hi ->
  (sz = 2%nat /\ 0xC2 <= b <= 0xDF /\ lo = 0x80 /\ hi = 0xBF)
  \/ (sz = 3%nat /\ b = 0xE0 /\ lo = 0xA0 /\ hi = 0xBF)
  \/ (sz = 3%nat /\ (0xE1 <= b <= 0xEC \/ 0xEE <= b <= 0xEF) /\ lo = 0x80 /\ hi = 0xBF)
  \/ (sz = 3%nat /\ b = 0xED /\ lo = 0x80 /\ hi = 0x9F)
  \/ (sz = 4%nat /\ b = 0xF0 /\ lo = 0x90 /\ hi = 0xBF)
  \/ (sz = 4%nat /\ 0xF1 <= b <= 0xF3 /\ lo = 0x80 /\ hi = 0xBF)
  \/ (sz = 4%nat /\ b = 0xF4 /\ lo = 0x80 /\ hi = 0x8F).
Proof.
  unfold utf8.first, utf8.locb, utf8.hicb.
  repeat match goal with
         | |- context [?x <? ?y] => destruct (Z.ltb_spec x y)
         | |- context [?x =? ?y] => destruct (Z.eqb_spec x y)
         end; intros Hf; try discriminate; injection Hf as <- <- <-; lia.
Qed.

Lemma first_lead_bounds (b : Z) (sz : nat) (lo hi : Z) :
  utf8.first b = utf8.firstLead sz lo hi ->
  (sz = 2 \/ sz = 3 \/ sz = 4)%nat /\ 128 <= lo /\ hi <= 191 /\ 0xC2 <= b <= 0xF4.
Proof. intros H. apply first_lead in H. lia. Qed.

End Bytes.
Section Decoding.

Lemma first_Invalid (b : Z) : utf8.first b = utf8.firstInvalid -> 128 <= b.
Proof.
  unfold utf8.first.
  repeat match goal with
         | |- context [?x <? ?y] => destruct (Z.ltb_spec x y)
         | |- context [?x =? ?y] => destruct (Z.eqb_spec x y)
         end; intros Hf; try discriminate; lia.
Qed.

Lemma outside_false (x lo hi : Z) : lo <= x <= hi -> (x <? lo) || (hi <? x) = false.
Proof. intros H. apply orb_false_iff. split; apply Z.ltb_ge; lia. Qed.

Lemma outside_true (x lo hi : Z) : x < lo \/ hi < x -> (x <? lo) || (hi <? x) = true.
Proof. intros H. apply orb_true_iff. rewrite !Z.ltb_lt. exact H. Qed.

Lemma outside_spec (x lo hi : Z) :
  ((x <? lo) || (hi <? x) = true /\ (x < lo \/ hi < x))
  \/ ((x <? lo) || (hi <? x) = false /\ lo <= x <= hi).
Proof.
  destruct (Z.ltb_spec x lo); destruct (Z.ltb_spec hi x); cbn; auto; right; split; auto; lia.
Qed.

(** A valid encoding is read back, whatever follows it. *)
Lemma DecodeRune_Encoding (e : list ascii) (r : Z) (q : list ascii) :
  Encoding e r -> utf8.DecodeRuneInString (e ++ q) = (r, List.length e).
Proof.
  destruct 1 as [c0 H0|c0 c1 lo hi H0 H1|c0 c1 c2 lo hi H0 H1 H2
                 |c0 c1 c2 c3 lo hi H0 H1 H2 H3];
    cbn [app utf8.DecodeRuneInString List.length]; rewrite H0; try reflexivity;
    cbn [Nat.ltb Nat.leb];
    rewrite ?(outside_false _ _ _ H1), ?(outside_false _ _ _ H2),
      ?(outside_false _ _ _ H3); reflexivity.
Qed.

Lemma Encoding_length (e : list ascii) (r : Z) :
  Encoding e r -> (1 <= List.length e <= 4)%nat.
Proof. destruct 1; cbn; lia. Qed.

(** What [DecodeRuneInString] returns for a text that is not empty: a valid
    encoding the text starts with, or U+FFFD of width one for a first byte
    that is not ASCII. *)
Lemma DecodeRune_inv (c0 : ascii) (p0 : list ascii) :
  let '(r, size) := utf8.DecodeRuneInString (c0 :: p0) in
  (Encoding (take size (c0 :: p0)) r /\ (size <= List.length (c0 :: p0))%nat)
  \/ (size = 1%nat /\ r = utf8.RuneError /\ 128 <= byteZ c0).
Proof.
  cbn [utf8.DecodeRuneInString].
  destruct (utf8.first (byteZ c0)) as [| |sz lo hi] eqn:H0.
  - left. split; [|cbn; lia]. cbn [take]. now constructor.
  - right. apply first_Invalid in H0. auto.
  - pose proof (first_lead_bounds _ _ _ _ H0) as (Hsz & Hlo & Hhi & Hb).
    assert (Hbad : (1%nat = 1%nat /\ utf8.RuneError = utf8.RuneError /\ 128 <= byteZ c0))
      by (repeat split; lia).
    destruct ((List.length (c0 :: p0) <? sz)%nat) eqn:Hn; [now right|].
    apply Nat.ltb_ge in Hn. cbn [List.length] in Hn.
    destruct p0 as [|c1 p1]; [now right|].
    destruct (outside_spec (byteZ c1) lo hi) as [[-> _]|[-> H1]]; [now right|].
    destruct (Nat.leb_spec sz 2) as [Hs2|Hs2].
    { left. assert (sz = 2%nat) by lia. subst sz. split; [|cbn; lia].
      cbn [take]. econstructor; eauto. }
    destruct p1 as [|c2 p2]; [now right|].
    destruct (outside_spec (byteZ c2) utf8.locb utf8.hicb) as [[-> _]|[-> H2]]; [now right|].
    destruct (Nat.leb_spec sz 3) as [Hs3|Hs3].
    { left. assert (sz = 3%nat) by lia. subst sz. split; [|cbn; lia].
      cbn [take]. econstructor; eauto. }
    destruct p2 as [|c3 p3]; [now right|].
    destruct (outside_spec (byteZ c3) utf8.locb utf8.hicb) as [[-> _]|[-> H3]]; [now right|].
    left. assert (sz = 4%nat) by lia. subst sz. split; [|cbn; lia].
    cbn [take]. econstructor; eauto.
Qed.

Lemma DecodeRune_size (c0 : ascii) (p0 : list ascii) :
  (1 <= snd (utf8.DecodeRuneInString (c0 :: p0)) <= List.length (c0 :: p0))%nat.
Proof.
  pose proof (DecodeRune_inv c0 p0) as H.
  destruct (utf8.DecodeRuneInString (c0 :: p0)) as [r size]. cbn [snd].
  destruct H as [[He Hl]|(-> & _ & _)]; [|cbn; lia].
  apply Encoding_length in He. rewrite length_take in He. lia.
Qed.

(** Bytes that follow a text do not change how it starts, when they
    start with a byte that is no continuation byte. *)
Lemma DecodeRune_app (p z : list ascii) :
  p <> [] -> startsRune z -> utf8.DecodeRuneInString (p ++ z) = utf8.DecodeRuneInString p.
Proof.
  intros Hp Hz. destruct p as [|c0 p0]; [contradiction|]. clear Hp.
  pose proof (DecodeRune_inv c0 p0) as H.
  destruct (utf8.DecodeRuneInString (c0 :: p0)) as [r size] eqn:Hd.
  destruct H as [[He Hl]|(-> & -> & Hc0)].
  - rewrite <- (take_drop size (c0 :: p0)), <- app_assoc.
    rewrite (DecodeRune_Encoding _ r _ He). f_equal.
    rewrite length_take. lia.
  - assert (Hout : forall d lo hi, utf8.RuneStart (byteZ d) = true ->
                     128 <= lo -> hi <= 191 -> (byteZ d <? lo) || (hi <? byteZ d) = true).
    { intros d lo hi Hs Hlo Hhi. apply outside_true. apply RuneStart_true in Hs. lia. }
    revert Hd. cbn [app utf8.DecodeRuneInString].
    destruct (utf8.first (byteZ c0)) as [| |sz lo hi] eqn:H0; try (intros Hd; exact Hd).
    pose proof (first_lead_bounds _ _ _ _ H0) as (Hsz & Hlo & Hhi & Hb).
      unfold utf8.locb, utf8.hicb.
      destruct ((List.length (c0 :: p0 ++ z) <? sz)%nat) eqn:Hn; [reflexivity|].
      intros Hd.
      destruct p0 as [|c1 p1]; cbn [app].
      { destruct z as [|d z']; [reflexivity|]. cbn in Hz.
        now rewrite (Hout d lo hi Hz Hlo Hhi). }
      cbn [List.length] in Hd.
      destruct ((S (S (List.length p1)) <? sz)%nat) eqn:Hn1.
      * destruct (outside_spec (byteZ c1) lo hi) as [[-> _]|[-> H1]]; [reflexivity|].
        apply Nat.ltb_lt in Hn1.
        destruct (Nat.leb_spec sz 2) as [Hs2|Hs2]; [lia|].
        destruct p1 as [|c2 p2]; cbn [app].
        { destruct z as [|d z']; [reflexivity|]. cbn in Hz.
          now rewrite (Hout d 128 191 Hz) by lia. }
        destruct (outside_spec (byteZ c2) 128 191) as [[-> _]|[-> H2]]; [reflexivity|].
        cbn [List.length] in Hn1.
        destruct (Nat.leb_spec sz 3) as [Hs3|Hs3]; [lia|].
        destruct p2 as [|c3 p3]; cbn [app].
        { destruct z as [|d z']; [reflexivity|]. cbn in Hz.
          now rewrite (Hout d 128 191 Hz) by lia. }
        cbn [List.length] in Hn1. lia.
      * destruct (outside_spec (byteZ c1) lo hi) as [[E _]|[E H1]]; rewrite E in *;
          [reflexivity|].
        destruct (Nat.leb_spec sz 2) as [Hs2|Hs2]; [discriminate Hd|].
        destruct p1 as [|c2 p2]; [apply Nat.ltb_ge in Hn1; cbn in Hn1; lia|]. cbn [app].
        destruct (outside_spec (byteZ c2) 128 191) as [[E2 _]|[E2 H2]]; rewrite E2 in *;
          [reflexivity|].
        destruct (Nat.leb_spec sz 3) as [Hs3|Hs3]; [discriminate Hd|].
        destruct p2 as [|c3 p3]; [apply Nat.ltb_ge in Hn1; cbn in Hn1; lia|]. cbn [app].
        destruct (outside_spec (byteZ c3) 128 191) as [[E3 _]|[E3 H3]]; rewrite E3 in *;
          [reflexivity|]. discriminate Hd.
Qed.

End Decoding.
Section Encodings.

Lemma toByte_eq (x : Z) (c : ascii) : x mod 256 = byteZ c -> toByte x = c.
Proof.
  intros H. apply byteZ_inj. now rewrite byteZ_toByte.
Qed.

Lemma land_ones_mod (x : Z) (k : Z) : 0 <= k -> Z.land x (2 ^ k - 1) = x mod 2 ^ k.
Proof.
  intros Hk. rewrite <- Z.land_ones by exact Hk. f_equal.
  rewrite Z.ones_equiv. lia.
Qed.

Lemma lor_add (a b k : Z) :
  0 <= k -> 0 <= b < 2 ^ k -> Z.lor (a * 2 ^ k) b = a * 2 ^ k + b.
Proof.
  intros Hk Hb.
  assert (Hl : Z.land (a * 2 ^ k) b = 0).
  { rewrite <- (Z.mod_small b (2 ^ k)) by exact Hb.
    rewrite <- (Z.land_ones b) by exact Hk.
    rewrite (Z.land_comm b), Z.land_assoc, Z.land_ones by exact Hk.
    rewrite Z.mod_mul by lia. apply Z.land_0_l. }
  rewrite <- Z.lxor_lor by exact Hl. symmetry. now apply Z.add_nocarry_lxor.
Qed.

Lemma land_63 (x : Z) : Z.land x 63 = x mod 64.
Proof. exact (land_ones_mod x 6 ltac:(lia)). Qed.

Lemma land_31 (x : Z) : Z.land x 31 = x mod 32.
Proof. exact (land_ones_mod x 5 ltac:(lia)). Qed.

Lemma land_15 (x : Z) : Z.land x 15 = x mod 16.
Proof. exact (land_ones_mod x 4 ltac:(lia)). Qed.

Lemma land_7 (x : Z) : Z.land x 7 = x mod 8.
Proof. exact (land_ones_mod x 3 ltac:(lia)). Qed.

Lemma lor_add_64 (a b : Z) : 0 <= b < 64 -> Z.lor (a * 64) b = a * 64 + b.
Proof. exact (lor_add a b 6 ltac:(lia)). Qed.

Lemma rune2_eq (s0 s1 : Z) :
  Z.lor (Z.shiftl (Z.land s0 utf8.mask2) 6) (Z.land s1 utf8.maskx)
  = (s0 mod 32) * 64 + s1 mod 64.
Proof.
  unfold utf8.mask2, utf8.maskx. rewrite land_31, land_63.
  rewrite Z.shiftl_mul_pow2 by lia. change (2 ^ 6) with 64.
  apply lor_add_64. apply Z.mod_pos_bound. lia.
Qed.

Lemma rune3_eq (s0 s1 s2 : Z) :
  Z.lor (Z.lor (Z.shiftl (Z.land s0 utf8.mask3) 12)
               (Z.shiftl (Z.land s1 utf8.maskx) 6))
        (Z.land s2 utf8.maskx)
  = ((s0 mod 16) * 64 + s1 mod 64) * 64 + s2 mod 64.
Proof.
  unfold utf8.mask3, utf8.maskx. rewrite land_15, !land_63.
  rewrite !Z.shiftl_mul_pow2 by lia.
  pose proof (Z.mod_pos_bound s1 64 ltac:(lia)).
  pose proof (Z.mod_pos_bound s2 64 ltac:(lia)).
  rewrite (lor_add _ (s1 mod 64 * 2 ^ 6) 12) by lia.
  replace (s0 mod 16 * 2 ^ 12 + s1 mod 64 * 2 ^ 6)
    with ((s0 mod 16 * 64 + s1 mod 64) * 64) by lia.
  now rewrite lor_add_64 by lia.
Qed.

Lemma rune4_eq (s0 s1 s2 s3 : Z) :
  Z.lor (Z.lor (Z.lor (Z.shiftl (Z.land s0 utf8.mask4) 18)
                      (Z.shiftl (Z.land s1 utf8.maskx) 12))
               (Z.shiftl (Z.land s2 utf8.maskx) 6))
        (Z.land s3 utf8.maskx)
  = (((s0 mod 8) * 64 + s1 mod 64) * 64 + s2 mod 64) * 64 + s3 mod 64.
Proof.
  unfold utf8.mask4, utf8.maskx. rewrite land_7, !land_63.
  rewrite !Z.shiftl_mul_pow2 by lia.
  pose proof (Z.mod_pos_bound s1 64 ltac:(lia)).
  pose proof (Z.mod_pos_bound s2 64 ltac:(lia)).
  pose proof (Z.mod_pos_bound s3 64 ltac:(lia)).
  rewrite (lor_add _ (s1 mod 64 * 2 ^ 12) 18) by lia.
  replace (s0 mod 8 * 2 ^ 18 + s1 mod 64 * 2 ^ 12)
    with ((s0 mod 8 * 64 + s1 mod 64) * 2 ^ 12) by lia.
  rewrite (lor_add _ (s2 mod 64 * 2 ^ 6) 12) by lia.
  replace ((s0 mod 8 * 64 + s1 mod 64) * 2 ^ 12 + s2 mod 64 * 2 ^ 6)
    with (((s0 mod 8 * 64 + s1 mod 64) * 64 + s2 mod 64) * 64) by lia.
  now rewrite lor_add_64 by lia.
Qed.

(** The tag of a byte put on with [|]: the tag is a multiple of [2 ^ k]
    and the bits below fit under it. *)
Lemma lor_tag (t x k : Z) :
  0 <= k -> t mod 2 ^ k = 0 -> 0 <= x < 2 ^ k -> Z.lor t x = t + x.
Proof.
  intros Hk Ht Hx.
  rewrite (Z.div_mod t (2 ^ k)) at 1 2 by lia. rewrite Ht, Z.add_0_r.
  rewrite (Z.mul_comm (2 ^ k)). now apply lor_add.
Qed.

Lemma cont_byte (y : Z) :
  0 <= y < 64 -> Z.lor utf8.tx (Z.land y utf8.maskx) = 128 + y.
Proof.
  intros Hy. unfold utf8.tx, utf8.maskx. rewrite land_63.
  rewrite Z.mod_small by lia.
  apply (lor_tag 128 y 6); [lia | reflexivity | lia].
Qed.

End Encodings.
Section EncodingFacts.

(** The rune of a valid encoding, in arithmetic, with the ranges the
    table [first] and [acceptRanges] leave. *)
Lemma Encoding_rune (e : list ascii) (r : Z) :
  Encoding e r ->
  match e with
  | [c0] => r = byteZ c0 /\ 0 <= r < 128
  | [c0; c1] =>
      r = (byteZ c0 - 192) * 64 + (byteZ c1 - 128)
      /\ 194 <= byteZ c0 <= 223 /\ 128 <= byteZ c1 <= 191
  | [c0; c1; c2] =>
      r = ((byteZ c0 - 224) * 64 + (byteZ c1 - 128)) * 64 + (byteZ c2 - 128)
      /\ 224 <= byteZ c0 <= 239 /\ 128 <= byteZ c1 <= 191 /\ 128 <= byteZ c2 <= 191
      /\ 0x800 <= r <= 0xFFFF /\ ~ (0xD800 <= r <= 0xDFFF)
  | [c0; c1; c2; c3] =>
      r = (((byteZ c0 - 240) * 64 + (byteZ c1 - 128)) * 64 + (byteZ c2 - 128)) * 64
          + (byteZ c3 - 128)
      /\ 240 <= byteZ c0 <= 244 /\ 128 <= byteZ c1 <= 191 /\ 128 <= byteZ c2 <= 191
      /\ 128 <= byteZ c3 <= 191 /\ 0x10000 <= r <= 0x10FFFF
  | _ => False
  end.
Proof.
  destruct 1 as [c0 H0|c0 c1 lo hi H0 H1|c0 c1 c2 lo hi H0 H1 H2
                 |c0 c1 c2 c3 lo hi H0 H1 H2 H3].
  - apply first_ASCII in H0. pose proof (byteZ_range c0). lia.
  - rewrite rune2_eq. apply first_lead in H0. Z.div_mod_to_equations. lia.
  - rewrite rune3_eq. apply first_lead in H0. unfold utf8.locb, utf8.hicb in *.
    Z.div_mod_to_equations. lia.
  - rewrite rune4_eq. apply first_lead in H0. unfold utf8.locb, utf8.hicb in *.
    Z.div_mod_to_equations. lia.
Qed.

Lemma cont_byte_mod (y : Z) : Z.lor utf8.tx (Z.land y utf8.maskx) = 128 + y mod 64.
Proof.
  unfold utf8.tx, utf8.maskx. rewrite land_63.
  apply (lor_tag 128 (y mod 64) 6); [lia | reflexivity | apply Z.mod_pos_bound; lia].
Qed.

Lemma lead_byte (t x k : Z) :
  0 <= k -> t mod 2 ^ k = 0 -> 0 <= x < 2 ^ k -> Z.lor t (x mod 256) = t + x mod 256.
Proof.
  intros Hk Ht Hx. apply (lor_tag t (x mod 256) k Hk Ht).
  Z.div_mod_to_equations. lia.
Qed.

(** [string(r)] gives back the bytes a rune was read from. *)
Lemma EncodeRune_Encoding (e : list ascii) (r : Z) :
  Encoding e r -> utf8.EncodeRune r = e.
Proof.
  intros He. apply Encoding_rune in He.
  destruct e as [|c0 [|c1 [|c2 [|c3 [|c4 e]]]]]; try contradiction.
  - destruct He as [-> Hr]. unfold utf8.EncodeRune, utf8.rune1Max.
    destruct (Z.leb_spec 0 (byteZ c0)); [|lia].
    destruct (Z.leb_spec (byteZ c0) 127); [|lia]. cbn [andb].
    now rewrite toByte_byteZ.
  - destruct He as (Hr & H0 & H1). unfold utf8.EncodeRune, utf8.rune1Max, utf8.rune2Max.
    destruct (Z.leb_spec 0 r); [|lia].
    destruct (Z.leb_spec r 127); [lia|].
    destruct (Z.leb_spec r 2047); [|lia]. cbn [andb].
    rewrite cont_byte_mod, Z.shiftr_div_pow2 by lia.
    rewrite (lead_byte utf8.t2 (r / 2 ^ 6) 5)
      by (try reflexivity; try lia; Z.div_mod_to_equations; lia).
    unfold utf8.t2. f_equal; [|f_equal]; apply toByte_eq; Z.div_mod_to_equations; lia.
  - destruct He as (Hr & H0 & H1 & H2 & Hr1 & Hr2).
    unfold utf8.EncodeRune, utf8.rune1Max, utf8.rune2Max, utf8.rune3Max, utf8.MaxRune,
      utf8.surrogateMin, utf8.surrogateMax.
    destruct (Z.leb_spec 0 r); [|lia].
    destruct (Z.leb_spec r 127); [lia|].
    destruct (Z.leb_spec r 2047); [lia|]. cbn [andb].
    destruct (Z.ltb_spec r 0); [lia|].
    destruct (Z.ltb_spec 1114111 r); [lia|]. cbn [orb].
    destruct (Z.leb_spec 55296 r); destruct (Z.leb_spec r 57343); try lia; cbn [andb];
      (destruct (Z.leb_spec r 65535); [|lia]);
      rewrite !cont_byte_mod, !Z.shiftr_div_pow2 by lia;
      rewrite (lead_byte utf8.t3 (r / 2 ^ 12) 4)
        by (try reflexivity; try lia; Z.div_mod_to_equations; lia);
      unfold utf8.t3; (f_equal; [|f_equal; [|f_equal]]); apply toByte_eq;
      Z.div_mod_to_equations; lia.
  - destruct He as (Hr & H0 & H1 & H2 & H3 & Hr1).
    unfold utf8.EncodeRune, utf8.rune1Max, utf8.rune2Max, utf8.rune3Max, utf8.MaxRune,
      utf8.surrogateMin, utf8.surrogateMax.
    destruct (Z.leb_spec 0 r); [|lia].
    destruct (Z.leb_spec r 127); [lia|].
    destruct (Z.leb_spec r 2047); [lia|]. cbn [andb].
    destruct (Z.ltb_spec r 0); [lia|].
    destruct (Z.ltb_spec 1114111 r); [lia|]. cbn [orb].
    destruct (Z.leb_spec 55296 r); [|lia].
    destruct (Z.leb_spec r 57343); [lia|]. cbn [andb].
    destruct (Z.leb_spec r 65535); [lia|].
    rewrite !cont_byte_mod, !Z.shiftr_div_pow2 by lia.
    rewrite (lead_byte utf8.t4 (r / 2 ^ 18) 3)
      by (try reflexivity; try lia; Z.div_mod_to_equations; lia).
    unfold utf8.t4. (f_equal; [|f_equal; [|f_equal; [|f_equal]]]); apply toByte_eq;
      Z.div_mod_to_equations; lia.
Qed.

Lemma Encoding_RuneError :
  Encoding [toByte 0xEF; toByte 0xBF; toByte 0xBD] utf8.RuneError.
Proof.
  exact (Encoding3 (toByte 0xEF) (toByte 0xBF) (toByte 0xBD) utf8.locb utf8.hicb
           eq_refl ltac:(vm_compute; split; discriminate)
           ltac:(vm_compute; split; discriminate)).
Qed.

Lemma Encoding_startsRune (e : list ascii) (r : Z) (q : list ascii) :
  Encoding e r -> startsRune (e ++ q).
Proof.
  intros He. apply Encoding_rune in He.
  destruct e as [|c0 [|c1 [|c2 [|c3 [|c4 e]]]]]; try contradiction;
    cbn [app startsRune]; apply RuneStart_true; lia.
Qed.

(** The bytes of an encoding of more than one byte are not ASCII, and
    neither is its rune. *)
Lemma Encoding_ASCII (e : list ascii) (r : Z) :
  Encoding e r ->
  (exists c, e = [c] /\ r = byteZ c /\ 0 <= r < 128)
  \/ (128 <= r /\ Forall (fun c => 128 <= byteZ c) e).
Proof.
  intros He. apply Encoding_rune in He.
  destruct e as [|c0 [|c1 [|c2 [|c3 [|c4 e]]]]]; try contradiction.
  - left. exists c0. intuition.
  - right. split; [lia|]. repeat constructor; lia.
  - right. split; [lia|]. repeat constructor; lia.
  - right. split; [lia|]. repeat constructor; lia.
Qed.

Lemma Encoding_nonempty (e : list ascii) (r : Z) : Encoding e r -> e <> [].
Proof. destruct 1; discriminate. Qed.

End EncodingFacts.
Section Ranging.

Local Open Scope list_scope.

Lemma rangeFrom_drop (k : nat) (p : list ascii) :
  rangeFrom k p = rangeString (drop k p).
Proof.
  revert k. induction p as [|c p IH]; intros k.
  - now destruct k.
  - destruct k as [|k]; [reflexivity|]. cbn [rangeFrom drop]. apply IH.
Qed.

Lemma rangeString_cons (c0 : ascii) (p0 : list ascii) :
  rangeString (c0 :: p0)
  = (fst (utf8.DecodeRuneInString (c0 :: p0)),
     take (snd (utf8.DecodeRuneInString (c0 :: p0))) (c0 :: p0))
      :: rangeString (drop (snd (utf8.DecodeRuneInString (c0 :: p0))) (c0 :: p0)).
Proof.
  unfold rangeString at 1. cbn [rangeFrom].
  pose proof (DecodeRune_size c0 p0) as Hs.
  destruct (utf8.DecodeRuneInString (c0 :: p0)) as [r size]. cbn [fst snd] in *.
  rewrite rangeFrom_drop. destruct size as [|size]; [lia|].
  replace (S size - 1)%nat with size by lia. reflexivity.
Qed.

Lemma rangeString_Encoding (e : list ascii) (r : Z) (q : list ascii) :
  Encoding e r -> rangeString (e ++ q) = (r, e) :: rangeString q.
Proof.
  intros He. pose proof (Encoding_nonempty e r He) as Hne.
  destruct e as [|c0 e0]; [contradiction|].
  change ((c0 :: e0) ++ q) with (c0 :: (e0 ++ q)). rewrite rangeString_cons.
  change (c0 :: (e0 ++ q)) with ((c0 :: e0) ++ q).
  rewrite (DecodeRune_Encoding _ r q He). cbn [fst snd].
  now rewrite take_app_length, drop_app_length.
Qed.

Lemma rangeString_app (y z : list ascii) :
  startsRune z -> rangeString (y ++ z) = (rangeString y ++ rangeString z)%list.
Proof.
  intros Hz. remember (List.length y) as n eqn:Hn. revert y Hn.
  induction n as [n IH] using lt_wf_ind. intros y Hn.
  destruct y as [|c0 y0]; [reflexivity|].
  change ((c0 :: y0) ++ z) with (c0 :: (y0 ++ z)). rewrite !rangeString_cons.
  change (c0 :: (y0 ++ z)) with ((c0 :: y0) ++ z).
  rewrite DecodeRune_app by (auto; discriminate).
  pose proof (DecodeRune_size c0 y0) as Hs.
  destruct (utf8.DecodeRuneInString (c0 :: y0)) as [r size]. cbn [fst snd] in *.
  rewrite take_app_le, drop_app_le by lia.
  cbn [app]. f_equal.
  apply (IH (List.length (drop size (c0 :: y0)))); [|reflexivity].
  rewrite length_drop. subst n. cbn [List.length] in *. lia.
Qed.

Lemma joinChunks_cons (ch : Z * list ascii) (cs : list (Z * list ascii)) :
  joinChunks (ch :: cs) = (snd ch ++ joinChunks cs)%list.
Proof. reflexivity. Qed.

Lemma joinChunks_app (cs1 cs2 : list (Z * list ascii)) :
  joinChunks (cs1 ++ cs2) = (joinChunks cs1 ++ joinChunks cs2)%list.
Proof. unfold joinChunks. now rewrite map_app, concat_app. Qed.

Lemma joinChunks_range (p : list ascii) : joinChunks (rangeString p) = p.
Proof.
  remember (List.length p) as n eqn:Hn. revert p Hn.
  induction n as [n IH] using lt_wf_ind. intros p Hn.
  destruct p as [|c0 p0]; [reflexivity|].
  rewrite rangeString_cons, joinChunks_cons. cbn [snd].
  pose proof (DecodeRune_size c0 p0) as Hs.
  rewrite (IH (List.length (drop (snd (utf8.DecodeRuneInString (c0 :: p0))) (c0 :: p0))));
    [apply take_drop | | reflexivity].
  rewrite length_drop. subst n. cbn [List.length] in *. lia.
Qed.

Lemma rangeString_Chunk (p : list ascii) : Forall Chunk (rangeString p).
Proof.
  remember (List.length p) as n eqn:Hn. revert p Hn.
  induction n as [n IH] using lt_wf_ind. intros p Hn.
  destruct p as [|c0 p0]; [constructor|].
  rewrite rangeString_cons.
  pose proof (DecodeRune_size c0 p0) as Hs.
  pose proof (DecodeRune_inv c0 p0) as Hi.
  destruct (utf8.DecodeRuneInString (c0 :: p0)) as [r size]. cbn [fst snd] in *.
  constructor.
  - destruct Hi as [[He _]|(-> & -> & Hc)]; [now left|].
    right. exists c0. auto.
  - apply (IH (List.length (drop size (c0 :: p0)))); [|reflexivity].
    rewrite length_drop. subst n. cbn [List.length] in *. lia.
Qed.

(** The runes of the rest of a text are the rest of its runes. *)
Lemma rangeString_suffix (p : list ascii) (cs1 cs2 : list (Z * list ascii)) :
  rangeString p = (cs1 ++ cs2)%list -> rangeString (joinChunks cs2) = cs2.
Proof.
  revert p. induction cs1 as [|ch cs1 IH]; intros p H.
  - cbn [app] in H. rewrite <- H. now rewrite joinChunks_range.
  - destruct p as [|c0 p0]; [discriminate|].
    rewrite rangeString_cons in H. injection H as _ H. exact (IH _ H).
Qed.

Lemma Chunk_nonempty (ch : Z * list ascii) : Chunk ch -> snd ch <> [].
Proof.
  intros [He|(c & -> & _)]; [|discriminate]. exact (Encoding_nonempty _ _ He).
Qed.

Lemma Chunk_startsRune (ch : Z * list ascii) (q : list ascii) :
  Chunk ch -> fst ch <> utf8.RuneError -> startsRune (snd ch ++ q).
Proof.
  intros [He|(c & _ & Hr & _)] Hne; [|contradiction].
  exact (Encoding_startsRune _ _ q He).
Qed.

(** The runes of the start of a text are the start of its runes, when
    what is cut off starts with a byte that is no continuation byte. *)
Lemma rangeString_prefix (p : list ascii) (cs1 cs2 : list (Z * list ascii)) :
  rangeString p = (cs1 ++ cs2)%list -> startsRune (joinChunks cs2) ->
  rangeString (joinChunks cs1) = cs1.
Proof.
  intros H Hs. pose proof (rangeString_suffix p cs1 cs2 H) as H2.
  pose proof (joinChunks_range p) as Hp. rewrite H, joinChunks_app in Hp.
  rewrite <- Hp, rangeString_app, H2 in H by exact Hs.
  now apply app_inv_tail in H.
Qed.

End Ranging.
Section Backwards.

Local Open Scope list_scope.

Lemma DecodeRune_exact (e : list ascii) (r : Z) :
  Encoding e r -> utf8.DecodeRuneInString e = (r, List.length e).
Proof.
  intros He. rewrite <- (app_nil_r e) at 1. now apply DecodeRune_Encoding.
Qed.

(** Read from the end, a text that ends with a valid encoding gives its
    rune. *)
Lemma DecodeLastRuneRev_Encoding (e : list ascii) (r : Z) (rs : list ascii) :
  Encoding e r -> utf8.DecodeLastRuneRev (rev e ++ rs) = (r, List.length e).
Proof.
  intros He. pose proof (DecodeRune_exact e r He) as Hd.
  pose proof (Encoding_rune e r He) as Hr.
  destruct e as [|c0 [|c1 [|c2 [|c3 [|c4 e]]]]]; try contradiction;
    cbn [rev app utf8.DecodeLastRuneRev]; unfold utf8.RuneSelf.
  - destruct Hr as [-> Hr]. destruct (Z.ltb_spec (byteZ c0) 128); [reflexivity | lia].
  - destruct (Z.ltb_spec (byteZ c1) 128); [lia|].
    cbn [utf8.lastStart].
    replace (utf8.RuneStart (byteZ c0)) with true
      by (symmetry; apply RuneStart_true; lia).
    change (rev (take 1 (c0 :: rs)) ++ [c1]) with [c0; c1]. now rewrite Hd.
  - destruct (Z.ltb_spec (byteZ c2) 128); [lia|].
    cbn [utf8.lastStart].
    replace (utf8.RuneStart (byteZ c1)) with false
      by (symmetry; apply RuneStart_false; lia).
    replace (utf8.RuneStart (byteZ c0)) with true
      by (symmetry; apply RuneStart_true; lia).
    change (rev (take 2 (c1 :: c0 :: rs)) ++ [c2]) with [c0; c1; c2]. now rewrite Hd.
  - destruct (Z.ltb_spec (byteZ c3) 128); [lia|].
    cbn [utf8.lastStart].
    replace (utf8.RuneStart (byteZ c2)) with false
      by (symmetry; apply RuneStart_false; lia).
    replace (utf8.RuneStart (byteZ c1)) with false
      by (symmetry; apply RuneStart_false; lia).
    replace (utf8.RuneStart (byteZ c0)) with true
      by (symmetry; apply RuneStart_true; lia).
    change (rev (take 3 (c2 :: c1 :: c0 :: rs)) ++ [c3]) with [c0; c1; c2; c3].
    now rewrite Hd.
Qed.

Lemma last_chunk_eq (A : Type) (l1 l2 : list A) (a b : A) :
  l1 ++ [a] = l2 ++ [b] -> a = b.
Proof. intros H. now apply app_inj_tail in H. Qed.

(** Read from the end, a text gives the last of its runes. *)
Lemma DecodeLastRune_last (p : list ascii) (cs : list (Z * list ascii))
    (r : Z) (e : list ascii) :
  rangeString p = cs ++ [(r, e)] ->
  utf8.DecodeLastRuneInString p = (r, List.length e).
Proof.
  intros H. pose proof (joinChunks_range p) as Hp.
  rewrite H, joinChunks_app in Hp. cbn in Hp. rewrite app_nil_r in Hp.
  pose proof (rangeString_Chunk p) as Hc. rewrite H in Hc.
  apply Forall_app in Hc as [_ Hc]. apply Forall_inv in Hc.
  unfold utf8.DecodeLastRuneInString. rewrite <- Hp, rev_app_distr.
  destruct Hc as [He|(c & Hec & Hrc & Hc)]; cbn [fst snd] in *.
  - now apply DecodeLastRuneRev_Encoding.
  - subst e r. cbn [rev app utf8.DecodeLastRuneRev List.length].
    unfold utf8.RuneSelf. destruct (Z.ltb_spec (byteZ c) 128); [lia|].
    set (k := utf8.lastStart 3 (rev (joinChunks cs))).
    set (tail := rev (take k (rev (joinChunks cs))) ++ [c]).
    assert (Hsplit : p = rev (drop k (rev (joinChunks cs))) ++ tail).
    { unfold tail. rewrite app_assoc, <- rev_app_distr, take_drop, rev_involutive.
      now symmetry. }
    assert (Htail : exists t0 t', tail = t0 :: t').
    { unfold tail. destruct (rev (take k (rev (joinChunks cs)))); cbn; eauto. }
    destruct Htail as (t0 & t' & Ht).
    pose proof (DecodeRune_inv t0 t') as Hi. rewrite <- Ht in Hi.
    destruct (utf8.DecodeRuneInString tail) as [r' size'].
    destruct (Nat.eqb_spec size' (List.length tail)) as [Hsz|Hsz]; [|reflexivity].
    cbn [negb]. destruct Hi as [[He _]|(-> & -> & _)]; [|reflexivity].
    exfalso. rewrite Hsz, firstn_all in He.
    rewrite Hsplit, rangeString_app in H by (rewrite <- (app_nil_r tail);
                                             exact (Encoding_startsRune _ _ _ He)).
    rewrite <- (app_nil_r tail), (rangeString_Encoding _ _ _ He) in H.
    change (rangeString []) with (@nil (Z * list ascii)) in H.
    apply last_chunk_eq in H. injection H as _ Ht2.
    rewrite Ht2 in He. apply Encoding_rune in He. lia.
Qed.

End Backwards.
Section Trimming.

Local Open Scope list_scope.

Variable f : Z -> bool.
Hypothesis f_RuneError : f utf8.RuneError = false.

Lemma trimLeftFrom_drop (k : nat) (p : list ascii) :
  strings.trimLeftFrom f k p = strings.TrimLeftFunc (drop k p) f.
Proof.
  revert k. induction p as [|c p IH]; intros k.
  - now destruct k.
  - destruct k as [|k]; [reflexivity|]. cbn [strings.trimLeftFrom drop]. apply IH.
Qed.

(** [TrimLeftFunc] takes the leading runes that satisfy [f] away. *)
Lemma TrimLeftFunc_chunks (p : list ascii) :
  strings.TrimLeftFunc p f = joinChunks (dropLeading f (rangeString p)).
Proof.
  remember (List.length p) as n eqn:Hn. revert p Hn.
  induction n as [n IH] using lt_wf_ind. intros p Hn.
  destruct p as [|c0 p0]; [reflexivity|].
  pose proof (joinChunks_range (c0 :: p0)) as Hj.
  rewrite rangeString_cons in *. cbn [dropLeading fst].
  unfold strings.TrimLeftFunc. cbn [strings.trimLeftFrom].
  pose proof (DecodeRune_size c0 p0) as Hs.
  destruct (utf8.DecodeRuneInString (c0 :: p0)) as [r size]. cbn [fst snd] in *.
  destruct (f r); [|now rewrite Hj].
  rewrite trimLeftFrom_drop.
  replace (drop (size - 1) p0) with (drop size (c0 :: p0))
    by (destruct size; [lia|]; cbn [drop]; f_equal; lia).
  apply (IH (List.length (drop size (c0 :: p0)))); [|reflexivity].
  rewrite length_drop. subst n. cbn [List.length] in *. lia.
Qed.

Lemma lastIndexFrom_drop (k : nat) (rs : list ascii) :
  strings.lastIndexFrom f k rs = strings.lastIndexFrom f 0 (drop k rs).
Proof.
  revert k. induction rs as [|c rs IH]; intros k.
  - now destruct k.
  - destruct k as [|k]; [reflexivity|]. cbn [strings.lastIndexFrom drop]. apply IH.
Qed.

Lemma dropLeading_split (cs : list (Z * list ascii)) :
  exists sp, cs = sp ++ dropLeading f cs /\ Forall (fun ch => f (fst ch) = true) sp.
Proof.
  induction cs as [|ch cs IH]; [now exists []|]. cbn [dropLeading].
  destruct (f (fst ch)) eqn:E.
  - destruct IH as (sp & Hs & Hf). exists (ch :: sp). split; [|now constructor].
    cbn [app]. now rewrite <- Hs.
  - now exists [].
Qed.

Lemma dropLeading_head (cs : list (Z * list ascii)) :
  match dropLeading f cs with
  | [] => True
  | ch :: _ => f (fst ch) = false
  end.
Proof.
  induction cs as [|ch cs IH]; [exact I|]. cbn [dropLeading].
  destruct (f (fst ch)) eqn:E; [exact IH | exact E].
Qed.

Lemma dropLeading_all (sp cs : list (Z * list ascii)) :
  Forall (fun ch => f (fst ch) = true) sp -> dropLeading f (sp ++ cs) = dropLeading f cs.
Proof.
  induction 1 as [|ch sp Hc _ IH]; [reflexivity|]. cbn [app dropLeading]. now rewrite Hc.
Qed.

Lemma dropLeading_stop (ch : Z * list ascii) (cs : list (Z * list ascii)) :
  f (fst ch) = false -> dropLeading f (ch :: cs) = ch :: cs.
Proof. intros H. cbn [dropLeading]. now rewrite H. Qed.

(** A run of runes that satisfy [f] is a run of valid encodings. *)
Lemma satisfying_startsRune (sp : list (Z * list ascii)) (q : list ascii) :
  Forall Chunk sp -> Forall (fun ch => f (fst ch) = true) sp -> startsRune q ->
  startsRune (joinChunks sp ++ q).
Proof.
  intros Hc Hf Hq. destruct sp as [|ch sp]; [exact Hq|].
  apply Forall_inv in Hc. apply Forall_inv in Hf.
  rewrite joinChunks_cons, <- app_assoc. apply Chunk_startsRune; [exact Hc|].
  intros E. rewrite E, f_RuneError in Hf. discriminate.
Qed.

(** The loop of [lastIndexFunc], on a text of which the runes are known. *)
Lemma lastIndexFrom_chunks (p : list ascii) :
  strings.lastIndexFrom f 0 (rev p)
  = match dropLeading f (rev (rangeString p)) with
    | [] => None
    | _ :: before => Some (rev (joinChunks (rev before)))
    end.
Proof.
  remember (List.length p) as n eqn:Hn. revert p Hn.
  induction n as [n IH] using lt_wf_ind. intros p Hn.
  destruct (rangeString p) as [|ch0 cs0] eqn:Hr using rev_ind.
  - pose proof (joinChunks_range p) as Hp. rewrite Hr in Hp. now subst p.
  - clear IHcs0. rename cs0 into cs. destruct ch0 as [r e].
    pose proof (DecodeLastRune_last p cs r e Hr) as Hd.
    pose proof (joinChunks_range p) as Hp.
    rewrite Hr, joinChunks_app in Hp. cbn in Hp. rewrite app_nil_r in Hp.
    pose proof (rangeString_Chunk p) as Hc. rewrite Hr in Hc.
    apply Forall_app in Hc as [_ Hc]. apply Forall_inv in Hc.
    pose proof (Chunk_nonempty _ Hc) as Hne. cbn [snd] in Hne.
    rewrite rev_app_distr. cbn [rev app dropLeading fst].
    unfold utf8.DecodeLastRuneInString in Hd.
    assert (Hrev : rev p = rev e ++ rev (joinChunks cs))
      by (now rewrite <- Hp, rev_app_distr).
    destruct (rev p) as [|c rs] eqn:Hrp.
    { destruct e; [contradiction|]. cbn in Hrev.
      destruct (rev e); discriminate. }
    cbn [strings.lastIndexFrom]. rewrite Hd.
    assert (Hdrop : drop (List.length e) (c :: rs) = rev (joinChunks cs)).
    { rewrite Hrev, <- length_rev. apply drop_app_length. }
    destruct (f r) eqn:Ef.
    + rewrite lastIndexFrom_drop.
      replace (drop (List.length e - 1) rs) with (drop (List.length e) (c :: rs))
        by (destruct e; [contradiction|]; cbn [List.length drop]; f_equal; lia).
      rewrite Hdrop.
      assert (Hpre : rangeString (joinChunks cs) = cs).
      { apply (rangeString_prefix p cs [(r, e)] Hr). cbn. rewrite app_nil_r.
        rewrite <- (app_nil_r e). apply (Chunk_startsRune (r, e)); [exact Hc|].
        cbn [fst]. intros E. rewrite E, f_RuneError in Ef. discriminate. }
      rewrite (IH (List.length (joinChunks cs))); [now rewrite Hpre| |reflexivity].
      subst n. rewrite <- Hp, length_app. destruct e; [contradiction|]. cbn. lia.
    + rewrite Hdrop. now rewrite rev_involutive.
Qed.

(** [TrimRightFunc] takes the trailing runes that satisfy [f] away. *)
Lemma TrimRightFunc_chunks (p : list ascii) :
  strings.TrimRightFunc p f = joinChunks (dropTrailing f (rangeString p)).
Proof.
  unfold strings.TrimRightFunc, dropTrailing. rewrite lastIndexFrom_chunks.
  destruct (dropLeading_split (rev (rangeString p))) as (sp & Hs & Hf).
  pose proof (dropLeading_head (rev (rangeString p))) as Hh.
  destruct (dropLeading f (rev (rangeString p))) as [|[r e] before]; [reflexivity|].
  cbn [fst] in Hh.
  assert (Hr : rangeString p = rev before ++ (r, e) :: rev sp).
  { rewrite <- (rev_involutive (rangeString p)), Hs, rev_app_distr. cbn [rev].
    now rewrite <- app_assoc. }
  pose proof (joinChunks_range p) as Hp.
  rewrite Hr, joinChunks_app, joinChunks_cons in Hp. cbn [snd] in Hp.
  pose proof (rangeString_Chunk p) as Hc. rewrite Hr in Hc.
  apply Forall_app in Hc as [_ Hc]. pose proof (Forall_inv Hc) as Hce.
  pose proof (Chunk_nonempty _ Hce) as Hne. cbn [snd] in Hne.
  rewrite length_rev.
  set (y := joinChunks (rev before)) in *.
  assert (Hdrop : drop (List.length y) p = e ++ joinChunks (rev sp)).
  { rewrite <- Hp. apply drop_app_length. }
  rewrite Hdrop.
  assert (Hwid : match e ++ joinChunks (rev sp) with
                 | c :: _ =>
                     if utf8.RuneSelf <=? byteZ c
                     then snd (utf8.DecodeRuneInString (e ++ joinChunks (rev sp)))
                     else 1%nat
                 | [] => 1%nat
                 end = List.length e).
  { pose proof (rangeString_suffix p (rev before) ((r, e) :: rev sp) Hr) as Hsuf.
    rewrite joinChunks_cons in Hsuf. cbn [snd] in Hsuf.
    destruct e as [|c0 e0]; [contradiction|]. cbn [app] in *.
    rewrite rangeString_cons in Hsuf.
    pose proof (DecodeRune_size c0 (e0 ++ joinChunks (rev sp))) as Hsz.
    destruct (utf8.DecodeRuneInString (c0 :: e0 ++ joinChunks (rev sp))) as [r' size'].
    cbn [fst snd] in *. injection Hsuf as _ Ht _.
    assert (Hlen : size' = List.length (c0 :: e0)).
    { rewrite <- Ht. rewrite length_take. cbn [List.length] in *. lia. }
    unfold utf8.RuneSelf. destruct (Z.leb_spec 128 (byteZ c0)) as [Hb|Hb]; [exact Hlen|].
    destruct Hce as [He|(c & Hec & _ & Hc128)].
    - cbn [fst snd] in He. apply Encoding_ASCII in He as [(c & Hec & _)|[_ Ha]].
      + injection Hec as _ ->. reflexivity.
      + apply Forall_inv in Ha. lia.
    - cbn [snd] in Hec. injection Hec as _ ->. reflexivity. }
  rewrite Hwid. cbn [rev]. rewrite joinChunks_app. fold y.
  change (joinChunks [(r, e)]) with (e ++ []). rewrite app_nil_r.
  rewrite <- Hp, app_assoc, <- length_app. apply take_app_length.
Qed.

End Trimming.
Section TrimSpaceBytes.

Local Open Scope list_scope.

Lemma IsSpace_RuneError : unicode.IsSpace utf8.RuneError = false.
Proof. reflexivity. Qed.

Lemma IsSpace_ASCII (c : ascii) :
  byteZ c < 128 -> unicode.IsSpace (byteZ c) = strings.asciiSpace c.
Proof.
  intros H. pose proof (byteZ_range c). unfold unicode.IsSpace, strings.asciiSpace.
  unfold unicode.MaxLatin1.
  destruct (Z.leb_spec 0 (byteZ c)); [|lia].
  destruct (Z.leb_spec (byteZ c) 255); [|lia]. cbn [andb].
  destruct (Z.eqb_spec (byteZ c) 133); [lia|].
  destruct (Z.eqb_spec (byteZ c) 160); [lia|].
  now rewrite !orb_false_r.
Qed.

Lemma DecodeRune_ASCII (c : ascii) (p : list ascii) :
  byteZ c < 128 -> utf8.DecodeRuneInString (c :: p) = (byteZ c, 1%nat).
Proof.
  intros H. apply first_ASCII in H. cbn [utf8.DecodeRuneInString]. now rewrite H.
Qed.

Lemma Encoding_ASCII_byte (c : ascii) : byteZ c < 128 -> Encoding [c] (byteZ c).
Proof. intros H. constructor. now apply first_ASCII. Qed.

Lemma rangeString_ASCII (c : ascii) (p : list ascii) :
  byteZ c < 128 -> rangeString (c :: p) = (byteZ c, [c]) :: rangeString p.
Proof.
  intros H. exact (rangeString_Encoding [c] (byteZ c) p (Encoding_ASCII_byte c H)).
Qed.

Lemma rangeString_snoc_ASCII (p : list ascii) (c : ascii) :
  byteZ c < 128 -> rangeString (p ++ [c]) = rangeString p ++ [(byteZ c, [c])].
Proof.
  intros H. rewrite rangeString_app.
  - now rewrite rangeString_ASCII.
  - cbn. apply RuneStart_true. now left.
Qed.

Lemma dropTrailing_snoc (f : Z -> bool) (cs : list (Z * list ascii)) (ch : Z * list ascii) :
  dropTrailing f (cs ++ [ch]) = if f (fst ch) then dropTrailing f cs else cs ++ [ch].
Proof.
  unfold dropTrailing. rewrite rev_unit. cbn [dropLeading].
  destruct (f (fst ch)); [reflexivity|]. cbn [rev]. now rewrite rev_involutive.
Qed.

(** The second loop of [TrimSpace] returns what [TrimRightFunc] returns. *)
Lemma trimSpaceStop_TrimRightFunc (rs : list ascii) :
  strings.trimSpaceStop rs = strings.TrimRightFunc (rev rs) unicode.IsSpace.
Proof.
  induction rs as [|c rs IH]; [reflexivity|]. cbn [strings.trimSpaceStop].
  unfold utf8.RuneSelf. destruct (Z.leb_spec 128 (byteZ c)) as [Hc|Hc]; [reflexivity|].
  rewrite (TrimRightFunc_chunks _ IsSpace_RuneError). cbn [rev].
  rewrite rangeString_snoc_ASCII, dropTrailing_snoc by exact Hc. cbn [fst].
  rewrite IsSpace_ASCII by exact Hc.
  destruct (strings.asciiSpace c).
  - now rewrite IH, (TrimRightFunc_chunks _ IsSpace_RuneError).
  - rewrite <- rangeString_snoc_ASCII by exact Hc. now rewrite joinChunks_range.
Qed.

(** [TrimSpace] returns what [TrimFunc(s, unicode.IsSpace)] returns. *)
Lemma TrimSpace_TrimFunc (p : list ascii) :
  strings.TrimSpace p = strings.TrimFunc p unicode.IsSpace.
Proof.
  induction p as [|c p IH]; [reflexivity|]. cbn [strings.TrimSpace].
  unfold utf8.RuneSelf. destruct (Z.leb_spec 128 (byteZ c)) as [Hc|Hc]; [reflexivity|].
  unfold strings.TrimFunc, strings.TrimLeftFunc. cbn [strings.trimLeftFrom].
  rewrite DecodeRune_ASCII, IsSpace_ASCII by exact Hc.
  destruct (strings.asciiSpace c); [exact IH|].
  now rewrite trimSpaceStop_TrimRightFunc, rev_involutive.
Qed.

(** [TrimSpace] takes the leading and the trailing white space runes of a
    text away. *)
Lemma TrimSpace_chunks (p : list ascii) :
  strings.TrimSpace p
  = joinChunks (dropTrailing unicode.IsSpace
                  (dropLeading unicode.IsSpace (rangeString p))).
Proof.
  rewrite TrimSpace_TrimFunc. unfold strings.TrimFunc.
  rewrite (TrimRightFunc_chunks _ IsSpace_RuneError), TrimLeftFunc_chunks.
  destruct (dropLeading_split unicode.IsSpace (rangeString p)) as (sp & Hs & _).
  now rewrite (rangeString_suffix p sp _ Hs).
Qed.

End TrimSpaceBytes.
Section StringsAndBytes.

Local Open Scope list_scope.

Lemma ofChars_charsOf (s : string) : ofChars (charsOf s) = s.
Proof. apply string_of_list_ascii_of_string. Qed.

Lemma charsOf_ofChars (p : list ascii) : charsOf (ofChars p) = p.
Proof. apply list_ascii_of_string_of_list_ascii. Qed.

Lemma charsOf_append (a b : string) : charsOf (a +:+ b) = charsOf a ++ charsOf b.
Proof.
  induction a as [|c a IH]; [reflexivity|].
  rewrite append_cons. cbn [charsOf list_ascii_of_string app]. f_equal. exact IH.
Qed.

Lemma ofChars_app (p q : list ascii) : ofChars (p ++ q) = ofChars p +:+ ofChars q.
Proof.
  induction p as [|c p IH]; [reflexivity|].
  cbn [app ofChars string_of_list_ascii]. rewrite append_cons. f_equal. exact IH.
Qed.

Lemma charsOf_inj (a b : string) : charsOf a = charsOf b -> a = b.
Proof.
  intros H. rewrite <- (ofChars_charsOf a), <- (ofChars_charsOf b). now rewrite H.
Qed.

Lemma charsOf_TrimSpace (s : string) :
  charsOf (TrimSpace s) = strings.TrimSpace (charsOf s).
Proof. unfold TrimSpace. apply charsOf_ofChars. Qed.

End StringsAndBytes.

Section TrimSpaceStrings.

Local Open Scope list_scope.

Lemma dropTrailing_split (f : Z -> bool) (cs : list (Z * list ascii)) :
  exists sp, cs = dropTrailing f cs ++ sp /\ Forall (fun ch => f (fst ch) = true) sp.
Proof.
  destruct (dropLeading_split f (rev cs)) as (sp & Hs & Hf).
  exists (rev sp). split.
  - unfold dropTrailing. rewrite <- rev_app_distr, <- Hs. now rewrite rev_involutive.
  - now apply Forall_rev.
Qed.

(** The runes of a trimmed text are the runes of the text without the
    leading and the trailing white space. *)
Lemma rangeString_TrimSpace (p : list ascii) :
  rangeString (strings.TrimSpace p) = trimChunks (rangeString p).
Proof.
  rewrite TrimSpace_chunks. unfold trimChunks.
  destruct (dropLeading_split unicode.IsSpace (rangeString p)) as (sp & Hs & _).
  set (mid := dropLeading unicode.IsSpace (rangeString p)) in *.
  pose proof (rangeString_suffix p sp mid Hs) as Hmid.
  destruct (dropTrailing_split unicode.IsSpace mid) as (tr & Ht & Hf).
  apply (rangeString_prefix (joinChunks mid) _ tr).
  - now rewrite Hmid.
  - rewrite <- (app_nil_r (joinChunks tr)).
    apply (satisfying_startsRune unicode.IsSpace IsSpace_RuneError); [|exact Hf|exact I].
    pose proof (rangeString_Chunk p) as Hc. rewrite Hs in Hc.
    apply Forall_app in Hc as [_ Hc]. rewrite Ht in Hc.
    now apply Forall_app in Hc as [_ Hc].
Qed.

Lemma dropLeading_idem (f : Z -> bool) (cs : list (Z * list ascii)) :
  dropLeading f (dropLeading f cs) = dropLeading f cs.
Proof.
  pose proof (dropLeading_head f cs) as H.
  destruct (dropLeading f cs) as [|ch cs']; [reflexivity|]. now apply dropLeading_stop.
Qed.

Lemma dropTrailing_idem (f : Z -> bool) (cs : list (Z * list ascii)) :
  dropTrailing f (dropTrailing f cs) = dropTrailing f cs.
Proof.
  unfold dropTrailing. now rewrite rev_involutive, dropLeading_idem.
Qed.

Lemma dropLeading_dropTrailing (f : Z -> bool) (cs : list (Z * list ascii)) :
  dropLeading f (dropTrailing f (dropLeading f cs)) = dropTrailing f (dropLeading f cs).
Proof.
  pose proof (dropLeading_head f cs) as H.
  destruct (dropLeading f cs) as [|ch cs'] eqn:E; [reflexivity|].
  destruct (dropTrailing_split f (ch :: cs')) as (tr & Ht & Hf).
  destruct (dropTrailing f (ch :: cs')) as [|ch' cs'']; [reflexivity|].
  cbn [app] in Ht. injection Ht as <- _. now apply dropLeading_stop.
Qed.

Lemma strings_TrimSpace_idem (p : list ascii) :
  strings.TrimSpace (strings.TrimSpace p) = strings.TrimSpace p.
Proof.
  rewrite (TrimSpace_chunks (strings.TrimSpace p)), rangeString_TrimSpace.
  unfold trimChunks.
  rewrite dropLeading_dropTrailing, dropTrailing_idem.
  now rewrite <- TrimSpace_chunks.
Qed.

Lemma TrimSpace_idem (s : string) : TrimSpace (TrimSpace s) = TrimSpace s.
Proof.
  apply charsOf_inj. rewrite !charsOf_TrimSpace. apply strings_TrimSpace_idem.
Qed.

Lemma strings_TrimSpace_infix (p : list ascii) :
  exists l r, p = l ++ strings.TrimSpace p ++ r.
Proof.
  rewrite TrimSpace_chunks.
  destruct (dropLeading_split unicode.IsSpace (rangeString p)) as (sp & Hs & _).
  destruct (dropTrailing_split unicode.IsSpace
              (dropLeading unicode.IsSpace (rangeString p))) as (tr & Ht & _).
  exists (joinChunks sp), (joinChunks tr).
  rewrite <- !joinChunks_app, <- Ht, <- Hs. now rewrite joinChunks_range.
Qed.

Lemma TrimSpace_infix (s : string) : exists l r, s = l +:+ TrimSpace s +:+ r.
Proof.
  destruct (strings_TrimSpace_infix (charsOf s)) as (l & r & H).
  exists (ofChars l), (ofChars r). apply charsOf_inj.
  rewrite !charsOf_append, !charsOf_ofChars, charsOf_TrimSpace. exact H.
Qed.

End TrimSpaceStrings.
Section TrimSpaceEnds.

Local Open Scope list_scope.

Lemma lastByte_rev (s : string) (d : ascii) :
  lastByte s = Some d -> exists rs, rev (charsOf s) = d :: rs.
Proof.
  induction s as [|c s IH]; [discriminate|]. cbn [lastByte].
  destruct s as [|c' s'].
  - intros [= ->]. now exists [].
  - intros H. destruct (IH H) as [rs Hrs].
    exists (rs ++ [c]). cbn [charsOf list_ascii_of_string rev] in *.
    now rewrite Hrs.
Qed.

(** A text that starts and ends with an ASCII byte that is no white space
    is left as it is. *)
Lemma TrimSpace_ends (s' : string) (c : ascii) (d : ascii) :
  lastByte (String c s') = Some d ->
  byteZ c < 128 -> strings.asciiSpace c = false ->
  byteZ d < 128 -> strings.asciiSpace d = false ->
  TrimSpace (String c s') = String c s'.
Proof.
  intros Hl Hc1 Hc2 Hd1 Hd2. apply lastByte_rev in Hl as [rs Hrs].
  unfold TrimSpace. rewrite <- (ofChars_charsOf (String c s')) at 2. f_equal.
  change (charsOf (String c s')) with (c :: charsOf s') in *.
  cbn [strings.TrimSpace]. unfold utf8.RuneSelf.
  destruct (Z.leb_spec 128 (byteZ c)); [lia|]. rewrite Hc2, Hrs.
  cbn [strings.trimSpaceStop]. unfold utf8.RuneSelf.
  destruct (Z.leb_spec 128 (byteZ d)); [lia|]. rewrite Hd2, <- Hrs.
  apply rev_involutive.
Qed.

Lemma allSpace_bytes (s : string) :
  allSpace s = true ->
  Forall (fun c => byteZ c < 128 /\ strings.asciiSpace c = true) (charsOf s).
Proof.
  induction s as [|c s IH]; [constructor|]. cbn [allSpace]. intros H.
  apply andb_true_iff in H as [Hc Hs]. constructor; [|exact (IH Hs)].
  split; [|exact Hc]. unfold strings.asciiSpace in Hc.
  repeat match type of Hc with
         | (_ || _) = true => apply orb_true_iff in Hc as [Hc|Hc]
         end; apply Z.eqb_eq in Hc; lia.
Qed.

Lemma rangeString_ASCII_app (l q : list ascii) :
  Forall (fun c => byteZ c < 128) l ->
  rangeString (l ++ q) = map (fun c => (byteZ c, [c])) l ++ rangeString q.
Proof.
  induction 1 as [|c l Hc _ IH]; [reflexivity|].
  cbn [app map]. now rewrite rangeString_ASCII, IH.
Qed.

Lemma startsRune_ASCII (l : list ascii) :
  Forall (fun c => byteZ c < 128) l -> startsRune l.
Proof.
  destruct 1 as [|c l Hc _]; [exact I|]. cbn. apply RuneStart_true. now left.
Qed.

Lemma Forall_weaken_ASCII (P : ascii -> Prop) (l : list ascii) :
  Forall (fun c => byteZ c < 128 /\ P c) l -> Forall (fun c => byteZ c < 128) l.
Proof. induction 1 as [|c l [Hc _] _ IH]; constructor; auto. Qed.

Lemma space_chunks (l : list ascii) :
  Forall (fun c => byteZ c < 128 /\ strings.asciiSpace c = true) l ->
  Forall (fun ch : Z * list ascii => unicode.IsSpace (fst ch) = true)
         (map (fun c => (byteZ c, [c])) l).
Proof.
  induction 1 as [|c l [Hc Hs] _ IH]; constructor; [|exact IH].
  cbn [fst]. now rewrite IsSpace_ASCII.
Qed.

Lemma dropTrailing_all (f : Z -> bool) (cs sp : list (Z * list ascii)) :
  Forall (fun ch => f (fst ch) = true) sp -> dropTrailing f (cs ++ sp) = dropTrailing f cs.
Proof.
  intros H. unfold dropTrailing. rewrite rev_app_distr, dropLeading_all; [reflexivity|].
  now apply Forall_rev.
Qed.

Lemma trimChunks_padded (L T R : list (Z * list ascii)) :
  Forall (fun ch => unicode.IsSpace (fst ch) = true) L ->
  Forall (fun ch => unicode.IsSpace (fst ch) = true) R ->
  trimChunks (L ++ T ++ R) = trimChunks T.
Proof.
  intros HL HR. unfold trimChunks. rewrite dropLeading_all by exact HL.
  destruct (dropLeading_split unicode.IsSpace T) as (sp & Hs & Hf).
  pose proof (dropLeading_head unicode.IsSpace T) as Hh.
  rewrite Hs at 1. rewrite <- app_assoc, dropLeading_all by exact Hf.
  destruct (dropLeading unicode.IsSpace T) as [|ch rest].
  - cbn [app]. rewrite <- (app_nil_r R), dropLeading_all by exact HR. reflexivity.
  - change ((ch :: rest) ++ R) with (ch :: (rest ++ R)).
    rewrite dropLeading_stop by exact Hh.
    change (ch :: (rest ++ R)) with ((ch :: rest) ++ R).
    now apply dropTrailing_all.
Qed.

Lemma charsOf_allSpace_chunks (l : string) (q : list ascii) :
  allSpace l = true ->
  rangeString (charsOf l ++ q)
  = map (fun c => (byteZ c, [c])) (charsOf l) ++ rangeString q.
Proof.
  intros H. apply rangeString_ASCII_app.
  exact (Forall_weaken_ASCII _ _ (allSpace_bytes l H)).
Qed.

(** ASCII white space around a text does not change what [TrimSpace]
    returns. *)
Lemma TrimSpace_padded (l t r : string) :
  allSpace l = true -> allSpace r = true -> TrimSpace (l +:+ t +:+ r) = TrimSpace t.
Proof.
  intros Hl Hr. unfold TrimSpace. f_equal. rewrite !TrimSpace_chunks.
  rewrite !charsOf_append. fold (trimChunks (rangeString (charsOf t))).
  fold (trimChunks (rangeString (charsOf l ++ charsOf t ++ charsOf r))).
  rewrite charsOf_allSpace_chunks by exact Hl.
  rewrite rangeString_app
    by (apply startsRune_ASCII; exact (Forall_weaken_ASCII _ _ (allSpace_bytes r Hr))).
  rewrite <- (app_nil_r (charsOf r)) at 1.
  rewrite charsOf_allSpace_chunks by exact Hr.
  change (rangeString []) with (@nil (Z * list ascii)). rewrite app_nil_r.
  rewrite trimChunks_padded; [reflexivity | |];
    apply space_chunks; now apply allSpace_bytes.
Qed.

End TrimSpaceEnds.

Section Lowering.

Local Open Scope list_scope.

Variable lowerCase : Z -> Z.

Lemma isASCII_app (p q : list ascii) :
  strings.isASCII (p ++ q) = strings.isASCII p && strings.isASCII q.
Proof. apply forallb_app. Qed.

Lemma isASCII_Forall (p : list ascii) :
  Forall (fun c => byteZ c < 128) p -> strings.isASCII p = true.
Proof.
  induction 1 as [|c p Hc _ IH]; [reflexivity|].
  cbn [strings.isASCII forallb]. unfold utf8.RuneSelf.
  destruct (Z.ltb_spec (byteZ c) 128); [exact IH | lia].
Qed.

Lemma lowerByte_space (c : ascii) : strings.asciiSpace c = true -> strings.lowerByte c = c.
Proof.
  intros H. unfold strings.lowerByte.
  destruct (Z.leb_spec 65 (byteZ c)); [|reflexivity].
  destruct (Z.leb_spec (byteZ c) 90); [|reflexivity].
  unfold strings.asciiSpace in H.
  repeat match type of H with
         | (_ || _) = true => apply orb_true_iff in H as [H|H]
         end; apply Z.eqb_eq in H; lia.
Qed.

Lemma map_lowerByte_space (l : list ascii) :
  Forall (fun c => byteZ c < 128 /\ strings.asciiSpace c = true) l ->
  map strings.lowerByte l = l.
Proof.
  induction 1 as [|c l [_ Hc] _ IH]; [reflexivity|].
  cbn [map]. now rewrite lowerByte_space, IH.
Qed.

Lemma Map_app (mapping : Z -> Z) (y z : list ascii) :
  startsRune z -> strings.Map mapping (y ++ z) = strings.Map mapping y ++ strings.Map mapping z.
Proof.
  intros Hz. unfold strings.Map. now rewrite rangeString_app, map_app, concat_app.
Qed.

Lemma EncodeRune_ASCII (c : ascii) : byteZ c < 128 -> utf8.EncodeRune (byteZ c) = [c].
Proof. intros H. exact (EncodeRune_Encoding _ _ (Encoding_ASCII_byte c H)). Qed.

Lemma Map_ToLower_space (l : list ascii) :
  Forall (fun c => byteZ c < 128 /\ strings.asciiSpace c = true) l ->
  strings.Map (unicode.ToLower lowerCase) l = l.
Proof.
  intros H. unfold strings.Map.
  rewrite <- (app_nil_r l) at 1.
  rewrite rangeString_ASCII_app by exact (Forall_weaken_ASCII _ _ H).
  change (rangeString []) with (@nil (Z * list ascii)). rewrite app_nil_r.
  induction H as [|c l [Hc Hs] _ IH]; [reflexivity|].
  cbn [map concat fst]. rewrite IH. pose proof (byteZ_range c) as Hb.
  assert (E : unicode.ToLower lowerCase (byteZ c) = byteZ c).
  { unfold unicode.ToLower, unicode.MaxASCII.
    destruct (Z.leb_spec (byteZ c) 127); [|lia].
    destruct (Z.leb_spec 65 (byteZ c)); [|reflexivity].
    destruct (Z.leb_spec (byteZ c) 90); [|reflexivity].
    pose proof (lowerByte_space c Hs) as Hl. unfold strings.lowerByte in Hl.
    destruct (Z.leb_spec 65 (byteZ c)); [|lia].
    destruct (Z.leb_spec (byteZ c) 90); [|lia]. cbn [andb] in Hl.
    apply (f_equal byteZ) in Hl. rewrite byteZ_toByte in Hl.
    rewrite Z.mod_small in Hl by lia. lia. }
  rewrite E. destruct (Z.leb_spec 0 (byteZ c)); [|lia].
  now rewrite EncodeRune_ASCII.
Qed.

(** ASCII white space around a text stays where it is when the text is
    lowered. *)
Lemma ToLower_padded (l s r : string) :
  allSpace l = true -> allSpace r = true ->
  ToLower lowerCase (l +:+ s +:+ r) = l +:+ ToLower lowerCase s +:+ r.
Proof.
  intros Hl Hr. apply charsOf_inj. unfold ToLower.
  rewrite !charsOf_append, !charsOf_ofChars.
  pose proof (allSpace_bytes l Hl) as Fl. pose proof (allSpace_bytes r Hr) as Fr.
  pose proof (Forall_weaken_ASCII _ _ Fl) as Al.
  pose proof (Forall_weaken_ASCII _ _ Fr) as Ar.
  unfold strings.ToLower. rewrite !isASCII_app.
  rewrite (isASCII_Forall _ Al), (isASCII_Forall _ Ar), andb_true_r. cbn [andb].
  destruct (strings.isASCII (charsOf s)).
  - rewrite !map_app. now rewrite (map_lowerByte_space _ Fl), (map_lowerByte_space _ Fr).
  - rewrite <- (Map_ToLower_space _ Fl) at 2. rewrite <- (Map_ToLower_space _ Fr) at 2.
    unfold strings.Map at 1.
    rewrite rangeString_ASCII_app by exact Al.
    rewrite rangeString_app by (now apply startsRune_ASCII).
    rewrite !map_app, !concat_app. f_equal.
    unfold strings.Map. rewrite <- (app_nil_r (charsOf l)) at 2.
    rewrite rangeString_ASCII_app by exact Al.
    change (rangeString []) with (@nil (Z * list ascii)). now rewrite app_nil_r.
Qed.

Lemma lowerByte_ASCII (c : ascii) : byteZ c < 128 -> byteZ (strings.lowerByte c) < 128.
Proof.
  intros H. unfold strings.lowerByte.
  destruct (Z.leb_spec 65 (byteZ c)); [|exact H].
  destruct (Z.leb_spec (byteZ c) 90); [|exact H]. cbn [andb].
  rewrite byteZ_toByte, Z.mod_small by lia. lia.
Qed.

Lemma lowerByte_cases (c : ascii) :
  strings.lowerByte c = c
  \/ (65 <= byteZ c <= 90 /\ strings.lowerByte c = toByte (byteZ c + (97 - 65))).
Proof.
  unfold strings.lowerByte.
  destruct (Z.leb_spec 65 (byteZ c)); [|now left].
  destruct (Z.leb_spec (byteZ c) 90); [|now left]. right. split; [lia | reflexivity].
Qed.

Lemma lowerByte_idem (c : ascii) :
  strings.lowerByte (strings.lowerByte c) = strings.lowerByte c.
Proof.
  destruct (lowerByte_cases c) as [H|[Hc H]]; rewrite !H; [reflexivity|].
  unfold strings.lowerByte. rewrite byteZ_toByte, Z.mod_small by lia.
  destruct (Z.leb_spec 65 (byteZ c + (97 - 65))); [|reflexivity].
  destruct (Z.leb_spec (byteZ c + (97 - 65)) 90); [lia | reflexivity].
Qed.

Lemma isASCII_spec (p : list ascii) :
  strings.isASCII p = true -> Forall (fun c => byteZ c < 128) p.
Proof.
  induction p as [|c p IH]; [constructor|]. cbn [strings.isASCII forallb].
  intros H. apply andb_true_iff in H as [Hc Hp].
  constructor; [now apply Z.ltb_lt in Hc | exact (IH Hp)].
Qed.

(** Lowering a text of ASCII bytes twice is lowering it once. *)
Lemma ToLower_idem_ASCII (s : string) :
  isASCII s = true -> ToLower lowerCase (ToLower lowerCase s) = ToLower lowerCase s.
Proof.
  unfold isASCII, ToLower. intros H. rewrite charsOf_ofChars. f_equal.
  unfold strings.ToLower. rewrite H.
  assert (Hl : strings.isASCII (map strings.lowerByte (charsOf s)) = true).
  { apply isASCII_Forall. apply isASCII_spec in H.
    induction H as [|c p Hc _ IH]; constructor; [now apply lowerByte_ASCII | exact IH]. }
  rewrite Hl, map_map. apply map_ext. intros c. apply lowerByte_idem.
Qed.

End Lowering.

(** ** The utility parsers *)

(** The tables of [TestParseUptime], [TestParseSpeed], [TestParseMemory]
    and [TestParseInt64]. *)
Example ParseUptime_tests :
  map ParseUptime [""; "45s"; "5m30s"; "2h30m15s"; "1d"; "1d12h"; "1w";
                   "1w2d3h4m5s"; " 1h 30m "]
  = [0; 45; 330; 9015; 86400; 129600; 604800; 788645; 5400].
Proof. vm_compute. reflexivity. Qed.

Example ParseSpeed_tests (lowerCase : Z -> Z) :
  map (ParseSpeed lowerCase)
      [""; "auto"; "unknown"; "1Gbps"; "100Mbps"; "10Gbps"; "100mbps"]
  = [0; 0; 0; 1000; 100; 10000; 100].
Proof. vm_compute. reflexivity. Qed.

Example ParseMemory_tests (lowerCase : Z -> Z) :
  map (ParseMemory lowerCase) [""; "1024"; "1KiB"; "100MiB"; "1GiB"; "512mib"]
  = [0; 1024; 1024; 104857600; 1073741824; 536870912].
Proof. vm_compute. reflexivity. Qed.

Example ParseInt64_tests :
  map ParseInt64 [""; "0"; "123"; "-456"; "  789  "; "invalid"; "12.34"]
  = [0; 0; 123; -456; 789; 0; 0].
Proof. vm_compute. reflexivity. Qed.

Example ParseSpeed_more (lowerCase : Z -> Z) :
  map (ParseSpeed lowerCase) ["2.5Gbps"; "1500 kbps"; "10 G"; "Gbps"; "1.Gbps"; "7"]
  = [2500; 1; 0; 0; 0; 7].
Proof. vm_compute. reflexivity. Qed.

(** Text that is not ASCII: a no-break space before the number is white
    space that [TrimSpace] takes away; the Kelvin sign U+212A is a letter
    that a case table lowers to [k]; a byte that is no UTF-8 is not
    trimmed. *)
Example Parse_beyond_ASCII :
  let kelvin := fun r => if r =? 0x212A then 107 else r in
  let nbsp := ofChars [toByte 0xC2; toByte 0xA0] in
  let sign := ofChars [toByte 0xE2; toByte 0x84; toByte 0xAA] in
  ParseSpeed kelvin (nbsp +:+ "10Gbps") = 10000 /\
  ParseMemory kelvin ("1" +:+ sign +:+ "iB") = 1024 /\
  ParseInt64 (nbsp +:+ "42" +:+ nbsp) = 42 /\
  ParseInt64 (ofChars [toByte 0xA0] +:+ "42") = 0.
Proof. vm_compute. repeat split. Qed.

Section Scanners.

Lemma spanDigits_spec (s d r : string) :
  spanDigits s = (d, r) -> s = d +:+ r /\ allDigits d = true.
Proof.
  revert d r. induction s as [|c s IH]; intros d r H; cbn [spanDigits] in H.
  - injection H as <- <-. split; reflexivity.
  - destruct (isDigit c) eqn:Ec.
    + destruct (spanDigits s) as [d' r'] eqn:Es. injection H as <- <-.
      destruct (IH d' r' eq_refl) as [-> Hd]. split.
      * now rewrite append_cons.
      * cbn [allDigits]. now rewrite Ec, Hd.
    + injection H as <- <-. split; reflexivity.
Qed.

Lemma skipRegexpSpace_spec (s : string) :
  exists ws, s = ws +:+ skipRegexpSpace s /\ allRegexpSpace ws = true.
Proof.
  induction s as [|c s IH]; cbn [skipRegexpSpace].
  - exists "". split; reflexivity.
  - destruct (isRegexpSpace c) eqn:Ec.
    + destruct IH as (ws & Hs & Hws). exists (String c ws). split.
      * rewrite append_cons. now rewrite <- Hs.
      * cbn [allRegexpSpace]. now rewrite Ec, Hws.
    + exists "". split; reflexivity.
Qed.

Lemma existsb_eqb_In (x : string) (l : list string) :
  existsb (String.eqb x) l = true -> In x l.
Proof.
  intros H. apply existsb_exists in H as (y & Hy & Hxy).
  apply String.eqb_eq in Hxy. now subst y.
Qed.

End Scanners.

Section ParserSoundness.

Lemma matchNumberUnit_sound (units : list string) (s num g2 : string) :
  matchNumberUnit units s = Some (num, g2) -> isNumberUnitText units s.
Proof.
  unfold matchNumberUnit. destruct (spanDigits s) as [ip r1] eqn:E1.
  apply spanDigits_spec in E1 as [-> Hip].
  destruct (String.eqb ip "") eqn:Eip; [discriminate|].
  apply String.eqb_neq in Eip.
  assert (Hshape : forall fp r2,
             (fp = "" \/ exists f, fp = String "." f /\ f <> "" /\ allDigits f = true) ->
             r1 = fp +:+ r2 ->
             (if String.eqb (skipRegexpSpace r2) "" then Some (ip +:+ fp, "")
              else if existsb (String.eqb (skipRegexpSpace r2)) units
                   then Some (ip +:+ fp, skipRegexpSpace r2) else None)
             = Some (num, g2) ->
             isNumberUnitText units (ip +:+ r1)).
  { intros fp r2 Hfp -> H.
    destruct (skipRegexpSpace_spec r2) as (ws & Hr2 & Hws).
    exists ip, fp, ws, (skipRegexpSpace r2).
    rewrite <- Hr2. repeat split; try assumption.
    destruct (String.eqb (skipRegexpSpace r2) "") eqn:E3.
    - left. now apply String.eqb_eq.
    - destruct (existsb _ units) eqn:E4; [|discriminate].
      right. now apply existsb_eqb_In. }
  destruct r1 as [|c r1'].
  - intros H. apply (Hshape "" ""); [now left | reflexivity |].
    now rewrite append_nil_r.
  - destruct (spanDigits r1') as [fp r] eqn:E2.
    apply spanDigits_spec in E2 as [-> Hfp].
    destruct (Ascii.eqb c "." && negb (String.eqb fp "")) eqn:Ec.
    + apply andb_true_iff in Ec as [Ec Hne]. apply Ascii.eqb_eq in Ec. subst c.
      apply negb_true_iff, String.eqb_neq in Hne.
      intros H. apply (Hshape (String "." fp) r).
      * right. exists fp. auto.
      * now rewrite append_cons.
      * exact H.
    + intros H. apply (Hshape "" (String c (fp +:+ r))); [now left | reflexivity |].
      now rewrite append_nil_r.
Qed.

Lemma ParseInt_sound (s : string) (v : Z) :
  ParseInt s = Some v -> isIntegerText s.
Proof.
  destruct s as [|c rest]; [discriminate|]. cbn [ParseInt].
  destruct (Ascii.eqb c "+") eqn:Ep; [|destruct (Ascii.eqb c "-") eqn:Em].
  - apply Ascii.eqb_eq in Ep. subst c.
    destruct (String.eqb rest "" || negb (allDigits rest)) eqn:E; [discriminate|].
    apply orb_false_iff in E as [E1 E2]. apply String.eqb_neq in E1.
    apply negb_false_iff in E2. intros _. exists "+", rest. auto.
  - apply Ascii.eqb_eq in Em. subst c.
    destruct (String.eqb rest "" || negb (allDigits rest)) eqn:E; [discriminate|].
    apply orb_false_iff in E as [E1 E2]. apply String.eqb_neq in E1.
    apply negb_false_iff in E2. intros _. exists "-", rest. auto.
  - destruct (String.eqb (String c rest) "" || negb (allDigits (String c rest))) eqn:E;
      [discriminate|].
    apply orb_false_iff in E as [E1 E2]. apply negb_false_iff in E2.
    intros _. exists "", (String c rest). repeat split; auto.
Qed.

End ParserSoundness.

Section UnparseableIsZero.

Variable lowerCase : Z -> Z.

Lemma ParseSpeed_unparseable (s : string) :
  ~ isNumberUnitText speedUnits (TrimSpace (ToLower lowerCase s)) ->
  ParseSpeed lowerCase s = 0.
Proof.
  intros Hn. unfold ParseSpeed. destruct (String.eqb s ""); [reflexivity|].
  destruct (_ || _); [reflexivity|].
  destruct (matchNumberUnit speedUnits _) as [[num g2]|] eqn:Em; [|reflexivity].
  exfalso. apply Hn. eapply matchNumberUnit_sound. exact Em.
Qed.

Lemma ParseInt64_unparseable (s : string) :
  ~ isIntegerText (TrimSpace s) -> ParseInt64 s = 0.
Proof.
  intros Hn. unfold ParseInt64. destruct (String.eqb _ ""); [reflexivity|].
  destruct (ParseInt (TrimSpace s)) as [v|] eqn:Ep; [|reflexivity].
  exfalso. apply Hn. eapply ParseInt_sound. exact Ep.
Qed.

Lemma ParseMemory_unparseable (s : string) :
  ~ isNumberUnitText memoryUnits (TrimSpace (ToLower lowerCase s)) ->
  ~ isIntegerText (TrimSpace (ToLower lowerCase s)) ->
  ParseMemory lowerCase s = 0.
Proof.
  intros Hn Hi. unfold ParseMemory. destruct (String.eqb s ""); [reflexivity|].
  destruct (matchNumberUnit memoryUnits _) as [[num g2]|] eqn:Em.
  - exfalso. apply Hn. eapply matchNumberUnit_sound. exact Em.
  - apply ParseInt64_unparseable. now rewrite TrimSpace_idem.
Qed.

Lemma hasUptimeComponent_infix (l s r : string) :
  hasUptimeComponent s -> hasUptimeComponent (l +:+ s +:+ r).
Proof.
  intros (a & d & u & b & -> & Hd & Hu).
  exists (l +:+ a), d, u, (b +:+ r). repeat split; try assumption.
  now rewrite !append_assoc, !append_cons.
Qed.

Lemma findUptimeFrom_nil (s run : string) :
  (run = "" \/ forall u b, s = String u b -> isUptimeUnit u = false) ->
  ~ hasUptimeComponent s ->
  findUptimeFrom run s = [].
Proof.
  revert run. induction s as [|c s IH]; intros run Hrun Hn; [reflexivity|].
  cbn [findUptimeFrom].
  assert (Hn' : ~ hasUptimeComponent s).
  { intros H. apply Hn. apply (hasUptimeComponent_infix (String c "") s "") in H.
    now rewrite append_nil_r in H. }
  destruct (isDigit c) eqn:Ed.
  - apply IH; [|exact Hn']. right. intros u b -> .
    destruct (isUptimeUnit u) eqn:Eu; [|reflexivity].
    exfalso. apply Hn. exists "", c, u, b. auto.
  - destruct (negb (String.eqb run "") && isUptimeUnit c) eqn:E.
    + apply andb_true_iff in E as [E1 E2].
      apply negb_true_iff, String.eqb_neq in E1.
      destruct Hrun as [Hrun|Hrun]; [contradiction|].
      rewrite (Hrun c s eq_refl) in E2. discriminate.
    + apply IH; [now left | exact Hn'].
Qed.

Lemma ParseUptime_unparseable (s : string) :
  ~ hasUptimeComponent s -> ParseUptime s = 0.
Proof.
  intros Hn. unfold ParseUptime. destruct (String.eqb s ""); [reflexivity|].
  unfold findUptimeMatches. rewrite findUptimeFrom_nil; [reflexivity | now left |].
  intros H. apply Hn. destruct (TrimSpace_infix s) as (l & r & Hs).
  rewrite Hs. now apply hasUptimeComponent_infix.
Qed.

End UnparseableIsZero.

Section UptimeComponents.

Lemma unit_cases (u : ascii) :
  isUptimeUnit u = true ->
  u = "w"%char \/ u = "d"%char \/ u = "h"%char \/ u = "m"%char \/ u = "s"%char.
Proof.
  unfold isUptimeUnit. rewrite !orb_true_iff, !Ascii.eqb_eq. tauto.
Qed.

Lemma unit_not_digit (u : ascii) : isUptimeUnit u = true -> isDigit u = false.
Proof.
  intros H. destruct (unit_cases u H) as [->|[->|[->|[->| ->]]]]; reflexivity.
Qed.

Lemma unit_not_space (u : ascii) :
  isUptimeUnit u = true -> byteZ u < 128 /\ strings.asciiSpace u = false.
Proof.
  intros H. destruct (unit_cases u H) as [->|[->|[->|[->| ->]]]]; split; reflexivity.
Qed.

Lemma digit_range (c : ascii) :
  isDigit c = true <-> (48 <= byteOf c <= 57)%nat.
Proof.
  unfold isDigit. rewrite andb_true_iff, !Nat.leb_le. reflexivity.
Qed.

Lemma digit_not_space (c : ascii) :
  isDigit c = true -> byteZ c < 128 /\ strings.asciiSpace c = false.
Proof.
  rewrite digit_range. intros H. unfold strings.asciiSpace, byteZ.
  split; [lia|].
  repeat match goal with
         | |- context [?x =? ?y] => destruct (Z.eqb_spec x y); [lia|]
         end.
  reflexivity.
Qed.

Lemma digit_not_sign (c : ascii) :
  isDigit c = true -> Ascii.eqb c "+" = false /\ Ascii.eqb c "-" = false.
Proof.
  intros H. split; apply Ascii.eqb_neq; intros ->; discriminate H.
Qed.

Lemma findUptimeFrom_digits (d rest run : string) :
  allDigits d = true ->
  findUptimeFrom run (d +:+ rest) = findUptimeFrom (run +:+ d) rest.
Proof.
  revert run. induction d as [|c d IH]; intros run Hd.
  - now rewrite append_nil_l, append_nil_r.
  - cbn [allDigits] in Hd. apply andb_true_iff in Hd as [Hc Hd].
    rewrite append_cons. cbn [findUptimeFrom]. rewrite Hc, IH by exact Hd.
    now rewrite append_assoc, append_cons, append_nil_l.
Qed.

Lemma findUptimeFrom_component (d : string) (u : ascii) (rest : string) :
  componentOk (d, u) ->
  findUptimeFrom "" (d +:+ String u rest)
    = (d, String u "") :: findUptimeFrom "" rest.
Proof.
  intros (Hne & Hd & Hu). cbn [fst snd] in *.
  rewrite findUptimeFrom_digits, append_nil_l by exact Hd.
  cbn [findUptimeFrom]. rewrite (unit_not_digit u Hu), Hu.
  apply String.eqb_neq in Hne. now rewrite Hne.
Qed.

Lemma findUptimeMatches_render (comps : list (string * ascii)) :
  Forall componentOk comps ->
  findUptimeMatches (renderComponents comps)
    = map (fun c => (fst c, String (snd c) "")) comps.
Proof.
  unfold findUptimeMatches. induction 1 as [|[d u] comps Hc _ IH]; [reflexivity|].
  cbn [renderComponents map fst snd].
  rewrite findUptimeFrom_component by exact Hc. now rewrite IH.
Qed.

Lemma lastByte_append (a : string) (u : ascii) (r : string) :
  lastByte (a +:+ String u r) = lastByte (String u r).
Proof.
  induction a as [|c a IH]; [reflexivity|].
  rewrite append_cons. destruct a as [|c' a'].
  - rewrite append_nil_l. reflexivity.
  - rewrite append_cons in *. exact IH.
Qed.

Lemma render_nonempty (c : string * ascii) (comps : list (string * ascii)) :
  exists x t, renderComponents (c :: comps) = String x t.
Proof.
  destruct c as [d u]. cbn [renderComponents]. destruct d as [|x d].
  - rewrite append_nil_l. eauto.
  - rewrite append_cons. eauto.
Qed.

Lemma render_last (c : string * ascii) (comps : list (string * ascii)) :
  Forall componentOk (c :: comps) ->
  exists u, lastByte (renderComponents (c :: comps)) = Some u /\ isUptimeUnit u = true.
Proof.
  revert c. induction comps as [|c' comps IH]; intros [d u] Hall.
  - apply Forall_inv in Hall as (_ & _ & Hu). cbn [renderComponents snd] in *.
    rewrite lastByte_append. exists u. auto.
  - change (renderComponents ((d, u) :: c' :: comps))
      with (d +:+ String u (renderComponents (c' :: comps))).
    rewrite lastByte_append. apply Forall_inv_tail in Hall.
    destruct (render_nonempty c' comps) as (x & t & E).
    destruct (IH c' Hall) as (u' & Hl & Hu'). rewrite E in *.
    exists u'. split; [exact Hl | exact Hu'].
Qed.

Lemma TrimSpace_render (comps : list (string * ascii)) :
  Forall componentOk comps ->
  TrimSpace (renderComponents comps) = renderComponents comps.
Proof.
  intros Hall. destruct comps as [|[d u] comps]; [reflexivity|].
  destruct (render_last _ _ Hall) as (v & Hl & Hv).
  pose proof (Forall_inv Hall) as (Hne & Hd & Hu). cbn [fst snd] in *.
  destruct d as [|x d]; [contradiction|].
  cbn [allDigits] in Hd. apply andb_true_iff in Hd as [Hx _].
  cbn [renderComponents] in *. rewrite append_cons in *.
  destruct (digit_not_space x Hx) as [Hx1 Hx2].
  destruct (unit_not_space v Hv) as [Hv1 Hv2].
  now apply (TrimSpace_ends _ x v).
Qed.

Lemma digitValue_range (c : ascii) : isDigit c = true -> 0 <= digitValue c <= 9.
Proof. rewrite digit_range. unfold digitValue. lia. Qed.

Lemma decimalFrom_nonneg (s : string) (acc : Z) :
  0 <= acc -> allDigits s = true -> 0 <= decimalFrom acc s.
Proof.
  revert acc. induction s as [|c s IH]; intros acc Hacc Hs; [exact Hacc|].
  cbn [allDigits] in Hs. apply andb_true_iff in Hs as [Hc Hs].
  cbn [decimalFrom]. apply IH; [|exact Hs].
  pose proof (digitValue_range c Hc). lia.
Qed.

Lemma decimal_nonneg (s : string) : allDigits s = true -> 0 <= decimal s.
Proof. apply decimalFrom_nonneg. lia. Qed.

Lemma ParseInt_digits (d : string) :
  d <> "" -> allDigits d = true -> decimal d < 2 ^ 63 ->
  ParseInt d = Some (decimal d).
Proof.
  intros Hne Hd Hlt. destruct d as [|c rest]; [contradiction|].
  cbn [ParseInt]. pose proof Hd as Hd'. cbn [allDigits] in Hd'.
  apply andb_true_iff in Hd' as [Hc _].
  destruct (digit_not_sign c Hc) as [-> ->].
  rewrite Hd. cbn [String.eqb orb negb].
  destruct (Z.ltb_spec (decimal (String c rest)) (2 ^ 63)); [reflexivity | lia].
Qed.

Lemma I64_wrap_small (z : Z) : I64.min <= z <= I64.max -> I64.wrap z = z.
Proof.
  unfold I64.min, I64.max, I64.wrap. intros H.
  rewrite Z.mod_small by lia. lia.
Qed.

Lemma unitSeconds_pos (u : ascii) : isUptimeUnit u = true -> 1 <= unitSeconds u.
Proof.
  intros H. destruct (unit_cases u H) as [->|[->|[->|[->| ->]]]]; cbn; lia.
Qed.

Lemma uptimeStep_component (total : Z) (d : string) (u : ascii) :
  componentOk (d, u) -> 0 <= total ->
  total + decimal d * unitSeconds u <= I64.max ->
  uptimeStep total (d, String u "") = total + decimal d * unitSeconds u.
Proof.
  intros (Hne & Hd & Hu) Ht Hmax. cbn [fst snd] in *.
  pose proof (decimal_nonneg d Hd) as Hv.
  pose proof (unitSeconds_pos u Hu) as Hs.
  assert (Hle : decimal d <= decimal d * unitSeconds u) by nia.
  unfold I64.max in Hmax.
  unfold uptimeStep. rewrite ParseInt_digits by (try assumption; lia).
  set (v := decimal d) in *.
  destruct (unit_cases u Hu) as [->|[->|[->|[->| ->]]]];
    cbn [String.eqb Ascii.eqb Bool.eqb unitSeconds] in *;
    unfold I64.add, I64.mul;
    repeat match goal with
           | |- context [I64.wrap ?z] =>
               rewrite (I64_wrap_small z) by (unfold I64.min, I64.max; lia)
           end;
    lia.
Qed.

Lemma componentsTotal_nonneg (comps : list (string * ascii)) :
  Forall componentOk comps -> 0 <= componentsTotal comps.
Proof.
  induction 1 as [|[d u] comps (_ & Hd & Hu) _ IH]; cbn [componentsTotal fst snd] in *.
  - lia.
  - pose proof (decimal_nonneg d Hd). pose proof (unitSeconds_pos u Hu). nia.
Qed.

Lemma fold_uptimeStep_components (comps : list (string * ascii)) (acc : Z) :
  Forall componentOk comps -> 0 <= acc ->
  acc + componentsTotal comps <= I64.max ->
  fold_left uptimeStep (map (fun c => (fst c, String (snd c) "")) comps) acc
    = acc + componentsTotal comps.
Proof.
  intros Hall. revert acc.
  induction Hall as [|[d u] comps Hc Hall IH]; intros acc Hacc Hmax.
  - cbn. lia.
  - cbn [map fold_left componentsTotal fst snd] in *.
    pose proof (componentsTotal_nonneg comps Hall) as Hrest.
    pose proof Hc as (_ & Hd & Hu). cbn [fst snd] in Hd, Hu.
    pose proof (decimal_nonneg d Hd). pose proof (unitSeconds_pos u Hu).
    rewrite uptimeStep_component by (try assumption; nia).
    rewrite IH by nia. lia.
Qed.

(** A text written from components parses to the sum of their values. *)
Lemma ParseUptime_components (comps : list (string * ascii)) :
  Forall componentOk comps -> componentsTotal comps <= I64.max ->
  ParseUptime (renderComponents comps) = componentsTotal comps.
Proof.
  intros Hall Hmax. unfold ParseUptime.
  destruct (String.eqb (renderComponents comps) "") eqn:E.
  - apply String.eqb_eq in E. destruct comps as [|c comps]; [reflexivity|].
    destruct (render_nonempty c comps) as (x & t & Ex). congruence.
  - rewrite TrimSpace_render, findUptimeMatches_render by exact Hall.
    rewrite fold_uptimeStep_components by (try assumption; lia). lia.
Qed.

End UptimeComponents.

Section UptimeAnywhere.

Local Open Scope list_scope.

Lemma findUptimeFrom_noDigit (j x : string) :
  noDigit j = true -> findUptimeFrom "" (j +:+ x) = findUptimeFrom "" x.
Proof.
  induction j as [|c j IH]; [reflexivity|]. cbn [noDigit]. intros H.
  apply andb_true_iff in H as [Hc Hj]. apply negb_true_iff in Hc.
  rewrite append_cons. cbn [findUptimeFrom]. rewrite Hc. cbn [String.eqb negb andb].
  exact (IH Hj).
Qed.

Lemma findUptimeFrom_no_component (r run : string) :
  Forall (fun c => isDigit c = false /\ isUptimeUnit c = false) (charsOf r) ->
  findUptimeFrom run r = [].
Proof.
  revert run. induction r as [|c r IH]; intros run H; [reflexivity|].
  change (charsOf (String c r)) with (c :: charsOf r) in H.
  pose proof (Forall_inv H) as [Hd Hu]. apply Forall_inv_tail in H.
  cbn [findUptimeFrom]. rewrite Hd, Hu, andb_false_r. exact (IH _ H).
Qed.

Lemma findUptimeFrom_trailing (x r run : string) :
  Forall (fun c => isDigit c = false /\ isUptimeUnit c = false) (charsOf r) ->
  findUptimeFrom run (x +:+ r) = findUptimeFrom run x.
Proof.
  intros H. revert run. induction x as [|c x IH]; intros run.
  - rewrite append_nil_l. now apply findUptimeFrom_no_component.
  - rewrite append_cons. cbn [findUptimeFrom].
    destruct (isDigit c); [apply IH|].
    destruct (negb (String.eqb run "") && isUptimeUnit c); [f_equal|]; apply IH.
Qed.

(** The bytes of white space are no digits and no unit letters. *)
Lemma space_bytes (sp : list (Z * list ascii)) :
  Forall Chunk sp -> Forall (fun ch => unicode.IsSpace (fst ch) = true) sp ->
  Forall (fun c => isDigit c = false /\ isUptimeUnit c = false) (joinChunks sp).
Proof.
  induction 1 as [|ch sp Hch _ IH]; intros Hs; [constructor|].
  pose proof (Forall_inv Hs) as Hsp. cbn beta in Hsp. apply Forall_inv_tail in Hs.
  rewrite joinChunks_cons. apply Forall_app. split; [|exact (IH Hs)].
  destruct Hch as [He|(c & _ & Hr & _)];
    [|rewrite Hr, IsSpace_RuneError in Hsp; discriminate].
  apply Encoding_ASCII in He as [(c & -> & Hr & Hlt)|[_ Hall]].
  - rewrite Hr, IsSpace_ASCII in Hsp by lia. repeat constructor.
    + destruct (isDigit c) eqn:Ed; [|reflexivity].
      destruct (digit_not_space c Ed) as [_ E]. congruence.
    + destruct (isUptimeUnit c) eqn:Eu; [|reflexivity].
      destruct (unit_not_space c Eu) as [_ E]. congruence.
  - eapply List.Forall_impl; [|exact Hall]. intros c Hc. cbn beta in Hc. split.
    + destruct (isDigit c) eqn:Ed; [|reflexivity].
      destruct (digit_not_space c Ed). lia.
    + destruct (isUptimeUnit c) eqn:Eu; [|reflexivity].
      destruct (unit_not_space c Eu). lia.
Qed.

Lemma noDigit_ofChars (l : list ascii) :
  Forall (fun c => isDigit c = false /\ isUptimeUnit c = false) l ->
  noDigit (ofChars l) = true.
Proof.
  induction 1 as [|c l [Hd _] _ IH]; [reflexivity|].
  cbn [ofChars string_of_list_ascii noDigit]. rewrite Hd. exact IH.
Qed.

(** Trimming a text does not change the components found in it. *)
Lemma findUptimeMatches_TrimSpace (s : string) :
  findUptimeMatches (TrimSpace s) = findUptimeMatches s.
Proof.
  pose proof (TrimSpace_chunks (charsOf s)) as Ht.
  pose proof (rangeString_Chunk (charsOf s)) as Hc.
  destruct (dropLeading_split unicode.IsSpace (rangeString (charsOf s)))
    as (sp & Hs & Hsp).
  destruct (dropTrailing_split unicode.IsSpace
              (dropLeading unicode.IsSpace (rangeString (charsOf s))))
    as (tr & Htr & Htrs).
  rewrite Hs in Hc. apply Forall_app in Hc as [Hc1 Hc2].
  rewrite Htr in Hc2. apply Forall_app in Hc2 as [_ Hc3].
  assert (E : s = ofChars (joinChunks sp) +:+ TrimSpace s +:+ ofChars (joinChunks tr)).
  { apply charsOf_inj. rewrite !charsOf_append, !charsOf_ofChars, charsOf_TrimSpace, Ht.
    rewrite <- !joinChunks_app, <- Htr, <- Hs. now rewrite joinChunks_range. }
  unfold findUptimeMatches. rewrite E at 2.
  rewrite findUptimeFrom_noDigit by (apply noDigit_ofChars; now apply space_bytes).
  symmetry. apply findUptimeFrom_trailing.
  rewrite charsOf_ofChars. now apply space_bytes.
Qed.

Lemma findUptimeMatches_between (items : list (string * (string * ascii)))
    (last : string) :
  Forall (fun it => noDigit (fst it) = true /\ componentOk (snd it)) items ->
  noDigit last = true ->
  findUptimeMatches (renderBetween items last)
  = map (fun c => (fst c, String (snd c) "")) (map snd items).
Proof.
  intros Hall Hlast. unfold findUptimeMatches.
  induction Hall as [|[j [d u]] items [Hj Hc] _ IH].
  - cbn [renderBetween map]. rewrite <- (append_nil_r last).
    now rewrite findUptimeFrom_noDigit.
  - cbn [renderBetween map fst snd] in *.
    rewrite findUptimeFrom_noDigit by exact Hj.
    rewrite findUptimeFrom_component by exact Hc. now rewrite IH.
Qed.

(** A text of components with text that holds no digit before, between
    and after them parses to the sum of the components. *)
Lemma ParseUptime_between (items : list (string * (string * ascii))) (last : string) :
  Forall (fun it => noDigit (fst it) = true /\ componentOk (snd it)) items ->
  noDigit last = true ->
  componentsTotal (map snd items) <= I64.max ->
  ParseUptime (renderBetween items last) = componentsTotal (map snd items).
Proof.
  intros Hall Hlast Hmax. unfold ParseUptime.
  assert (Hok : Forall componentOk (map snd items)).
  { clear -Hall. induction Hall as [|it items [_ Hc] _ IH]; constructor; auto. }
  destruct (String.eqb_spec (renderBetween items last) "") as [E|_].
  - destruct items as [|[j [d u]] items]; [reflexivity|]. exfalso.
    cbn [renderBetween] in E. destruct j; [|discriminate E].
    rewrite append_nil_l in E. destruct d; discriminate E.
  - rewrite findUptimeMatches_TrimSpace, findUptimeMatches_between by assumption.
    rewrite fold_uptimeStep_components by (try assumption; lia). lia.
Qed.

End UptimeAnywhere.

Lemma ParseSpeed_auto_unknown (lowerCase : Z -> Z) (s : string) :
  TrimSpace (ToLower lowerCase s) = "auto"
  \/ TrimSpace (ToLower lowerCase s) = "unknown" ->
  ParseSpeed lowerCase s = 0.
Proof.
  intros H. unfold ParseSpeed. destruct (String.eqb s ""); [reflexivity|].
  destruct H as [-> | ->]; reflexivity.
Qed.

Section DurationTexts.

Lemma render_bytes (comps : list (string * ascii)) :
  Forall componentOk comps ->
  forallb (fun c => isDigit c || isUptimeUnit c) (charsOf (renderComponents comps))
  = true.
Proof.
  induction 1 as [|[d u] comps (_ & Hd & Hu) _ IH]; [reflexivity|].
  cbn [renderComponents fst snd] in *. rewrite charsOf_append, forallb_app.
  cbn [charsOf list_ascii_of_string forallb]. fold (charsOf (renderComponents comps)).
  rewrite Hu, orb_true_r, IH, andb_true_r. cbn [andb]. clear -Hd.
  induction d as [|c d IHd]; [reflexivity|].
  cbn [allDigits] in Hd. apply andb_true_iff in Hd as [Hc Hd].
  change (charsOf (String c d)) with (c :: charsOf d). cbn [forallb].
  now rewrite Hc, (IHd Hd).
Qed.

(** A text with a byte that is no digit, unit letter or white space is no
    duration text. *)
Lemma not_duration (s : string) :
  forallb (fun c => isDigit c || isUptimeUnit c) (charsOf (dropWhite s)) = false ->
  ~ isDurationText s.
Proof.
  intros H (comps & Hok & E). rewrite E, render_bytes in H by exact Hok. discriminate.
Qed.

End DurationTexts.

(** C9, as stated, fails: ["1.5h"] is no duration text, and [ParseUptime]
    returns 18000 for it, the five hours of the component ["5h"] it
    finds. *)
Lemma C9_counterexample_decimal_hours : ~ parsers_zero_on_unparseable.
Proof.
  intros H. destruct (H (fun r => r)) as (Hu & _).
  specialize (Hu "1.5h" (not_duration "1.5h" eq_refl)).
  vm_compute in Hu. discriminate Hu.
Qed.

(** C9 (amended): the parsers are functions into [int64] with no error
    result.  [ParseSpeed] returns zero for every text that, lowered and
    trimmed, is not a number with an optional unit, and for ["auto"] and
    ["unknown"]; [ParseMemory] for every text that, lowered and trimmed,
    is neither that nor an integer.  [ParseUptime] returns zero for every
    text in which no digit is directly followed by a unit letter.  It
    reads a text written from [w/d/h/m/s] components, in any order and
    with any repetition, as the sum of the components (within [int64]),
    and does the same when text that holds no digit stands before,
    between and after the components; so a text that is no duration is
    read from the components found in it: [ParseUptime("1.5h") = 18000],
    [ParseUptime("-5s") = 5].  And [ParseUptime("1w2d3h4m5s") = 788645],
    [ParseSpeed("10Gbps") = 10000], [ParseMemory("1GiB") = 1073741824].
    Lowering and trimming are those of [strings.ToLower] and
    [strings.TrimSpace], for every case table [lowerCase]. *)
Theorem C9_utility_parsers (lowerCase : Z -> Z) :
  (forall s : string, ~ hasUptimeComponent s -> ParseUptime s = 0) /\
  (forall s : string,
     ~ isNumberUnitText speedUnits (TrimSpace (ToLower lowerCase s)) ->
     ParseSpeed lowerCase s = 0) /\
  (forall s : string,
     ~ isNumberUnitText memoryUnits (TrimSpace (ToLower lowerCase s)) ->
     ~ isIntegerText (TrimSpace (ToLower lowerCase s)) ->
     ParseMemory lowerCase s = 0) /\
  (forall s : string,
     TrimSpace (ToLower lowerCase s) = "auto"
     \/ TrimSpace (ToLower lowerCase s) = "unknown" ->
     ParseSpeed lowerCase s = 0) /\
  (forall comps : list (string * ascii),
     Forall componentOk comps -> componentsTotal comps <= I64.max ->
     ParseUptime (renderComponents comps) = componentsTotal comps) /\
  (forall (items : list (string * (string * ascii))) (last : string),
     Forall (fun it => noDigit (fst it) = true /\ componentOk (snd it)) items ->
     noDigit last = true -> componentsTotal (map snd items) <= I64.max ->
     ParseUptime (renderBetween items last) = componentsTotal (map snd items)) /\
  ParseUptime "1.5h" = 18000 /\ ParseUptime "-5s" = 5 /\
  ParseUptime "1w2d3h4m5s" = 788645 /\
  ParseSpeed lowerCase "10Gbps" = 10000 /\
  ParseMemory lowerCase "1GiB" = 1073741824.
Proof.
  split; [exact ParseUptime_unparseable|].
  split; [exact (ParseSpeed_unparseable lowerCase)|].
  split; [exact (ParseMemory_unparseable lowerCase)|].
  split; [exact (ParseSpeed_auto_unknown lowerCase)|].
  split; [exact ParseUptime_components|].
  split; [exact ParseUptime_between|].
  repeat split; vm_compute; reflexivity.
Qed.

(** The components clause at a text with a repeated unit out of order. *)
Lemma C9_utility_parsers_witness :
  ParseUptime "5s1w5s" = 604810.
Proof.
  destruct (C9_utility_parsers (fun r => r)) as (_ & _ & _ & _ & H & _).
  apply (H [("5", "s"%char); ("1", "w"%char); ("5", "s"%char)]).
  - repeat constructor; discriminate.
  - vm_compute. discriminate.
Defined.

(** ** Commands: [Execute] and [Run] *)

Section Decoding.

Lemma ReadFull_inl (r : list byte) (n : nat) (bs r1 : list byte) :
  ReadFull r n = (inl bs, r1) ->
  r1 = skipn n r /\ bs = firstn n r /\ (n <= List.length r)%nat.
Proof.
  unfold ReadFull. destruct (Nat.leb_spec n (List.length r)) as [Hle|Hgt].
  - intros H. injection H as <- <-. auto.
  - destruct r; discriminate.
Qed.

Lemma ReadFull_rest (r : list byte) (n : nat) (res : list byte + ioError)
    (r1 : list byte) :
  ReadFull r n = (res, r1) -> (List.length r1 <= List.length r)%nat.
Proof.
  unfold ReadFull. destruct (n <=? List.length r)%nat.
  - intros H. injection H as _ <-. rewrite length_skipn. lia.
  - destruct r; intros H; injection H as _ <-; cbn; lia.
Qed.

Lemma DecodeLength_consumes (r : list byte) (n : Z) (r1 : list byte) :
  DecodeLength r = (inl n, r1) -> (List.length r1 < List.length r)%nat.
Proof.
  destruct r as [|b r]; [discriminate|]. unfold DecodeLength.
  change (ReadFull (b :: r) 1) with (@inl (list byte) ioError [b], r).
  cbv iota beta.
  destruct (b <? 128); [intros H; injection H as _ <-; cbn; lia|].
  destruct (b <? 192); [|destruct (b <? 224); [|destruct (b <? 240)]];
    match goal with
    | |- context [ReadFull r ?k] =>
        destruct (ReadFull r k) as [[bs|e] r2] eqn:E; [|discriminate];
        apply ReadFull_rest in E
    end;
    repeat (destruct bs as [|? bs]; try discriminate);
    intros H; injection H as _ <-; cbn; lia.
Qed.

Lemma DecodeWord_consumes (r : list byte) (w : string) (r1 : list byte) :
  DecodeWord r = (inl w, r1) -> (List.length r1 < List.length r)%nat.
Proof.
  unfold DecodeWord. destruct (DecodeLength r) as [[n|e] r2] eqn:E; [|discriminate].
  apply DecodeLength_consumes in E. destruct (n =? 0).
  - intros H. injection H as _ <-. exact E.
  - destruct (ReadFull r2 (Z.to_nat n)) as [[bs|e] r3] eqn:E2; [|discriminate].
    apply ReadFull_rest in E2. intros H. injection H as _ <-. lia.
Qed.

Lemma decodeWords_total (fuel : nat) (r : list byte) (reply : Reply.t) :
  (List.length r < fuel)%nat -> exists res, decodeWords fuel r reply = Some res.
Proof.
  revert r reply. induction fuel as [|fuel IH]; intros r reply Hlt; [lia|].
  cbn [decodeWords]. destruct (DecodeWord r) as [[w|e] r1] eqn:E; [|eauto].
  destruct (String.eqb w ""); [eauto|].
  apply IH. apply DecodeWord_consumes in E. lia.
Qed.

Lemma decodeWords_consumes (fuel : nat) (r : list byte) (reply rep : Reply.t)
    (r1 : list byte) :
  decodeWords fuel r reply = Some (inl rep, r1) ->
  (List.length r1 < List.length r)%nat.
Proof.
  revert r reply. induction fuel as [|fuel IH]; intros r reply H; [discriminate|].
  cbn [decodeWords] in H. destruct (DecodeWord r) as [[w|e] r2] eqn:E; [|discriminate].
  apply DecodeWord_consumes in E. destruct (String.eqb w "").
  - injection H as _ <-. exact E.
  - apply IH in H. lia.
Qed.

Lemma decodeWords_error (fuel : nat) (r : list byte) (reply : Reply.t) (e : error)
    (r1 : list byte) :
  decodeWords fuel r reply = Some (inr e, r1) -> is_io_EOF e = false.
Proof.
  revert r reply. induction fuel as [|fuel IH]; intros r reply H; [discriminate|].
  cbn [decodeWords] in H. destruct (DecodeWord r) as [[w|e'] r2].
  - destruct (String.eqb w ""); [discriminate | eauto].
  - injection H as <- _. reflexivity.
Qed.

Lemma DecodeSentence_consumes (r : list byte) (reply : Reply.t) (r1 : list byte) :
  DecodeSentence r = (inl reply, r1) -> (List.length r1 < List.length r)%nat.
Proof.
  unfold DecodeSentence. destruct (DecodeWord r) as [[w|e] r2] eqn:E; [|discriminate].
  apply DecodeWord_consumes in E.
  destruct (decodeWords _ r2 _) as [res|] eqn:Ed; [|discriminate].
  intros ->. apply decodeWords_consumes in Ed. lia.
Qed.

(** [DecodeSentence] never returns the bare [io.EOF]: it wraps every read
    failure. *)
Lemma DecodeSentence_error_wrapped (r : list byte) (e : error) (r1 : list byte) :
  DecodeSentence r = (inr e, r1) -> is_io_EOF e = false.
Proof.
  unfold DecodeSentence. destruct (DecodeWord r) as [[w|e'] r2].
  - destruct (decodeWords _ r2 _) as [res|] eqn:Ed.
    + intros ->. eapply decodeWords_error. exact Ed.
    + intros H. injection H as <- _. reflexivity.
  - intros H. injection H as <- _. reflexivity.
Qed.

(** The loop of [DecodeSentence] always returns. *)
Lemma DecodeSentence_loop (r : list byte) (w : string) (r1 : list byte) :
  DecodeWord r = (inl w, r1) ->
  decodeWords (S (List.length r1)) r1
    {| Reply.Type_ := w; Reply.Data := ∅; Reply.Tag := "" |}
  = Some (DecodeSentence r).
Proof.
  intros E. unfold DecodeSentence. rewrite E.
  destruct (decodeWords_total (S (List.length r1)) r1
              {| Reply.Type_ := w; Reply.Data := ∅; Reply.Tag := "" |}) as [res Hres];
    [lia|].
  now rewrite Hres.
Qed.

End Decoding.

(** The decoding example of the specification, and a tagged reply whose
    value contains [=]. *)
Example DecodeSentence_data :
  DecodeSentence (EncodeSentence {| Word := "!re"; Words := ["=a=1"; "=b=2"] |})
  = (inl (mkReply "!re" [("a", "1"); ("b", "2")]), []).
Proof. vm_compute. reflexivity. Qed.

Example DecodeSentence_tag :
  DecodeSentence
    (EncodeSentence {| Word := "!trap"; Words := ["=message=a=b"; ".tag=7"; "ignored"] |})
  = (inl {| Reply.Type_ := "!trap"; Reply.Data := {[ "message" := "a=b" ]};
            Reply.Tag := "7" |}, []).
Proof. vm_compute. reflexivity. Qed.

Section ReadAll.

Lemma readReply_pending (c c1 : Client) (reply : Reply.t) :
  readReply c = (inl reply, c1) -> (pendingBytes c1 < pendingBytes c)%nat.
Proof.
  unfold readReply, pendingBytes. destruct (conn c) as [cn|]; [|discriminate].
  destruct (DecodeSentence (incoming cn)) as [[r|e] rest] eqn:E.
  - apply DecodeSentence_consumes in E. intros H. injection H as _ <-. exact E.
  - destruct (is_io_EOF e); discriminate.
Qed.

(** One more iteration than there are bytes to read is enough. *)
Lemma readAllRepliesLoop_total (fuel : nat) (c : Client) (acc : list Reply.t) :
  (pendingBytes c < fuel)%nat -> exists r, readAllRepliesLoop fuel c acc = Some r.
Proof.
  revert c acc. induction fuel as [|fuel IH]; intros c acc Hlt; [lia|].
  cbn [readAllRepliesLoop]. destruct (readReply c) as [[reply|err] c1] eqn:Er.
  - destruct (IsDone reply || IsFatal reply); [eauto|].
    apply IH. apply readReply_pending in Er. lia.
  - eauto.
Qed.

Lemma readAllReplies_loop (c : Client) :
  readAllRepliesLoop (S (pendingBytes c)) c [] = Some (readAllReplies c).
Proof.
  unfold readAllReplies.
  destruct (readAllRepliesLoop_total (S (pendingBytes c)) c []) as [r Hr]; [lia|].
  now rewrite Hr.
Qed.

Lemma readAllRepliesLoop_terminated (fuel : nat) (c c1 : Client)
    (acc replies : list Reply.t) :
  readAllRepliesLoop fuel c acc = Some (replies, None, c1) ->
  exists body last,
    replies = (acc ++ body ++ [last])%list /\
    (IsDone last || IsFatal last) = true /\
    Forall (fun r => (IsDone r || IsFatal r) = false) body.
Proof.
  revert c acc. induction fuel as [|fuel IH]; intros c acc H; [discriminate|].
  cbn [readAllRepliesLoop] in H.
  destruct (readReply c) as [[reply|err] c2]; [|discriminate].
  destruct (IsDone reply || IsFatal reply) eqn:Et.
  - injection H as <- <-. exists [], reply. auto.
  - apply IH in H as (body & last & -> & Hlast & Hbody).
    exists (reply :: body), last. repeat split; auto.
    now rewrite <- app_assoc.
Qed.

Lemma Execute_terminated (c c1 : Client) (sentence : Sentence)
    (replies : list Reply.t) :
  Execute c sentence = (replies, None, c1) -> terminated replies.
Proof.
  unfold Execute. destruct (negb (connected c)); [discriminate|].
  destruct (if 0 <? Timeout (config c) then setDeadline c else (None, c))
    as [[derr|] c2].
  - destruct derr; discriminate.
  - destruct (writeSentence c2 sentence) as [[err|] c3]; [discriminate|].
    intros H. pose proof (readAllReplies_loop c3) as Hl. rewrite H in Hl.
    apply readAllRepliesLoop_terminated in Hl. exact Hl.
Qed.

End ReadAll.

Section RunLoop.

(** The first reply that is a trap or fatal decides the call; without one
    the data replies are the rows, in order. *)
Lemma runLoop_first_stop (replies : list Reply.t) (acc : list (gmap string string))
    (c : Client) :
  runLoop replies acc c =
    match List.find stops replies with
    | Some r =>
        if IsTrap r then ([], Some (ErrAPI (NewTrapError r)), c)
        else ([], Some (ErrAPI (NewFatalError r)), closeConn c)
    | None => ((acc ++ map Reply.Data (List.filter IsData replies))%list, None, c)
    end.
Proof.
  revert acc. induction replies as [|r rest IH]; intros acc; cbn [runLoop List.find List.filter map].
  - now rewrite app_nil_r.
  - unfold stops at 1. destruct (IsTrap r) eqn:Et; cbn [orb].
    + now rewrite Et.
    + destruct (IsFatal r) eqn:Ef; [now rewrite Et|].
      rewrite IH. destruct (List.find stops rest); [reflexivity|].
      destruct (IsData r); cbn [map]; [|reflexivity].
      now rewrite <- app_assoc.
Qed.

Lemma trap_is_not_terminal (r : Reply.t) :
  IsTrap r = true -> (IsDone r || IsFatal r) = false.
Proof.
  unfold IsTrap, IsDone, IsFatal. intros H. apply String.eqb_eq in H.
  rewrite H. reflexivity.
Qed.

Lemma find_trap_terminated (replies : list Reply.t) (r : Reply.t) :
  terminated replies -> List.find IsTrap replies = Some r -> List.find stops replies = Some r.
Proof.
  intros (body & last & -> & Hlast & Hbody). induction Hbody as [|b body Hb _ IH].
  - cbn. unfold stops. destruct (IsTrap last); [auto | discriminate].
  - cbn [app List.find]. unfold stops at 1.
    apply orb_false_iff in Hb as [_ Hf]. rewrite Hf, orb_false_r.
    destruct (IsTrap b); [auto | exact IH].
Qed.

Lemma find_fatal_no_trap (replies : list Reply.t) :
  List.find IsTrap replies = None -> List.find stops replies = List.find IsFatal replies.
Proof.
  induction replies as [|r rest IH]; [reflexivity|]. cbn [List.find]. unfold stops at 1.
  destruct (IsTrap r); [discriminate|]. cbn [orb].
  destruct (IsFatal r); [reflexivity | exact IH].
Qed.

End RunLoop.

(** The claim about [Run], as the specification words it, fails: when a
    trap is followed by a fatal reply, [Run] returns at the trap, with a
    [TrapError] and the connection as it was; the fatal reply is never
    looked at. *)
Lemma Run_any_trap_any_fatal_fails : ~ Run_any_trap_any_fatal.
Proof.
  intros H.
  destruct (H (connectedTo [wire "!trap" [("message", "failure")];
                            wire "!fatal" []])
              _ "/interface/print" []
              [mkReply "!trap" [("message", "failure")]; mkReply "!fatal" []]
              eq_refl) as (_ & Hfatal & _).
  destruct (Hfatal (mkReply "!fatal" []) ltac:(right; left; reflexivity) eq_refl)
    as (e & c' & HR & Ht & _).
  vm_compute in HR. injection HR as <- _. discriminate Ht.
Qed.

(** What [Run] makes of the replies that [Execute] returned: at a trap it
    returns a [TrapError] and the client as [Execute] left it, whatever
    follows the trap; without a trap, a fatal reply makes it close the
    connection and return a [FatalError]; without either, the data
    replies are the rows, in the order of the replies. *)
Lemma Run_first_trap_or_fatal (c c1 : Client) (command : string)
    (args : list (string * string)) (replies : list Reply.t) :
  Execute c (runSentence command args) = (replies, None, c1) ->
  (forall r, List.find IsTrap replies = Some r ->
     Run c command args = ([], Some (ErrAPI (NewTrapError r)), c1)) /\
  (List.find IsTrap replies = None ->
   forall r, List.find IsFatal replies = Some r ->
     Run c command args = ([], Some (ErrAPI (NewFatalError r)), closeConn c1) /\
     connected (closeConn c1) = false /\ conn (closeConn c1) = None) /\
  (List.find IsTrap replies = None -> List.find IsFatal replies = None ->
     Run c command args
       = (map Reply.Data (List.filter IsData replies), None, c1)).
Proof.
  intros HE. pose proof (Execute_terminated _ _ _ _ HE) as Hterm.
  unfold Run. rewrite HE, runLoop_first_stop. split; [|split].
  - intros r Hr. rewrite (find_trap_terminated replies r Hterm Hr).
    apply find_some in Hr as [_ ->]. reflexivity.
  - intros Hnt r Hr. split; [|split; reflexivity].
    rewrite find_fatal_no_trap, Hr by exact Hnt.
    destruct (IsTrap r) eqn:Et; [|reflexivity].
    exfalso. apply find_some in Hr as [Hin _].
    pose proof (find_none _ _ Hnt r Hin) as Hn. congruence.
  - intros Hnt Hnf. rewrite find_fatal_no_trap, Hnf by exact Hnt. reflexivity.
Qed.

(** Two data replies and [!done] give two rows, in the order sent. *)
Example Run_two_rows :
  Run (connectedTo [wire "!re" [("name", "ether1")];
                    wire "!re" [("name", "ether2")];
                    wire "!done" []])
      "/interface/print" []
  = ([list_to_map [("name", "ether1")]; list_to_map [("name", "ether2")]], None,
     snd (Execute
            (connectedTo [wire "!re" [("name", "ether1")];
                          wire "!re" [("name", "ether2")];
                          wire "!done" []])
            (runSentence "/interface/print" []))).
Proof.
  eapply (Run_first_trap_or_fatal _ _ "/interface/print" []
            [mkReply "!re" [("name", "ether1")]; mkReply "!re" [("name", "ether2")];
             mkReply "!done" []]).
  - reflexivity.
  - reflexivity.
  - reflexivity.
Qed.

(** C6 (the code departs from the claim): the device answers a command
    with a trap and then ends the session with a fatal reply.  [Execute]
    returns both replies; [Run] returns at the trap, with a [TrapError],
    and never reaches the [closeConn] of its fatal branch: the client
    stays connected and keeps the connection, where the claim has it
    closed and the error a [FatalError], and the next [Run] writes its
    command to the connection the device has ended.  When the same fatal
    reply comes without the trap, [Run] fails with a [FatalError] and
    closes the connection, and the next [Run] fails with
    [ErrNotConnected] and writes nothing. *)
Theorem C6_trap_before_fatal_keeps_connection :
  let fatal := wire "!fatal" [("message", "session terminated")] in
  let sent := fun c : Client =>
                option_map (fun cn => List.length (written cn)) (conn c) in
  let c := connectedTo [wire "!trap" [("message", "failure")]; fatal] in
  let '(replies, _, _) := Execute c (runSentence "/interface/print" []) in
  let '(_, err, c1) := Run c "/interface/print" [] in
  let '(_, _, c2) := Run c1 "/interface/print" [] in
  let '(_, err', c1') := Run (connectedTo [fatal]) "/interface/print" [] in
  let '(_, err2', c2') := Run c1' "/interface/print" [] in
  map IsTrap replies = [true; false] /\ map IsFatal replies = [false; true] /\
  option_map asAPIError err
    = Some (Some (APIError.mk ErrTypeTrap "failure" "" None false)) /\
  connected c1 = true /\ sent c1 = Some 1%nat /\ sent c2 = Some 2%nat /\
  option_map asAPIError err'
    = Some (Some (APIError.mk ErrTypeFatal "session terminated" "" None false)) /\
  connected c1' = false /\ conn c1' = None /\
  err2' = Some (ErrAPI ErrNotConnected) /\ c2' = c1'.
Proof. vm_compute. repeat split. Qed.

(** A trap followed by [!done], a fatal reply, and a trap followed by a
    fatal reply. *)
Example Run_trap_then_done :
  let c := connectedTo [wire "!trap" [("message", "no such command")];
                        wire "!done" []] in
  let '(rows, err, c1) := Run c "/nope" [] in
  rows = [] /\
  option_map IsTemporaryError err = Some false /\
  option_map asAPIError err
    = Some (Some (APIError.mk ErrTypeTrap "no such command" "" None false)) /\
  connected c1 = true.
Proof. vm_compute. repeat split. Qed.

Example Run_fatal_closes :
  let c := connectedTo [wire "!re" [("name", "ether1")];
                        wire "!fatal" [("message", "session terminated")]] in
  let '(rows, err, c1) := Run c "/interface/print" [] in
  rows = [] /\
  option_map asAPIError err
    = Some (Some (APIError.mk ErrTypeFatal "session terminated" "" None false)) /\
  connected c1 = false /\ conn c1 = None.
Proof. vm_compute. repeat split. Qed.

Example Run_trap_before_fatal :
  let c := connectedTo [wire "!trap" [("message", "failure")];
                        wire "!fatal" []] in
  let '(rows, err, c1) := Run c "/interface/print" [] in
  option_map asAPIError err
    = Some (Some (APIError.mk ErrTypeTrap "failure" "" None false)) /\
  connected c1 = true.
Proof. vm_compute. repeat split. Qed.

(** ** Login and [Connect] *)

Section LoginFacts.

Variable md5_Sum : list byte -> list byte.

(** [DecodeSentence] wraps every read failure, so [readReply] never meets
    the bare [io.EOF] it tests for: a closed connection surfaces as a
    [ProtocolError] and the client does not close its side. *)
Lemma readReply_closed_peer (c : Client) (cn : Conn) :
  conn c = Some cn -> incoming cn = [] ->
  readReply c
  = (inr (ErrAPI (NewProtocolError "failed to decode reply"
                    (Some (Errorf "failed to read reply type" io_EOF)))),
     setConn c (Some {| written := written cn; writeErrs := writeErrs cn;
                        deadlineErrs := deadlineErrs cn; incoming := [] |})).
Proof. intros Hc Hi. unfold readReply. rewrite Hc, Hi. reflexivity. Qed.

(** Whatever the peer sends, [readReply] leaves the client's side of the
    connection as it is. *)
Lemma readReply_keeps_connected (c c1 : Client) (res : Reply.t + error) :
  readReply c = (res, c1) -> connected c1 = connected c.
Proof.
  unfold readReply. destruct (conn c) as [cn|].
  - destruct (DecodeSentence (incoming cn)) as [[r|e] rest] eqn:E.
    + intros H. injection H as _ <-. reflexivity.
    + rewrite (DecodeSentence_error_wrapped _ _ _ E).
      intros H. injection H as _ <-. reflexivity.
  - intros H. injection H as _ <-. reflexivity.
Qed.



Lemma Connect_first_attempt (tAttempt tRecord : Time) (ctx : nat -> option error)
    (c : Client) (cn : Conn) (more : list (Conn + error)) :
  connected c = false -> fst (canAttempt tAttempt (breaker c)) = true ->
  0 <= RetryAttempts (config c) ->
  let c0 := setBreaker c (snd (canAttempt tAttempt (breaker c))) in
  Connect md5_Sum tAttempt tRecord ctx (inl cn :: more) c
  = match authenticate md5_Sum (setConn c0 (Some cn)) with
    | (Some err, c2) =>
        if IsAuthError err then
          (Some err,
           setBreaker (closeConn c2) (recordFailure tRecord (breaker (closeConn c2))),
           more)
        else
          connectLoop md5_Sum tRecord ctx (Z.to_nat (RetryAttempts (config c))) 1
            (Some err) more (closeConn c2)
    | (None, c2) =>
        (None,
         setBreaker (setConnected c2 true)
           (recordSuccess (breaker (setConnected c2 true))), more)
    end.
Proof.
  intros Hconn Hcb Hretry c0. unfold Connect. rewrite Hconn.
  destruct (canAttempt tAttempt (breaker c)) as [allowed cb] eqn:Eca.
  cbn [fst snd] in *. subst allowed. cbn [negb].
  replace (Z.to_nat (RetryAttempts (config c) + 1))
    with (S (Z.to_nat (RetryAttempts (config c)))) by lia.
  cbn [connectLoop Nat.ltb Nat.leb connect]. subst c0.
  destruct (authenticate md5_Sum _) as [[err|] c2]; reflexivity.
Qed.

End LoginFacts.

(** The three devices: the legacy exchange is written after the trap in
    each case; what [authenticate] returns is what that exchange gives. *)
Example authenticate_trap_then_close :
  let c := setConn (NewClient (adminConfig 1)) (Some trapThenClose) in
  let '(err, c') := authenticate noDigest c in
  option_map IsAuthError err = Some false /\
  option_map (fun e => option_map APIError.Type_ (asAPIError e)) err
    = Some (Some ErrTypeProtocol) /\
  option_map written (conn c')
    = Some [EncodeSentence (newLoginSentence (adminConfig 1));
            EncodeSentence (NewSentence "/login")].
Proof. vm_compute. repeat split. Qed.

Example authenticate_trap_twice :
  let c := setConn (NewClient (adminConfig 1)) (Some trapTwice) in
  let '(err, c') := authenticate noDigest c in
  err = Some (ErrAPI (NewAuthError "cannot log in")) /\
  option_map written (conn c')
    = Some [EncodeSentence (newLoginSentence (adminConfig 1));
            EncodeSentence (NewSentence "/login")].
Proof. vm_compute. repeat split. Qed.

Example authenticate_trap_then_legacy :
  let c := setConn (NewClient (adminConfig 1)) (Some trapThenLegacy) in
  let '(err, c') := authenticate noDigest c in
  err = None /\
  option_map (fun cn => List.length (written cn)) (conn c') = Some 3%nat.
Proof. vm_compute. repeat split. Qed.

(** With one retry configured and two dials that reach such a device,
    [Connect] uses both. *)
Example Connect_trap_then_close_retries :
  let '(err, c', dials) :=
    Connect noDigest 0 1 (fun _ => None) [inl trapThenClose; inl trapThenClose]
      (NewClient (adminConfig 1)) in
  option_map IsAuthError err = Some false /\
  dials = [] /\ connected c' = false /\ failures (breaker c') = 1.
Proof. vm_compute. repeat split. Qed.


Lemma login_trap_does_not_abort_connect : ~ login_trap_aborts_connect.
Proof.
  intros H.
  destruct (H noDigest 0 1 (fun _ => None) (NewClient (adminConfig 1)) trapThenClose
              (mkReply "!trap" [("message", "invalid user name or password (6)")])
              [] [inl trapThenClose] eq_refl eq_refl ltac:(cbn; lia)
              eq_refl eq_refl eq_refl)
    as (e & c' & Hc & _).
  vm_compute in Hc. discriminate Hc.
Qed.



(** ** The rate tracker *)

(** [TestInterfaceTracker], and a 1000-unit increase one second later. *)
Example tracker_test :
  let '(r1, t1) :=
    updateAndCalculateRates 5000000000 newInterfaceTracker "ether1" 1000 500 100 50 in
  let '(r2, t2) := updateAndCalculateRates 6000000000 t1 "ether1" 1000 500 100 50 in
  let '(r3, t3) := updateAndCalculateRates 7000000000 t2 "ether1" 2000 1500 1100 1050 in
  r1 = zeroRates /\ r2 = zeroRates /\
  r3 = (F64.of_Z 1000, F64.of_Z 1000, F64.of_Z 1000, F64.of_Z 1000).
Proof. vm_compute. repeat split. Qed.

Example Seconds_values :
  Seconds 1000000000 = F64.of_Z 1 /\ Seconds 0 = F64.zero /\
  Seconds 1500000000 = F64.div (F64.of_Z 3) (F64.of_Z 2) /\
  F64.gtb (Seconds 1) F64.zero = true /\ F64.gtb (Seconds (-1)) F64.zero = false.
Proof. vm_compute. repeat split. Qed.

Section TrackerFacts.

Variable now : Time.
Variable t : interfaceTracker.
Variable name : string.
Variables rxBytes txBytes rxPkts txPkts : Z.

Lemma update_records :
  states (snd (updateAndCalculateRates now t name rxBytes txBytes rxPkts txPkts))
  = <[name := observation now rxBytes txBytes rxPkts txPkts]> (states t).
Proof. reflexivity. Qed.

Lemma update_lookup_same :
  states (snd (updateAndCalculateRates now t name rxBytes txBytes rxPkts txPkts)) !! name
  = Some (observation now rxBytes txBytes rxPkts txPkts).
Proof. rewrite update_records. apply lookup_insert_eq. Qed.

Lemma update_lookup_other (other : string) :
  other <> name ->
  states (snd (updateAndCalculateRates now t name rxBytes txBytes rxPkts txPkts)) !! other
  = states t !! other.
Proof. intros Hne. rewrite update_records. now apply lookup_insert_ne. Qed.

Lemma update_first :
  states t !! name = None ->
  fst (updateAndCalculateRates now t name rxBytes txBytes rxPkts txPkts) = zeroRates.
Proof. intros H. unfold updateAndCalculateRates. now rewrite H. Qed.

Lemma update_later (prev : interfaceState.t) :
  states t !! name = Some prev ->
  IsZero (interfaceState.timestamp prev) = false ->
  F64.gtb (Seconds (Sub now (interfaceState.timestamp prev))) F64.zero = true ->
  fst (updateAndCalculateRates now t name rxBytes txBytes rxPkts txPkts)
  = deltaOverElapsed now prev rxBytes txBytes rxPkts txPkts.
Proof.
  intros H Hz He. unfold updateAndCalculateRates. rewrite H, Hz. cbn [negb fst].
  rewrite He. reflexivity.
Qed.

Lemma update_no_time_passed (prev : interfaceState.t) :
  states t !! name = Some prev ->
  F64.gtb (Seconds (Sub now (interfaceState.timestamp prev))) F64.zero = false ->
  fst (updateAndCalculateRates now t name rxBytes txBytes rxPkts txPkts) = zeroRates.
Proof.
  intros H He. unfold updateAndCalculateRates. rewrite H. cbn [fst].
  destruct (negb _); [|reflexivity]. now rewrite He.
Qed.

End TrackerFacts.

(** C5, as stated, fails: a second observation of a name at the clock
    reading of the first (no time has passed on the clock) returns zero
    rates, not the delta over zero seconds (which is infinite for a counter
    that moved). *)
Lemma C5_counterexample_no_time_passed : ~ rates_always_delta_over_elapsed.
Proof.
  intros H.
  specialize (H 5000000000
                (snd (updateAndCalculateRates 5000000000 newInterfaceTracker
                        "ether1" 0 0 0 0))
                "ether1" 1000 1000 10 10 (observation 5000000000 0 0 0 0) eq_refl).
  vm_compute in H. discriminate H.
Qed.

(** C5 (amended): the first call for a name returns four zero rates and
    records the observation; a later call for that name, when the seconds
    elapsed since the recorded observation are positive, returns each rate as
    the wraparound-corrected delta divided by those seconds, and returns four
    zero rates when they are not positive; either way it records the new
    observation, and calls for other names leave the recorded one alone. *)
Theorem C5_rates_first_zero_then_delta_over_elapsed (now : Time)
    (t : interfaceTracker) (name : string) (rxBytes txBytes rxPkts txPkts : Z) :
  let call := updateAndCalculateRates now t name rxBytes txBytes rxPkts txPkts in
  (states t !! name = None -> fst call = zeroRates) /\
  (forall prev, states t !! name = Some prev ->
     IsZero (interfaceState.timestamp prev) = false ->
     F64.gtb (Seconds (Sub now (interfaceState.timestamp prev))) F64.zero = true ->
     fst call = deltaOverElapsed now prev rxBytes txBytes rxPkts txPkts) /\
  (forall prev, states t !! name = Some prev ->
     F64.gtb (Seconds (Sub now (interfaceState.timestamp prev))) F64.zero = false ->
     fst call = zeroRates) /\
  states (snd call) !! name = Some (observation now rxBytes txBytes rxPkts txPkts) /\
  (forall other, other <> name -> states (snd call) !! other = states t !! other).
Proof.
  intros call. subst call. split; [apply update_first|].
  split; [apply update_later|]. split; [apply update_no_time_passed|].
  split; [apply update_lookup_same | apply update_lookup_other].
Qed.

(** The second observation of ["ether1"], one second after the first and
    1000 units up, gives 1000 per second; another interface observed in
    between does not change that. *)
Lemma C5_rates_first_zero_then_delta_over_elapsed_witness :
  let t1 := snd (updateAndCalculateRates 5000000000 newInterfaceTracker
                   "ether1" 1000 500 100 50) in
  let t2 := snd (updateAndCalculateRates 5000000001 t1 "ether2" 7 7 7 7) in
  fst (updateAndCalculateRates 6000000000 t2 "ether1" 2000 1500 1100 1050)
  = (F64.of_Z 1000, F64.of_Z 1000, F64.of_Z 1000, F64.of_Z 1000).
Proof.
  intros t1 t2.
  destruct (C5_rates_first_zero_then_delta_over_elapsed 6000000000 t2 "ether1"
              2000 1500 1100 1050) as (_ & H & _).
  rewrite (H (observation 5000000000 1000 500 100 50)); reflexivity.
Defined.

(** ** Connection tracking *)

Example parseAddressPort_tests :
  parseAddressPort "10.0.0.2:40000" = ("10.0.0.2", 40000) /\
  parseAddressPort "fe80::1:443" = ("fe80::1", 443) /\
  parseAddressPort "10.0.0.2" = ("10.0.0.2", 0).
Proof. vm_compute. repeat split. Qed.

Example natLoop_small :
  let '(result, stats, drawn) :=
    natLoop halfRate (highThenLow 2) 3 0
      [natRow "udp"; natRow "udp"; natRow "tcp"; natRow "icmp"; natRow "gre";
       natRow "tcp"; natRow "tcp"]
      [] emptyNATStats 0 in
  map Protocol result = ["tcp"; "icmp"; "gre"] /\
  (TCPConnections stats, ICMPConnections stats, OtherConnections stats) = (1, 1, 1) /\
  drawn = 6%nat.
Proof. vm_compute. repeat split. Qed.

Section NatLoop.

Variable cfg : NATConfig.
Variable rand : nat -> F64.float64.
Variable maxConns : Z.

(** The hard cap: the loop never lets the kept rows grow past [maxConns]. *)
Lemma natLoop_cap (connections : list (gmap string string)) :
  forall (i : Z) (result : list NATConnection) (stats : NATStats) (drawn : nat),
    Z.of_nat (List.length result) <= maxConns ->
    Z.of_nat (List.length (fst (fst (natLoop cfg rand maxConns i connections
                                       result stats drawn)))) <= maxConns.
Proof.
  induction connections as [|conn rest IH]; intros i result stats drawn Hlen;
    cbn [natLoop fst].
  - exact Hlen.
  - destruct (samples cfg && F64.gtb (rand drawn) (SampleRate cfg)).
    + apply IH. exact Hlen.
    + destruct (Z.leb_spec maxConns (Z.of_nat (List.length result))); cbn [fst].
      * exact Hlen.
      * assert (Hlen' : Z.of_nat (List.length (result ++ [parseNATConnection conn]))
                        <= maxConns)
          by (rewrite length_app; cbn [List.length]; lia).
        destruct (100000 <? i); cbn [fst]; [exact Hlen' | apply IH; exact Hlen'].
Qed.

(** When every draw falls above the sample rate, every row is visited,
    whatever its index: the cutoff test is not on that path. *)
Lemma natLoop_all_sampled_out (connections : list (gmap string string)) :
  samples cfg = true ->
  (forall k, F64.gtb (rand k) (SampleRate cfg) = true) ->
  forall (i : Z) (result : list NATConnection) (stats : NATStats) (drawn : nat),
    natLoop cfg rand maxConns i connections result stats drawn
    = (result, stats, (drawn + List.length connections)%nat).
Proof.
  intros Hs Hr. induction connections as [|conn rest IH]; intros i result stats drawn;
    cbn [natLoop List.length].
  - now rewrite Nat.add_0_r.
  - rewrite Hs, Hr. cbn [andb]. rewrite IH. f_equal. lia.
Qed.

End NatLoop.

Lemma effectiveMaxConns_pos (cfg : NATConfig) : 0 < effectiveMaxConns cfg.
Proof.
  unfold effectiveMaxConns. destruct (Z.leb_spec (MaxConnections cfg) 0); lia.
Qed.

Lemma effectiveMaxConns_default (cfg : NATConfig) :
  MaxConnections cfg <= 0 -> effectiveMaxConns cfg = 10000.
Proof.
  intros H. unfold effectiveMaxConns.
  destruct (Z.leb_spec (MaxConnections cfg) 0); [reflexivity | lia].
Qed.

(** The rows [collectNAT] returns never number more than the configured
    maximum, or 10000 when none is configured, whatever the sampling. *)
Lemma collectNAT_cap (cfg : NATConfig) (rand : nat -> F64.float64) (client : Client) :
  Z.of_nat (List.length (fst (fst (fst (collectNAT cfg rand client)))))
  <= effectiveMaxConns cfg.
Proof.
  pose proof (effectiveMaxConns_pos cfg) as Hpos.
  unfold collectNAT. destruct (RunOne client _ []) as [[ctStats err] client1].
  destruct (Run client1 _ []) as [[connections [err2|]] client2]; cbn [fst].
  - cbn. lia.
  - match goal with
    | |- context [natLoop cfg rand ?m ?i ?cs ?r ?s ?d] =>
        pose proof (natLoop_cap cfg rand m cs i r s d) as Hcap;
        destruct (natLoop cfg rand m i cs r s d) as [[result stats2] drawn]
    end.
    cbn [fst] in *. apply Hcap. cbn. lia.
Qed.

Section NatLoopPrefix.

Variable cfg : NATConfig.
Variable rand : nat -> F64.float64.
Variable maxConns : Z.

(** A run of rows that are all sampled out is passed over, whatever the
    indices. *)
Lemma natLoop_sampled_out_prefix (pre rest : list (gmap string string)) :
  samples cfg = true ->
  forall (i : Z) (result : list NATConnection) (stats : NATStats) (drawn : nat),
    (forall k, (k < List.length pre)%nat ->
               F64.gtb (rand (drawn + k)) (SampleRate cfg) = true) ->
    natLoop cfg rand maxConns i (pre ++ rest) result stats drawn
    = natLoop cfg rand maxConns (i + Z.of_nat (List.length pre)) rest result stats
        (drawn + List.length pre).
Proof.
  intros Hs. induction pre as [|conn pre IH]; intros i result stats drawn Hr.
  - cbn [app List.length]. now rewrite Z.add_0_r, Nat.add_0_r.
  - cbn [app natLoop List.length]. rewrite Hs.
    pose proof (Hr O ltac:(cbn; lia)) as H0. rewrite Nat.add_0_r in H0.
    rewrite H0. cbn [andb]. rewrite IH.
    + f_equal; lia.
    + intros k Hk. replace (S drawn + k)%nat with (drawn + S k)%nat by lia.
      apply Hr. cbn. lia.
Qed.

(** Without sampling, rows are kept one after the other while the cap is
    not reached and the index has not passed 100000. *)
Lemma natLoop_kept_prefix (pre rest : list (gmap string string)) :
  samples cfg = false ->
  forall (i : Z) (result : list NATConnection) (stats : NATStats) (drawn : nat),
    Z.of_nat (List.length result) + Z.of_nat (List.length pre) <= maxConns ->
    i + Z.of_nat (List.length pre) <= 100001 ->
    natLoop cfg rand maxConns i (pre ++ rest) result stats drawn
    = natLoop cfg rand maxConns (i + Z.of_nat (List.length pre)) rest
        (result ++ map parseNATConnection pre) (countAll stats pre) drawn.
Proof.
  intros Hs. induction pre as [|conn pre IH]; intros i result stats drawn Hmax Hi.
  - cbn [app List.length map countAll fold_left].
    now rewrite Z.add_0_r, app_nil_r.
  - cbn [app natLoop List.length map] in *. rewrite Hs. cbn [andb].
    destruct (Z.leb_spec maxConns (Z.of_nat (List.length result))); [lia|].
    destruct (Z.ltb_spec 100000 i); [lia|].
    rewrite IH.
    + rewrite <- app_assoc. cbn [app]. f_equal. lia.
    + rewrite length_app. cbn [List.length]. lia.
    + lia.
Qed.

End NatLoopPrefix.

(** Without sampling and with a cap above it, a table of 100005 rows is
    cut after 100002 rows. *)
Example natLoop_cutoff_after_100002 :
  List.length
    (fst (fst (natLoop (noSampling 200000) (fun _ => F64.zero) 200000 0
                 (repeat (natRow "udp") (Z.to_nat 100005)) [] emptyNATStats 0)))
  = Z.to_nat 100002.
Proof.
  replace (Z.to_nat 100005) with (Z.to_nat 100001 + 4)%nat by lia.
  rewrite repeat_app.
  rewrite natLoop_kept_prefix;
    [ | reflexivity | rewrite repeat_length; cbn [List.length]; lia
      | rewrite repeat_length; lia ].
  rewrite repeat_length, Z2Nat.id by lia. cbn [app repeat Nat.add].
  set (kept := map parseNATConnection (repeat (natRow "udp") (Z.to_nat 100001))).
  assert (Hk : List.length kept = Z.to_nat 100001)
    by (subst kept; now rewrite length_map, repeat_length).
  cbn [natLoop]. replace (samples (noSampling 200000)) with false by reflexivity.
  cbn [andb]. rewrite Hk, Z2Nat.id by lia.
  replace (200000 <=? 100001) with false by reflexivity.
  replace (100000 <? 0 + 100001) with true by reflexivity.
  cbn [fst]. rewrite length_app, Hk. cbn [List.length]. lia.
Qed.

(** With sampling at one half and draws that fall above one half for the
    first 100010 rows and below it after, the loop passes over the first
    100010 rows and keeps the row of index 100010, which lies past the
    cutoff; only then, a row having been kept, does the cutoff test run. *)
Example natLoop_keeps_row_past_cutoff :
  natLoop halfRate (highThenLow (Z.to_nat 100010)) 10 0
    (repeat (natRow "udp") (Z.to_nat 100010) ++ [natRow "tcp"; natRow "tcp"])
    [] emptyNATStats 0
  = ([parseNATConnection (natRow "tcp")], countProtocol emptyNATStats "tcp",
     S (Z.to_nat 100010)).
Proof.
  set (n := Z.to_nat 100010).
  rewrite natLoop_sampled_out_prefix.
  - rewrite repeat_length. cbn [Nat.add natLoop].
    replace (samples halfRate) with true by reflexivity.
    unfold highThenLow at 1. rewrite Nat.ltb_irrefl.
    replace (F64.gtb (F64.ratio 1 4) (SampleRate halfRate)) with false by reflexivity.
    cbn [andb List.length Z.of_nat]. cbn [Z.leb Z.compare].
    replace (100000 <? 0 + Z.of_nat n) with true
      by (subst n; rewrite Z2Nat.id by lia; reflexivity).
    reflexivity.
  - reflexivity.
  - intros k Hk. rewrite repeat_length in Hk. cbn [Nat.add].
    unfold highThenLow. replace (k <? n)%nat with true
      by (symmetry; apply Nat.ltb_lt; exact Hk).
    reflexivity.
Qed.

(** C8 (the code departs from the claim): with sampling enabled at a
    sample rate of zero, a cap of ten rows and a table of 200000 rows, every
    draw (here 0.75; any positive draw does the same) falls above the rate,
    every row is passed over by [continue], and the loop makes 200000 draws:
    it scans the whole table, since the cutoff test of index 100000 stands
    after the append and is never reached. *)
Theorem C8_scan_goes_past_cutoff_when_sampled_out :
  natLoop zeroRate (fun _ => F64.ratio 3 4) 10 0
    (repeat (natRow "tcp") (Z.to_nat 200000)) [] emptyNATStats 0
  = ([], emptyNATStats, Z.to_nat 200000).
Proof.
  rewrite natLoop_all_sampled_out.
  - now rewrite repeat_length.
  - reflexivity.
  - intros k. reflexivity.
Qed.

(** With draws that always fall above the rate, a table of any length is
    scanned to its end. *)
Example natLoop_never_cut (rows : list (gmap string string)) :
  natLoop halfRate (fun _ => F64.ratio 3 4) 10 0 rows [] emptyNATStats 0
  = ([], emptyNATStats, List.length rows).
Proof.
  rewrite natLoop_all_sampled_out; [reflexivity | reflexivity | reflexivity].
Qed.

(** ** Words and sentences on the wire *)

Section WordRoundTrip.

Lemma stringOf_bytesOf (s : string) : stringOf (bytesOf s) = s.
Proof.
  unfold stringOf, bytesOf. rewrite map_map.
  rewrite (map_ext _ (fun c => c)).
  - rewrite map_id. apply string_of_list_ascii_of_string.
  - intros c. rewrite Nat2Z.id. apply ascii_nat_embedding.
Qed.

Lemma length_bytesOf (s : string) : List.length (bytesOf s) = String.length s.
Proof.
  unfold bytesOf. rewrite length_map.
  induction s as [|c s IH]; [reflexivity|]. cbn. now rewrite IH.
Qed.

Lemma ReadFull_app (bs rest : list byte) :
  ReadFull (bs ++ rest) (List.length bs) = (inl bs, rest).
Proof.
  unfold ReadFull. rewrite length_app.
  replace (List.length bs <=? List.length bs + List.length rest)%nat with true
    by (symmetry; apply Nat.leb_le; lia).
  rewrite firstn_app, Nat.sub_diag, firstn_all, skipn_app, Nat.sub_diag, skipn_all.
  cbn. now rewrite app_nil_r.
Qed.

Lemma DecodeWord_EncodeWord_app (word : string) (rest : list byte) :
  encodable word -> DecodeWord (EncodeWord word ++ rest) = (inl word, rest).
Proof.
  intros Hlen. unfold DecodeWord, EncodeWord. rewrite <- app_assoc.
  rewrite DecodeLength_EncodeLength_app by (unfold encodable in Hlen; lia).
  destruct word as [|c word].
  - reflexivity.
  - replace (Z.of_nat (String.length (String c word)) =? 0) with false
      by (symmetry; apply Z.eqb_neq; cbn [String.length]; lia).
    rewrite Nat2Z.id, <- length_bytesOf, ReadFull_app, stringOf_bytesOf.
    reflexivity.
Qed.

End WordRoundTrip.

(** X1: for every word shorter than [2^32] bytes and whatever bytes follow
    it on the wire, [DecodeWord] reads back from [EncodeWord word] exactly
    that word and leaves the bytes that follow unread. *)
Theorem X1_DecodeWord_EncodeWord (word : string) (rest : list byte) :
  encodable word -> DecodeWord (EncodeWord word ++ rest) = (inl word, rest).
Proof. apply DecodeWord_EncodeWord_app. Qed.

Lemma X1_DecodeWord_EncodeWord_witness :
  DecodeWord (EncodeWord "/interface/print" ++ [0]) = (inl "/interface/print", [0]).
Proof.
  apply (X1_DecodeWord_EncodeWord "/interface/print" [0]).
  unfold encodable. cbn. lia.
Defined.

Section SentenceRoundTrip.

Lemma prefix_char (a c : ascii) (s : string) :
  String.prefix (String a EmptyString) (String c s) = if ascii_dec a c then true else false.
Proof.
  change (String.prefix (String a EmptyString) (String c s))
    with (if ascii_dec a c then String.prefix EmptyString s else false).
  destruct (ascii_dec a c); [now destruct s | reflexivity].
Qed.

Lemma Contains_char_cons (a c : ascii) (k : string) :
  Contains (String c k) (String a EmptyString) = false ->
  Ascii.eqb c a = false /\ Contains k (String a EmptyString) = false.
Proof.
  cbn [Contains]. rewrite prefix_char. intros H.
  apply orb_false_iff in H as [H1 H2]. split; [|exact H2].
  destruct (ascii_dec a c) as [->|Hne]; [discriminate|].
  apply Ascii.eqb_neq. congruence.
Qed.

Lemma splitFirstEq_pair (k v : string) :
  Contains k "=" = false -> splitFirstEq (k +:+ "=" +:+ v) = Some (k, v).
Proof.
  induction k as [|c k IH]; intros H.
  - reflexivity.
  - apply Contains_char_cons in H as [Hc Hk].
    rewrite append_cons. cbn [splitFirstEq]. rewrite Hc, (IH Hk). reflexivity.
Qed.

Lemma splitFirstEq_none (s : string) :
  Contains s "=" = false -> splitFirstEq s = None.
Proof.
  induction s as [|c s IH]; intros H; [reflexivity|].
  apply Contains_char_cons in H as [Hc Hs].
  cbn [splitFirstEq]. rewrite Hc, (IH Hs). reflexivity.
Qed.

Lemma HasPrefix_eq_word (t : string) : HasPrefix ("=" +:+ t) "=" = true.
Proof. apply HasPrefix_spec. now exists t. Qed.

(** An attribute word is stored under its key. *)
Lemma applyWord_attribute (reply : Reply.t) (k v : string) :
  Contains k "=" = false ->
  applyWord reply ("=" +:+ k +:+ "=" +:+ v) = setData reply k v.
Proof.
  intros Hk. unfold applyWord. rewrite HasPrefix_eq_word.
  change (sliceFrom 1 ("=" +:+ k +:+ "=" +:+ v)) with (k +:+ "=" +:+ v).
  now rewrite splitFirstEq_pair.
Qed.

Lemma DecodeWord_zero (rest : list byte) : DecodeWord (0 :: rest) = (inl EmptyString, rest).
Proof. reflexivity. Qed.

Lemma eqb_nonempty (w : string) : w <> EmptyString -> String.eqb w "" = false.
Proof. intros H. now apply String.eqb_neq. Qed.

(** The loop of [DecodeSentence] over encoded words and the closing zero
    byte applies the words in order and stops after the zero byte. *)
Lemma decodeWords_encoded (ws : list string) (fuel : nat) (reply : Reply.t)
    (rest : list byte) :
  Forall (fun w => w <> EmptyString /\ encodable w) ws ->
  (List.length ws < fuel)%nat ->
  decodeWords fuel (concat (map EncodeWord ws) ++ 0 :: rest) reply
  = Some (inl (fold_left applyWord ws reply), rest).
Proof.
  revert fuel reply. induction ws as [|w ws IH]; intros fuel reply Hok Hfuel.
  - destruct fuel as [|fuel]; [cbn in Hfuel; lia|].
    cbn [map concat app decodeWords fold_left]. rewrite DecodeWord_zero. reflexivity.
  - destruct fuel as [|fuel]; [cbn in Hfuel; lia|].
    apply Forall_cons_iff in Hok as [[Hne Hlen] Hok].
    cbn [map concat decodeWords fold_left]. rewrite <- app_assoc.
    rewrite DecodeWord_EncodeWord_app by exact Hlen.
    rewrite (eqb_nonempty w Hne). apply IH; [exact Hok|].
    cbn [List.length] in Hfuel. lia.
Qed.

Lemma length_concat_EncodeWord (ws : list string) (tail : list byte) :
  (List.length ws <= List.length (concat (map EncodeWord ws) ++ tail))%nat.
Proof.
  induction ws as [|w ws IH]; [cbn; lia|].
  cbn [map concat List.length]. rewrite <- app_assoc, length_app.
  assert (1 <= List.length (EncodeWord w))%nat; [|lia].
  unfold EncodeWord. rewrite length_app.
  assert (1 <= List.length (EncodeLength (Z.of_nat (String.length w))))%nat; [|lia].
  unfold EncodeLength.
  repeat match goal with |- context [if ?b then _ else _] => destruct b end; cbn; lia.
Qed.

(** Decoding what [EncodeSentence] wrote: the command word becomes the
    type, and the other words are applied in order. *)
Lemma DecodeSentence_EncodeSentence_app (s : Sentence) (rest : list byte) :
  encodable (Word s) ->
  Forall (fun w => w <> EmptyString /\ encodable w) (Words s) ->
  DecodeSentence (EncodeSentence s ++ rest)
  = (inl (fold_left applyWord (Words s)
            {| Reply.Type_ := Word s; Reply.Data := ∅; Reply.Tag := "" |}), rest).
Proof.
  intros Hw Hws. unfold DecodeSentence, EncodeSentence.
  rewrite <- !app_assoc. rewrite DecodeWord_EncodeWord_app by exact Hw.
  cbn [app]. rewrite decodeWords_encoded; [reflexivity | exact Hws |].
  match goal with
  | |- (_ < S (List.length (_ ++ ?t)))%nat =>
      pose proof (length_concat_EncodeWord (Words s) t)
  end.
  lia.
Qed.

Lemma fold_AddAttribute (args : list (string * string)) (s : Sentence) :
  fold_left (fun s kv => AddAttribute s (fst kv) (snd kv)) args s
  = {| Word := Word s;
       Words := (Words s ++ map (fun kv => "=" +:+ fst kv +:+ "=" +:+ snd kv) args)%list |}.
Proof.
  revert s. induction args as [|kv args IH]; intros s; cbn [fold_left map].
  - rewrite app_nil_r. now destruct s.
  - rewrite IH. unfold AddAttribute. cbn [Word Words].
    now rewrite <- app_assoc.
Qed.

Lemma runSentence_shape (command : string) (args : list (string * string)) :
  runSentence command args
  = {| Word := command;
       Words := map (fun kv => "=" +:+ fst kv +:+ "=" +:+ snd kv) args |}.
Proof. unfold runSentence. now rewrite fold_AddAttribute. Qed.

Lemma fold_applyWord_attributes (data : list (string * string)) (reply : Reply.t) :
  Forall attributeOk data ->
  fold_left applyWord (map (fun kv => "=" +:+ fst kv +:+ "=" +:+ snd kv) data) reply
  = {| Reply.Type_ := Reply.Type_ reply;
       Reply.Data := fold_left (fun m kv => <[fst kv := snd kv]> m) data (Reply.Data reply);
       Reply.Tag := Reply.Tag reply |}.
Proof.
  revert reply. induction data as [|kv data IH]; intros reply Hok.
  - now destruct reply.
  - apply Forall_cons_iff in Hok as [[Hk _] Hok].
    cbn [map fold_left]. rewrite applyWord_attribute by exact Hk.
    rewrite IH by exact Hok. reflexivity.
Qed.

Lemma attribute_words_ok (data : list (string * string)) :
  Forall attributeOk data ->
  Forall (fun w => w <> EmptyString /\ encodable w)
    (map (fun kv => "=" +:+ fst kv +:+ "=" +:+ snd kv) data).
Proof.
  induction 1 as [|kv data [_ Hlen] _ IH]; cbn [map]; constructor.
  - split; [discriminate | exact Hlen].
  - exact IH.
Qed.

Lemma DecodeSentence_runSentence (command : string) (args : list (string * string))
    (rest : list byte) :
  encodable command ->
  Forall attributeOk args ->
  DecodeSentence (EncodeSentence (runSentence command args) ++ rest)
  = (inl {| Reply.Type_ := command; Reply.Data := attrs args; Reply.Tag := "" |}, rest).
Proof.
  intros Hc Hargs. rewrite runSentence_shape.
  rewrite DecodeSentence_EncodeSentence_app;
    [| exact Hc | apply attribute_words_ok; exact Hargs].
  cbn [Word Words]. rewrite fold_applyWord_attributes by exact Hargs. reflexivity.
Qed.

End SentenceRoundTrip.

(** X2: the bytes [EncodeSentence] writes for a command and its attributes
    (as [Run] builds the sentence, one [AddAttribute] per pair) decode with
    [DecodeSentence] to the command as the reply type and to the attribute
    map of the pairs, a later pair overriding an earlier one with the same
    key; the decoder stops after the closing zero byte and leaves the bytes
    that follow unread.  The keys hold no [=] and each word is shorter than
    [2^32] bytes. *)
Theorem X2_DecodeSentence_EncodeSentence (command : string)
    (args : list (string * string)) (rest : list byte) :
  encodable command ->
  Forall attributeOk args ->
  DecodeSentence (EncodeSentence (runSentence command args) ++ rest)
  = (inl {| Reply.Type_ := command; Reply.Data := attrs args; Reply.Tag := "" |}, rest).
Proof. apply DecodeSentence_runSentence. Qed.

Lemma X2_DecodeSentence_EncodeSentence_witness :
  DecodeSentence
    (EncodeSentence (runSentence "!re" [("name", "ether1"); ("name", "ether2")]) ++ [7])
  = (inl {| Reply.Type_ := "!re";
            Reply.Data := attrs [("name", "ether1"); ("name", "ether2")];
            Reply.Tag := "" |}, [7]).
Proof.
  apply (X2_DecodeSentence_EncodeSentence "!re"
           [("name", "ether1"); ("name", "ether2")] [7]).
  - unfold encodable. cbn. lia.
  - repeat constructor; unfold encodable; cbn; lia.
Defined.

(** X3: [ParseAttributeWord] reads back the pair from which [AddAttribute]
    formats its word [=key=value] (the key holding no [=]; the value may
    hold some); whenever it accepts a word, [DecodeSentence] stores the same
    key and value for that word; and a word that does not start with [=]
    is rejected with empty strings and adds nothing to a reply's
    attributes. *)
Theorem X3_ParseAttributeWord_reads_attribute (reply : Reply.t) (word k v : string) :
  (Contains k "=" = false ->
   ParseAttributeWord ("=" +:+ k +:+ "=" +:+ v) = (k, v, true)) /\
  (ParseAttributeWord word = (k, v, true) -> applyWord reply word = setData reply k v) /\
  (HasPrefix word "=" = false ->
   ParseAttributeWord word = (EmptyString, EmptyString, false) /\
   Reply.Data (applyWord reply word) = Reply.Data reply).
Proof.
  split; [|split].
  - intros Hk. unfold ParseAttributeWord. rewrite HasPrefix_eq_word. cbn [negb].
    change (sliceFrom 1 ("=" +:+ k +:+ "=" +:+ v)) with (k +:+ "=" +:+ v).
    now rewrite splitFirstEq_pair.
  - unfold ParseAttributeWord, applyWord.
    destruct (HasPrefix word "="); cbn [negb]; [|discriminate].
    destruct (splitFirstEq (sliceFrom 1 word)) as [[key value]|].
    + intros H. injection H as -> ->. reflexivity.
    + intros H. injection H as <- <-. reflexivity.
  - intros Hp. unfold ParseAttributeWord, applyWord. rewrite Hp. cbn [negb].
    split; [reflexivity|]. now destruct (HasPrefix word ".tag=").
Qed.

Lemma X3_ParseAttributeWord_reads_attribute_witness :
  ParseAttributeWord "=comment=a=b" = ("comment", "a=b", true) /\
  applyWord (mkReply "!re" []) "=comment=a=b" = setData (mkReply "!re" []) "comment" "a=b" /\
  ParseAttributeWord ".tag=7" = (EmptyString, EmptyString, false).
Proof.
  split; [|split].
  - apply (X3_ParseAttributeWord_reads_attribute (mkReply "!re" []) "" "comment" "a=b").
    reflexivity.
  - apply (X3_ParseAttributeWord_reads_attribute (mkReply "!re" []) "=comment=a=b"
             "comment" "a=b").
    reflexivity.
  - apply (X3_ParseAttributeWord_reads_attribute (mkReply "!re" []) ".tag=7" "" "").
    reflexivity.
Defined.

Section LengthOutcome.

Lemma DecodeLength_5_any (b e0 e1 e2 e3 : Z) (rest : list byte) :
  240 <= b -> 0 <= e1 < 256 -> 0 <= e2 < 256 -> 0 <= e3 < 256 ->
  DecodeLength (b :: e0 :: e1 :: e2 :: e3 :: rest)
    = (inl (e0 * 16777216 + e1 * 65536 + e2 * 256 + e3), rest).
Proof.
  intros Hb H1 H2 H3. unfold DecodeLength, ReadFull.
  cbn [Nat.leb List.length firstn skipn].
  destruct (Z.ltb_spec b 128); [lia|].
  destruct (Z.ltb_spec b 192); [lia|].
  destruct (Z.ltb_spec b 224); [lia|].
  destruct (Z.ltb_spec b 240); [lia|].
  rewrite BigEndian_Uint32_value by assumption. reflexivity.
Qed.

Lemma DecodeLength_short (b : Z) (rest : list byte) :
  (List.length rest < continuation b)%nat ->
  DecodeLength (b :: rest)
  = (inr (match rest with [] => EOF | _ :: _ => ErrUnexpectedEOF end), []).
Proof.
  unfold continuation, DecodeLength, ReadFull.
  cbn [Nat.leb List.length firstn skipn].
  destruct (b <? 128); [cbn; lia|].
  destruct (b <? 192); [|destruct (b <? 224); [|destruct (b <? 240)]];
    repeat (destruct rest as [|? rest]; cbn [List.length Nat.leb]; try lia;
            try reflexivity).
Qed.

End LengthOutcome.

(** X4: what [DecodeLength] does on any input of bytes.  On the empty input
    it fails with [io.EOF].  Otherwise the first byte fixes how many more
    bytes are read (none below 0x80, one below 0xC0, two below 0xE0, three
    below 0xF0, four from 0xF0 on): when that many bytes follow, the call
    succeeds, consumes exactly them, and returns a length in [0, 2^32);
    when fewer follow, it uses up the input and fails, with [io.EOF] when
    nothing follows the first byte and with [io.ErrUnexpectedEOF] when the
    input ends part-way. *)
Theorem X4_DecodeLength_outcome (b : byte) (rest : list byte) :
  Forall (fun x => 0 <= x < 256) (b :: rest) ->
  DecodeLength [] = (inr EOF, []) /\
  ((continuation b <= List.length rest)%nat ->
   exists n, DecodeLength (b :: rest) = (inl n, skipn (continuation b) rest) /\
             0 <= n < 2 ^ 32) /\
  ((List.length rest < continuation b)%nat ->
   DecodeLength (b :: rest)
   = (inr (match rest with [] => EOF | _ :: _ => ErrUnexpectedEOF end), [])).
Proof.
  intros Hbytes. split; [reflexivity|]. split; [|apply DecodeLength_short].
  apply Forall_cons_iff in Hbytes as [Hb Hrest].
  change (2 ^ 32) with 4294967296. unfold continuation.
  destruct (Z.ltb_spec b 128) as [H1|H1].
  { intros _. exists b. rewrite DecodeLength_1 by lia. cbn [skipn]. split; [reflexivity|lia]. }
  destruct (Z.ltb_spec b 192) as [H2|H2].
  { destruct rest as [|s rest]; cbn [List.length]; [lia|]. intros _.
    apply Forall_cons_iff in Hrest as [Hs _].
    exists ((b - 128) * 256 + s).
    replace b with ((b - 128) + 128) at 1 by lia.
    rewrite DecodeLength_2 by lia. cbn [skipn]. split; [reflexivity|lia]. }
  destruct (Z.ltb_spec b 224) as [H3|H3].
  { destruct rest as [|e0 [|e1 rest]]; cbn [List.length]; [lia|lia|]. intros _.
    apply Forall_cons_iff in Hrest as [He0 Hrest].
    apply Forall_cons_iff in Hrest as [He1 _].
    exists ((b - 192) * 65536 + e0 * 256 + e1).
    replace b with ((b - 192) + 192) at 1 by lia.
    rewrite DecodeLength_3 by lia. cbn [skipn]. split; [reflexivity|lia]. }
  destruct (Z.ltb_spec b 240) as [H4|H4].
  { destruct rest as [|e0 [|e1 [|e2 rest]]]; cbn [List.length]; [lia|lia|lia|]. intros _.
    apply Forall_cons_iff in Hrest as [He0 Hrest].
    apply Forall_cons_iff in Hrest as [He1 Hrest].
    apply Forall_cons_iff in Hrest as [He2 _].
    exists ((b - 224) * 16777216 + e0 * 65536 + e1 * 256 + e2).
    replace b with ((b - 224) + 224) at 1 by lia.
    rewrite DecodeLength_4 by lia. cbn [skipn]. split; [reflexivity|lia]. }
  destruct rest as [|e0 [|e1 [|e2 [|e3 rest]]]]; cbn [List.length]; [lia|lia|lia|lia|].
  intros _.
  apply Forall_cons_iff in Hrest as [He0 Hrest].
  apply Forall_cons_iff in Hrest as [He1 Hrest].
  apply Forall_cons_iff in Hrest as [He2 Hrest].
  apply Forall_cons_iff in Hrest as [He3 _].
  exists (e0 * 16777216 + e1 * 65536 + e2 * 256 + e3).
  rewrite DecodeLength_5_any by lia. cbn [skipn]. split; [reflexivity|lia].
Qed.

Lemma X4_DecodeLength_outcome_witness :
  DecodeLength [] = (inr EOF, []) /\
  (exists n, DecodeLength [0xC1; 2; 3; 9] = (inl n, [9]) /\ 0 <= n < 2 ^ 32) /\
  DecodeLength [0x80] = (inr EOF, []) /\
  DecodeLength [0xE0; 1] = (inr ErrUnexpectedEOF, []).
Proof.
  split; [|split; [|split]].
  - apply (X4_DecodeLength_outcome 0 []). repeat constructor; lia.
  - apply (X4_DecodeLength_outcome 0xC1 [2; 3; 9]); [repeat constructor; lia | cbn; lia].
  - apply (X4_DecodeLength_outcome 0x80 []); [repeat constructor; lia | cbn; lia].
  - apply (X4_DecodeLength_outcome 0xE0 [1]); [repeat constructor; lia | cbn; lia].
Defined.

(** ** The client: reading, connecting, running commands *)

(** X5: [readReply] never closes the connection and never reports
    [ErrConnectionClosed].  [DecodeSentence] wraps every read failure,
    [io.EOF] included, so the comparison [err == io.EOF] never holds:
    whatever the peer sent, and also when it has closed, the client stays
    [connected] as it was and keeps its connection, and an error that
    [readReply] returns is never classified as temporary. *)
Theorem X5_readReply_never_reports_closed (c : Client) :
  connected (snd (readReply c)) = connected c /\
  (conn (snd (readReply c)) = None <-> conn c = None) /\
  fst (readReply c) <> inr (ErrAPI ErrConnectionClosed) /\
  (forall err, fst (readReply c) = inr err -> IsTemporaryError err = false).
Proof.
  unfold readReply. destruct (conn c) as [cn|] eqn:Hc.
  - destruct (DecodeSentence (incoming cn)) as [[r|e] rest] eqn:E.
    + cbn [fst snd connected conn setConn].
      split; [reflexivity|]. split; [split; discriminate|]. split; discriminate.
    + rewrite (DecodeSentence_error_wrapped _ _ _ E).
      cbn [fst snd connected conn setConn].
      split; [reflexivity|]. split; [split; discriminate|]. split; [discriminate|].
      intros err H. injection H as <-. reflexivity.
  - cbn [fst snd]. rewrite Hc.
    split; [reflexivity|]. split; [tauto|]. split; [discriminate|].
    intros err H. injection H as <-. reflexivity.
Qed.

Section ConnectFacts.

Variable md5_Sum : list byte -> list byte.

(** When the loop of [Connect] ends without an error, either an attempt
    succeeded, or no attempt was made at all. *)
Lemma connectLoop_nil (now : Time) (ctx : nat -> option error) (remaining attempt : nat)
    (lastErr : option error) (dials dials1 : list (Conn + error)) (c c1 : Client) :
  connectLoop md5_Sum now ctx remaining attempt lastErr dials c = (None, c1, dials1) ->
  (connected c1 = true /\ state (breaker c1) = circuitClosed /\ failures (breaker c1) = 0)
  \/ (remaining = O /\ lastErr = None).
Proof.
  revert attempt lastErr dials c.
  induction remaining as [|remaining IH]; intros attempt lastErr dials c H.
  - cbn [connectLoop] in H. injection H as -> _ _. right. auto.
  - left. cbn [connectLoop] in H.
    destruct (if (0 <? attempt)%nat then ctx attempt else None); [discriminate|].
    destruct (connect dials c) as [[[err|] c2] dials2].
    + apply IH in H as [H|[_ H]]; [exact H | discriminate].
    + destruct (authenticate md5_Sum c2) as [[err|] c3].
      * destruct (IsAuthError err); [discriminate|].
        apply IH in H as [H|[_ H]]; [exact H | discriminate].
      * injection H as <- _. cbn. auto.
Qed.

(** When every dial fails and the context is not cancelled, the loop runs
    through all its attempts and records one failure. *)
Lemma connectLoop_dials_fail (now : Time) (remaining attempt : nat)
    (lastErr : option error) (dials : list (Conn + error)) (c : Client) :
  Forall dialFails dials ->
  (0 < remaining)%nat \/ (exists e, lastErr = Some e /\ IsConnectionError e = true
                                    /\ IsTemporaryError e = true) ->
  exists e,
    IsConnectionError e = true /\ IsTemporaryError e = true /\
    connectLoop md5_Sum now (fun _ => None) remaining attempt lastErr dials c
    = (Some e, setBreaker c (recordFailure now (breaker c)), skipn remaining dials).
Proof.
  revert attempt lastErr dials c.
  induction remaining as [|remaining IH]; intros attempt lastErr dials c Hd Hl.
  - destruct Hl as [Hl|(e & -> & He1 & He2)]; [lia|].
    exists e. cbn [connectLoop skipn]. auto.
  - cbn [connectLoop].
    replace (if (0 <? attempt)%nat then None else None) with (@None error)
      by (now destruct (0 <? attempt)%nat).
    destruct dials as [|[cn|err] later]; cbn [connect].
    + destruct (IH (S attempt)
                  (Some (ErrAPI (NewConnectionError "failed to connect"
                                   (ErrOther "connection refused")))) [] c)
        as (e & He1 & He2 & Heq); [constructor | right; eauto |].
      exists e. rewrite Heq. now destruct remaining.
    + apply Forall_cons_iff in Hd as [[] _].
    + apply Forall_cons_iff in Hd as [_ Hd].
      destruct (IH (S attempt)
                  (Some (ErrAPI (NewConnectionError "failed to connect" err))) later c)
        as (e & He1 & He2 & Heq); [exact Hd | right; eauto |].
      exists e. rewrite Heq. auto.
Qed.

End ConnectFacts.

(** X6: with a retry count that is not negative, [Connect] returns without
    an error only when the client is connected afterwards; and when it was
    not connected before, the breaker is then closed with its failure count
    at zero. *)
Theorem X6_Connect_nil_means_connected (md5_Sum : list byte -> list byte)
    (tAttempt tRecord : Time) (ctx : nat -> option error)
    (dials dials1 : list (Conn + error)) (c c1 : Client) :
  0 <= RetryAttempts (config c) ->
  Connect md5_Sum tAttempt tRecord ctx dials c = (None, c1, dials1) ->
  connected c1 = true /\
  (connected c = false ->
   state (breaker c1) = circuitClosed /\ failures (breaker c1) = 0).
Proof.
  intros Hretry. unfold Connect. destruct (connected c) eqn:Hconn.
  - intros H. injection H as <- _. split; [exact Hconn | discriminate].
  - destruct (canAttempt tAttempt (breaker c)) as [allowed cb].
    destruct allowed; cbn [negb]; [|discriminate].
    intros H. apply connectLoop_nil in H as [(H1 & H2 & H3)|[H _]]; [auto | lia].
Qed.

Lemma X6_Connect_nil_means_connected_witness :
  let c1 := snd (fst (Connect noDigest 0 1 (fun _ => None)
                        [inl (scriptedConn [wire "!done" []])]
                        (NewClient (adminConfig 3)))) in
  connected c1 = true /\
  (connected (NewClient (adminConfig 3)) = false ->
   state (breaker c1) = circuitClosed /\ failures (breaker c1) = 0).
Proof.
  apply (X6_Connect_nil_means_connected noDigest 0 1 (fun _ => None)
           [inl (scriptedConn [wire "!done" []])] []
           (NewClient (adminConfig 3))).
  - cbn. lia.
  - vm_compute. reflexivity.
Defined.

(** X7: with a negative retry count the loop of [Connect] makes no attempt:
    on a client that is not connected and whose breaker grants the attempt,
    [Connect] dials nothing, records a failure in the breaker, leaves the
    client unconnected, and still returns no error. *)
Theorem X7_Connect_negative_retries (md5_Sum : list byte -> list byte)
    (tAttempt tRecord : Time) (ctx : nat -> option error)
    (dials : list (Conn + error)) (c : Client) :
  RetryAttempts (config c) < 0 ->
  connected c = false ->
  fst (canAttempt tAttempt (breaker c)) = true ->
  let cb := snd (canAttempt tAttempt (breaker c)) in
  Connect md5_Sum tAttempt tRecord ctx dials c
  = (None, setBreaker c (recordFailure tRecord cb), dials) /\
  connected (setBreaker c (recordFailure tRecord cb)) = false.
Proof.
  intros Hretry Hconn Hcb cb. subst cb. unfold Connect. rewrite Hconn.
  destruct (canAttempt tAttempt (breaker c)) as [allowed cb]. cbn [fst snd] in *.
  subst allowed. cbn [negb].
  replace (Z.to_nat (RetryAttempts (config c) + 1)) with O by lia.
  cbn [connectLoop]. split; [reflexivity | exact Hconn].
Qed.

Lemma X7_Connect_negative_retries_witness :
  Connect noDigest 0 1 (fun _ => None) [inl (scriptedConn [wire "!done" []])]
    (NewClient (adminConfig (-1)))
  = (None,
     setBreaker (NewClient (adminConfig (-1)))
       (recordFailure 1 (newCircuitBreaker 5 30000000000)),
     [inl (scriptedConn [wire "!done" []])]) /\
  connected (setBreaker (NewClient (adminConfig (-1)))
               (recordFailure 1 (newCircuitBreaker 5 30000000000))) = false.
Proof.
  apply (X7_Connect_negative_retries noDigest 0 1 (fun _ => None)
           [inl (scriptedConn [wire "!done" []])] (NewClient (adminConfig (-1))));
    [cbn; lia | reflexivity | reflexivity].
Defined.

(** X8: the breaker keeps a client from dialing a router that is down.
    Take a client that is not connected, with a closed breaker that is one
    failure short of its threshold.  When every dial fails (and the context
    is not cancelled), [Connect] makes its [RetryAttempts + 1] dials,
    returns a temporary connection error and leaves the breaker open; from
    then on, as long as no more than [resetTimeout] has passed since that
    failure, every [Connect] returns [ErrCircuitOpen] without dialing and
    without changing the client. *)
Theorem X8_Connect_trips_breaker (md5_Sum : list byte -> list byte)
    (t1 tRecord : Time) (dials : list (Conn + error)) (c : Client) :
  connected c = false ->
  state (breaker c) = circuitClosed ->
  0 <= RetryAttempts (config c) ->
  0 <= failures (breaker c) < I64.max ->
  maxFailures (breaker c) <= failures (breaker c) + 1 ->
  Forall dialFails dials ->
  exists err c1,
    Connect md5_Sum t1 tRecord (fun _ => None) dials c
    = (Some err, c1, skipn (Z.to_nat (RetryAttempts (config c) + 1)) dials) /\
    IsConnectionError err = true /\ IsTemporaryError err = true /\
    state (breaker c1) = circuitOpen /\
    forall (t2 t2' : Time) (ctx : nat -> option error) (more : list (Conn + error)),
      t2 - tRecord <= resetTimeout (breaker c) ->
      Connect md5_Sum t2 t2' ctx more c1 = (Some (ErrAPI ErrCircuitOpen), c1, more).
Proof.
  intros Hconn Hst Hretry Hwrap Hmax Hd.
  destruct (connectLoop_dials_fail md5_Sum tRecord
              (Z.to_nat (RetryAttempts (config c) + 1)) 0 None dials c Hd)
    as (e & He1 & He2 & Heq); [left; lia|].
  assert (Hopen : state (recordFailure tRecord (breaker c)) = circuitOpen).
  { unfold recordFailure. rewrite Hst. cbn [state].
    unfold I64.add. rewrite I64_wrap_small by (unfold I64.min, I64.max in *; lia).
    destruct (Z.leb_spec (maxFailures (breaker c)) (failures (breaker c) + 1));
      [reflexivity | lia]. }
  exists e, (setBreaker c (recordFailure tRecord (breaker c))).
  split; [|split; [exact He1|split; [exact He2|split; [exact Hopen|]]]].
  - unfold Connect. rewrite Hconn. unfold canAttempt at 1. rewrite Hst.
    cbn [negb]. replace (setBreaker c (breaker c)) with c by (now destruct c).
    exact Heq.
  - intros t2 t2' ctx more Ht. unfold Connect. cbn [connected setBreaker breaker].
    rewrite Hconn. unfold canAttempt. rewrite Hopen.
    replace (resetTimeout (recordFailure tRecord (breaker c))
             <? Since t2 (lastFailure (recordFailure tRecord (breaker c))))
      with false.
    + cbn [negb]. reflexivity.
    + symmetry. apply Z.ltb_ge. unfold recordFailure, Since.
      destruct (state (breaker c)); cbn [resetTimeout lastFailure]; lia.
Qed.

Lemma X8_Connect_trips_breaker_witness :
  exists err c1,
    Connect noDigest 0 7 (fun _ => None) [inr (ErrOther "no route to host")]
      (setBreaker (NewClient (adminConfig 1))
         (recordFailure 5 (newCircuitBreaker 2 100)))
    = (Some err, c1, []) /\
    IsConnectionError err = true /\ IsTemporaryError err = true /\
    state (breaker c1) = circuitOpen /\
    forall (t2 t2' : Time) (ctx : nat -> option error) (more : list (Conn + error)),
      t2 - 7 <= 100 ->
      Connect noDigest t2 t2' ctx more c1 = (Some (ErrAPI ErrCircuitOpen), c1, more).
Proof.
  apply (X8_Connect_trips_breaker noDigest 0 7 [inr (ErrOther "no route to host")]
           (setBreaker (NewClient (adminConfig 1))
              (recordFailure 5 (newCircuitBreaker 2 100)))).
  - reflexivity.
  - reflexivity.
  - cbn. lia.
  - vm_compute. split; [discriminate | reflexivity].
  - vm_compute. discriminate.
  - repeat constructor.
Defined.

Section RunOnTheWire.

Lemma wire_runSentence (type : string) (data : list (string * string)) :
  wire type data = EncodeSentence (runSentence type data).
Proof. unfold wire. now rewrite runSentence_shape. Qed.

Lemma wire_nonempty (type : string) (data : list (string * string)) (tail : list byte) :
  (1 <= List.length (wire type data ++ tail))%nat.
Proof.
  unfold wire, EncodeSentence. rewrite !length_app. cbn [List.length]. lia.
Qed.

Lemma readReply_wire (c : Client) (cn : Conn) (type : string)
    (data : list (string * string)) (rest : list byte) :
  encodable type -> Forall attributeOk data ->
  readReply (withIncoming c cn (wire type data ++ rest))
  = (inl {| Reply.Type_ := type; Reply.Data := attrs data; Reply.Tag := "" |},
     withIncoming c cn rest).
Proof.
  intros Ht Hd. unfold readReply, withIncoming. cbn [conn setConn incoming].
  rewrite wire_runSentence, DecodeSentence_runSentence by assumption. reflexivity.
Qed.

(** The rows of an answer, as replies. *)
Lemma readAllRepliesLoop_answer (c : Client) (cn : Conn)
    (rows : list (list (string * string))) (rest : list byte) (fuel : nat)
    (acc : list Reply.t) :
  Forall (Forall attributeOk) rows ->
  (List.length rows < fuel)%nat ->
  readAllRepliesLoop fuel (withIncoming c cn (answer rows ++ rest)) acc
  = Some ((acc ++ map (mkData "!re") rows ++ [mkData "!done" []])%list, None,
          withIncoming c cn rest).
Proof.
  revert fuel acc. induction rows as [|row rows IH]; intros fuel acc Hok Hfuel.
  - destruct fuel as [|fuel]; [cbn in Hfuel; lia|].
    unfold answer. cbn [map concat app readAllRepliesLoop].
    rewrite readReply_wire; [reflexivity | unfold encodable; cbn; lia | constructor].
  - destruct fuel as [|fuel]; [cbn in Hfuel; lia|].
    apply Forall_cons_iff in Hok as [Hrow Hok].
    unfold answer. cbn [map concat readAllRepliesLoop]. rewrite <- !app_assoc.
    rewrite readReply_wire; [| unfold encodable; cbn; lia | exact Hrow].
    change (IsDone _ || IsFatal _) with false. cbv iota.
    change (concat (map (wire "!re") rows) ++ wire "!done" [] ++ rest)%list
      with (concat (map (wire "!re") rows) ++ (wire "!done" [] ++ rest))%list.
    rewrite (app_assoc (concat _)). fold (answer rows).
    rewrite IH; [| exact Hok | cbn [List.length] in Hfuel; lia].
    rewrite <- app_assoc. reflexivity.
Qed.

Lemma length_answer (rows : list (list (string * string))) (rest : list byte) :
  (List.length rows < List.length (answer rows ++ rest))%nat.
Proof.
  unfold answer. rewrite <- app_assoc.
  induction rows as [|row rows IH]; cbn [map concat List.length].
  - rewrite app_nil_l. pose proof (wire_nonempty "!done" [] rest). lia.
  - rewrite <- app_assoc, length_app.
    pose proof (wire_nonempty "!re" row []) as H. rewrite app_nil_r in H. lia.
Qed.

Lemma runLoop_rows (rows : list (list (string * string))) (c : Client) :
  runLoop (map (mkData "!re") rows ++ [mkData "!done" []]) [] c
  = (map attrs rows, None, c).
Proof.
  rewrite runLoop_first_stop.
  assert (Hfind : forall l, List.find stops (map (mkData "!re") l ++ [mkData "!done" []]) = None).
  { induction l as [|x l IHl]; [reflexivity | exact IHl]. }
  rewrite Hfind. cbn [app]. f_equal. f_equal.
  induction rows as [|row rows IH]; [reflexivity|].
  cbn [map app List.filter]. change (IsData (mkData "!re" row)) with true.
  cbv iota. cbn [map]. now rewrite IH.
Qed.

Lemma readAllReplies_answer (c : Client) (cn : Conn)
    (rows : list (list (string * string))) (rest : list byte) :
  Forall (Forall attributeOk) rows ->
  readAllReplies (withIncoming c cn (answer rows ++ rest))
  = ((map (mkData "!re") rows ++ [mkData "!done" []])%list, None, withIncoming c cn rest).
Proof.
  intros Hok.
  pose proof (readAllReplies_loop (withIncoming c cn (answer rows ++ rest))) as Hl.
  rewrite (readAllRepliesLoop_answer c cn rows rest _ [] Hok) in Hl.
  - cbn [app] in Hl. now injection Hl as <-.
  - unfold pendingBytes, withIncoming. cbn [conn setConn incoming].
    pose proof (length_answer rows rest). lia.
Qed.

(** [Execute] on a connection whose next deadline and write succeed. *)
Lemma Execute_answer (c : Client) (cn : Conn) (sentence : Sentence)
    (rows : list (list (string * string))) (rest : list byte) :
  connected c = true -> conn c = Some cn ->
  hd None (writeErrs cn) = None -> hd None (deadlineErrs cn) = None ->
  incoming cn = (answer rows ++ rest)%list ->
  Forall (Forall attributeOk) rows ->
  exists cn1,
    Execute c sentence
    = ((map (mkData "!re") rows ++ [mkData "!done" []])%list, None,
       withIncoming c cn1 rest) /\
    written cn1 = (written cn ++ [EncodeSentence sentence])%list.
Proof.
  intros Hconn Hc Hw Hd Hin Hok. unfold Execute. rewrite Hconn. cbn [negb].
  assert (Hdl : exists dl,
             (if 0 <? Timeout (config c) then setDeadline c else (None, c))
             = (None, withIncoming c {| written := written cn; writeErrs := writeErrs cn;
                                        deadlineErrs := dl; incoming := incoming cn |}
                        (incoming cn))).
  { destruct (0 <? Timeout (config c)).
    - exists (tl (deadlineErrs cn)). unfold setDeadline. rewrite Hc.
      destruct (deadlineErrs cn) as [|[e|] l]; [reflexivity | discriminate Hd | reflexivity].
    - exists (deadlineErrs cn). unfold withIncoming. cbn [written writeErrs deadlineErrs].
      destruct c as [cfg co cd br]. cbn in Hc. subst co. now destruct cn. }
  destruct Hdl as [dl ->].
  exists {| written := (written cn ++ [EncodeSentence sentence])%list;
            writeErrs := tl (writeErrs cn); deadlineErrs := dl;
            incoming := incoming cn |}.
  split; [|reflexivity].
  unfold writeSentence, withIncoming at 1. cbn [conn setConn writeErrs written deadlineErrs incoming].
  rewrite Hin.
  destruct (writeErrs cn) as [|[e|] l]; [| discriminate Hw |];
    cbn [tl];
    match goal with
    | |- readAllReplies ?x = _ =>
        match x with
        | context [Some ?k] =>
            change x with (withIncoming c k (answer rows ++ rest))
        end
    end;
    rewrite readAllReplies_answer by exact Hok; reflexivity.
Qed.

Lemma Run_answer (c : Client) (cn : Conn) (command : string)
    (args : list (string * string)) (rows : list (list (string * string)))
    (rest : list byte) :
  connected c = true -> conn c = Some cn ->
  hd None (writeErrs cn) = None -> hd None (deadlineErrs cn) = None ->
  incoming cn = (answer rows ++ rest)%list ->
  Forall (Forall attributeOk) rows ->
  exists cn1,
    Run c command args = (map attrs rows, None, withIncoming c cn1 rest) /\
    written cn1 = (written cn ++ [EncodeSentence (runSentence command args)])%list.
Proof.
  intros Hconn Hc Hw Hd Hin Hok.
  destruct (Execute_answer c cn (runSentence command args) rows rest
              Hconn Hc Hw Hd Hin Hok) as (cn1 & Hex & Hwr).
  exists cn1. unfold Run. rewrite Hex, runLoop_rows. auto.
Qed.

End RunOnTheWire.

(** X9: [Run] hands back what the device sent.  On a connected client
    whose next deadline and write succeed, when the device answers with a
    [!re] sentence for each row of [rows] and then [!done], [Run] returns no
    error and exactly one attribute map per row, in the order sent (within a
    row, a later pair overriding an earlier one with the same key); it has
    written the one sentence of the command, stays connected, and leaves the
    bytes that follow the answer unread for the next command. *)
Theorem X9_Run_returns_device_rows (c : Client) (cn : Conn) (command : string)
    (args : list (string * string)) (rows : list (list (string * string)))
    (rest : list byte) :
  connected c = true -> conn c = Some cn ->
  hd None (writeErrs cn) = None -> hd None (deadlineErrs cn) = None ->
  incoming cn = (answer rows ++ rest)%list ->
  Forall (Forall attributeOk) rows ->
  exists c1 cn1,
    Run c command args = (map attrs rows, None, c1) /\
    connected c1 = true /\ conn c1 = Some cn1 /\
    incoming cn1 = rest /\
    written cn1 = (written cn ++ [EncodeSentence (runSentence command args)])%list.
Proof.
  intros Hconn Hc Hw Hd Hin Hok.
  destruct (Run_answer c cn command args rows rest Hconn Hc Hw Hd Hin Hok)
    as (cn1 & Hrun & Hwr).
  exists (withIncoming c cn1 rest),
         {| written := written cn1; writeErrs := writeErrs cn1;
            deadlineErrs := deadlineErrs cn1; incoming := rest |}.
  rewrite Hrun. repeat split; [exact Hconn | exact Hwr].
Qed.

Lemma X9_Run_returns_device_rows_witness :
  exists c1 cn1,
    Run (connectedTo [answer [[("name", "ether1")]; [("name", "ether2")]];
                      wire "!done" []])
        "/interface/print" []
    = (map attrs [[("name", "ether1")]; [("name", "ether2")]], None, c1) /\
    connected c1 = true /\ conn c1 = Some cn1 /\
    incoming cn1 = wire "!done" [] /\
    written cn1 = ([] ++ [EncodeSentence (runSentence "/interface/print" [])])%list.
Proof.
  apply (X9_Run_returns_device_rows
           (connectedTo [answer [[("name", "ether1")]; [("name", "ether2")]];
                         wire "!done" []])
           (scriptedConn [answer [[("name", "ether1")]; [("name", "ether2")]];
                          wire "!done" []])
           "/interface/print" []
           [[("name", "ether1")]; [("name", "ether2")]] (wire "!done" [])).
  - reflexivity.
  - reflexivity.
  - reflexivity.
  - reflexivity.
  - unfold scriptedConn. cbn [incoming concat]. now rewrite app_nil_r.
  - repeat constructor; unfold encodable; cbn; lia.
Defined.

Section AfterFatal.

Lemma readReply_notFatal (c c1 : Client) (err : error) :
  readReply c = (inr err, c1) -> notFatal err.
Proof.
  unfold readReply. destruct (conn c) as [cn|].
  - destruct (DecodeSentence (incoming cn)) as [[r|e0] rest]; [discriminate|].
    destruct (is_io_EOF e0); intros H; injection H as <- _;
      intros e He; injection He as <-; discriminate.
  - intros H. injection H as <- _. intros e He. discriminate He.
Qed.

Lemma readAllRepliesLoop_notFatal (fuel : nat) (c c1 : Client)
    (acc replies : list Reply.t) (err : error) :
  readAllRepliesLoop fuel c acc = Some (replies, Some err, c1) -> notFatal err.
Proof.
  revert c acc. induction fuel as [|fuel IH]; intros c acc H; [discriminate|].
  cbn [readAllRepliesLoop] in H.
  destruct (readReply c) as [[reply|e0] c2] eqn:Er.
  - destruct (IsDone reply || IsFatal reply); [discriminate | eauto].
  - injection H as _ <- _. eapply readReply_notFatal. exact Er.
Qed.

Lemma writeSentence_notFatal (c c1 : Client) (s : Sentence) (err : error) :
  writeSentence c s = (Some err, c1) -> notFatal err.
Proof.
  unfold writeSentence. destruct (conn c) as [cn|].
  - destruct (writeErrs cn) as [|[e0|] l]; try discriminate.
    intros H. injection H as <- _. intros e He. injection He as <-. discriminate.
  - intros H. injection H as <- _. intros e He. discriminate He.
Qed.

Lemma Execute_notFatal (c c1 : Client) (s : Sentence) (replies : list Reply.t)
    (err : error) :
  Execute c s = (replies, Some err, c1) -> notFatal err.
Proof.
  unfold Execute. destruct (negb (connected c)).
  { intros H. injection H as _ <- _. intros e He. injection He as <-. discriminate. }
  destruct (if 0 <? Timeout (config c) then setDeadline c else (None, c))
    as [[derr|] c2].
  - destruct derr; intros H; injection H as _ <- _; intros e' He;
      try discriminate He; injection He as <-; discriminate.
  - destruct (writeSentence c2 s) as [[e0|] c3] eqn:Ew.
    + intros H. injection H as _ <- _. eapply writeSentence_notFatal. exact Ew.
    + intros H. pose proof (readAllReplies_loop c3) as Hl. rewrite H in Hl.
      eapply readAllRepliesLoop_notFatal. exact Hl.
Qed.

Lemma Run_fatal_disconnects (c c1 : Client) (command : string)
    (args : list (string * string)) (rows : list (gmap string string))
    (err : error) (e : APIError.t error) :
  Run c command args = (rows, Some err, c1) ->
  asAPIError err = Some e -> APIError.Type_ e = ErrTypeFatal ->
  connected c1 = false /\ conn c1 = None.
Proof.
  unfold Run. destruct (Execute c (runSentence command args)) as [[replies [e0|]] c2] eqn:Ex.
  - intros H He Ht. injection H as _ <- _.
    exfalso. exact (Execute_notFatal _ _ _ _ _ Ex e He Ht).
  - rewrite runLoop_first_stop. destruct (List.find stops replies) as [r|]; [|discriminate].
    destruct (IsTrap r).
    + intros H He Ht. injection H as _ <- _. injection He as <-. discriminate Ht.
    + intros H _ _. injection H as _ _ <-. split; reflexivity.
Qed.

End AfterFatal.

(** X10: a fatal reply ends the session for good.  When [Run] fails with a
    [FatalError], the client is left unconnected with no connection, and
    every later [Run] on it writes nothing, fails with [ErrNotConnected] and
    leaves the client as it is, until [Connect] is called again. *)
Theorem X10_Run_after_fatal (c c1 : Client) (command : string)
    (args : list (string * string)) (rows : list (gmap string string))
    (err : error) (e : APIError.t error) :
  Run c command args = (rows, Some err, c1) ->
  asAPIError err = Some e -> APIError.Type_ e = ErrTypeFatal ->
  connected c1 = false /\ conn c1 = None /\
  forall (command' : string) (args' : list (string * string)),
    Run c1 command' args' = ([], Some (ErrAPI ErrNotConnected), c1).
Proof.
  intros H He Ht. destruct (Run_fatal_disconnects c c1 command args rows err e H He Ht)
    as [Hconn Hnil].
  split; [exact Hconn | split; [exact Hnil|]].
  intros command' args'. unfold Run, Execute. rewrite Hconn. reflexivity.
Qed.

Lemma X10_Run_after_fatal_witness :
  let c := connectedTo [wire "!re" [("name", "ether1")];
                        wire "!fatal" [("message", "session terminated")]] in
  let c1 := snd (Run c "/interface/print" []) in
  connected c1 = false /\ conn c1 = None /\
  forall (command' : string) (args' : list (string * string)),
    Run c1 command' args' = ([], Some (ErrAPI ErrNotConnected), c1).
Proof.
  intros c c1.
  apply (X10_Run_after_fatal c c1 "/interface/print" [] []
           (ErrAPI (NewFatalError (mkReply "!fatal" [("message", "session terminated")])))
           (NewFatalError (mkReply "!fatal" [("message", "session terminated")]))).
  - vm_compute. reflexivity.
  - reflexivity.
  - reflexivity.
Defined.

(** X21: [GetRouterIdentity] returns the [name] attribute of the first row
    of the answer to [/system/identity/print].  On a connected client whose
    next deadline and write succeed, when the device answers with the rows
    [rows] and [!done], the call returns no error and the [name] of the
    first row; it returns the empty string, still without an error, when
    there is no row or the first row has no [name]. *)
Theorem X21_GetRouterIdentity_first_row (c : Client) (cn : Conn)
    (rows : list (list (string * string))) (rest : list byte) :
  connected c = true -> conn c = Some cn ->
  hd None (writeErrs cn) = None -> hd None (deadlineErrs cn) = None ->
  incoming cn = (answer rows ++ rest)%list ->
  Forall (Forall attributeOk) rows ->
  exists c1,
    GetRouterIdentity c
    = (match rows with
       | [] => EmptyString
       | row :: _ => default EmptyString (attrs row !! "name")
       end, None, c1) /\
    connected c1 = true.
Proof.
  intros Hconn Hc Hw Hd Hin Hok.
  destruct (Run_answer c cn "/system/identity/print" [] rows rest Hconn Hc Hw Hd Hin Hok)
    as (cn1 & Hrun & _).
  exists (withIncoming c cn1 rest). unfold GetRouterIdentity, RunOne. rewrite Hrun.
  destruct rows as [|row rows]; cbn [map head]; split; try reflexivity; exact Hconn.
Qed.

Lemma X21_GetRouterIdentity_first_row_witness :
  exists c1,
    GetRouterIdentity (connectedTo [answer [[("name", "core-router")]]])
    = (default EmptyString (attrs [("name", "core-router")] !! "name"), None, c1) /\
    connected c1 = true.
Proof.
  apply (X21_GetRouterIdentity_first_row
           (connectedTo [answer [[("name", "core-router")]]])
           (scriptedConn [answer [[("name", "core-router")]]])
           [[("name", "core-router")]] []).
  - reflexivity.
  - reflexivity.
  - reflexivity.
  - reflexivity.
  - unfold scriptedConn. cbn [incoming concat]. reflexivity.
  - repeat constructor; unfold encodable; cbn; lia.
Defined.

Section WhatIsSent.

Variable md5_Sum : list byte -> list byte.

Lemma writeSentence_sent (c c1 : Client) (s : Sentence) (res : option error)
    (pre : list (list byte)) :
  writeSentence c s = (res, c1) -> sent c pre -> sent c1 pre.
Proof.
  unfold writeSentence. intros H (cn & more & Hc & Hw). rewrite Hc in H.
  destruct (writeErrs cn) as [|[e|] l]; injection H as _ <-.
  - exists {| written := (written cn ++ [EncodeSentence s])%list; writeErrs := tl [];
              deadlineErrs := deadlineErrs cn; incoming := incoming cn |},
           (more ++ [EncodeSentence s])%list.
    cbn [conn setConn written]. rewrite Hw, app_assoc. auto.
  - exists {| written := written cn; writeErrs := l;
              deadlineErrs := deadlineErrs cn; incoming := incoming cn |}, more.
    cbn [conn setConn written]. auto.
  - exists {| written := (written cn ++ [EncodeSentence s])%list; writeErrs := tl (None :: l);
              deadlineErrs := deadlineErrs cn; incoming := incoming cn |},
           (more ++ [EncodeSentence s])%list.
    cbn [conn setConn written]. rewrite Hw, app_assoc. auto.
Qed.

Lemma readReply_sent (c c1 : Client) (res : Reply.t + error) (pre : list (list byte)) :
  readReply c = (res, c1) -> sent c pre -> sent c1 pre.
Proof.
  unfold readReply. intros H (cn & more & Hc & Hw). rewrite Hc in H.
  destruct (DecodeSentence (incoming cn)) as [[r|e] rest] eqn:E.
  - injection H as _ <-. eexists _, more. cbn [conn setConn]. split; [reflexivity|exact Hw].
  - rewrite (DecodeSentence_error_wrapped _ _ _ E) in H. injection H as _ <-.
    eexists _, more. cbn [conn setConn]. split; [reflexivity|exact Hw].
Qed.

Lemma handleLegacyChallenge_sent (c : Client) (challenge : string)
    (pre : list (list byte)) :
  sent c pre -> sent (snd (handleLegacyChallenge md5_Sum c challenge)) pre.
Proof.
  intros Hs. unfold handleLegacyChallenge.
  destruct (hex_DecodeString challenge) as [bytes|]; [|exact Hs].
  destruct (writeSentence c _) as [[err|] c1] eqn:Ew;
    pose proof (writeSentence_sent _ _ _ _ pre Ew Hs) as Hs1; [exact Hs1|].
  destruct (readReply c1) as [[reply|err] c2] eqn:Er;
    pose proof (readReply_sent _ _ _ pre Er Hs1) as Hs2; [|exact Hs2].
  destruct (IsTrap reply); [exact Hs2|]. destruct (negb (IsDone reply)); exact Hs2.
Qed.

Lemma tryLegacyLogin_sent (c : Client) (pre : list (list byte)) :
  sent c pre -> sent (snd (tryLegacyLogin md5_Sum c)) pre.
Proof.
  intros Hs. unfold tryLegacyLogin.
  destruct (writeSentence c _) as [[err|] c1] eqn:Ew;
    pose proof (writeSentence_sent _ _ _ _ pre Ew Hs) as Hs1; [exact Hs1|].
  destruct (readReply c1) as [[reply|err] c2] eqn:Er;
    pose proof (readReply_sent _ _ _ pre Er Hs1) as Hs2; [|exact Hs2].
  destruct (IsTrap reply); [exact Hs2|]. destruct (negb (IsDone reply)); [exact Hs2|].
  destruct (Reply.Data reply !! "ret"); [|exact Hs2].
  now apply handleLegacyChallenge_sent.
Qed.

End WhatIsSent.

(** X27: the password goes out in clear text first.  On a connection whose
    next write succeeds, the first sentence that [authenticate] writes is
    [/login] with the attributes [name] and [password] of the
    configuration, as they are, whatever the device then answers; the
    challenge-response login, which sends a digest in place of the password,
    only ever comes after it on the same connection. *)
Theorem X27_authenticate_sends_password_first (md5_Sum : list byte -> list byte)
    (c : Client) (cn : Conn) :
  conn c = Some cn -> hd None (writeErrs cn) = None ->
  Words (newLoginSentence (config c))
  = ["=name=" +:+ Username (config c); "=password=" +:+ Password (config c)] /\
  sent (snd (authenticate md5_Sum c))
       (written cn ++ [EncodeSentence (newLoginSentence (config c))]).
Proof.
  intros Hc Hw. split; [reflexivity|].
  assert (Hfirst : exists c1,
             writeSentence c (newLoginSentence (config c)) = (None, c1) /\
             config c1 = config c /\
             sent c1 (written cn ++ [EncodeSentence (newLoginSentence (config c))])).
  { unfold writeSentence. rewrite Hc.
    destruct (writeErrs cn) as [|[e|] l]; [|discriminate Hw|];
      eexists; (split; [reflexivity|]); (split; [reflexivity|]);
      eexists _, []; cbn [conn setConn written]; now rewrite app_nil_r. }
  destruct Hfirst as (c1 & Ew & Hcfg & Hs1).
  unfold authenticate.
  assert (Hnew : sent (snd (tryNewLogin md5_Sum c))
                   (written cn ++ [EncodeSentence (newLoginSentence (config c))])).
  { unfold tryNewLogin. rewrite Ew.
    destruct (readReply c1) as [[reply|err] c2] eqn:Er;
      pose proof (readReply_sent _ _ _ _ Er Hs1) as Hs2; [|exact Hs2].
    destruct (IsTrap reply); [exact Hs2|]. destruct (negb (IsDone reply)); [|exact Hs2].
    destruct (Reply.Data reply !! "ret"); [|exact Hs2].
    now apply handleLegacyChallenge_sent. }
  destruct (tryNewLogin md5_Sum c) as [[err|] c2]; cbn [snd] in *.
  - now apply tryLegacyLogin_sent.
  - exact Hnew.
Qed.

Lemma X27_authenticate_sends_password_first_witness :
  sent (snd (authenticate noDigest
               (setConn (NewClient (adminConfig 3)) (Some trapThenLegacy))))
       ([] ++ [EncodeSentence (newLoginSentence (adminConfig 3))]).
Proof.
  apply (X27_authenticate_sends_password_first noDigest
           (setConn (NewClient (adminConfig 3)) (Some trapThenLegacy)) trapThenLegacy);
    reflexivity.
Defined.

(** X30: any [!done] answer to the first [/login] logs the client in.  On a
    connection whose next write succeeds, when the reply to the single-round
    login is [!done], whatever attributes it carries, [authenticate] returns
    no error after that one sentence; and [Connect] then marks the client
    connected and closes the breaker.  In particular a device that answers
    with a challenge (a [ret] attribute in a [!done] reply) is taken as
    logged in with the challenge left unanswered: the challenge is only
    looked for in a reply that is not [!done]. *)
Theorem X30_done_reply_logs_in (md5_Sum : list byte -> list byte)
    (tAttempt tRecord : Time) (ctx : nat -> option error)
    (c : Client) (cn : Conn) (more : list (Conn + error))
    (reply : Reply.t) (rest : list byte) :
  hd None (writeErrs cn) = None ->
  DecodeSentence (incoming cn) = (inl reply, rest) -> IsDone reply = true ->
  authenticate md5_Sum (setConn c (Some cn))
  = (None, afterNewLogin (setConn c (Some cn)) cn rest) /\
  (connected c = false -> fst (canAttempt tAttempt (breaker c)) = true ->
   0 <= RetryAttempts (config c) ->
   exists c1,
     Connect md5_Sum tAttempt tRecord ctx (inl cn :: more) c = (None, c1, more) /\
     connected c1 = true /\ state (breaker c1) = circuitClosed /\
     option_map written (conn c1)
     = Some (written cn ++ [EncodeSentence (newLoginSentence (config c))])%list).
Proof.
  intros Hw Hi Hd.
  assert (Hnot : IsTrap reply = false).
  { unfold IsDone, IsTrap in *. apply String.eqb_eq in Hd. now rewrite Hd. }
  assert (Hauth : forall c0, authenticate md5_Sum (setConn c0 (Some cn))
                             = (None, afterNewLogin (setConn c0 (Some cn)) cn rest)).
  { intros c0. unfold authenticate, tryNewLogin, writeSentence, afterNewLogin.
    cbn [conn setConn config].
    destruct (writeErrs cn) as [|[e|] l]; [|discriminate Hw|];
      unfold readReply; cbn [conn setConn incoming]; rewrite Hi, Hnot, Hd; reflexivity. }
  split; [apply Hauth|].
  intros Hconn Hcb Hretry.
  rewrite (Connect_first_attempt md5_Sum tAttempt tRecord ctx c cn more Hconn Hcb Hretry).
  rewrite Hauth. eexists. split; [reflexivity|].
  cbn. auto.
Qed.

Lemma X30_done_reply_logs_in_witness :
  authenticate noDigest
    (setConn (NewClient (adminConfig 3))
       (Some (scriptedConn [wire "!done" [("ret", "00a1b2c3")]])))
  = (None,
     afterNewLogin
       (setConn (NewClient (adminConfig 3))
          (Some (scriptedConn [wire "!done" [("ret", "00a1b2c3")]])))
       (scriptedConn [wire "!done" [("ret", "00a1b2c3")]]) []).
Proof.
  apply (X30_done_reply_logs_in noDigest 0 1 (fun _ => None)
           (NewClient (adminConfig 3))
           (scriptedConn [wire "!done" [("ret", "00a1b2c3")]]) []
           (mkReply "!done" [("ret", "00a1b2c3")]) []).
  - reflexivity.
  - vm_compute. reflexivity.
  - reflexivity.
Defined.

(** ** The circuit breaker: when it trips *)

Section BreakerTrip.

Lemma countFailures_bounds (ops : list breakerOp) :
  0 <= countFailures ops <= Z.of_nat (List.length ops).
Proof.
  induction ops as [|op ops IH]; [cbn; lia|].
  cbn [countFailures List.length]. destruct op; lia.
Qed.

(** The failure counter counts, and the breaker is closed exactly while
    the count is zero or below the threshold. *)
Lemma runOps_counts (ops : list breakerOp) (cb : circuitBreaker) (n : Z) :
  forallb keepsCount ops = true ->
  0 <= n -> n + countFailures ops <= I64.max ->
  failures cb = n ->
  (state cb = circuitClosed <-> n = 0 \/ n < maxFailures cb) ->
  let cb' := runOps cb ops in
  maxFailures cb' = maxFailures cb /\
  failures cb' = n + countFailures ops /\
  (state cb' = circuitClosed <->
   n + countFailures ops = 0 \/ n + countFailures ops < maxFailures cb).
Proof.
  revert cb n. induction ops as [|op ops IH]; intros cb n Hops Hn Hmax Hf Hst.
  - cbn. rewrite Z.add_0_r. auto.
  - cbn [forallb] in Hops. apply andb_true_iff in Hops as [Hop Hops].
    pose proof (countFailures_bounds ops) as Hb.
    unfold runOps. cbn [fold_left]. fold (runOps (applyOp cb op) ops).
    destruct op as [now| |now|]; try discriminate Hop; cbn [countFailures applyOp] in *.
    + assert (Hca : maxFailures (snd (canAttempt now cb)) = maxFailures cb /\
                    failures (snd (canAttempt now cb)) = failures cb /\
                    (state (snd (canAttempt now cb)) = circuitClosed
                     <-> state cb = circuitClosed)).
      { unfold canAttempt. destruct (state cb) eqn:Es; cbn [snd]; rewrite ?Es; auto.
        destruct (resetTimeout cb <? Since now (lastFailure cb)); cbn [snd state];
          rewrite ?Es; repeat split; auto; discriminate. }
      destruct Hca as (Hm1 & Hf1 & Hs1).
      destruct (IH (snd (canAttempt now cb)) n Hops Hn Hmax) as (Hm2 & Hf2 & Hs2).
      * congruence.
      * rewrite Hs1, Hm1. exact Hst.
      * rewrite Hm1 in *. auto.
    + assert (Hrf : maxFailures (recordFailure now cb) = maxFailures cb /\
                    failures (recordFailure now cb) = n + 1 /\
                    (state (recordFailure now cb) = circuitClosed
                     <-> n + 1 < maxFailures cb)).
      { unfold recordFailure, I64.add. rewrite Hf.
        rewrite I64_wrap_small by (unfold I64.min, I64.max in *; lia).
        destruct (state cb) eqn:Es; cbn [maxFailures failures state].
        - destruct (Z.leb_spec (maxFailures cb) (n + 1)); repeat split; auto;
            try discriminate; lia.
        - assert (~ (n = 0 \/ n < maxFailures cb))
            by (intros H; apply Hst in H; discriminate).
          destruct (Z.leb_spec (maxFailures cb) (n + 1)); repeat split; auto;
            try discriminate; lia.
        - assert (~ (n = 0 \/ n < maxFailures cb))
            by (intros H; apply Hst in H; discriminate).
          repeat split; auto; try discriminate; lia. }
      destruct Hrf as (Hm1 & Hf1 & Hs1).
      destruct (IH (recordFailure now cb) (n + 1) Hops) as (Hm2 & Hf2 & Hs2);
        [lia | lia | exact Hf1 | rewrite Hs1, Hm1; lia |].
      rewrite Hm1 in *.
      replace (n + (1 + countFailures ops)) with (n + 1 + countFailures ops) by lia.
      auto.
Qed.

End BreakerTrip.

(** X11: when the breaker trips.  Take a new breaker and any history of
    [canAttempt] and [recordFailure] calls, at any clock readings, with no
    [recordSuccess] or [reset] among them.  The failure counter holds the
    number of [recordFailure] calls, and the breaker is still closed exactly
    when that number is zero or below [maxFailures]: it leaves the closed
    state at the failure that reaches the threshold (at the first failure
    when the threshold is one or less), and no [canAttempt] and no further
    failure closes it again. *)
Theorem X11_breaker_trips_at_threshold (maxFailures_ : Z) (resetTimeout_ : Duration)
    (ops : list breakerOp) :
  forallb keepsCount ops = true ->
  Z.of_nat (List.length ops) <= I64.max ->
  let cb := runOps (newCircuitBreaker maxFailures_ resetTimeout_) ops in
  failures cb = countFailures ops /\
  (state cb = circuitClosed <->
   countFailures ops = 0 \/ countFailures ops < maxFailures_).
Proof.
  intros Hops Hlen cb. pose proof (countFailures_bounds ops) as Hb.
  destruct (runOps_counts ops (newCircuitBreaker maxFailures_ resetTimeout_) 0 Hops)
    as (_ & Hf & Hs); [lia | lia | reflexivity | cbn; intuition |].
  cbn [maxFailures newCircuitBreaker] in Hs. rewrite Z.add_0_l in *. auto.
Qed.

Lemma X11_breaker_trips_at_threshold_witness :
  let cb := runOps (newCircuitBreaker 2 100)
              [OpRecordFailure 1; OpCanAttempt 2; OpRecordFailure 3; OpCanAttempt 200;
               OpRecordFailure 201] in
  failures cb = 3 /\ (state cb = circuitClosed <-> 3 = 0 \/ 3 < 2).
Proof.
  apply (X11_breaker_trips_at_threshold 2 100
           [OpRecordFailure 1; OpCanAttempt 2; OpRecordFailure 3; OpCanAttempt 200;
            OpRecordFailure 201]).
  - reflexivity.
  - vm_compute. discriminate.
Defined.

(** ** The remaining parsers *)

Section Cuts.

Variable sep : ascii.

Lemma cutFirst_pair (a b : string) :
  Contains a (String sep EmptyString) = false ->
  cutFirst sep (a +:+ String sep b) = Some (a, b).
Proof.
  induction a as [|c a IH]; intros H.
  - rewrite append_nil_l. cbn [cutFirst]. now rewrite Ascii.eqb_refl.
  - apply Contains_char_cons in H as [Hc Ha].
    rewrite append_cons. cbn [cutFirst]. rewrite Hc, (IH Ha). reflexivity.
Qed.

Lemma cutFirst_none (s : string) :
  Contains s (String sep EmptyString) = false -> cutFirst sep s = None.
Proof.
  induction s as [|c s IH]; intros H; [reflexivity|].
  apply Contains_char_cons in H as [Hc Hs].
  cbn [cutFirst]. rewrite Hc, (IH Hs). reflexivity.
Qed.

Lemma cutLast_none (s : string) :
  Contains s (String sep EmptyString) = false -> cutLast sep s = None.
Proof.
  induction s as [|c s IH]; intros H; [reflexivity|].
  apply Contains_char_cons in H as [Hc Hs].
  cbn [cutLast]. rewrite (IH Hs), Hc. reflexivity.
Qed.

Lemma cutLast_pair (a b : string) :
  Contains b (String sep EmptyString) = false ->
  cutLast sep (a +:+ String sep b) = Some (a, b).
Proof.
  intros Hb. induction a as [|c a IH].
  - rewrite append_nil_l. cbn [cutLast].
    now rewrite (cutLast_none b Hb), Ascii.eqb_refl.
  - rewrite append_cons. cbn [cutLast]. rewrite IH. reflexivity.
Qed.

End Cuts.

(** X12: [parseBytePair] splits at the first comma.  For a text [a,b]
    whose part [a] holds no comma it returns [ParseInt64 a] and
    [ParseInt64 b], whatever [b] holds; for a text without a comma it
    returns [ParseInt64] of the text twice. *)
Theorem X12_parseBytePair_first_comma (a b : string) :
  Contains a "," = false ->
  parseBytePair (a +:+ "," +:+ b) = (ParseInt64 a, ParseInt64 b) /\
  parseBytePair a = (ParseInt64 a, ParseInt64 a).
Proof.
  intros Ha. unfold parseBytePair.
  change (a +:+ "," +:+ b) with (a +:+ String "," b).
  now rewrite cutFirst_pair, cutFirst_none.
Qed.

Lemma X12_parseBytePair_first_comma_witness :
  parseBytePair ("1024" +:+ "," +:+ "2048") = (ParseInt64 "1024", ParseInt64 "2048") /\
  parseBytePair "1024" = (ParseInt64 "1024", ParseInt64 "1024").
Proof. apply (X12_parseBytePair_first_comma "1024" "2048"). reflexivity. Defined.

(** X13: how [ParseUint64] relates to [ParseInt64].  Its result is always
    in [0, 2^64); whenever it is positive and below [2^63], [ParseInt64]
    returns the same number for the same text; and a text that
    [ParseInt64] reads as a negative number is never read as a large
    unsigned one: [ParseUint64] returns 0 for it. *)
Theorem X13_ParseUint64_agrees_with_ParseInt64 (s : string) :
  0 <= ParseUint64 s < 2 ^ 64 /\
  (0 < ParseUint64 s < 2 ^ 63 -> ParseInt64 s = ParseUint64 s) /\
  (ParseInt64 s < 0 -> ParseUint64 s = 0).
Proof.
  unfold ParseUint64, ParseInt64, ParseUint.
  destruct (String.eqb (TrimSpace s) "") eqn:Ee; [lia|].
  cbn [orb]. destruct (allDigits (TrimSpace s)) eqn:Ed; cbn [negb].
  - pose proof (decimal_nonneg _ Ed) as H0.
    destruct (Z.ltb_spec (decimal (TrimSpace s)) (2 ^ 64)) as [Hlt|Hge].
    + split; [lia|]. split.
      * intros Hr. rewrite ParseInt_digits; [reflexivity | | exact Ed | lia].
        intros E. rewrite E in Ee. discriminate Ee.
      * destruct (Z.lt_ge_cases (decimal (TrimSpace s)) (2 ^ 63)) as [Hs|Hs].
        -- rewrite ParseInt_digits; [lia | | exact Ed | exact Hs].
           intros E. rewrite E in Ee. discriminate Ee.
        -- destruct (ParseInt (TrimSpace s)) as [v|] eqn:Ep; [|lia].
           intros Hv. exfalso. revert Ep.
           destruct (TrimSpace s) as [|c rest]; [discriminate|].
           cbn [allDigits] in Ed. apply andb_true_iff in Ed as [Hc Hrest].
           cbn [ParseInt]. destruct (digit_not_sign c Hc) as [-> ->].
           destruct (String.eqb (String c rest) "" || negb (allDigits (String c rest)));
             [discriminate|].
           destruct (decimal (String c rest) <? 2 ^ 63); [|discriminate].
           intros E. injection E as <-. lia.
    + split; [lia|]. split; [lia|]. reflexivity.
  - split; [lia|]. split; [lia|]. reflexivity.
Qed.

Lemma X13_ParseUint64_agrees_with_ParseInt64_witness :
  ParseInt64 " 4294967296 " = ParseUint64 " 4294967296 " /\
  ParseUint64 "-5" = 0.
Proof.
  split.
  - apply (X13_ParseUint64_agrees_with_ParseInt64 " 4294967296 "). vm_compute.
    split; reflexivity.
  - apply (X13_ParseUint64_agrees_with_ParseInt64 "-5"). vm_compute. reflexivity.
Defined.

(** X14: [ParseBool] ignores the ASCII white space around a text, and the
    case of the letters of an ASCII text: padding any text, ASCII or not,
    with ASCII white space on either side does not change the result, and
    neither does lower-casing a text of ASCII bytes.  This holds for every
    case table [lowerCase] of the runes above ASCII. *)
Theorem X14_ParseBool_ignores_space_and_case (lowerCase : Z -> Z) (l s r : string) :
  allSpace l = true -> allSpace r = true ->
  ParseBool lowerCase (l +:+ s +:+ r) = ParseBool lowerCase s /\
  (isASCII s = true ->
   ParseBool lowerCase (ToLower lowerCase s) = ParseBool lowerCase s).
Proof.
  intros Hl Hr. unfold ParseBool. split.
  - now rewrite ToLower_padded, TrimSpace_padded.
  - intros Ha. now rewrite ToLower_idem_ASCII.
Qed.

Lemma X14_ParseBool_ignores_space_and_case_witness :
  ParseBool (fun r => r) (" " +:+ "YES" +:+ "  ") = ParseBool (fun r => r) "YES" /\
  ParseBool (fun r => r) (ToLower (fun r => r) "YES") = ParseBool (fun r => r) "YES".
Proof.
  destruct (X14_ParseBool_ignores_space_and_case (fun r => r) " " "YES" "  "
              eq_refl eq_refl) as [H1 H2].
  split; [exact H1 | exact (H2 eq_refl)].
Defined.

(** Padding a text that is not ASCII: the no-break space U+00A0 before
    ["true"] is trimmed as well, and a byte that is no UTF-8 is not. *)
Example ParseBool_beyond_ASCII :
  ParseBool (fun r => r) (ofChars [toByte 0xC2; toByte 0xA0] +:+ "TRUE") = true /\
  ParseBool (fun r => r) (ofChars [toByte 0xA0] +:+ "true") = false.
Proof. vm_compute. split; reflexivity. Qed.

(** ** Connection tracking: addresses and counts *)

Section LastColon.

Lemma splitLastColon_none (s : string) :
  Contains s ":" = false -> splitLastColon s = None.
Proof.
  induction s as [|c s IH]; intros H; [reflexivity|].
  apply Contains_char_cons in H as [Hc Hs].
  cbn [splitLastColon]. rewrite (IH Hs), Hc. reflexivity.
Qed.

Lemma splitLastColon_pair (a p : string) :
  Contains p ":" = false -> splitLastColon (a +:+ ":" +:+ p) = Some (a, p).
Proof.
  intros Hp. induction a as [|c a IH].
  - change ("" +:+ ":" +:+ p) with (String ":" p). cbn [splitLastColon].
    rewrite (splitLastColon_none p Hp). reflexivity.
  - rewrite append_cons. cbn [splitLastColon]. rewrite IH. reflexivity.
Qed.

End LastColon.

(** X15: [parseAddressPort] splits at the last colon.  For a text [a:p]
    whose part [p] holds no colon it returns the address [a], colons
    included, and the port [ParseInt64 p]; a text without a colon is
    returned whole with port 0. *)
Theorem X15_parseAddressPort_last_colon (a p : string) :
  Contains p ":" = false ->
  parseAddressPort (a +:+ ":" +:+ p) = (a, ParseInt64 p) /\
  parseAddressPort p = (p, 0).
Proof.
  intros Hp. unfold parseAddressPort.
  now rewrite splitLastColon_pair, splitLastColon_none.
Qed.

Lemma X15_parseAddressPort_last_colon_witness :
  parseAddressPort ("2001:db8::1" +:+ ":" +:+ "443") = ("2001:db8::1", ParseInt64 "443") /\
  parseAddressPort "443" = ("443", 0).
Proof. apply (X15_parseAddressPort_last_colon "2001:db8::1" "443"). reflexivity. Defined.

Section NatCounts.

Lemma protocolCount_app (p : string) (l : list NATConnection) (n : NATConnection) :
  protocolCount p (l ++ [n])
  = protocolCount p l + (if String.eqb (Protocol n) p then 1 else 0).
Proof.
  unfold protocolCount. rewrite List.filter_app, length_app. cbn [List.filter].
  destruct (String.eqb (Protocol n) p); cbn [List.length]; lia.
Qed.

Lemma otherCount_app (l : list NATConnection) (n : NATConnection) :
  otherCount (l ++ [n])
  = otherCount l
    + (if String.eqb (Protocol n) "tcp" || String.eqb (Protocol n) "udp"
          || String.eqb (Protocol n) "icmp" then 0 else 1).
Proof.
  unfold otherCount. rewrite List.filter_app, length_app. cbn [List.filter].
  destruct (String.eqb (Protocol n) "tcp" || String.eqb (Protocol n) "udp"
            || String.eqb (Protocol n) "icmp"); cbn [negb List.length]; lia.
Qed.

Lemma protocolCount_le (p : string) (l : list NATConnection) :
  0 <= protocolCount p l <= Z.of_nat (List.length l).
Proof.
  unfold protocolCount. pose proof (List.filter_length_le
    (fun n => String.eqb (Protocol n) p) l). lia.
Qed.

Lemma otherCount_le (l : list NATConnection) :
  0 <= otherCount l <= Z.of_nat (List.length l).
Proof.
  unfold otherCount.
  pose proof (List.filter_length_le
    (fun n => negb (String.eqb (Protocol n) "tcp" || String.eqb (Protocol n) "udp"
                    || String.eqb (Protocol n) "icmp")) l). lia.
Qed.

(** Every kept row is counted once. *)
Lemma counts_partition (l : list NATConnection) :
  protocolCount "tcp" l + protocolCount "udp" l + protocolCount "icmp" l + otherCount l
  = Z.of_nat (List.length l).
Proof.
  induction l as [|n l IH] using rev_ind; [reflexivity|].
  rewrite !protocolCount_app, otherCount_app, length_app. cbn [List.length].
  destruct (String.eqb_spec (Protocol n) "tcp") as [Ht|Ht]; [rewrite Ht; cbn; lia|].
  destruct (String.eqb_spec (Protocol n) "udp") as [Hu|Hu]; [rewrite Hu; cbn; lia|].
  destruct (String.eqb_spec (Protocol n) "icmp") as [Hi|Hi]; cbn; lia.
Qed.

Lemma countProtocol_matches (stats : NATStats) (result : list NATConnection)
    (n : NATConnection) :
  countsMatch stats result -> Z.of_nat (List.length result) < I64.max ->
  countsMatch (countProtocol stats (Protocol n)) (result ++ [n]).
Proof.
  intros (Ht & Hu & Hi & Ho) Hlen. unfold countsMatch, countProtocol.
  cbn [TCPConnections UDPConnections ICMPConnections OtherConnections].
  rewrite !protocolCount_app, otherCount_app, Ht, Hu, Hi, Ho.
  pose proof (protocolCount_le "tcp" result). pose proof (protocolCount_le "udp" result).
  pose proof (protocolCount_le "icmp" result). pose proof (otherCount_le result).
  unfold I64.add.
  repeat split;
    repeat match goal with
           | |- context [if ?b then _ else _] => destruct b
           end;
    rewrite ?I64_wrap_small by (unfold I64.min, I64.max in *; lia); lia.
Qed.

Variable cfg : NATConfig.
Variable rand : nat -> F64.float64.
Variable maxConns : Z.

(** The loop keeps the counters in step with the rows it keeps, takes no
    more rows than the table holds, and leaves the other fields alone. *)
Lemma natLoop_counts (connections : list (gmap string string)) :
  maxConns <= I64.max ->
  forall (i : Z) (result : list NATConnection) (stats : NATStats) (drawn : nat),
    countsMatch stats result ->
    let out := natLoop cfg rand maxConns i connections result stats drawn in
    countsMatch (snd (fst out)) (fst (fst out)) /\
    TotalConnections (snd (fst out)) = TotalConnections stats /\
    (List.length (fst (fst out)) <= List.length result + List.length connections)%nat.
Proof.
  intros Hmax. induction connections as [|conn rest IH];
    intros i result stats drawn Hm; cbn [natLoop].
  - cbn [fst snd List.length]. repeat split; try apply Hm. lia.
  - destruct (samples cfg && F64.gtb (rand drawn) (SampleRate cfg)).
    + destruct (IH (i + 1) result stats (S drawn) Hm) as (H1 & H2 & H3).
      cbn [List.length]. repeat split; try apply H1; [exact H2 | lia].
    + destruct (Z.leb_spec maxConns (Z.of_nat (List.length result))) as [Hfull|Hroom].
      * cbn [fst snd List.length]. repeat split; try apply Hm. lia.
      * assert (Hm' : countsMatch (countProtocol stats (Protocol (parseNATConnection conn)))
                        (result ++ [parseNATConnection conn]))
          by (apply countProtocol_matches; [exact Hm | lia]).
        destruct (100000 <? i).
        -- cbn [fst snd]. rewrite length_app. cbn [List.length].
           repeat split; try apply Hm'. lia.
        -- destruct (IH (i + 1) (result ++ [parseNATConnection conn])%list
                       (countProtocol stats (Protocol (parseNATConnection conn)))
                       (if samples cfg then S drawn else drawn) Hm')
             as (H1 & H2 & H3).
           rewrite length_app in H3. cbn [List.length] in *.
           repeat split; try apply H1; [exact H2 | lia].
Qed.

End NatCounts.

(** X16: what the NAT statistics count.  When [collectNAT] returns without
    an error (the cap being an [int]), [SampledCount] is the number of
    connections returned, each of the four protocol counters is the number
    of returned connections of its kind ([tcp], [udp], [icmp], anything
    else), the four add up to [SampledCount], and [SampledCount] is at most
    [TotalConnections], the number of rows the router sent. *)
Theorem X16_collectNAT_counts (cfg : NATConfig) (rand : nat -> F64.float64)
    (client : Client) :
  MaxConnections cfg <= I64.max ->
  match collectNAT cfg rand client with
  | (result, stats, err, _) =>
      err = None ->
      SampledCount stats = Z.of_nat (List.length result) /\
      countsMatch stats result /\
      TCPConnections stats + UDPConnections stats + ICMPConnections stats
        + OtherConnections stats = SampledCount stats /\
      SampledCount stats <= TotalConnections stats
  end.
Proof.
  intros Hmax. unfold collectNAT.
  destruct (RunOne client "/ip/firewall/connection/tracking/print" [])
    as [[ctStats err1] client1].
  destruct (Run client1 "/ip/firewall/connection/print" [])
    as [[connections [err2|]] client2]; [discriminate|].
  match goal with
  | |- context [natLoop ?c ?r ?m ?i ?l ?res ?st ?d] =>
      pose proof (natLoop_counts c r m l) as Hl;
      specialize (Hl ltac:(unfold effectiveMaxConns, I64.max in *;
                           destruct (MaxConnections cfg <=? 0); lia) i res st d);
      destruct (natLoop c r m i l res st d) as [[result stats2] drawn]
  end.
  cbn [fst snd] in Hl. intros _.
  destruct Hl as (Hm & Ht & Hlen).
  - destruct err1 as [e|]; [|destruct ctStats]; repeat split.
  - cbn [SampledCount TCPConnections UDPConnections ICMPConnections OtherConnections
         TotalConnections].
    split; [reflexivity|]. split; [exact Hm|].
    destruct Hm as (H1 & H2 & H3 & H4). split.
    + rewrite H1, H2, H3, H4. apply counts_partition.
    + rewrite Ht. destruct err1 as [e|]; [|destruct ctStats];
        cbn [TotalConnections]; cbn [List.length] in Hlen; lia.
Qed.

Lemma X16_collectNAT_counts_witness :
  match collectNAT (noSampling 2) (fun _ => F64.zero)
          (connectedTo [answer []; answer [[("protocol", "tcp")]; [("protocol", "gre")];
                                           [("protocol", "udp")]]]) with
  | (result, stats, err, _) =>
      err = None ->
      SampledCount stats = Z.of_nat (List.length result) /\
      countsMatch stats result /\
      TCPConnections stats + UDPConnections stats + ICMPConnections stats
        + OtherConnections stats = SampledCount stats /\
      SampledCount stats <= TotalConnections stats
  end.
Proof.
  apply (X16_collectNAT_counts (noSampling 2) (fun _ => F64.zero)
           (connectedTo [answer []; answer [[("protocol", "tcp")]; [("protocol", "gre")];
                                            [("protocol", "udp")]]])).
  vm_compute. discriminate.
Defined.
(** ** DHCP pools *)

Section Reencoding.

Local Open Scope list_scope.

(** [string(c)] for the rune [c] of a stretch of text that [range] yields. *)
Lemma Chunk_EncodeRune (ch : Z * list ascii) :
  Chunk ch ->
  Encoding (utf8.EncodeRune (fst ch)) (fst ch)
  /\ (utf8.EncodeRune (fst ch) = snd ch
      \/ (utf8.EncodeRune (fst ch) = [toByte 0xEF; toByte 0xBF; toByte 0xBD]
          /\ exists c, snd ch = [c] /\ 128 <= byteZ c)).
Proof.
  intros [He|(c & Hc & Hr & Hb)].
  - rewrite (EncodeRune_Encoding _ _ He). auto.
  - rewrite Hr. split; [exact Encoding_RuneError|]. right. split; [reflexivity|].
    exists c. auto.
Qed.

Lemma rangeString_reencoded (cs : list (Z * list ascii)) :
  Forall Chunk cs ->
  rangeString (concat (map (fun ch => utf8.EncodeRune (fst ch)) cs))
  = map (fun ch => (fst ch, utf8.EncodeRune (fst ch))) cs.
Proof.
  induction 1 as [|ch cs Hc _ IH]; [reflexivity|].
  cbn [map concat]. destruct (Chunk_EncodeRune ch Hc) as [He _].
  now rewrite (rangeString_Encoding _ _ _ He), IH.
Qed.

Lemma dropLeading_map (f : Z -> bool) (g : Z * list ascii -> Z * list ascii)
    (cs : list (Z * list ascii)) :
  (forall ch, fst (g ch) = fst ch) ->
  dropLeading f (map g cs) = map g (dropLeading f cs).
Proof.
  intros Hg. induction cs as [|ch cs IH]; [reflexivity|].
  cbn [map dropLeading]. rewrite Hg. now destruct (f (fst ch)).
Qed.

Lemma trimChunks_map (g : Z * list ascii -> Z * list ascii)
    (cs : list (Z * list ascii)) :
  (forall ch, fst (g ch) = fst ch) ->
  trimChunks (map g cs) = map g (trimChunks cs).
Proof.
  intros Hg. unfold trimChunks, dropTrailing.
  rewrite (dropLeading_map _ g cs Hg), <- map_rev, (dropLeading_map _ g _ Hg).
  now rewrite map_rev.
Qed.

Lemma trimChunks_Chunk (cs : list (Z * list ascii)) :
  Forall Chunk cs -> Forall Chunk (trimChunks cs).
Proof.
  intros H. unfold trimChunks.
  destruct (dropLeading_split unicode.IsSpace cs) as (sp & Hs & _).
  destruct (dropTrailing_split unicode.IsSpace (dropLeading unicode.IsSpace cs))
    as (tr & Ht & _).
  rewrite Hs, Ht in H. apply Forall_app in H as [_ H]. now apply Forall_app in H as [H _].
Qed.

(** Writing a text out again leaves it as it is, or leaves a byte that is
    not ASCII where there was one. *)
Lemma reencoded_same_or_not_ASCII (cs : list (Z * list ascii)) :
  Forall Chunk cs ->
  concat (map (fun ch => utf8.EncodeRune (fst ch)) cs) = joinChunks cs
  \/ (Exists (fun c => 128 <= byteZ c)
             (concat (map (fun ch => utf8.EncodeRune (fst ch)) cs))
      /\ Exists (fun c => 128 <= byteZ c) (joinChunks cs)).
Proof.
  induction 1 as [|ch cs Hc _ IH]; [now left|].
  cbn [map concat]. rewrite joinChunks_cons.
  destruct (Chunk_EncodeRune ch Hc) as [_ [E|(E & c & Hs & Hb)]].
  - rewrite E. destruct IH as [->|[H1 H2]]; [now left|].
    right. split; apply Exists_app; now right.
  - right. rewrite E, Hs. split.
    + left. rewrite byteZ_toByte. vm_compute. discriminate.
    + left. exact Hb.
Qed.

End Reencoding.

Section IntegersOfText.

Local Open Scope list_scope.

Lemma allDigits_ASCII (d : string) :
  allDigits d = true -> Forall (fun c => byteZ c < 128) (charsOf d).
Proof.
  induction d as [|c d IH]; [constructor|]. cbn [allDigits]. intros H.
  apply andb_true_iff in H as [Hc Hd].
  change (charsOf (String c d)) with (c :: charsOf d).
  constructor; [|exact (IH Hd)].
  apply digit_range in Hc. unfold byteZ. lia.
Qed.

(** A text with a byte that is not ASCII is no integer. *)
Lemma ParseInt_not_ASCII (t : string) :
  Exists (fun c => 128 <= byteZ c) (charsOf t) -> ParseInt t = None.
Proof.
  intros H. destruct (ParseInt t) as [v|] eqn:E; [|reflexivity]. exfalso.
  apply ParseInt_sound in E as (sign & digits & -> & Hsign & _ & Hd).
  rewrite charsOf_append in H. apply Exists_app in H as [H|H].
  - destruct Hsign as [->|[->| ->]]; cbn in H; inversion H as [? ? Hb|? ? Hb];
      subst; try (vm_compute in Hb; now apply Hb); inversion Hb.
  - apply allDigits_ASCII in Hd. rewrite List.Exists_exists in H.
    destruct H as (c & Hin & Hc). rewrite List.Forall_forall in Hd.
    specialize (Hd c Hin). lia.
Qed.

Lemma charsOf_reencode (s : string) :
  charsOf (reencode s)
  = concat (map (fun ch => utf8.EncodeRune (fst ch)) (rangeString (charsOf s))).
Proof. unfold reencode. apply charsOf_ofChars. Qed.

Lemma TrimSpace_reencode (s : string) :
  charsOf (TrimSpace (reencode s))
  = concat (map (fun ch => utf8.EncodeRune (fst ch)) (trimChunks (rangeString (charsOf s)))).
Proof.
  rewrite charsOf_TrimSpace, TrimSpace_chunks, charsOf_reencode.
  fold (trimChunks (rangeString
          (concat (map (fun ch => utf8.EncodeRune (fst ch)) (rangeString (charsOf s)))))).
  rewrite rangeString_reencoded by apply rangeString_Chunk.
  rewrite trimChunks_map by reflexivity.
  unfold joinChunks. rewrite map_map. reflexivity.
Qed.

(** [ParseInt64] reads the same number from a text and from the text
    written out again. *)
Lemma ParseInt64_reencode (s : string) : ParseInt64 (reencode s) = ParseInt64 s.
Proof.
  unfold ParseInt64.
  pose proof (TrimSpace_reencode s) as Hr.
  pose proof (charsOf_TrimSpace s) as Ht. rewrite TrimSpace_chunks in Ht.
  fold (trimChunks (rangeString (charsOf s))) in Ht.
  destruct (reencoded_same_or_not_ASCII (trimChunks (rangeString (charsOf s)))
              (trimChunks_Chunk _ (rangeString_Chunk _))) as [E|[H1 H2]].
  - rewrite E, <- Ht in Hr. apply charsOf_inj in Hr. now rewrite Hr.
  - rewrite <- Hr in H1. rewrite <- Ht in H2.
    rewrite (ParseInt_not_ASCII _ H1), (ParseInt_not_ASCII _ H2).
    now destruct (String.eqb _ ""), (String.eqb _ "").
Qed.

End IntegersOfText.

Section TextWrittenAgain.

Local Open Scope list_scope.

Lemma Contains_char_In (s : string) (c : ascii) :
  Contains s (String c EmptyString) = false <-> ~ In c (charsOf s).
Proof.
  induction s as [|x s IH].
  - split; [intros _ [] | reflexivity].
  - change (charsOf (String x s)) with (x :: charsOf s).
    cbn [Contains]. rewrite prefix_char.
    destruct (ascii_dec c x) as [->|Hne]; cbn [orb].
    + split; [discriminate|]. intros H. exfalso. apply H. now left.
    + rewrite IH. split.
      * intros H [E|Hin]; [congruence | contradiction].
      * intros H Hin. apply H. now right.
Qed.

Lemma reencode_app_ASCII (a b : string) (c : ascii) :
  byteZ c < 128 -> reencode (a +:+ String c b) = reencode a +:+ String c (reencode b).
Proof.
  intros Hc. apply charsOf_inj. rewrite charsOf_append.
  change (charsOf (String c (reencode b))) with (c :: charsOf (reencode b)).
  rewrite !charsOf_reencode, charsOf_append.
  change (charsOf (String c b)) with (c :: charsOf b).
  rewrite rangeString_app by (cbn; apply RuneStart_true; now left).
  rewrite rangeString_ASCII by exact Hc.
  rewrite map_app, concat_app. cbn [map concat fst].
  now rewrite EncodeRune_ASCII by exact Hc.
Qed.

Lemma reencoded_In_ASCII (cs : list (Z * list ascii)) (c : ascii) :
  Forall Chunk cs -> byteZ c < 128 ->
  In c (concat (map (fun ch => utf8.EncodeRune (fst ch)) cs)) -> In c (joinChunks cs).
Proof.
  intros H Hc. induction H as [|ch cs Hch _ IH]; [auto|].
  cbn [map concat]. rewrite joinChunks_cons, !in_app_iff.
  intros [Hin|Hin]; [|right; auto].
  destruct (Chunk_EncodeRune ch Hch) as [_ [E|(E & _)]]; rewrite E in Hin; [now left|].
  exfalso. cbn in Hin.
  destruct Hin as [<-|[<-|[<-|[]]]]; rewrite byteZ_toByte in Hc; vm_compute in Hc;
    discriminate Hc.
Qed.

Lemma reencode_Contains (s : string) (c : ascii) :
  byteZ c < 128 -> Contains s (String c EmptyString) = false ->
  Contains (reencode s) (String c EmptyString) = false.
Proof.
  intros Hc. rewrite !Contains_char_In. intros H Hin. apply H.
  rewrite charsOf_reencode in Hin.
  apply reencoded_In_ASCII in Hin; [|apply rangeString_Chunk | exact Hc].
  now rewrite joinChunks_range in Hin.
Qed.

Lemma runes_app_ASCII (a b : string) (c : ascii) :
  byteZ c < 128 -> runes (a +:+ String c b) = runes a ++ byteZ c :: runes b.
Proof.
  intros Hc. unfold runes. rewrite charsOf_append.
  change (charsOf (String c b)) with (c :: charsOf b).
  rewrite rangeString_app by (cbn; apply RuneStart_true; now left).
  rewrite rangeString_ASCII by exact Hc. now rewrite map_app.
Qed.

(** An ASCII rune of a text is a byte of the text. *)
Lemma runes_In_ASCII (s : string) (c : ascii) :
  byteZ c < 128 -> In (byteZ c) (runes s) -> In c (charsOf s).
Proof.
  intros Hc Hin. unfold runes in Hin. apply in_map_iff in Hin as ([r e] & Hr & Hin).
  cbn [fst] in Hr. subst r.
  pose proof (rangeString_Chunk (charsOf s)) as Hall.
  rewrite List.Forall_forall in Hall. pose proof (Hall _ Hin) as Hch.
  rewrite <- (joinChunks_range (charsOf s)). unfold joinChunks.
  apply in_concat. exists e. split; [apply in_map_iff; now exists (byteZ c, e)|].
  destruct Hch as [He|(d & _ & Hr & _)]; cbn [fst snd] in *.
  - apply Encoding_ASCII in He as [(d & -> & Hd & _)|[Hge _]]; [|lia].
    apply byteZ_inj in Hd. subst d. now left.
  - unfold utf8.RuneError in Hr. lia.
Qed.

Lemma runes_not_In (s : string) (c : ascii) :
  byteZ c < 128 -> Contains s (String c EmptyString) = false -> ~ In (byteZ c) (runes s).
Proof.
  intros Hc H Hin. apply Contains_char_In in H. apply H.
  now apply runes_In_ASCII.
Qed.

Lemma dropSpaces_chars (s : string) :
  charsOf (dropSpaces s)
  = List.filter (fun c => negb (Ascii.eqb c " ")) (charsOf s).
Proof.
  induction s as [|c s IH]; [reflexivity|].
  change (charsOf (String c s)) with (c :: charsOf s).
  cbn [dropSpaces List.filter]. destruct (Ascii.eqb c " "); cbn [negb]; [exact IH|].
  change (charsOf (String c (dropSpaces s))) with (c :: charsOf (dropSpaces s)).
  now rewrite IH.
Qed.

Lemma filter_id (A : Type) (f : A -> bool) (l : list A) :
  Forall (fun x => f x = true) l -> List.filter f l = l.
Proof.
  induction 1 as [|x l Hx _ IH]; [reflexivity|]. cbn [List.filter]. now rewrite Hx, IH.
Qed.

(** Taking the spaces out of a text written out again is leaving the
    runes that are spaces out. *)
Lemma dropSpaces_reencoded (cs : list (Z * list ascii)) :
  Forall Chunk cs ->
  List.filter (fun c => negb (Ascii.eqb c " "))
    (concat (map (fun ch => utf8.EncodeRune (fst ch)) cs))
  = concat (map utf8.EncodeRune
              (List.filter (fun r => negb (r =? 32)) (map fst cs))).
Proof.
  induction 1 as [|ch cs Hch _ IH]; [reflexivity|].
  cbn [map concat List.filter]. rewrite List.filter_app, IH. clear IH.
  destruct (Chunk_EncodeRune ch Hch) as [He _].
  apply Encoding_ASCII in He as [(d & Hd & Hr & Hlt)|[Hge Hall]].
  - rewrite Hd. cbn [List.filter]. rewrite Hr.
    destruct (Ascii.eqb_spec d " ") as [->|Hne]; cbn [negb app].
    + reflexivity.
    + destruct (Z.eqb_spec (byteZ d) 32) as [E|E]; cbn [negb].
      * exfalso. apply Hne. apply byteZ_inj. exact E.
      * cbn [map concat]. rewrite <- Hr, Hd. reflexivity.
  - destruct (Z.eqb_spec (fst ch) 32) as [E|E]; [lia|]. cbn [negb map concat].
    f_equal. apply filter_id. eapply List.Forall_impl; [|exact Hall].
    intros c Hc. cbn beta in Hc. apply negb_true_iff, Ascii.eqb_neq. intros ->.
    vm_compute in Hc. now apply Hc.
Qed.

Lemma ValidString_reencode (s : string) : ValidString s = true -> reencode s = s.
Proof.
  unfold ValidString. intros H. apply charsOf_inj. rewrite charsOf_reencode.
  rewrite <- (joinChunks_range (charsOf s)) at 2.
  pose proof (rangeString_Chunk (charsOf s)) as Hc.
  induction Hc as [|ch cs Hch _ IH]; [reflexivity|].
  cbn [forallb] in H. apply andb_true_iff in H as [Hv Hrest].
  cbn [map concat]. rewrite joinChunks_cons, (IH Hrest). f_equal.
  destruct Hch as [He|(d & Hd & Hr & _)].
  - exact (EncodeRune_Encoding _ _ He).
  - rewrite Hr, Hd in Hv. discriminate Hv.
Qed.

End TextWrittenAgain.

Section PoolRanges.

Local Open Scope list_scope.

Lemma splitRangesFrom_comma (ra rb : list Z) (cur : string) :
  splitRangesFrom cur (ra ++ 44 :: rb)
  = splitRangesFrom cur ra ++ splitRangesFrom EmptyString rb.
Proof.
  revert cur. induction ra as [|c ra IH]; intros cur.
  - cbn [app splitRangesFrom]. reflexivity.
  - cbn [app splitRangesFrom].
    destruct (c =? 44); [|destruct (negb (c =? 32))]; rewrite IH;
      [now rewrite app_assoc | reflexivity | reflexivity].
Qed.

Lemma splitRangesFrom_plain (rs : list Z) (cur : string) :
  ~ In 44 rs ->
  let piece :=
    cur +:+ ofChars (concat (map utf8.EncodeRune
                               (List.filter (fun r => negb (r =? 32)) rs))) in
  splitRangesFrom cur rs = if String.eqb piece "" then [] else [piece].
Proof.
  revert cur. induction rs as [|c rs IH]; intros cur H.
  - cbn. now rewrite append_nil_r.
  - cbn [splitRangesFrom List.filter].
    destruct (Z.eqb_spec c 44) as [->|Hc]; [exfalso; apply H; now left|].
    assert (H' : ~ In 44 rs) by (intros Hin; apply H; now right).
    destruct (c =? 32); cbn [negb].
    + exact (IH cur H').
    + rewrite (IH _ H'). cbn [map concat]. unfold runeString.
      now rewrite ofChars_app, append_assoc.
Qed.

Lemma splitRanges_comma (a b : string) :
  splitRanges (a +:+ String "," b) = splitRanges a ++ splitRanges b.
Proof.
  unfold splitRanges. rewrite runes_app_ASCII by reflexivity.
  apply splitRangesFrom_comma.
Qed.

Lemma splitRanges_plain (a : string) :
  Contains a "," = false ->
  splitRanges a
  = if String.eqb (dropSpaces (reencode a)) "" then [] else [dropSpaces (reencode a)].
Proof.
  intros H. unfold splitRanges.
  rewrite splitRangesFrom_plain by (exact (runes_not_In a "," eq_refl H)).
  cbn zeta. rewrite append_nil_l.
  replace (ofChars (concat (map utf8.EncodeRune
                              (List.filter (fun r => negb (r =? 32)) (runes a)))))
    with (dropSpaces (reencode a)); [reflexivity|].
  apply charsOf_inj. rewrite dropSpaces_chars, charsOf_reencode, charsOf_ofChars.
  apply dropSpaces_reencoded. apply rangeString_Chunk.
Qed.

Lemma dropSpaces_id (s : string) : Contains s " " = false -> dropSpaces s = s.
Proof.
  induction s as [|c s IH]; intros H; [reflexivity|].
  apply Contains_char_cons in H as [Hc Hs].
  cbn [dropSpaces]. now rewrite Hc, (IH Hs).
Qed.

Lemma I64_wrap_add_l (x y : Z) : I64.wrap (I64.wrap x + y) = I64.wrap (x + y).
Proof.
  unfold I64.wrap.
  replace ((x + 2 ^ 63) mod 2 ^ 64 - 2 ^ 63 + y + 2 ^ 63)
    with ((x + 2 ^ 63) mod 2 ^ 64 + y) by lia.
  rewrite Zplus_mod_idemp_l. f_equal. f_equal. lia.
Qed.

Lemma I64_wrap_idem (x : Z) : I64.wrap (I64.wrap x) = I64.wrap x.
Proof.
  rewrite <- (Z.add_0_r (I64.wrap x)) at 1. rewrite I64_wrap_add_l. f_equal. lia.
Qed.

Lemma I64_wrap_range (x : Z) : I64.min <= I64.wrap x <= I64.max.
Proof.
  unfold I64.wrap, I64.min, I64.max.
  pose proof (Z.mod_pos_bound (x + 2 ^ 63) (2 ^ 64)). lia.
Qed.

Lemma addRange_range (total : Z) (r : string) :
  I64.min <= total <= I64.max -> I64.min <= addRange total r <= I64.max.
Proof.
  intros H. unfold addRange. destruct (parseIPRange r) as [start end_].
  destruct (start <=? end_); [apply I64_wrap_range | exact H].
Qed.

Lemma fold_addRange_range (l : list string) (total : Z) :
  I64.min <= total <= I64.max -> I64.min <= fold_left addRange l total <= I64.max.
Proof.
  revert total. induction l as [|r l IH]; intros total H; [exact H|].
  cbn [fold_left]. apply IH. now apply addRange_range.
Qed.

(** The total of a list of ranges added to what was counted before. *)
Lemma fold_addRange_from (l : list string) (total : Z) :
  I64.min <= total <= I64.max ->
  fold_left addRange l total = I64.add total (fold_left addRange l 0).
Proof.
  revert total. induction l as [|r l IH] using rev_ind; intros total H.
  - cbn [fold_left]. unfold I64.add. rewrite Z.add_0_r. now rewrite I64_wrap_small.
  - rewrite !fold_left_app. cbn [fold_left].
    rewrite (IH total H). set (F := fold_left addRange l 0). unfold addRange.
    destruct (parseIPRange r) as [start end_]. destruct (start <=? end_); [|reflexivity].
    set (W := I64.wrap (I64.wrap (end_ - start) + 1)).
    unfold I64.add. rewrite I64_wrap_add_l.
    rewrite (Z.add_comm total (I64.wrap _)), I64_wrap_add_l.
    f_equal. lia.
Qed.

Lemma countPoolAddresses_fold (ranges : string) :
  countPoolAddresses ranges = fold_left addRange (splitRanges ranges) 0.
Proof.
  unfold countPoolAddresses. destruct (String.eqb_spec ranges "") as [->|]; reflexivity.
Qed.

End PoolRanges.

(** X17: what [splitRanges] returns.  The pieces of [a,b] are the pieces
    of [a] followed by the pieces of [b]; and a text without a comma gives
    one piece, the text written out again rune by rune with its spaces
    taken out, or no piece at all when nothing is left of it.  Writing a
    text out again puts U+FFFD in the place of every byte that is part of
    no valid encoding and leaves valid UTF-8 as it is.  So the result
    lists the comma-separated parts in order, without their spaces, and
    without the empty ones. *)
Theorem X17_splitRanges_pieces (a b : string) :
  splitRanges (a +:+ "," +:+ b) = (splitRanges a ++ splitRanges b)%list /\
  (Contains a "," = false ->
   splitRanges a
   = if String.eqb (dropSpaces (reencode a)) "" then [] else [dropSpaces (reencode a)]) /\
  (ValidString a = true -> reencode a = a).
Proof.
  split; [|split].
  - apply splitRanges_comma.
  - apply splitRanges_plain.
  - apply ValidString_reencode.
Qed.

Lemma X17_splitRanges_pieces_witness :
  splitRanges ("10.0.0.10 - 10.0.0.20" +:+ "," +:+ " ,10.0.1.1-10.0.1.9")
  = (splitRanges "10.0.0.10 - 10.0.0.20" ++ splitRanges " ,10.0.1.1-10.0.1.9")%list /\
  splitRanges "10.0.0.10 - 10.0.0.20" = ["10.0.0.10-10.0.0.20"] /\
  reencode "10.0.0.10 - 10.0.0.20" = "10.0.0.10 - 10.0.0.20".
Proof.
  split; [|split].
  - apply (X17_splitRanges_pieces "10.0.0.10 - 10.0.0.20" " ,10.0.1.1-10.0.1.9").
  - apply (X17_splitRanges_pieces "10.0.0.10 - 10.0.0.20" ""). reflexivity.
  - apply (X17_splitRanges_pieces "10.0.0.10 - 10.0.0.20" ""). reflexivity.
Defined.

(** A byte that is no UTF-8 comes out of [splitRanges] as U+FFFD. *)
Example splitRanges_invalid_byte :
  splitRanges (ofChars [toByte 0xFF])
  = [ofChars [toByte 0xEF; toByte 0xBF; toByte 0xBD]].
Proof. vm_compute. reflexivity. Qed.

(** X18: [countPoolAddresses] counts by the last octets alone.  For one
    range [p.x-q.y] (no comma or space in it, no dash before the
    separating one, no dot in [x] or [y]) the count is
    [ParseInt64 y - ParseInt64 x + 1] (as an [int64]) when
    [ParseInt64 x <= ParseInt64 y] and 0 otherwise, whatever the leading
    octets [p] and [q] are: a range that runs into the next subnet is
    counted from its last octets like any other. *)
Theorem X18_countPoolAddresses_last_octets (p x q y : string) :
  let r := p +:+ "." +:+ x +:+ "-" +:+ q +:+ "." +:+ y in
  Contains r "," = false -> Contains r " " = false ->
  Contains (p +:+ "." +:+ x) "-" = false ->
  Contains x "." = false -> Contains y "." = false ->
  countPoolAddresses r
  = if ParseInt64 x <=? ParseInt64 y
    then I64.wrap (ParseInt64 y - ParseInt64 x + 1) else 0.
Proof.
  intros r Hcomma Hspace Hdash Hx Hy.
  rewrite countPoolAddresses_fold, splitRanges_plain by exact Hcomma.
  rewrite (dropSpaces_id _ (reencode_Contains r " " eq_refl Hspace)).
  pose proof (reencode_Contains _ "-" eq_refl Hdash) as Hdash'.
  assert (Hr : r = (p +:+ String "." x) +:+ String "-" (q +:+ String "." y)).
  { subst r. now rewrite !append_assoc. }
  change (p +:+ "." +:+ x) with (p +:+ String "." x) in Hdash'.
  rewrite Hr, (reencode_app_ASCII _ _ "-" eq_refl).
  rewrite !(reencode_app_ASCII _ _ "." eq_refl) in *.
  assert (Hne : String.eqb ((reencode p +:+ String "." (reencode x))
                            +:+ String "-" (reencode q +:+ String "." (reencode y))) ""
                = false).
  { apply String.eqb_neq. destruct (reencode p); discriminate. }
  rewrite Hne. cbn [fold_left]. unfold addRange, parseIPRange.
  rewrite cutFirst_pair by exact Hdash'.
  unfold parseLastOctet.
  rewrite !cutLast_pair by (apply reencode_Contains; [reflexivity | assumption]).
  rewrite !ParseInt64_reencode.
  destruct (ParseInt64 x <=? ParseInt64 y); [|reflexivity].
  unfold I64.add. rewrite Z.add_0_l, I64_wrap_idem, I64_wrap_add_l.
  reflexivity.
Qed.

Lemma X18_countPoolAddresses_last_octets_witness :
  countPoolAddresses "10.0.0.250-10.0.1.5" = 0 /\
  countPoolAddresses "192.168.1.10-192.168.1.100" = 91.
Proof.
  split.
  - apply (X18_countPoolAddresses_last_octets "10.0.0" "250" "10.0.1" "5"); reflexivity.
  - apply (X18_countPoolAddresses_last_octets "192.168.1" "10" "192.168.1" "100");
      reflexivity.
Defined.

(** X19: [countPoolAddresses] adds up over the comma-separated parts: the
    count of [a,b] is the [int64] sum of the count of [a] and the count of
    [b]. *)
Theorem X19_countPoolAddresses_additive (a b : string) :
  countPoolAddresses (a +:+ "," +:+ b)
  = I64.add (countPoolAddresses a) (countPoolAddresses b).
Proof.
  rewrite !countPoolAddresses_fold.
  change (a +:+ "," +:+ b) with (a +:+ String "," b).
  rewrite splitRanges_comma, fold_left_app.
  apply fold_addRange_from. apply fold_addRange_range.
  unfold I64.min, I64.max. lia.
Qed.

(** ** Counter deltas and the counter they come from *)

(** X20: the delta that a wraparound handler returns leads from the
    previous reading back to the current one.  For all [uint64] readings,
    [Handle64BitCounterWrap] is the subtraction modulo [2^64], with or
    without a wrap, and adding its result to the previous reading modulo
    [2^64] gives the current reading; for readings below [2^32], adding the
    result of [Handle32BitCounterWrap] to the previous reading modulo
    [2^32] gives the current reading. *)
Theorem X20_counter_delta_leads_back (current previous : Z) :
  U64.inRange current -> U64.inRange previous ->
  Handle64BitCounterWrap current previous = U64.sub current previous /\
  U64.add previous (Handle64BitCounterWrap current previous) = current /\
  (current < 2 ^ 32 -> previous < 2 ^ 32 ->
   (previous + Handle32BitCounterWrap current previous) mod 2 ^ 32 = current).
Proof.
  intros Hc Hp. destruct (Handle64_spec current previous Hc Hp) as [Hle Hlt].
  unfold U64.inRange, U64.modulus in *. unfold U64.sub, U64.add, U64.wrap, U64.modulus.
  change U64.max with (2 ^ 64 - 1) in Hlt.
  destruct (Z.le_gt_cases previous current) as [H|H].
  - rewrite (Hle H). split; [|split].
    + rewrite Z.mod_small by lia. reflexivity.
    + replace (previous + (current - previous)) with current by lia.
      apply Z.mod_small. lia.
    + intros Hc32 Hp32. rewrite Handle32_no_wrap by (unfold U64.inRange, U64.modulus; lia).
      replace (previous + (current - previous)) with current by lia.
      apply Z.mod_small. lia.
  - rewrite (Hlt ltac:(lia)). split; [|split].
    + apply Z.mod_unique with (q := -1); lia.
    + symmetry. apply Z.mod_unique with (q := 1); lia.
    + intros Hc32 Hp32.
      rewrite Handle32_wrap by (unfold U64.inRange, U64.modulus; lia).
      symmetry. apply Z.mod_unique with (q := 1); lia.
Qed.

Lemma X20_counter_delta_leads_back_witness :
  Handle64BitCounterWrap 5 (2 ^ 64 - 10) = U64.sub 5 (2 ^ 64 - 10) /\
  U64.add (2 ^ 64 - 10) (Handle64BitCounterWrap 5 (2 ^ 64 - 10)) = 5.
Proof.
  destruct (X20_counter_delta_leads_back 5 (2 ^ 64 - 10)) as (H1 & H2 & _).
  - unfold U64.inRange, U64.modulus. lia.
  - unfold U64.inRange, U64.modulus. lia.
  - split; [exact H1 | exact H2].
Defined.

(** ** Collecting the interfaces *)

Section InterfacesLoop.

Variable lowerCase : Z -> Z.
Variables include exclude : list string.
Variable clock : nat -> Time.

Lemma interfacesLoop_names (interfaces : list (gmap string string)) :
  forall (client : Client) (tracker : interfaceTracker) (tick : nat)
         (result : list InterfaceMetrics.t),
    let out := interfacesLoop lowerCase include exclude clock interfaces client tracker
                 tick result in
    map InterfaceMetrics.Name (fst (fst (fst out)))
    = (map InterfaceMetrics.Name result ++ passing include exclude interfaces)%list /\
    (forall name, MatchFilter name include exclude = false ->
                  states (snd (fst out)) !! name = states tracker !! name) /\
    snd out = (tick + List.length (passing include exclude interfaces))%nat.
Proof.
  induction interfaces as [|iface rest IH]; intros client tracker tick result.
  - cbn. rewrite app_nil_r. auto with arith.
  - cbn [interfacesLoop]. unfold passing. cbn [map List.filter].
    fold (passing include exclude rest).
    destruct (MatchFilter (index iface "name") include exclude) eqn:Ef; cbn [negb].
    + destruct (if String.eqb (index iface "type") "ether"
                then match getEthernetStats lowerCase client (index iface "name") with
                     | (Some st, None, c1) => (Some st, c1)
                     | (_, _, c1) => (None, c1)
                     end
                else (None, client)) as [ether client1].
      destruct (updateAndCalculateRates (clock tick) tracker (index iface "name")
                  (U64.wrap (ParseInt64 (index iface "rx-byte")))
                  (U64.wrap (ParseInt64 (index iface "tx-byte")))
                  (U64.wrap (ParseInt64 (index iface "rx-packet")))
                  (U64.wrap (ParseInt64 (index iface "tx-packet"))))
        as [[[[rxBps txBps] rxPps] txPps] tracker1] eqn:Eu.
      match goal with
      | |- context [interfacesLoop _ _ _ _ rest client1 tracker1 (S tick) ?res] =>
          destruct (IH client1 tracker1 (S tick) res) as (H1 & H2 & H3)
      end.
      split; [|split].
      * rewrite H1, map_app. cbn [map InterfaceMetrics.Name].
        now rewrite <- app_assoc.
      * intros name Hname. rewrite (H2 name Hname).
        replace tracker1 with (snd (updateAndCalculateRates (clock tick) tracker
                  (index iface "name")
                  (U64.wrap (ParseInt64 (index iface "rx-byte")))
                  (U64.wrap (ParseInt64 (index iface "tx-byte")))
                  (U64.wrap (ParseInt64 (index iface "rx-packet")))
                  (U64.wrap (ParseInt64 (index iface "tx-packet")))))
          by (now rewrite Eu).
        apply update_lookup_other. intros ->. congruence.
      * rewrite H3. cbn [List.length]. lia.
    + apply IH.
Qed.

End InterfacesLoop.

(** X22: [collectInterfaces] reports the interfaces that pass the filter,
    in the router's order.  When [/interface/print] fails, the error is
    returned with no metrics and the tracker is left as it was.  When it
    returns rows, the call returns no error, whatever becomes of the
    ethernet queries made on the way, and one entry for each row whose name
    [MatchFilter] accepts, in the order of the rows; it takes one clock
    reading per entry; and it does not touch the tracker's state of any
    name that the filter rejects.  This holds for every case table
    [lowerCase] that [ParseSpeed] may read the speed of a port with. *)
Theorem X22_collectInterfaces_filters (lowerCase : Z -> Z)
    (include exclude : list string) (clock : nat -> Time) (client : Client)
    (tracker : interfaceTracker) (tick : nat) :
  match Run client "/interface/print" [] with
  | (_, Some err, client1) =>
      collectInterfaces lowerCase include exclude clock client tracker tick
      = ([], Some err, client1, tracker, tick)
  | (rows, None, _) =>
      match collectInterfaces lowerCase include exclude clock client tracker tick with
      | (result, err, _, tracker1, tick1) =>
          err = None /\
          map InterfaceMetrics.Name result = passing include exclude rows /\
          tick1 = (tick + List.length result)%nat /\
          forall name, MatchFilter name include exclude = false ->
                       states tracker1 !! name = states tracker !! name
      end
  end.
Proof.
  unfold collectInterfaces.
  destruct (Run client "/interface/print" []) as [[rows [err|]] client1]; [reflexivity|].
  pose proof (interfacesLoop_names lowerCase include exclude clock rows client1 tracker
                tick []) as (H1 & H2 & H3).
  destruct (interfacesLoop lowerCase include exclude clock rows client1 tracker tick [])
    as [[[result client2] tracker1] tick1].
  cbn [fst snd map app] in *. split; [reflexivity|]. split; [exact H1|].
  split; [|exact H2].
  rewrite H3, <- H1, length_map. reflexivity.
Qed.

Lemma X22_collectInterfaces_filters_witness :
  match collectInterfaces (fun r => r) ["ether*"; "bridge"] ["ether2"]
          (fun k => 1 + Z.of_nat k)
          (connectedTo [answer [[("name", "ether2")]; [("name", "bridge")]]])
          newInterfaceTracker 0 with
  | (result, err, _, tracker1, tick1) =>
      err = None /\
      map InterfaceMetrics.Name result = ["bridge"] /\
      tick1 = (0 + List.length result)%nat /\
      forall name, MatchFilter name ["ether*"; "bridge"] ["ether2"] = false ->
                   states tracker1 !! name = states newInterfaceTracker !! name
  end.
Proof.
  exact (X22_collectInterfaces_filters (fun r => r) ["ether*"; "bridge"] ["ether2"]
           (fun k => 1 + Z.of_nat k)
           (connectedTo [answer [[("name", "ether2")]; [("name", "bridge")]]])
           newInterfaceTracker 0).
Defined.

(** ** The collector registry *)

Section RegistryFacts.

Variable Collector : Type.
Variable Type_of : Collector -> string.

(** X23: the registry keeps the first collector registered for a type.
    [Register] succeeds exactly when no collector of that type is
    registered; after a success [Get] returns the new collector for its
    type and answers for every other type as before; a refused [Register]
    leaves the registry as it was, so [Get] goes on returning the collector
    registered first.  [Has] tells whether [Get] succeeds. *)
Theorem X23_Registry_first_registration_wins (r : Registry Collector)
    (collector : Collector) (routerType : string) :
  (fst (Register Type_of r collector) = None <-> Has r (Type_of collector) = false) /\
  (Has r (Type_of collector) = false ->
   Get (snd (Register Type_of r collector)) (Type_of collector) = inl collector /\
   (routerType <> Type_of collector ->
    Get (snd (Register Type_of r collector)) routerType = Get r routerType)) /\
  (Has r (Type_of collector) = true -> snd (Register Type_of r collector) = r) /\
  (Has r routerType = true <-> exists found, Get r routerType = inl found).
Proof.
  unfold Register, Has, Get.
  split; [|split; [|split]].
  - destruct (collectors r !! Type_of collector); cbn [fst]; split; congruence.
  - destruct (collectors r !! Type_of collector) eqn:E; [discriminate|].
    intros _. cbn [snd collectors]. rewrite lookup_insert_eq. split; [reflexivity|].
    intros Hne. rewrite lookup_insert_ne by congruence. reflexivity.
  - destruct (collectors r !! Type_of collector); [reflexivity | discriminate].
  - destruct (collectors r !! routerType) as [found|]; split;
      try discriminate; eauto.
    intros [found H]. discriminate H.
Qed.

End RegistryFacts.

Lemma X23_Registry_first_registration_wins_witness :
  let r1 := snd (Register (fun c : string * nat => fst c) NewRegistry ("mikrotik", 1%nat)) in
  Get r1 "mikrotik" = inl ("mikrotik", 1%nat) /\
  snd (Register (fun c : string * nat => fst c) r1 ("mikrotik", 2%nat)) = r1.
Proof.
  intros r1. split.
  - apply (X23_Registry_first_registration_wins (string * nat) (fun c => fst c)
             NewRegistry ("mikrotik", 1%nat) "cisco"). reflexivity.
  - apply (X23_Registry_first_registration_wins (string * nat) (fun c => fst c)
             r1 ("mikrotik", 2%nat) "cisco"). reflexivity.
Defined.

(** ** The offline grace period *)

(** X24: when the agent may run offline.  A new manager may not.  After a
    validation recorded at the reading [t] (the clock never reads the zero
    time), [CanOperate] holds at [now] exactly when that validation
    succeeded and [now] is no later than [t] plus the grace period: a failed
    validation refuses operation at once, whatever was recorded before it.
    [GetGraceRemaining] is never negative and does not look at the outcome
    of the validation: it is the time left until [t] plus the grace period
    (held to the range of a [Duration]), or zero after that. *)
Theorem X24_offline_grace (o : OfflineManager) (t now : Time) (success : bool) :
  t <> 0 ->
  let o' := RecordValidation t o success in
  CanOperate now (NewOfflineManager (graceHours o)) = (false, Some NoPreviousValidation) /\
  (fst (CanOperate now o') = true <-> success = true /\ now <= t + gracePeriod o) /\
  0 <= GetGraceRemaining now o' /\
  GetGraceRemaining now o' = GetGraceRemaining now (RecordValidation t o (negb success)) /\
  (0 <= t + gracePeriod o - now <= I64.max ->
   GetGraceRemaining now o' = t + gracePeriod o - now) /\
  (t + gracePeriod o < now -> GetGraceRemaining now o' = 0).
Proof.
  intros Ht o'. subst o'.
  assert (Hz : IsZero t = false) by (unfold IsZero; now apply Z.eqb_neq).
  unfold CanOperate, GetGraceRemaining, RecordValidation, gracePeriod, Until.
  cbn [lastValidation lastValidationOK graceHours NewOfflineManager].
  rewrite Hz. change (IsZero 0) with true. cbv iota.
  set (g := I64.mul (graceHours o) 3600000000000).
  split; [reflexivity|]. split; [|split; [|split; [reflexivity|split]]].
  - destruct success; cbn [negb fst].
    + destruct (Z.ltb_spec (t + g) now); cbn [fst];
        intuition (discriminate || lia || auto).
    + intuition discriminate.
  - unfold I64.min, I64.max.
    repeat match goal with
           | |- context [?a <? ?b] => destruct (Z.ltb_spec a b)
           | H : context [?a <? ?b] |- _ => destruct (Z.ltb_spec a b)
           end; lia.
  - unfold I64.min, I64.max. intros H.
    repeat match goal with
           | |- context [?a <? ?b] => destruct (Z.ltb_spec a b)
           | H : context [?a <? ?b] |- _ => destruct (Z.ltb_spec a b)
           end; lia.
  - unfold I64.min, I64.max. intros H.
    repeat match goal with
           | |- context [?a <? ?b] => destruct (Z.ltb_spec a b)
           | H : context [?a <? ?b] |- _ => destruct (Z.ltb_spec a b)
           end; lia.
Qed.

Lemma X24_offline_grace_witness :
  let o := RecordValidation 1000 (RecordValidation 500 (NewOfflineManager 72) true) false in
  fst (CanOperate 1001 o) = true <-> false = true /\ 1001 <= 1000 + 259200000000000.
Proof.
  intros o.
  apply (X24_offline_grace (RecordValidation 500 (NewOfflineManager 72) true)
           1000 1001 false).
  discriminate.
Defined.

(** ** Redacting a MAC address *)

Section SplitMAC.

Lemma splitMAC_plain (s cur : string) :
  noSeparator s = true -> splitMAC cur s = [cur +:+ s].
Proof.
  revert cur. induction s as [|c s IH]; intros cur H.
  - cbn [splitMAC]. now rewrite append_nil_r.
  - cbn [noSeparator] in H. apply andb_true_iff in H as [Hc Hs].
    cbn [splitMAC]. apply negb_true_iff in Hc. rewrite Hc, (IH _ Hs), append_assoc.
    reflexivity.
Qed.

Lemma splitMAC_part (a rest cur : string) (sep : ascii) :
  noSeparator a = true -> isMACSeparator sep = true ->
  splitMAC cur (a +:+ String sep rest) = (cur +:+ a) :: splitMAC EmptyString rest.
Proof.
  revert cur. induction a as [|c a IH]; intros cur Ha Hsep.
  - rewrite append_nil_l, append_nil_r. cbn [splitMAC]. now rewrite Hsep.
  - cbn [noSeparator] in Ha. apply andb_true_iff in Ha as [Hc Ha].
    rewrite append_cons. cbn [splitMAC]. apply negb_true_iff in Hc.
    rewrite Hc, (IH _ Ha Hsep), append_assoc. reflexivity.
Qed.

Lemma splitMAC_length (s cur : string) :
  List.length (splitMAC cur s) = S (separators s).
Proof.
  revert cur. induction s as [|c s IH]; intros cur; [reflexivity|].
  cbn [splitMAC separators]. destruct (isMACSeparator c); cbn [List.length];
    now rewrite IH.
Qed.

End SplitMAC.

(** X25: what [RedactMACAddress] keeps and what it hides.  A text with
    fewer than two separators ([:] or [-]) is returned as it is: an address
    written without separators, or with dots, is not redacted.  A text with
    at least three parts [a], [b], [c] is replaced by [a:b:c:xx:xx:xx]
    whatever follows the third part: nothing of the rest of the address
    reaches the result. *)
Theorem X25_RedactMACAddress_keeps_three_parts (mac a b c rest : string)
    (sep1 sep2 : ascii) :
  ((separators mac < 2)%nat -> RedactMACAddress mac = mac) /\
  (noSeparator a = true -> noSeparator b = true -> noSeparator c = true ->
   isMACSeparator sep1 = true -> isMACSeparator sep2 = true ->
   atSeparator rest = true ->
   RedactMACAddress (a +:+ String sep1 (b +:+ String sep2 (c +:+ rest)))
   = a +:+ ":" +:+ b +:+ ":" +:+ c +:+ ":xx:xx:xx").
Proof.
  split.
  - intros H. unfold RedactMACAddress. destruct (String.eqb mac ""); [reflexivity|].
    rewrite splitMAC_length.
    replace (S (separators mac) <? 3)%nat with true
      by (symmetry; apply Nat.ltb_lt; lia).
    reflexivity.
  - intros Ha Hb Hc H1 H2 Hrest. unfold RedactMACAddress.
    replace (String.eqb (a +:+ String sep1 (b +:+ String sep2 (c +:+ rest))) "")
      with false by (now destruct a).
    rewrite (splitMAC_part a _ "" sep1 Ha H1), (splitMAC_part b _ "" sep2 Hb H2).
    rewrite !append_nil_l.
    assert (Hparts : exists more, splitMAC "" (c +:+ rest) = c :: more).
    { destruct rest as [|sep3 tail].
      - rewrite append_nil_r, (splitMAC_plain c "" Hc). now exists [].
      - cbn [atSeparator] in Hrest.
        rewrite (splitMAC_part c tail "" sep3 Hc Hrest). now eexists. }
    destruct Hparts as [more ->]. cbn [List.length Nat.ltb Nat.leb firstn Join].
    now rewrite !append_assoc.
Qed.

Lemma X25_RedactMACAddress_keeps_three_parts_witness :
  RedactMACAddress "0011.2233.4455" = "0011.2233.4455" /\
  RedactMACAddress ("00" +:+ String ":" ("1A" +:+ String ":" ("2B" +:+ ":3C:4D:5E")))
  = "00" +:+ ":" +:+ "1A" +:+ ":" +:+ "2B" +:+ ":xx:xx:xx".
Proof.
  split.
  - apply (X25_RedactMACAddress_keeps_three_parts "0011.2233.4455" "" "" "" "" ":" ":").
    cbn. lia.
  - apply (X25_RedactMACAddress_keeps_three_parts "" "00" "1A" "2B" ":3C:4D:5E" ":" ":");
      reflexivity.
Defined.

(** ** Validating the configuration *)

Section ValidateRouters.

Lemma validateRouters_complete (routers : list RouterConfig.t) (i : nat) :
  validateRouters i routers = None <-> forallb routerComplete routers = true.
Proof.
  revert i. induction routers as [|router rest IH]; intros i; [easy|].
  cbn [validateRouters forallb]. unfold routerComplete at 1.
  destruct (String.eqb (RouterConfig.ID router) ""); [easy|].
  destruct (String.eqb (RouterConfig.Type_ router) ""); [easy|].
  destruct (String.eqb (RouterConfig.Address router) ""); [easy|].
  cbn [negb andb]. apply IH.
Qed.

Lemma validateRouters_first (good rest : list RouterConfig.t) (bad : RouterConfig.t)
    (i : nat) :
  forallb routerComplete good = true -> routerComplete bad = false ->
  validateRouters i (good ++ bad :: rest) = Some (firstMissing (i + List.length good) bad).
Proof.
  revert i. induction good as [|router good IH]; intros i Hgood Hbad.
  - cbn [app validateRouters List.length]. rewrite Nat.add_0_r.
    unfold firstMissing. unfold routerComplete in Hbad.
    destruct (String.eqb (RouterConfig.ID bad) ""); [reflexivity|].
    destruct (String.eqb (RouterConfig.Type_ bad) ""); [reflexivity|].
    destruct (String.eqb (RouterConfig.Address bad) ""); [reflexivity|discriminate].
  - cbn [forallb] in Hgood. apply andb_true_iff in Hgood as [Hr Hgood].
    cbn [app validateRouters List.length]. unfold routerComplete in Hr.
    destruct (String.eqb (RouterConfig.ID router) ""); [discriminate|].
    destruct (String.eqb (RouterConfig.Type_ router) ""); [discriminate|].
    destruct (String.eqb (RouterConfig.Address router) ""); [discriminate|].
    rewrite (IH (S i) Hgood Hbad). f_equal. f_equal. lia.
Qed.

End ValidateRouters.

(** X26: what [Validate] accepts.  It returns no error exactly when the
    server address and the license key are not empty, at least one router is
    configured, and every router has an id, a type and an address.  With the
    first two in place, the error for an incomplete router names the first
    such router in the list, by its index, and the first field it lacks in
    the order id, type, address. *)
Theorem X26_Validate_accepts (c : AgentConfig) (good rest : list RouterConfig.t)
    (bad : RouterConfig.t) :
  (Validate c = None <->
   ServerAddress c <> EmptyString /\ LicenseKey c <> EmptyString /\
   Routers c <> [] /\ forallb routerComplete (Routers c) = true) /\
  (ServerAddress c <> EmptyString -> LicenseKey c <> EmptyString ->
   Routers c = (good ++ bad :: rest)%list ->
   forallb routerComplete good = true -> routerComplete bad = false ->
   Validate c = Some (firstMissing (List.length good) bad)).
Proof.
  unfold Validate. split.
  - destruct (String.eqb_spec (ServerAddress c) "") as [Hs|Hs];
      [split; [discriminate | tauto]|].
    destruct (String.eqb_spec (LicenseKey c) "") as [Hl|Hl];
      [split; [discriminate | tauto]|].
    destruct (Routers c) as [|router routers] eqn:Er.
    + cbn. split; [discriminate | tauto].
    + cbn [List.length Nat.eqb]. rewrite validateRouters_complete.
      split; [intros H; repeat split; auto; discriminate | tauto].
  - intros Hs Hl Hr Hgood Hbad.
    destruct (String.eqb_spec (ServerAddress c) ""); [contradiction|].
    destruct (String.eqb_spec (LicenseKey c) ""); [contradiction|].
    rewrite Hr. replace (Nat.eqb (List.length (good ++ bad :: rest)) 0) with false
      by (rewrite length_app; cbn [List.length]; symmetry; apply Nat.eqb_neq; lia).
    now rewrite validateRouters_first.
Qed.

Lemma X26_Validate_accepts_witness :
  let ok := RouterConfig.mk "r1" "core" "mikrotik" "10.0.0.1" "admin" "secret" in
  let bad := RouterConfig.mk "r2" "edge" "" "" "admin" "secret" in
  Validate {| ServerAddress := "server:443"; LicenseKey := "key";
              Routers := [ok; bad; ok] |}
  = Some (RouterTypeRequired 1).
Proof.
  intros ok bad.
  apply (X26_Validate_accepts
           {| ServerAddress := "server:443"; LicenseKey := "key";
              Routers := [ok; bad; ok] |} [ok] [ok] bad);
    try discriminate; reflexivity.
Defined.

(** ** Collecting the DHCP leases *)

Section LeaseCounts.

Lemma countOf_increment (m : gmap string Z) (key name : string) :
  countOf (increment m key) name
  = if String.eqb name key then I64.add (countOf m key) 1 else countOf m name.
Proof.
  unfold countOf, increment. destruct (String.eqb_spec name key) as [->|Hne].
  - now rewrite lookup_insert_eq.
  - rewrite lookup_insert_ne by congruence. reflexivity.
Qed.

Lemma leasesOf_app (name : string) (leases : list DHCPLease.t) (lease : DHCPLease.t) :
  leasesOf name (leases ++ [lease])
  = leasesOf name leases
    + (if negb (String.eqb name "") && String.eqb (DHCPLease.ServerName lease) name
       then 1 else 0).
Proof.
  unfold leasesOf. destruct (String.eqb name ""); cbn [negb andb]; [lia|].
  rewrite List.filter_app, length_app. cbn [List.filter].
  destruct (String.eqb (DHCPLease.ServerName lease) name); cbn [List.length]; lia.
Qed.

Lemma boundLeasesOf_app (name : string) (leases : list DHCPLease.t)
    (lease : DHCPLease.t) :
  boundLeasesOf name (leases ++ [lease])
  = boundLeasesOf name leases
    + (if negb (String.eqb name "") && String.eqb (DHCPLease.ServerName lease) name
          && String.eqb (DHCPLease.Status lease) "bound"
       then 1 else 0).
Proof.
  unfold boundLeasesOf. destruct (String.eqb name ""); cbn [negb andb]; [lia|].
  rewrite List.filter_app, length_app. cbn [List.filter].
  destruct (String.eqb (DHCPLease.ServerName lease) name
            && String.eqb (DHCPLease.Status lease) "bound"); cbn [List.length]; lia.
Qed.

Lemma leasesOf_bounds (name : string) (leases : list DHCPLease.t) :
  0 <= boundLeasesOf name leases <= leasesOf name leases /\
  leasesOf name leases <= Z.of_nat (List.length leases).
Proof.
  unfold boundLeasesOf, leasesOf. destruct (String.eqb name ""); [lia|].
  induction leases as [|l leases IH]; [cbn; lia|].
  cbn [List.filter List.length].
  destruct (String.eqb (DHCPLease.ServerName l) name); cbn [andb];
    [destruct (String.eqb (DHCPLease.Status l) "bound")|]; cbn [List.length]; lia.
Qed.

Variable ParseTimestamp : string -> Time.
Variable now : Time.

Lemma leaseLoop_counts (rows : list (gmap string string)) :
  forall (leaseList : list DHCPLease.t) (counts active : gmap string Z),
    (forall name, countOf counts name = leasesOf name leaseList) ->
    (forall name, countOf active name = boundLeasesOf name leaseList) ->
    Z.of_nat (List.length leaseList + List.length rows) <= I64.max ->
    let out := leaseLoop ParseTimestamp now rows leaseList counts active in
    (forall name, countOf (snd (fst out)) name = leasesOf name (fst (fst out))) /\
    (forall name, countOf (snd out) name = boundLeasesOf name (fst (fst out))).
Proof.
  induction rows as [|l rows IH]; intros leaseList counts active Hc Ha Hlen.
  - cbn. auto.
  - cbn [leaseLoop]. set (lease := parseLease ParseTimestamp now l).
    cbn [List.length] in Hlen.
    apply IH; [| |rewrite length_app; cbn [List.length]; lia].
    + intros name. rewrite leasesOf_app.
      pose proof (leasesOf_bounds (DHCPLease.ServerName lease) leaseList) as Hb.
      destruct (String.eqb_spec (DHCPLease.ServerName lease) "") as [Hs|Hs]; cbn [negb].
      * rewrite Hc, Hs. destruct (String.eqb_spec name "") as [->|Hn]; cbn [negb andb];
          [lia|]. destruct (String.eqb_spec "" name); [congruence | lia].
      * rewrite countOf_increment, Hc.
        destruct (String.eqb_spec name (DHCPLease.ServerName lease)) as [->|Hn].
        -- rewrite String.eqb_refl.
           replace (String.eqb (DHCPLease.ServerName lease) "") with false
             by (symmetry; now apply String.eqb_neq).
           cbn [negb andb]. unfold I64.add. rewrite I64_wrap_small; [lia|].
           unfold I64.min, I64.max in *. lia.
        -- destruct (String.eqb_spec (DHCPLease.ServerName lease) name);
             [congruence|]. rewrite andb_false_r, ?Hc. cbv iota. lia.
    + intros name. rewrite boundLeasesOf_app.
      pose proof (leasesOf_bounds (DHCPLease.ServerName lease) leaseList) as Hb.
      destruct (String.eqb_spec (DHCPLease.ServerName lease) "") as [Hs|Hs]; cbn [negb andb].
      * rewrite Ha, Hs. destruct (String.eqb_spec name "") as [->|Hn]; cbn [negb andb];
          [lia|]. destruct (String.eqb_spec "" name); [congruence | cbn [andb]; lia].
      * destruct (String.eqb (DHCPLease.Status lease) "bound") eqn:Eb.
        -- rewrite countOf_increment, Ha.
           destruct (String.eqb_spec name (DHCPLease.ServerName lease)) as [->|Hn].
           ++ rewrite String.eqb_refl.
              replace (String.eqb (DHCPLease.ServerName lease) "") with false
                by (symmetry; now apply String.eqb_neq).
              cbn [negb andb]. unfold I64.add. rewrite I64_wrap_small; [lia|].
              unfold I64.min, I64.max in *. lia.
           ++ destruct (String.eqb_spec (DHCPLease.ServerName lease) name);
                [congruence|]. rewrite andb_false_r, ?Ha. cbn [andb]. cbv iota. lia.
        -- rewrite Ha, andb_false_r. cbv iota. lia.
Qed.

Lemma leaseLoop_length (rows : list (gmap string string)) :
  forall (leaseList : list DHCPLease.t) (counts active : gmap string Z),
    List.length (fst (fst (leaseLoop ParseTimestamp now rows leaseList counts active)))
    = (List.length leaseList + List.length rows)%nat.
Proof.
  induction rows as [|l rows IH]; intros leaseList counts active; cbn [leaseLoop].
  - cbn. lia.
  - rewrite IH, length_app. cbn [List.length]. lia.
Qed.

(** X28: the lease counts of [collectDHCP].  When the lease query fails,
    its error is returned with nothing else.  When it returns rows, the call
    returns no error, whatever becomes of the three later queries, and one
    lease per row; and (the number of leases being an [int]) for every
    server reported, [TotalLeases] is the number of returned leases that
    name this server, [ActiveLeases] the number of those whose status is
    [bound], so that [0 <= ActiveLeases <= TotalLeases]; leases without a
    server name are counted for no server. *)
Theorem X28_collectDHCP_lease_counts (client : Client) :
  match Run client "/ip/dhcp-server/lease/print" [] with
  | (_, Some err, client1) =>
      collectDHCP ParseTimestamp now client = ([], [], [], Some err, client1)
  | (rows, None, _) =>
      match collectDHCP ParseTimestamp now client with
      | (leases, _, servers, err, _) =>
          err = None /\ List.length leases = List.length rows /\
          (Z.of_nat (List.length leases) <= I64.max ->
           Forall (fun s =>
                     DHCPServerStats.TotalLeases s
                     = leasesOf (DHCPServerStats.Name s) leases /\
                     DHCPServerStats.ActiveLeases s
                     = boundLeasesOf (DHCPServerStats.Name s) leases /\
                     0 <= DHCPServerStats.ActiveLeases s
                       <= DHCPServerStats.TotalLeases s) servers)
      end
  end.
Proof.
  unfold collectDHCP.
  destruct (Run client "/ip/dhcp-server/lease/print" []) as [[rows [err|]] client1];
    [reflexivity|].
  pose proof (leaseLoop_counts rows [] ∅ ∅) as Hcounts.
  pose proof (leaseLoop_length rows [] ∅ ∅) as Hlen.
  destruct (leaseLoop ParseTimestamp now rows [] ∅ ∅) as [[leases counts] active].
  cbn [fst snd List.length] in *.
  destruct (rowsOrNone (Run client1 "/ip/pool/print" [])) as [pools client2].
  destruct (rowsOrNone (Run client2 "/ip/pool/used/print" [])) as [used client3].
  destruct (rowsOrNone (Run client3 "/ip/dhcp-server/print" [])) as [servers client4].
  split; [reflexivity|]. split; [exact Hlen|]. intros Hmax.
  destruct Hcounts as [Hc Ha].
  - intros name. unfold countOf, leasesOf. rewrite lookup_empty.
    now destruct (String.eqb name "").
  - intros name. unfold countOf, boundLeasesOf. rewrite lookup_empty.
    now destruct (String.eqb name "").
  - rewrite <- Hlen. exact Hmax.
  - apply Forall_map. apply Forall_forall. intros s _.
    cbn [DHCPServerStats.TotalLeases DHCPServerStats.ActiveLeases DHCPServerStats.Name
         serverStatsOf].
    rewrite Hc, Ha. split; [reflexivity|]. split; [reflexivity|].
    apply leasesOf_bounds.
Qed.

End LeaseCounts.

Lemma X28_collectDHCP_lease_counts_witness :
  match collectDHCP (fun _ => 0) 1000
          (connectedTo
             [answer [[("server", "lan"); ("status", "bound")];
                      [("server", "lan"); ("status", "waiting")];
                      [("status", "bound")]];
              answer []; answer [];
              answer [[("name", "lan")]; [("name", "guest")]]]) with
  | (leases, _, servers, err, _) =>
      err = None /\ List.length leases = 3%nat /\
      (Z.of_nat (List.length leases) <= I64.max ->
       Forall (fun s =>
                 DHCPServerStats.TotalLeases s
                 = leasesOf (DHCPServerStats.Name s) leases /\
                 DHCPServerStats.ActiveLeases s
                 = boundLeasesOf (DHCPServerStats.Name s) leases /\
                 0 <= DHCPServerStats.ActiveLeases s
                   <= DHCPServerStats.TotalLeases s) servers)
  end.
Proof.
  exact (X28_collectDHCP_lease_counts (fun _ => 0) 1000
           (connectedTo
              [answer [[("server", "lan"); ("status", "bound")];
                       [("server", "lan"); ("status", "waiting")];
                       [("status", "bound")]];
               answer []; answer [];
               answer [[("name", "lan")]; [("name", "guest")]]])).
Defined.

(** ** Collecting the PPPoE sessions *)

Section PPPoECounts.

Lemma countActive_from (serverName : string) (l : list PPPoESession.t) (n : Z) :
  0 <= n -> n + Z.of_nat (List.length l) <= I64.max ->
  fold_left (fun n s => if String.eqb (PPPoESession.Service s) serverName
                        then I64.add n 1 else n) l n
  = n + sessionsOf serverName l.
Proof.
  unfold sessionsOf. revert n. induction l as [|s l IH]; intros n Hn Hmax.
  - cbn. lia.
  - cbn [fold_left List.filter List.length] in *.
    destruct (String.eqb (PPPoESession.Service s) serverName).
    + unfold I64.add. rewrite I64_wrap_small by (unfold I64.min, I64.max in *; lia).
      rewrite IH by lia. cbn [List.length]. lia.
    + rewrite IH by lia. lia.
Qed.

Lemma sessionsOf_le (serverName : string) (l : list PPPoESession.t) :
  0 <= sessionsOf serverName l <= Z.of_nat (List.length l).
Proof.
  unfold sessionsOf.
  pose proof (List.filter_length_le
                (fun s => String.eqb (PPPoESession.Service s) serverName) l). lia.
Qed.

End PPPoECounts.

(** X29: what [collectPPPoE] reports.  When the session query fails, its
    error is returned with nothing else.  When it returns rows, the call
    returns no error, also when the server query fails (then with no server
    statistics), and one session per row, in order, each with the counters
    of its [bytes] attribute: both zero for an empty text, split at the
    first comma otherwise.  For every server reported (the number of
    sessions being an [int]), [ActiveSessions] is the number of returned
    sessions whose service is the server's name, and [TotalSessions] is
    left at zero. *)
Theorem X29_collectPPPoE_sessions (client : Client) :
  match Run client "/ppp/active/print" [] with
  | (_, Some err, client1) => collectPPPoE client = ([], [], Some err, client1)
  | (rows, None, _) =>
      match collectPPPoE client with
      | (sessions, servers, err, _) =>
          err = None /\
          Forall2 (fun row s =>
                     (PPPoESession.RxBytes s, PPPoESession.TxBytes s)
                     = if String.eqb (index row "bytes") "" then (0, 0)
                       else parseBytePair (index row "bytes")) rows sessions /\
          (Z.of_nat (List.length sessions) <= I64.max ->
           Forall (fun st =>
                     PPPoEServerStats.ActiveSessions st
                     = sessionsOf (PPPoEServerStats.ServerName st) sessions /\
                     PPPoEServerStats.TotalSessions st = 0) servers)
      end
  end.
Proof.
  unfold collectPPPoE.
  destruct (Run client "/ppp/active/print" []) as [[rows [err|]] client1];
    [reflexivity|].
  assert (Hpairs : Forall2 (fun row s =>
                     (PPPoESession.RxBytes s, PPPoESession.TxBytes s)
                     = if String.eqb (index row "bytes") "" then (0, 0)
                       else parseBytePair (index row "bytes"))
                     rows (map parseSession rows)).
  { induction rows as [|row rows IH]; cbn [map]; constructor; [|exact IH].
    cbn [PPPoESession.RxBytes PPPoESession.TxBytes parseSession]. unfold pairOf.
    destruct (String.eqb_spec (index row "bytes") "") as [->|_]; [reflexivity|].
    now destruct (parseBytePair (index row "bytes")). }
  destruct (Run client1 "/interface/pppoe-server/server/print" [])
    as [[servers [err|]] client2].
  - split; [reflexivity|]. split; [exact Hpairs|]. intros _. constructor.
  - split; [reflexivity|]. split; [exact Hpairs|]. intros Hmax.
    apply Forall_map. apply Forall_forall. intros srv _.
    cbn [PPPoEServerStats.ActiveSessions PPPoEServerStats.ServerName
         PPPoEServerStats.TotalSessions pppoeServerOf].
    split; [|reflexivity]. unfold countActive.
    rewrite countActive_from; lia.
Qed.

(** Three sessions of two services, and one server. *)
Example collectPPPoE_small :
  match collectPPPoE
          (connectedTo
             [answer [[("name", "alice"); ("service", "pppoe-in"); ("bytes", "100,200")];
                      [("name", "bob"); ("service", "pppoe-in"); ("bytes", "")];
                      [("name", "carol"); ("service", "other"); ("bytes", "7")]];
              answer [[("service-name", "pppoe-in"); ("interface", "ether2")]]]) with
  | (sessions, servers, err, _) =>
      err = None /\
      map (fun s => (PPPoESession.RxBytes s, PPPoESession.TxBytes s)) sessions
      = [(100, 200); (0, 0); (7, 7)] /\
      map PPPoEServerStats.ActiveSessions servers = [2]
  end.
Proof. vm_compute. repeat split. Qed.
